(** * CellClash server: the per-room tick simulation of [src/server.js]

    A shallow embedding of the second (current) server of [src/server.js]
    (lines 567-1031): the seeded generator, the entity model, growth, the
    tick phases, the voluntary split of [/input] and the [/join] handler.

    Numbers.  A JavaScript number is an IEEE-754 double.  Here every
    quantity of the simulation (coordinates, radii, masses, timers) is a
    real number of [R]: arithmetic is exact, so a statement of the form
    "equal within floating-point tolerance" reads as an equality.  The
    values that a client chooses (the aim of [/input], the bounds of
    [/create], the input vector of the earlier servers) need not be finite
    numbers: they are values of [num], which has the infinities and [NaN],
    and the code they reach (the movement step, the split, [makeRoom], the
    [/join] test) is embedded on [num] as well, in [Js], [makeRoom] and
    [LegacyJs].  The
    32-bit integer work of [hashSeed] and [mulberry32] is done on [Z], with
    the wrap-around of [ToInt32]/[ToUint32] and the rounding of an integer
    that no longer fits 53 bits written out.

    Effects.  [room.rng] is a closure over a mutable seed, [Math.random] is
    the global generator and [Date.now] the wall clock.  The seed is state;
    the two others are oracles (the n-th draw, the n-th reading) read
    through a counter, all three threaded by the monad [M]. *)

From Stdlib Require Import Reals Lra Lia ZArith List String Ascii Bool.
From Stdlib Require Import Zfloor DecimalString.
From Stdlib Require DecimalPos DecimalZ.
From Stdlib Require Import Permutation Sorted.
Import ListNotations.

Open Scope R_scope.

(* ------------------------------------------------------------------ *)
(** ** Numbers *)

Definition Rltb (a b : R) : bool := if Rlt_dec a b then true else false.
Definition Rleb (a b : R) : bool := if Rle_dec a b then true else false.
Definition Rgtb (a b : R) : bool := Rltb b a.
Definition Rgeb (a b : R) : bool := Rleb b a.
Definition Reqb (a b : R) : bool := if Req_dec_T a b then true else false.

(** [Math.hypot(x, y)] *)
Definition hypot (x y : R) : R := sqrt (x * x + y * y).

(** [function clamp(v, lo, hi) { return Math.max(lo, Math.min(hi, v)); }] *)
Definition clamp (v lo hi : R) : R := Rmax lo (Rmin hi v).

(** [function normalize(x, y)] (line 617) *)
Definition normalize (x y : R) : R * R :=
  let L := hypot x y in
  if Rltb L (1 / 1000000) then (0, 0) else (x / L, y / L).

(** *** Every value of a number

    A value that comes with a request can be any double: a finite number,
    [Infinity] or [-Infinity] (JSON has no such literal, but [1e999] is
    parsed to [Infinity]), or [NaN] (what [Number] and [Math.min] make of
    a value that is not numeric).  [num] carries these values through the
    operations that the code applies to them.  A finite result is the
    exact real, as everywhere in this file; the operations applied to a
    value a client sends that can leave the finite range ([Math.hypot],
    and the squares [v.x * v.x] and their sum in the earlier servers)
    overflow to [Infinity] above the largest double.  The two zeros are
    not told apart. *)
Inductive num : Type := Fin (r : R) | PInf | NInf | NaN.

Module Num.

(** [Number.MAX_VALUE] *)
Definition MAX_VALUE : R := (2 - / 2 ^ 52) * 2 ^ 1023.

Definition neg (a : num) : num :=
  match a with
  | Fin x => Fin (- x)
  | PInf => NInf
  | NInf => PInf
  | NaN => NaN
  end.

(** [a + b] and [a - b] *)
Definition add (a b : num) : num :=
  match a, b with
  | NaN, _ | _, NaN => NaN
  | Fin x, Fin y => Fin (x + y)
  | PInf, NInf | NInf, PInf => NaN
  | PInf, _ | _, PInf => PInf
  | NInf, _ | _, NInf => NInf
  end.

Definition sub (a b : num) : num := add a (neg b).

(** An infinity times or divided by a finite value. *)
Definition scaled (inf : num) (x : R) : num :=
  if Rltb 0 x then inf else if Rltb x 0 then neg inf else NaN.

(** [a * b] *)
Definition mul (a b : num) : num :=
  match a, b with
  | NaN, _ | _, NaN => NaN
  | Fin x, Fin y => Fin (x * y)
  | Fin x, inf => scaled inf x
  | inf, Fin y => scaled inf y
  | PInf, PInf | NInf, NInf => PInf
  | PInf, NInf | NInf, PInf => NInf
  end.

(** [a / b] *)
Definition div (a b : num) : num :=
  match a, b with
  | NaN, _ | _, NaN => NaN
  | Fin x, Fin y =>
      if Reqb y 0 then scaled PInf x else Fin (x / y)
  | Fin _, _ => Fin 0
  | inf, Fin y => if Rltb y 0 then neg inf else inf
  | _, _ => NaN
  end.

(** [a < b]; [a > b] is [ltb b a], [a >= b] is [leb b a]. *)
Definition ltb (a b : num) : bool :=
  match a, b with
  | NaN, _ | _, NaN => false
  | Fin x, Fin y => Rltb x y
  | _, NInf | PInf, _ => false
  | NInf, _ | _, PInf => true
  end.

Definition leb (a b : num) : bool :=
  match a, b with
  | NaN, _ | _, NaN => false
  | Fin x, Fin y => Rleb x y
  | NInf, _ | _, PInf => true
  | _, NInf | PInf, _ => false
  end.

(** [Math.max(a, b)] and [Math.min(a, b)] *)
Definition max (a b : num) : num :=
  match a, b with
  | NaN, _ | _, NaN => NaN
  | Fin x, Fin y => Fin (Rmax x y)
  | PInf, _ | _, PInf => PInf
  | NInf, c | c, NInf => c
  end.

Definition min (a b : num) : num :=
  match a, b with
  | NaN, _ | _, NaN => NaN
  | Fin x, Fin y => Fin (Rmin x y)
  | NInf, _ | _, NInf => NInf
  | PInf, c | c, PInf => c
  end.

(** [Math.hypot(a, b)]: [Infinity] when an argument is infinite, even
    beside a [NaN]; otherwise [NaN] when one is [NaN]. *)
Definition hypot (a b : num) : num :=
  match a, b with
  | PInf, _ | NInf, _ | _, PInf | _, NInf => PInf
  | NaN, _ | _, NaN => NaN
  | Fin x, Fin y =>
      if Rltb MAX_VALUE (hypot x y) then PInf
      else Fin (hypot x y)
  end.

(** A real result as a double: an infinity beyond the largest double. *)
Definition over (r : R) : num :=
  if Rltb MAX_VALUE r then PInf
  else if Rltb r (- MAX_VALUE) then NInf
  else Fin r.

(** [a * b] and [a + b] where the result can overflow. *)
Definition mulO (a b : num) : num :=
  match mul a b with Fin r => over r | v => v end.

Definition addO (a b : num) : num :=
  match add a b with Fin r => over r | v => v end.

(** [Math.sqrt(a)] *)
Definition sqrt (a : num) : num :=
  match a with
  | Fin r => if Rltb r 0 then NaN else Fin (sqrt r)
  | PInf => PInf
  | NInf | NaN => NaN
  end.

(** [v || 0] for a number: [NaN] and [0] give [0]. *)
Definition orZero (v : num) : num :=
  match v with NaN => Fin 0 | _ => v end.

(** [function clamp(v, lo, hi) { return Math.max(lo, Math.min(hi, v)); }] *)
Definition clamp (v lo hi : num) : num := max lo (min hi v).

(** [function normalize(x, y)] (line 617) *)
Definition normalize (x y : num) : num * num :=
  let L := hypot x y in
  if ltb L (Fin (1 / 1000000)) then (Fin 0, Fin 0) else (div x L, div y L).

Definition finite (a : num) : Prop := exists x, a = Fin x.

End Num.

(** *** 32-bit integers, as JavaScript's bit operators see a number *)

Definition two32 : Z := 4294967296.

Definition toUint32 (z : Z) : Z := (z mod two32)%Z.

Definition toInt32 (z : Z) : Z :=
  let u := toUint32 z in
  if (2147483648 <=? u)%Z then (u - two32)%Z else u.

(** [a ^ b], [a | b], [a >>> n], [Math.imul(a, b)] *)
Definition xor32 (a b : Z) : Z := Z.lxor (toInt32 a) (toInt32 b).
Definition or32 (a b : Z) : Z := Z.lor (toInt32 a) (toInt32 b).
Definition ushr32 (a n : Z) : Z := Z.shiftr (toUint32 a) n.
Definition imul (a b : Z) : Z := toInt32 (toInt32 a * toInt32 b).

(** The double nearest to an integer (ties to even): the value a sum or a
    product of integer-valued doubles takes once it passes 2^53. *)
Definition roundDouble (n : Z) : Z :=
  let m := Z.abs n in
  if (m <? 2 ^ 53)%Z then n
  else
    let e := (Z.log2 m - 52)%Z in
    let q := Z.shiftr m e in
    let rest := (m mod 2 ^ e)%Z in
    let half := (2 ^ (e - 1))%Z in
    let q' := if (half <? rest)%Z || ((rest =? half)%Z && Z.odd q)
              then (q + 1)%Z else q in
    (Z.sgn n * (q' * 2 ^ e))%Z.

(** [function hashSeed(code)] (line 599): FNV-1a with a double product. *)
Definition hashStep (h : Z) (c : ascii) : Z :=
  let h1 := xor32 h (Z.of_nat (nat_of_ascii c)) in
  ushr32 (roundDouble (h1 * 16777619)) 0.

Definition hashSeed (code : string) : Z :=
  let h := fold_left hashStep (list_ascii_of_string code) 2166136261%Z in
  if (h =? 0)%Z then 1%Z else h.

(** [function mulberry32(seed)] (line 608): one call of the returned
    closure, from the captured seed to the drawn value and the new seed. *)
Definition mulberry32 (seed : Z) : R * Z :=
  let seed' := roundDouble (seed + 1831565813) in
  let t := seed' in
  let t := imul (xor32 t (ushr32 t 15)) (or32 t 1) in
  let t := xor32 t (t + imul (xor32 t (ushr32 t 7)) (or32 t 61)) in
  (IZR (ushr32 (xor32 t (ushr32 t 14)) 0) / 4294967296, seed').

(* ------------------------------------------------------------------ *)
(** ** Generator state and oracles *)

(** What the process offers besides the room's own generator: the n-th
    draw of [Math.random()] and the n-th reading of [Date.now()] (in
    milliseconds), with the number of draws and readings made so far. *)
Record Env := mkEnv {
  mathRandomAt : nat -> R; mrIdx : nat;
  dateNowAt : nat -> R; clkIdx : nat
}.

Record Src := mkSrc {
  rngSeed : Z;      (* the seed captured by [room.rng] *)
  s_env : Env
}.

Definition M (A : Type) : Type := Src -> A * Src.

Definition ret {A} (a : A) : M A := fun s => (a, s).
Definition bind {A B} (m : M A) (k : A -> M B) : M B :=
  fun s => let (a, s') := m s in k a s'.

Notation "x <- m ;; k" := (bind m (fun x => k))
  (at level 61, m at next level, right associativity).

(** A loop whose body reads and writes the loop state [S]. *)
Fixpoint foldM {A S} (f : S -> A -> M S) (l : list A) (s : S) : M S :=
  match l with
  | [] => ret s
  | a :: l' => s' <- f s a ;; foldM f l' s'
  end.

(** [rng()] for the room's generator *)
Definition rng : M R :=
  fun s => let (v, seed') := mulberry32 (rngSeed s) in
           (v, mkSrc seed' (s_env s)).

(** [Math.random()] *)
Definition mathRandom : M R :=
  fun s => let e := s_env s in
           (mathRandomAt e (mrIdx e),
            mkSrc (rngSeed s)
                  (mkEnv (mathRandomAt e) (S (mrIdx e)) (dateNowAt e) (clkIdx e))).

(** [Date.now()] *)
Definition dateNow : M R :=
  fun s => let e := s_env s in
           (dateNowAt e (clkIdx e),
            mkSrc (rngSeed s)
                  (mkEnv (mathRandomAt e) (mrIdx e) (dateNowAt e) (S (clkIdx e)))).

(* ------------------------------------------------------------------ *)
(** ** Entities *)

Record Blob := mkBlob {
  b_x : R; b_y : R; b_vx : R; b_vy : R;
  b_mass : R; b_r : R; b_splitTimer : R
}.

Record Color := mkColor { c_r : Z; c_g : Z; c_b : Z }.

Record Agent := mkAgent {
  a_id : string; a_name : string; a_isBot : bool;
  a_col : Color;
  a_dead : bool;
  a_aimX : R; a_aimY : R;
  a_boost : bool;
  a_lastSeen : R;
  a_blobs : list Blob
}.

Record Pellet := mkPellet { p_x : R; p_y : R; p_r : R; p_v : Z }.

Record Virus := mkVirus { v_x : R; v_y : R; v_r : R }.

(** [room.agents] is a [Map]: insertion-ordered, keyed by identity. *)
Definition AgentMap := list (string * Agent).

Record Room := mkRoom {
  r_code : string; r_seed : Z;
  r_rng : Z;                    (* the seed captured by [room.rng] *)
  r_maxPlayers : num; r_bots : num;
  r_t : R;
  r_agents : AgentMap;
  r_pellets : list Pellet;
  r_viruses : list Virus
}.

(** *** Settings (lines 575-583) *)
Definition TICK_RATE : R := 20.
Definition DT : R := 1 / TICK_RATE.
Definition WORLD : R := 5200.
Definition PELLET_TARGET : nat := 700.
Definition VIRUS_COUNT : nat := 32.
Definition BOT_DEFAULT : R := 45.
Definition PLAYER_TTL : R := 12.

(** *** [Map] and array operations *)

Fixpoint mapGet {V} (id : string) (m : list (string * V)) : option V :=
  match m with
  | [] => None
  | (k, a) :: m' => if String.eqb k id then Some a else mapGet id m'
  end.

(** [m.set(id, a)]: an existing key keeps its place, a new one goes last. *)
Fixpoint mapSet {V} (id : string) (a : V) (m : list (string * V))
  : list (string * V) :=
  match m with
  | [] => [(id, a)]
  | (k, a0) :: m' =>
      if String.eqb k id then (k, a) :: m' else (k, a0) :: mapSet id a m'
  end.

(** [arr.splice(i, 1)] *)
Fixpoint removeAt {A} (i : nat) (l : list A) : list A :=
  match l, i with
  | [], _ => []
  | _ :: l', O => l'
  | a :: l', S i' => a :: removeAt i' l'
  end.

(** [arr[i] = v] for an index in range (the mutation of the object there) *)
Fixpoint setAt {A} (i : nat) (v : A) (l : list A) : list A :=
  match l, i with
  | [], _ => []
  | _ :: l', O => v :: l'
  | a :: l', S i' => a :: setAt i' v l'
  end.

(* ------------------------------------------------------------------ *)
(** ** Game core *)

(** [function agentMass(a)] *)
Definition agentMass (a : Agent) : R :=
  fold_left (fun s b => s + b_mass b) (a_blobs a) 0.

(** [function canEat(er, pr)] and [function canEngulf(...)] (lines 665-669) *)
Definition canEat (er pr : R) : bool := Rgtb er (pr * (112 / 100)).

Definition canEngulf (ex ey er px py pr : R) : bool :=
  let d := hypot (ex - px) (ey - py) in
  Rltb d (er - pr * (65 / 100)).

(** [function baseSpeed(r, totalMass, boosting)] (line 671) *)
Definition baseSpeed (r totalMass : R) (boosting : bool) : R :=
  let sizePenalty := Rmax (26 / 100) (1 - r / 215) in
  let softCap := 1400 in
  let capPenalty :=
    if Rgtb totalMass softCap
    then clamp (1 - ((totalMass - softCap) / softCap) * (55 / 100)) (55 / 100) 1
    else 1 in
  let v := 260 * sizePenalty * capPenalty in
  if boosting then v * (155 / 100) else v.

(** [function grow(b, amount)] (line 684) *)
Definition growPenalty (mass : R) : R :=
  if Rgtb mass 1400 then clamp (1400 / mass) (25 / 100) 1 else 1.

Definition grow (b : Blob) (amount : R) : Blob :=
  let gain := amount * growPenalty (b_mass b) in
  mkBlob (b_x b) (b_y b) (b_vx b) (b_vy b)
         (b_mass b + gain) (b_r b + gain * (22 / 100)) (b_splitTimer b).

(** [BOT_NAMES] (line 623) *)
Definition BOT_NAMES : list string :=
  ["Nova";"Jax";"Raven";"Milo";"Sable";"Kairo";"Vex";"Lyra";"Nico";"Aria";"Blitz";"Echo";
   "Zane";"Iris";"Orion";"Skye";"Rune";"Onyx";"Atlas";"Luna";"Koda";"Seraph";"Quinn";"Nyx";
   "Axel";"Rowan";"Dante";"Freya";"Kai";"Mako";"Haze";"Drift";"Hex";"Titan";"Ghost";"Feral";
   "Sol";"Astra";"Rook";"Saffron";"Vanta";"Mira";"Piper";"Juno";"Vale";"Cove";"Wren";"Indi"]%string.

(** [function spawnAgent(id, name, isBot, rng)] (line 631).  The draws are
    made in the order the initialisers are evaluated. *)
Definition spawnAgent (id name : string) (isBot : bool) : M Agent :=
  startMass <- (if isBot then (v <- rng ;; ret (32 + v * 70)) else ret 55) ;;
  startR <- (if isBot then (v <- rng ;; ret (22 + v * 20)) else ret 36) ;;
  cr <- rng ;;
  cg <- rng ;;
  cb <- rng ;;
  now <- dateNow ;;
  bx <- rng ;;
  by_ <- rng ;;
  ret (mkAgent id name isBot
         (mkColor (Zfloor (70 + cr * 185)) (Zfloor (70 + cg * 185))
                  (Zfloor (70 + cb * 185)))
         false 0 0 false (now / 1000)
         [mkBlob (280 + bx * (WORLD - 560)) (280 + by_ * (WORLD - 560))
                 0 0 startMass startR 999]).

(** The object pushed by the two pellet loops (lines 711 and 837). *)
Definition newPellet : M Pellet :=
  px <- rng ;;
  py <- rng ;;
  pr <- rng ;;
  pv <- rng ;;
  ret (mkPellet (px * WORLD) (py * WORLD) (4 + pr * 5) (1 + Zfloor (pv * 2))).

Fixpoint pushPellets (n : nat) (pellets : list Pellet) : M (list Pellet) :=
  match n with
  | O => ret pellets
  | S n' => p <- newPellet ;; pushPellets n' (pellets ++ [p])
  end.

Definition newVirus : M Virus :=
  vx <- rng ;;
  vy <- rng ;;
  ret (mkVirus (240 + vx * (WORLD - 480)) (240 + vy * (WORLD - 480)) 36).

Fixpoint pushViruses (n : nat) (viruses : list Virus) : M (list Virus) :=
  match n with
  | O => ret viruses
  | S n' => v <- newVirus ;; pushViruses n' (viruses ++ [v])
  end.

(** A non-negative integer in decimal, as string concatenation prints it. *)
Definition decimal (z : Z) : string := NilZero.string_of_int (Z.to_int z).

(** The [tries] loop of [makeRoom] (line 730): the first drawn name not in
    [used], or [nm] after 200 draws. *)
Fixpoint pickName (tries : nat) (used : list string) (nm : string)
  : M (string * list string) :=
  match tries with
  | O => ret (nm, used)
  | S tries' =>
      v <- rng ;;
      let candidate :=
        nth (Z.to_nat (Zfloor (v * INR (List.length BOT_NAMES)))) BOT_NAMES ""%string in
      if existsb (String.eqb candidate) used
      then pickName tries' used nm
      else ret (candidate, candidate :: used)
  end.

(** The bot loop of [makeRoom] (line 728), from bot number [i], [n] bots to go. *)
Fixpoint spawnBots (n : nat) (i : Z) (code : string) (used : list string)
  (agents : AgentMap) : M AgentMap :=
  match n with
  | O => ret agents
  | S n' =>
      v <- rng ;;
      let nm0 := ("Bot" ++ decimal (Zfloor (v * 900 + 100)))%string in
      picked <- pickName 200 used nm0 ;;
      let id := ("bot_" ++ decimal i ++ "_" ++ code)%string in
      a <- spawnAgent id (fst picked) true ;;
      spawnBots n' (i + 1)%Z code (snd picked) (mapSet id a agents)
  end.

(** [for (let i = 0; i < room.bots; i++)] (line 728): the passes the loop
    makes from [i] on, [fuel] being the passes allowed.  [room.bots] is the
    result of a clamp to [0, 120], at most 120 or [NaN], so that 121
    allowed passes are never used up. *)
Fixpoint botPasses (fuel i : nat) (bots : num) : nat :=
  match fuel with
  | O => O
  | S fuel' =>
      if Num.ltb (Fin (INR i)) bots then S (botPasses fuel' (S i) bots) else O
  end.

(** [function makeRoom(code, maxPlayers = 60, bots = BOT_DEFAULT)] (line
    696).  [/create] passes on the two fields of the request as they are,
    and [clamp] hands them to [Math.min]: [maxPlayers] and [bots] are the
    numbers [Math.min] makes of the two arguments, [NaN] for a value that is
    not numeric. *)
Definition makeRoom (code : string) (maxPlayers bots : num) (e : Env) : Room * Env :=
  let seed := hashSeed code in
  let maxP := Num.clamp maxPlayers (Fin 8) (Fin 80) in
  let nbots := Num.clamp bots (Fin 0) (Fin 120) in
  let build : M (list Pellet * list Virus * AgentMap) :=
    pellets <- pushPellets PELLET_TARGET [] ;;
    viruses <- pushViruses VIRUS_COUNT [] ;;
    agents <- spawnBots (botPasses 121 0 nbots) 0%Z code [] [] ;;
    ret (pellets, viruses, agents) in
  let '((pellets, viruses, agents), s) := build (mkSrc seed e) in
  (mkRoom code seed (rngSeed s) maxP nbots 0 agents pellets viruses, s_env s).

(* ------------------------------------------------------------------ *)
(** ** [function tickRoom(room)] (line 741) *)

(** *** Inactive humans (lines 745-750) *)

Definition inactive (now : R) (a : Agent) : bool :=
  negb (a_isBot a) &&
  Rgtb (now - (if Reqb (a_lastSeen a) 0 then now else a_lastSeen a)) PLAYER_TTL.

Definition removeInactive (now : R) (agents : AgentMap) : AgentMap :=
  filter (fun ka => negb (inactive now (snd ka))) agents.

(** *** Bot AI (lines 752-787) *)

Record Scan := mkScan {
  bestThreat : option Blob; bestThreatD : R;
  bestPrey : option Blob; bestPreyD : R
}.

Definition scanInit : Scan := mkScan None 1000000000 None 1000000000.

(** The body of [for (const ob of o.blobs)] for the bot's blob [b]. *)
Definition scanBlob (b : Blob) (sc : Scan) (ob : Blob) : Scan :=
  let d := hypot (b_x b - b_x ob) (b_y b - b_y ob) in
  if Rltb d 900 then
    let sc1 :=
      if Rgtb (b_r ob) (b_r b * (110 / 100)) && Rltb d (bestThreatD sc)
      then mkScan (Some ob) d (bestPrey sc) (bestPreyD sc) else sc in
    if Rgtb (b_r b) (b_r ob * (120 / 100)) && Rltb d (bestPreyD sc1)
    then mkScan (bestThreat sc1) (bestThreatD sc1) (Some ob) d else sc1
  else sc.

Definition scanAgent (a : Agent) (b : Blob) (sc : Scan) (ko : string * Agent)
  : Scan :=
  let o := snd ko in
  if String.eqb (a_id o) (a_id a) || a_dead o then sc
  else fold_left (scanBlob b) (a_blobs o) sc.

Definition scanAgents (a : Agent) (b : Blob) (agents : AgentMap) : Scan :=
  fold_left (scanAgent a b) agents scanInit.

Definition setIntent (a : Agent) (aim : R * R) (boost : bool) : Agent :=
  mkAgent (a_id a) (a_name a) (a_isBot a) (a_col a) (a_dead a)
          (fst aim) (snd aim) boost (a_lastSeen a) (a_blobs a).

(** The decision of lines 773-786 for the bot [a] with first blob [b]. *)
Definition botDecide (pellets : list Pellet) (a : Agent) (b : Blob) (sc : Scan)
  : M Agent :=
  match bestThreat sc with
  | Some th =>
      ret (setIntent a (normalize (b_x b - b_x th) (b_y b - b_y th)) false)
  | None =>
      match bestPrey sc with
      | Some pr =>
          u <- mathRandom ;;
          ret (setIntent a (normalize (b_x pr - b_x b) (b_y pr - b_y b))
                         (Rltb u (20 / 100)))
      | None =>
          v <- rng ;;
          match nth_error pellets
                  (Z.to_nat (Zfloor (v * INR (List.length pellets)))) with
          | Some p =>
              ret (setIntent a (normalize (p_x p - b_x b) (p_y p - b_y b)) false)
          | None => ret (setIntent a (normalize 0 0) false)
          end
      end
  end.

(** One iteration of [for (const a of room.agents.values())], on the entry
    at position [i]. *)
Definition botStep (pellets : list Pellet) (agents : AgentMap) (i : nat)
  : M AgentMap :=
  match nth_error agents i with
  | None => ret agents
  | Some (k, a) =>
      if a_dead a || negb (a_isBot a) then ret agents
      else match a_blobs a with
           | [] => ret agents
           | b :: _ =>
               a' <- botDecide pellets a b (scanAgents a b agents) ;;
               ret (setAt i (k, a') agents)
           end
  end.

Definition botPhase (pellets : list Pellet) (agents : AgentMap) : M AgentMap :=
  foldM (botStep pellets) (seq 0 (List.length agents)) agents.

(** *** Movement and decay (lines 789-817) *)

(** Lines 795-800: displacement along the aim, then the boundary clamp. *)
Definition aimBlob (a : Agent) (total : R) (b : Blob) : Blob :=
  let v := baseSpeed (b_r b) total (a_boost a) in
  let x1 := b_x b + a_aimX a * v * DT in
  let y1 := b_y b + a_aimY a * v * DT in
  mkBlob (clamp x1 (b_r b) (WORLD - b_r b)) (clamp y1 (b_r b) (WORLD - b_r b))
         (b_vx b) (b_vy b) (b_mass b) (b_r b) (b_splitTimer b).

(** Lines 802-805: residual velocity and the split timer. *)
Definition knockBlob (b : Blob) : Blob :=
  mkBlob (b_x b + b_vx b * DT) (b_y b + b_vy b * DT)
         (b_vx b * (1 - clamp (DT * (38 / 10)) 0 1))
         (b_vy b * (1 - clamp (DT * (38 / 10)) 0 1))
         (b_mass b) (b_r b) (b_splitTimer b + DT).

(** Lines 807-815: passive decay, then the boost cost of a human. *)
Definition decayBlob (a : Agent) (total : R) (b : Blob) : Blob :=
  let decay := (if a_isBot a then 16 / 100 else 22 / 100) * DT in
  let mass1 := Rmax 10 (b_mass b - decay) in
  let r1 := Rmax 14 (b_r b - decay * (8 / 100)) in
  if negb (a_isBot a) && a_boost a then
    let d := (175 / 100) * DT * (mass1 / Rmax 1 total) in
    mkBlob (b_x b) (b_y b) (b_vx b) (b_vy b)
           (Rmax 10 (mass1 - d)) (Rmax 14 (r1 - d * (12 / 100))) (b_splitTimer b)
  else
    mkBlob (b_x b) (b_y b) (b_vx b) (b_vy b) mass1 r1 (b_splitTimer b).

Definition moveBlob (a : Agent) (total : R) (b : Blob) : Blob :=
  decayBlob a total (knockBlob (aimBlob a total b)).

Definition setBlobs (a : Agent) (blobs : list Blob) : Agent :=
  mkAgent (a_id a) (a_name a) (a_isBot a) (a_col a) (a_dead a)
          (a_aimX a) (a_aimY a) (a_boost a) (a_lastSeen a) blobs.

Definition moveAgent (a : Agent) : Agent :=
  if a_dead a then a
  else setBlobs a (map (moveBlob a (agentMass a)) (a_blobs a)).

Definition movePhase (agents : AgentMap) : AgentMap :=
  map (fun ka => (fst ka, moveAgent (snd ka))) agents.

(** *** Pellets (lines 819-843) *)

(** [for (let i = room.pellets.length - 1; i >= 0; i--)] for one blob: the
    pellets are visited from the last to the first. *)
Fixpoint eatPellets (b : Blob) (pellets : list Pellet) : Blob * list Pellet :=
  match pellets with
  | [] => (b, [])
  | p :: rest =>
      let (b1, rest') := eatPellets b rest in
      if Rltb (hypot (b_x b1 - p_x p) (b_y b1 - p_y p)) (b_r b1 + p_r p)
      then (grow b1 (IZR (p_v p)), rest')
      else (b1, p :: rest')
  end.

Fixpoint eatBlobs (blobs : list Blob) (pellets : list Pellet)
  : list Blob * list Pellet :=
  match blobs with
  | [] => ([], pellets)
  | b :: bs =>
      let (b', ps1) := eatPellets b pellets in
      let (bs', ps2) := eatBlobs bs ps1 in
      (b' :: bs', ps2)
  end.

Fixpoint eatPhase (agents : AgentMap) (pellets : list Pellet)
  : AgentMap * list Pellet :=
  match agents with
  | [] => ([], pellets)
  | (k, a) :: rest =>
      if a_dead a then
        let (rest', ps) := eatPhase rest pellets in ((k, a) :: rest', ps)
      else
        let (blobs', ps1) := eatBlobs (a_blobs a) pellets in
        let (rest', ps2) := eatPhase rest ps1 in
        ((k, setBlobs a blobs') :: rest', ps2)
  end.

Definition refill (pellets : list Pellet) : M (list Pellet) :=
  pushPellets (PELLET_TARGET - List.length pellets) pellets.

(** *** Viruses (lines 845-880) *)

Definition fragment (b : Blob) (pieceMass pieceR : R) : M Blob :=
  u <- mathRandom ;;
  let ang := u * PI * 2 in
  let dx := cos ang in
  let dy := sin ang in
  s1 <- mathRandom ;;
  s2 <- mathRandom ;;
  ret (mkBlob (b_x b + dx * (b_r b + 10)) (b_y b + dy * (b_r b + 10))
              (dx * (270 + s1 * 220)) (dy * (270 + s2 * 220))
              pieceMass pieceR 0).

Fixpoint pushFragments (k : nat) (b : Blob) (pieceMass pieceR : R)
  (blobs : list Blob) : M (list Blob) :=
  match k with
  | O => ret blobs
  | S k' =>
      f <- fragment b pieceMass pieceR ;;
      pushFragments k' b pieceMass pieceR (blobs ++ [f])
  end.

Definition pieces : nat := 8.

Definition bounce (b : Blob) (v : Virus) : Blob :=
  let n := normalize (b_x b - v_x v) (b_y b - v_y v) in
  mkBlob (b_x b) (b_y b) (b_vx b + fst n * 220) (b_vy b + snd n * 220)
         (b_mass b) (b_r b) (b_splitTimer b).

(** The body of [for (const v of room.viruses)] (lines 851-877).  [b] is the
    object read from [a.blobs[bi]] before the loop: the pop branch splices
    position [bi] of the array as it is now and keeps reading [b]; the
    bounce branch mutates [b], which is then still the element at [bi]. *)
Definition virusHit (bi : nat) (st : Blob * list Blob) (v : Virus)
  : M (Blob * list Blob) :=
  let (b, blobs) := st in
  let d := hypot (b_x b - v_x v) (b_y b - v_y v) in
  if Rltb d (b_r b + v_r v) then
    if Rgeb (b_r b) 62 then
      let totalMass := b_mass b in
      let pieceMass := totalMass / INR pieces in
      let pieceR := Rmax 14 (b_r b / sqrt (INR pieces)) in
      blobs' <- pushFragments pieces b pieceMass pieceR (removeAt bi blobs) ;;
      ret (b, blobs')
    else
      let b' := bounce b v in
      ret (b', setAt bi b' blobs)
  else ret st.

Definition virusBlob (viruses : list Virus) (blobs : list Blob) (bi : nat)
  : M (list Blob) :=
  match nth_error blobs bi with
  | None => ret blobs
  | Some b => st <- foldM (virusHit bi) viruses (b, blobs) ;; ret (snd st)
  end.

(** [for (let bi = a.blobs.length - 1; bi >= 0; bi--)], [n] indices to go. *)
Fixpoint virusBlobs (viruses : list Virus) (n : nat) (blobs : list Blob)
  : M (list Blob) :=
  match n with
  | O => ret blobs
  | S bi =>
      blobs' <- virusBlob viruses blobs bi ;;
      virusBlobs viruses bi blobs'
  end.

Definition virusAgent (viruses : list Virus) (ka : string * Agent)
  : M (string * Agent) :=
  let a := snd ka in
  if a_dead a then ret ka
  else
    blobs' <- virusBlobs viruses (List.length (a_blobs a)) (a_blobs a) ;;
    ret (fst ka, setBlobs a blobs').

Fixpoint virusPhase (viruses : list Virus) (agents : AgentMap) : M AgentMap :=
  match agents with
  | [] => ret []
  | ka :: rest =>
      ka' <- virusAgent viruses ka ;;
      rest' <- virusPhase viruses rest ;;
      ret (ka' :: rest')
  end.

(** *** Players eating players (lines 882-910) *)

Inductive Bite := AEatsB | BEatsA | NoBite.

(** The test of lines 894 and 898 on one blob of [A] and one blob of [B]. *)
Definition bite (ab bb : Blob) : Bite :=
  if canEat (b_r ab) (b_r bb) &&
     canEngulf (b_x ab) (b_y ab) (b_r ab) (b_x bb) (b_y bb) (b_r bb)
  then AEatsB
  else if canEat (b_r bb) (b_r ab) &&
          canEngulf (b_x bb) (b_y bb) (b_r bb) (b_x ab) (b_y ab) (b_r ab)
  then BEatsA
  else NoBite.

(** Lines 895-896 and 899-900: what the eater becomes. *)
Definition eat (eater eaten : Blob) : Blob :=
  let ratio := clamp (b_mass eaten / Rmax 1 (b_mass eater)) (12 / 100) (50 / 100) in
  grow eater (b_mass eaten * ratio).

(** [for (let bi = B.blobs.length - 1; bi >= 0; bi--)] for the blob [ab] of
    [A], [n] indices to go: [None] when [ab] was eaten (the [break]). *)
Fixpoint innerLoop (n : nat) (ab : Blob) (bbs : list Blob)
  : option Blob * list Blob :=
  match n with
  | O => (Some ab, bbs)
  | S bi =>
      match nth_error bbs bi with
      | None => innerLoop bi ab bbs
      | Some bb =>
          match bite ab bb with
          | AEatsB => innerLoop bi (eat ab bb) (removeAt bi bbs)
          | BEatsA => (None, setAt bi (eat bb ab) bbs)
          | NoBite => innerLoop bi ab bbs
          end
      end
  end.

(** [for (let ai = A.blobs.length - 1; ai >= 0; ai--)], [n] indices to go. *)
Fixpoint outerLoop (n : nat) (abs bbs : list Blob) : list Blob * list Blob :=
  match n with
  | O => (abs, bbs)
  | S ai =>
      match nth_error abs ai with
      | None => outerLoop ai abs bbs
      | Some ab =>
          match innerLoop (List.length bbs) ab bbs with
          | (Some ab', bbs') => outerLoop ai (setAt ai ab' abs) bbs'
          | (None, bbs') => outerLoop ai (removeAt ai abs) bbs'
          end
      end
  end.

Definition isEmpty {A} (l : list A) : bool :=
  match l with [] => true | _ => false end.

(** Lines 907-908: [if (X.blobs.length === 0) X.dead = true]. *)
Definition settle (a : Agent) (blobs : list Blob) : Agent :=
  mkAgent (a_id a) (a_name a) (a_isBot a) (a_col a)
          (if isEmpty blobs then true else a_dead a)
          (a_aimX a) (a_aimY a) (a_boost a) (a_lastSeen a) blobs.

(** The body of the [j] loop for a living [B] (lines 889-908). *)
Definition engulfPair (A B : Agent) : Agent * Agent :=
  let (abs, bbs) :=
    outerLoop (List.length (a_blobs A)) (a_blobs A) (a_blobs B) in
  (settle A abs, settle B bbs).

Definition pairStep (i : nat) (arr : list Agent) (j : nat) : list Agent :=
  match nth_error arr i, nth_error arr j with
  | Some A, Some B =>
      if a_dead B then arr
      else let (A', B') := engulfPair A B in setAt j B' (setAt i A' arr)
  | _, _ => arr
  end.

Definition rowStep (arr : list Agent) (i : nat) : list Agent :=
  match nth_error arr i with
  | Some A =>
      if a_dead A then arr
      else fold_left (pairStep i)
                     (seq (S i) (List.length arr - S i)) arr
  | None => arr
  end.

(** [arr] holds the agent objects themselves, so what the loops do to
    [arr[i]] is done to the entry of the map at the same position. *)
Definition engulfPhase (agents : AgentMap) : AgentMap :=
  let arr := map snd agents in
  let arr' := fold_left rowStep (seq 0 (List.length arr)) arr in
  combine (map fst agents) arr'.

(** *** Bot respawn (lines 912-917) *)

Definition respawnStep (agents : AgentMap) (i : nat) : M AgentMap :=
  match nth_error agents i with
  | None => ret agents
  | Some (_, a) =>
      if a_dead a && a_isBot a then
        a' <- spawnAgent (a_id a) (a_name a) true ;;
        ret (mapSet (a_id a) a' agents)
      else ret agents
  end.

Definition respawnPhase (agents : AgentMap) : M AgentMap :=
  foldM respawnStep (seq 0 (List.length agents)) agents.

(** *** The tick *)

(** Lines 742-880: everything before the players eat each other. *)
Definition beforeEngulf (room : Room) : M (AgentMap * list Pellet) :=
  nowMs <- dateNow ;;
  let now := nowMs / 1000 in
  let agents0 := removeInactive now (r_agents room) in
  agents1 <- botPhase (r_pellets room) agents0 ;;
  let agents2 := movePhase agents1 in
  let (agents3, pellets3) := eatPhase agents2 (r_pellets room) in
  pellets4 <- refill pellets3 ;;
  agents5 <- virusPhase (r_viruses room) agents3 ;;
  ret (agents5, pellets4).

Definition tickBody (room : Room) : M Room :=
  st <- beforeEngulf room ;;
  let agents6 := engulfPhase (fst st) in
  agents7 <- respawnPhase agents6 ;;
  ret (mkRoom (r_code room) (r_seed room) (r_rng room)
              (r_maxPlayers room) (r_bots room) (r_t room + DT)
              agents7 (snd st) (r_viruses room)).

(** Runs a computation that draws from the generator of [room] and stores
    the seed it leaves back into the room. *)
Definition setRng (seed : Z) (room : Room) : Room :=
  mkRoom (r_code room) (r_seed room) seed (r_maxPlayers room) (r_bots room)
         (r_t room) (r_agents room) (r_pellets room) (r_viruses room).

Definition tickRoom (room : Room) (e : Env) : Room * Env :=
  let (room', s) := tickBody room (mkSrc (r_rng room) e) in
  (setRng (rngSeed s) room', s_env s).

(* ------------------------------------------------------------------ *)
(** ** The API (lines 920-993) *)

Definition Rooms := list (string * Room).

(** [s.toUpperCase()] on the letters a-z *)
Definition upperChar (c : ascii) : ascii :=
  let n := nat_of_ascii c in
  if (97 <=? n)%nat && (n <=? 122)%nat then ascii_of_nat (n - 32) else c.

Fixpoint toUpperCase (s : string) : string :=
  match s with
  | EmptyString => EmptyString
  | String c s' => String (upperChar c) (toUpperCase s')
  end.

(** [v || d] for a string field of the request body: an absent field and
    the empty string both give [d]. *)
Definition orElse (v d : string) : string :=
  match v with EmptyString => d | _ => v end.

(** *** [app.post("/join")] (line 935) *)

Record JoinReq := mkJoinReq { jq_code : string; jq_name : string; jq_id : string }.

Inductive JoinRes :=
| JoinOk (id code : string) (world : R)
| JoinError (error : string).

Definition humans (agents : AgentMap) : nat :=
  List.length (filter (fun ka => negb (a_isBot (snd ka))) agents).

Definition setAgents (room : Room) (agents : AgentMap) : Room :=
  mkRoom (r_code room) (r_seed room) (r_rng room) (r_maxPlayers room)
         (r_bots room) (r_t room) agents (r_pellets room) (r_viruses room).

(** [spawnAgent(id, name, isBot, room.rng)] outside [makeRoom]. *)
Definition spawnIn (room : Room) (id name : string) (isBot : bool) (e : Env)
  : (Agent * Room) * Env :=
  let (a, s) := spawnAgent id name isBot (mkSrc (r_rng room) e) in
  ((a, setRng (rngSeed s) room), s_env s).

(** [base36 u] stands for [u.toString(36).slice(2)], the digits of a draw
    of [Math.random()] used for an identity the request does not give. *)
Definition postJoin (base36 : R -> string) (rooms : Rooms) (req : JoinReq)
  (e : Env) : (JoinRes * Rooms) * Env :=
  let code := toUpperCase (orElse (jq_code req) "") in
  let name := substring 0 14 (orElse (jq_name req) "Player") in
  let (id, e1) :=
    match jq_id req with
    | EmptyString =>
        (("p_" ++ base36 (mathRandomAt e (mrIdx e)))%string,
         mkEnv (mathRandomAt e) (S (mrIdx e)) (dateNowAt e) (clkIdx e))
    | _ => (jq_id req, e)
    end in
  match mapGet code rooms with
  | None => ((JoinError "Room not found", rooms), e1)
  | Some room =>
      if Num.leb (r_maxPlayers room) (Fin (INR (humans (r_agents room))))
      then ((JoinError "Room full", rooms), e1)
      else
        let '((a, room1), e2) := spawnIn room id name false e1 in
        let room2 := setAgents room1 (mapSet id a (r_agents room1)) in
        ((JoinOk id code WORLD, mapSet code room2 rooms), e2)
  end.

(** *** [app.post("/input")] (line 952) *)

(** Lines 971-972: the index of the first blob of largest radius. *)
Definition bestStep (blobs : list Blob) (best i : nat) : nat :=
  match nth_error blobs i, nth_error blobs best with
  | Some bi, Some bb => if Rgtb (b_r bi) (b_r bb) then i else best
  | _, _ => best
  end.

Definition bestIndex (blobs : list Blob) : nat :=
  fold_left (bestStep blobs) (seq 1 (List.length blobs - 1)) 0%nat.

(** Lines 975-978 and 988: what the split blob becomes. *)
Definition splitKeep (b : Blob) : Blob :=
  mkBlob (b_x b) (b_y b) (b_vx b) (b_vy b)
         (b_mass b * (5 / 10)) (Rmax 14 (b_r b * (72 / 100))) 0.

(** Lines 979-987: the sibling pushed, [b'] being the blob already shrunk. *)
Definition splitSibling (dir : R * R) (newMass : R) (b' : Blob) : Blob :=
  mkBlob (b_x b' + fst dir * (b_r b' + 8)) (b_y b' + snd dir * (b_r b' + 8))
         (fst dir * 580) (snd dir * 580)
         newMass (Rmax 14 (b_r b')) 0.

(** The split branch (lines 970-990). *)
Definition split (a : Agent) : Agent :=
  let best := bestIndex (a_blobs a) in
  match nth_error (a_blobs a) best with
  | Some b =>
      if Rgeb (b_r b) (14 * (22 / 10)) then
        let dir := normalize (a_aimX a) (a_aimY a) in
        let newMass := b_mass b * (5 / 10) in
        let b' := splitKeep b in
        setBlobs a (setAt best b' (a_blobs a) ++ [splitSibling dir newMass b'])
      else a
  | None => a
  end.

(** The body of [/input] for the room model: an aim of two finite numbers
    ([Number(...) || 0] already taken) whose length [Math.hypot] does not
    overflow.  [Js.InputReq] below has every value a client can send; on
    the requests of this record the two handlers agree
    ([Js_inputAgent_of]). *)
Record InputReq := mkInputReq {
  iq_code : string; iq_id : string;
  iq_aimX : R; iq_aimY : R;
  iq_boost : bool; iq_split : bool      (* [!!boost], [split === true] *)
}.

Definition touch (a : Agent) (now : R) (aim : R * R) (boost : bool) : Agent :=
  mkAgent (a_id a) (a_name a) (a_isBot a) (a_col a) (a_dead a)
          (fst aim) (snd aim) boost now (a_blobs a).

Definition inputAgent (a : Agent) (now : R) (req : InputReq) : Agent :=
  let a1 := touch a now (normalize (iq_aimX req) (iq_aimY req)) (iq_boost req) in
  if iq_split req then split a1 else a1.

(** The handler on one room: [None] is the answer [{ ok: false }]. *)
Definition inputRoom (room : Room) (req : InputReq) (e : Env)
  : option Room * Env :=
  match mapGet (iq_id req) (r_agents room) with
  | None => (None, e)
  | Some a =>
      if a_dead a then (None, e)
      else
        let now := dateNowAt e (clkIdx e) / 1000 in
        let e' := mkEnv (mathRandomAt e) (mrIdx e) (dateNowAt e) (S (clkIdx e)) in
        (Some (setAgents room (mapSet (iq_id req) (inputAgent a now req)
                                       (r_agents room))), e')
  end.

Definition postInput (rooms : Rooms) (req : InputReq) (e : Env)
  : (bool * Rooms) * Env :=
  let code := toUpperCase (orElse (iq_code req) "") in
  match mapGet code rooms with
  | None => ((false, rooms), e)
  | Some room =>
      match inputRoom room req e with
      | (None, e') => ((false, rooms), e')
      | (Some room', e') => ((true, mapSet code room' rooms), e')
      end
  end.

(** *** [app.post("/create")] (line 923) and the tick loop (line 1027) *)

(** [code] is the code [makeCode()] returned once it is not in use;
    [maxPlayers] and [bots] are the body's fields or their defaults. *)
Definition postCreate (rooms : Rooms) (code : string) (maxPlayers bots : num)
  (e : Env) : Rooms * Env :=
  let (room, e') := makeRoom code maxPlayers bots e in
  (mapSet code room rooms, e').

(** [for (const room of rooms.values()) tickRoom(room)] *)
Fixpoint tickAll (rooms : Rooms) (e : Env) : Rooms * Env :=
  match rooms with
  | [] => ([], e)
  | (c, room) :: rest =>
      let (room', e1) := tickRoom room e in
      let (rest', e2) := tickAll rest e1 in
      ((c, room') :: rest', e2)
  end.

(** The states of the server: what a sequence of requests and ticks,
    under any draws and clock readings, leads to. *)
Inductive reachable : Rooms -> Prop :=
| reach_start : reachable []
| reach_create rooms code maxPlayers bots e :
    reachable rooms -> reachable (fst (postCreate rooms code maxPlayers bots e))
| reach_join rooms base36 req e :
    reachable rooms -> reachable (snd (fst (postJoin base36 rooms req e)))
| reach_input rooms req e :
    reachable rooms -> reachable (snd (fst (postInput rooms req e)))
| reach_tick rooms e :
    reachable rooms -> reachable (fst (tickAll rooms e)).

(** A run of the server: a sequence of requests and ticks from no room. *)
Inductive Call :=
| Create (code : string) (maxPlayers bots : num)
| Join (req : JoinReq)
| Input (req : InputReq)
| Tick.

Definition step (base36 : R -> string) (st : Rooms * Env) (c : Call) : Rooms * Env :=
  match c with
  | Create code maxPlayers bots => postCreate (fst st) code maxPlayers bots (snd st)
  | Join req =>
      let r := postJoin base36 (fst st) req (snd st) in (snd (fst r), snd r)
  | Input req =>
      let r := postInput (fst st) req (snd st) in (snd (fst r), snd r)
  | Tick => tickAll (fst st) (snd st)
  end.

Definition run (base36 : R -> string) (calls : list Call) (e : Env) : Rooms * Env :=
  fold_left (step base36) calls ([], e).

(* ------------------------------------------------------------------ *)
(** ** The movement step and [/input] on every value of a number

    The same lines as [aimBlob], [knockBlob], [decayBlob], [split] and
    [inputAgent], with the aim, the centre and the velocity of a blob
    ranging over every value of a number.  Mass, radius and split timer
    are computed from masses, radii, pellet values and constants only
    (lines 632-633, 691-693, 805-814, 855-857, 895-900 and 976-978), never
    from a coordinate or an aim, and [lastSeen] is a clock reading: they
    keep the type [R]. *)
Module Js.

Record Blob := mkBlob {
  b_x : num; b_y : num; b_vx : num; b_vy : num;
  b_mass : R; b_r : R; b_splitTimer : R
}.

Record Agent := mkAgent {
  a_id : string; a_name : string; a_isBot : bool;
  a_col : Color;
  a_dead : bool;
  a_aimX : num; a_aimY : num;
  a_boost : bool;
  a_lastSeen : R;
  a_blobs : list Blob
}.

(** [function agentMass(a)] *)
Definition agentMass (a : Agent) : R :=
  fold_left (fun s b => s + b_mass b) (a_blobs a) 0.

(** Line 796 (and 797): the coordinate before the clamp. *)
Definition aimed (c aim : num) (v : R) : num :=
  Num.add c (Num.mul (Num.mul aim (Fin v)) (Fin DT)).

(** Lines 795-800: displacement along the aim, then the boundary clamp. *)
Definition aimBlob (a : Agent) (total : R) (b : Blob) : Blob :=
  let v := baseSpeed (b_r b) total (a_boost a) in
  let x1 := aimed (b_x b) (a_aimX a) v in
  let y1 := aimed (b_y b) (a_aimY a) v in
  mkBlob (Num.clamp x1 (Fin (b_r b)) (Fin (WORLD - b_r b)))
         (Num.clamp y1 (Fin (b_r b)) (Fin (WORLD - b_r b)))
         (b_vx b) (b_vy b) (b_mass b) (b_r b) (b_splitTimer b).

(** Lines 802-805: residual velocity and the split timer. *)
Definition knockBlob (b : Blob) : Blob :=
  mkBlob (Num.add (b_x b) (Num.mul (b_vx b) (Fin DT)))
         (Num.add (b_y b) (Num.mul (b_vy b) (Fin DT)))
         (Num.mul (b_vx b) (Fin (1 - clamp (DT * (38 / 10)) 0 1)))
         (Num.mul (b_vy b) (Fin (1 - clamp (DT * (38 / 10)) 0 1)))
         (b_mass b) (b_r b) (b_splitTimer b + DT).

(** Lines 807-815: passive decay, then the boost cost of a human. *)
Definition decayBlob (a : Agent) (total : R) (b : Blob) : Blob :=
  let decay := (if a_isBot a then 16 / 100 else 22 / 100) * DT in
  let mass1 := Rmax 10 (b_mass b - decay) in
  let r1 := Rmax 14 (b_r b - decay * (8 / 100)) in
  if negb (a_isBot a) && a_boost a then
    let d := (175 / 100) * DT * (mass1 / Rmax 1 total) in
    mkBlob (b_x b) (b_y b) (b_vx b) (b_vy b)
           (Rmax 10 (mass1 - d)) (Rmax 14 (r1 - d * (12 / 100))) (b_splitTimer b)
  else
    mkBlob (b_x b) (b_y b) (b_vx b) (b_vy b) mass1 r1 (b_splitTimer b).

Definition moveBlob (a : Agent) (total : R) (b : Blob) : Blob :=
  decayBlob a total (knockBlob (aimBlob a total b)).

Definition setBlobs (a : Agent) (blobs : list Blob) : Agent :=
  mkAgent (a_id a) (a_name a) (a_isBot a) (a_col a) (a_dead a)
          (a_aimX a) (a_aimY a) (a_boost a) (a_lastSeen a) blobs.

(** Lines 971-972: the index of the first blob of largest radius. *)
Definition bestStep (blobs : list Blob) (best i : nat) : nat :=
  match nth_error blobs i, nth_error blobs best with
  | Some bi, Some bb => if Rgtb (b_r bi) (b_r bb) then i else best
  | _, _ => best
  end.

Definition bestIndex (blobs : list Blob) : nat :=
  fold_left (bestStep blobs) (seq 1 (List.length blobs - 1)) 0%nat.

(** Lines 975-978 and 988: what the split blob becomes. *)
Definition splitKeep (b : Blob) : Blob :=
  mkBlob (b_x b) (b_y b) (b_vx b) (b_vy b)
         (b_mass b * (5 / 10)) (Rmax 14 (b_r b * (72 / 100))) 0.

(** Lines 979-987: the sibling pushed, [b'] being the blob already shrunk. *)
Definition splitSibling (dir : num * num) (newMass : R) (b' : Blob) : Blob :=
  mkBlob (Num.add (b_x b') (Num.mul (fst dir) (Fin (b_r b' + 8))))
         (Num.add (b_y b') (Num.mul (snd dir) (Fin (b_r b' + 8))))
         (Num.mul (fst dir) (Fin 580)) (Num.mul (snd dir) (Fin 580))
         newMass (Rmax 14 (b_r b')) 0.

(** The split branch (lines 970-990). *)
Definition split (a : Agent) : Agent :=
  let best := bestIndex (a_blobs a) in
  match nth_error (a_blobs a) best with
  | Some b =>
      if Rgeb (b_r b) (14 * (22 / 10)) then
        let dir := Num.normalize (a_aimX a) (a_aimY a) in
        let newMass := b_mass b * (5 / 10) in
        let b' := splitKeep b in
        setBlobs a (setAt best b' (a_blobs a) ++ [splitSibling dir newMass b'])
      else a
  | None => a
  end.

(** The fields of the body that [/input] reads: [iq_aimX] and [iq_aimY]
    are [Number(req.body?.aimX)] and [Number(req.body?.aimY)]. *)
Record InputReq := mkInputReq {
  iq_aimX : num; iq_aimY : num;
  iq_boost : bool; iq_split : bool      (* [!!boost], [split === true] *)
}.

Definition touch (a : Agent) (now : R) (aim : num * num) (boost : bool) : Agent :=
  mkAgent (a_id a) (a_name a) (a_isBot a) (a_col a) (a_dead a)
          (fst aim) (snd aim) boost now (a_blobs a).

(** Lines 961-990, for the agent the request names. *)
Definition inputAgent (a : Agent) (now : R) (req : InputReq) : Agent :=
  let ax := Num.orZero (iq_aimX req) in
  let ay := Num.orZero (iq_aimY req) in
  let a1 := touch a now (Num.normalize ax ay) (iq_boost req) in
  if iq_split req then split a1 else a1.

End Js.

(** The states of the room model, among those of this one. *)
Definition ofBlob (b : Blob) : Js.Blob :=
  Js.mkBlob (Fin (b_x b)) (Fin (b_y b))
         (Fin (b_vx b)) (Fin (b_vy b))
         (b_mass b) (b_r b) (b_splitTimer b).

Definition ofAgent (a : Agent) : Js.Agent :=
  Js.mkAgent (a_id a) (a_name a) (a_isBot a)
          (a_col a) (a_dead a)
          (Fin (a_aimX a)) (Fin (a_aimY a))
          (a_boost a) (a_lastSeen a)
          (map ofBlob (a_blobs a)).

Definition ofReq (req : InputReq) : Js.InputReq :=
  Js.mkInputReq (Fin (iq_aimX req)) (Fin (iq_aimY req))
             (iq_boost req) (iq_split req).

(* ================================================================== *)
(** * Properties *)

(** ** Comparisons, [clamp], [hypot] and [normalize] *)

Lemma Rltb_true a b : Rltb a b = true <-> a < b.
Proof. unfold Rltb; destruct (Rlt_dec a b); split; intros; try easy; lra. Qed.

Lemma Rltb_false a b : Rltb a b = false <-> b <= a.
Proof. unfold Rltb; destruct (Rlt_dec a b); split; intros; try easy; lra. Qed.

Lemma Rleb_true a b : Rleb a b = true <-> a <= b.
Proof. unfold Rleb; destruct (Rle_dec a b); split; intros; try easy; lra. Qed.

Lemma Rleb_false a b : Rleb a b = false <-> b < a.
Proof. unfold Rleb; destruct (Rle_dec a b); split; intros; try easy; lra. Qed.

Lemma Rgtb_true a b : Rgtb a b = true <-> a > b.
Proof. unfold Rgtb; rewrite Rltb_true; lra. Qed.

Lemma Rgtb_false a b : Rgtb a b = false <-> a <= b.
Proof. unfold Rgtb; rewrite Rltb_false; lra. Qed.

Lemma Rgeb_true a b : Rgeb a b = true <-> a >= b.
Proof. unfold Rgeb; rewrite Rleb_true; lra. Qed.

Lemma Rgeb_false a b : Rgeb a b = false <-> a < b.
Proof. unfold Rgeb; rewrite Rleb_false; lra. Qed.

(** Case analysis on every [Rmax]/[Rmin] of the goal, then linear arithmetic. *)
Ltac rminmax :=
  unfold clamp, Rmax, Rmin in *;
  repeat match goal with
         | |- context [Rle_dec ?a ?b] => destruct (Rle_dec a b)
         | H : context [Rle_dec ?a ?b] |- _ => destruct (Rle_dec a b)
         end;
  try lra.

Lemma clamp_lo v lo hi : lo <= clamp v lo hi.
Proof. rminmax. Qed.

Lemma clamp_hi v lo hi : lo <= hi -> clamp v lo hi <= hi.
Proof. intros; rminmax. Qed.

Lemma clamp_id v lo hi : lo <= v <= hi -> clamp v lo hi = v.
Proof. intros; rminmax. Qed.

Lemma hypot_nonneg x y : 0 <= hypot x y.
Proof. apply sqrt_pos. Qed.

Lemma hypot_sqr x y : hypot x y * hypot x y = x * x + y * y.
Proof. unfold hypot; apply sqrt_sqrt; nra. Qed.

Lemma hypot_0 : hypot 0 0 = 0.
Proof. unfold hypot; replace (0 * 0 + 0 * 0) with 0 by lra; apply sqrt_0. Qed.

Lemma hypot_x0 x : 0 <= x -> hypot x 0 = x.
Proof.
  intros Hx; unfold hypot.
  replace (x * x + 0 * 0) with (x * x) by lra.
  now apply sqrt_square.
Qed.

Lemma hypot_lt x y c : 0 < c -> x * x + y * y < c * c -> hypot x y < c.
Proof.
  intros Hc H.
  destruct (Rlt_dec (hypot x y) c) as [|Hn]; [assumption|].
  pose proof (hypot_sqr x y). pose proof (hypot_nonneg x y). nra.
Qed.

(** [normalize] returns the zero vector below the threshold and a vector
    of length 1 otherwise. *)
Lemma normalize_cases x y :
  (hypot x y < 1 / 1000000 /\ normalize x y = (0, 0)) \/
  (1 / 1000000 <= hypot x y /\
   normalize x y = (x / hypot x y, y / hypot x y) /\
   fst (normalize x y) * fst (normalize x y) +
   snd (normalize x y) * snd (normalize x y) = 1).
Proof.
  unfold normalize.
  destruct (Rltb (hypot x y) (1 / 1000000)) eqn:E.
  - left. apply Rltb_true in E. now split.
  - right. apply Rltb_false in E. split; [assumption|]. split; [reflexivity|].
    cbn [fst snd]. pose proof (hypot_sqr x y) as Hs.
    assert (Hp : hypot x y <> 0) by lra.
    field_simplify_eq; [|assumption]. nra.
Qed.

Lemma normalize_unit_or_zero x y :
  normalize x y = (0, 0) \/
  fst (normalize x y) * fst (normalize x y) +
  snd (normalize x y) * snd (normalize x y) = 1.
Proof. destruct (normalize_cases x y) as [[_ H]|[_ [_ H]]]; auto. Qed.

(** ** Every value of a number *)

Lemma MAX_VALUE_big : 1048576 <= Num.MAX_VALUE.
Proof.
  unfold Num.MAX_VALUE.
  assert (H52 : 1 <= 2 ^ 52) by (apply pow_R1_Rle; lra).
  assert (Hinv : / 2 ^ 52 <= 1).
  { rewrite <- Rinv_1. apply Rinv_le_contravar; lra. }
  assert (H20 : 2 ^ 20 <= 2 ^ 1023) by (apply Rle_pow; [lra|lia]).
  assert (E20 : 2 ^ 20 = 1048576) by (simpl; lra).
  assert (Hp : 0 < 2 ^ 1023) by (apply pow_lt; lra).
  nra.
Qed.

Lemma Reqb_true a b : Reqb a b = true <-> a = b.
Proof. unfold Reqb. destruct (Req_dec_T a b); split; intros; try easy. Qed.

Lemma Reqb_false a b : Reqb a b = false <-> a <> b.
Proof. unfold Reqb. destruct (Req_dec_T a b); split; intros; try easy. Qed.

(** [clamp] between two finite bounds: [NaN] stays [NaN], every other
    value, the infinities included, is brought to a finite one. *)
Lemma Num_clamp_Fin v lo hi :
  Num.clamp (Fin v) (Fin lo) (Fin hi) = Fin (clamp v lo hi).
Proof. reflexivity. Qed.

Lemma Num_clamp_cases v lo hi :
  match v with
  | NaN => Num.clamp v (Fin lo) (Fin hi) = NaN
  | Fin x => Num.clamp v (Fin lo) (Fin hi) = Fin (clamp x lo hi)
  | PInf => Num.clamp v (Fin lo) (Fin hi) = Fin (Rmax lo hi)
  | NInf => Num.clamp v (Fin lo) (Fin hi) = Fin lo
  end.
Proof. destruct v; reflexivity. Qed.

Lemma Num_clamp_inside v lo hi :
  lo <= hi ->
  (v = NaN /\ Num.clamp v (Fin lo) (Fin hi) = NaN) \/
  (v <> NaN /\ exists c, Num.clamp v (Fin lo) (Fin hi) = Fin c /\ lo <= c <= hi).
Proof.
  intros H. pose proof (Num_clamp_cases v lo hi) as Hc.
  destruct v as [x| | |]; [right|right|right|left; now split];
    (split; [discriminate|]); eexists; (split; [exact Hc|]).
  - split; [apply clamp_lo|now apply clamp_hi].
  - rewrite Rmax_right by exact H. lra.
  - lra.
Qed.

(** [normalize] on two finite values whose length does not overflow is the
    [normalize] of the reals. *)
Lemma Num_hypot_Fin x y :
  hypot x y <= Num.MAX_VALUE -> Num.hypot (Fin x) (Fin y) = Fin (hypot x y).
Proof.
  intros H. unfold Num.hypot.
  assert (E : Rltb Num.MAX_VALUE (hypot x y) = false) by (apply Rltb_false; exact H).
  now rewrite E.
Qed.

Lemma Num_hypot_over x y :
  Num.MAX_VALUE < hypot x y -> Num.hypot (Fin x) (Fin y) = PInf.
Proof.
  intros H. unfold Num.hypot.
  assert (E : Rltb Num.MAX_VALUE (hypot x y) = true) by (apply Rltb_true; exact H).
  now rewrite E.
Qed.

Lemma Num_normalize_Fin x y :
  hypot x y <= Num.MAX_VALUE ->
  Num.normalize (Fin x) (Fin y)
  = (Fin (fst (normalize x y)), Fin (snd (normalize x y))).
Proof.
  intros H. unfold Num.normalize, normalize. rewrite (Num_hypot_Fin x y H).
  cbn [Num.ltb]. destruct (Rltb (hypot x y) (1 / 1000000)) eqn:E; [reflexivity|].
  apply Rltb_false in E. cbn [fst snd Num.div].
  assert (E0 : Reqb (hypot x y) 0 = false) by (apply Reqb_false; lra).
  now rewrite E0.
Qed.

Lemma Num_normalize_over x y :
  Num.MAX_VALUE < hypot x y -> Num.normalize (Fin x) (Fin y) = (Fin 0, Fin 0).
Proof.
  intros H. unfold Num.normalize. rewrite (Num_hypot_over x y H). reflexivity.
Qed.

(** A component that is not finite comes out as [NaN]; beside a [NaN]
    both do. *)
Lemma Num_normalize_NaN_l y : Num.normalize NaN y = (NaN, NaN).
Proof. destruct y; reflexivity. Qed.

Lemma Num_normalize_NaN_r x : Num.normalize x NaN = (NaN, NaN).
Proof. destruct x; reflexivity. Qed.

Lemma Num_normalize_inf_l x y :
  x = PInf \/ x = NInf -> fst (Num.normalize x y) = NaN.
Proof. intros [->| ->]; destruct y; reflexivity. Qed.

Lemma Num_normalize_inf_r x y :
  y = PInf \/ y = NInf -> snd (Num.normalize x y) = NaN.
Proof. intros [->| ->]; destruct x; reflexivity. Qed.

Lemma Num_normalize_inf_Fin y :
  Num.normalize PInf (Fin y) = (NaN, Fin 0) /\
  Num.normalize NInf (Fin y) = (NaN, Fin 0).
Proof. split; reflexivity. Qed.

(** What [normalize] can return: the zero vector, a pair of finite values
    of length 1, or a pair with a [NaN]; the last exactly when an argument
    is not finite. *)
Lemma Num_normalize_cases x y :
  (exists x0 y0, x = Fin x0 /\ y = Fin y0 /\
     (Num.normalize x y = (Fin 0, Fin 0) \/
      exists dx dy, Num.normalize x y = (Fin dx, Fin dy) /\ dx * dx + dy * dy = 1)) \/
  ((forall x0, x <> Fin x0) \/ (forall y0, y <> Fin y0)) /\
  (fst (Num.normalize x y) = NaN \/ snd (Num.normalize x y) = NaN).
Proof.
  destruct x as [x0| | |]; destruct y as [y0| | |];
    try (right; split; [first [left; discriminate|right; discriminate]|]; cbn; tauto).
  left. exists x0, y0. split; [reflexivity|]. split; [reflexivity|].
  destruct (Rle_dec (hypot x0 y0) Num.MAX_VALUE) as [H|H].
  - rewrite (Num_normalize_Fin x0 y0 H).
    destruct (normalize_unit_or_zero x0 y0) as [Hz|Hu].
    + left. now rewrite Hz.
    + right. eexists _, _. split; [reflexivity|exact Hu].
  - left. apply Num_normalize_over. lra.
Qed.

(** ** The passes of the bot loop *)

(** The loop [for (let i = 0; i < bots; i++)] makes as many passes as there
    are naturals below [bots]: none for [NaN], and for a number the least
    integer that is not below it. *)
Lemma botPasses_NaN fuel i : botPasses fuel i NaN = 0%nat.
Proof. destruct fuel; reflexivity. Qed.

Lemma botPasses_Fin b : forall fuel i,
  botPasses fuel i (Fin b) = Nat.min fuel (Z.to_nat (Zceil b - Z.of_nat i)).
Proof.
  induction fuel as [|fuel IH]; intros i; cbn [botPasses]; [reflexivity|].
  pose proof (Zceil_bound b) as [Hlo Hhi].
  cbn [Num.ltb]. unfold Rltb. destruct (Rlt_dec (INR i) b) as [Hlt|Hge].
  - rewrite IH.
    assert (H : (Z.of_nat i < Zceil b)%Z).
    { apply lt_IZR. rewrite <- INR_IZR_INZ. lra. }
    replace (Z.to_nat (Zceil b - Z.of_nat i))
      with (S (Z.to_nat (Zceil b - Z.of_nat (S i)))) by lia.
    reflexivity.
  - assert (H : (Zceil b <= Z.of_nat i)%Z).
    { apply Z.lt_succ_r. apply lt_IZR. rewrite succ_IZR, <- INR_IZR_INZ. lra. }
    replace (Z.to_nat (Zceil b - Z.of_nat i)) with 0%nat by lia.
    now rewrite Nat.min_0_r.
Qed.

Lemma Zceil_IZR (n : Z) : Zceil (IZR n) = n.
Proof. apply Zceil_eq. lra. Qed.

(** The passes [makeRoom] makes for the [bots] it is given. *)
Lemma botPasses_clamp bots :
  botPasses 121 0 (Num.clamp bots (Fin 0) (Fin 120))
  = match bots with
    | Fin b => Z.to_nat (Zceil (clamp b 0 120))
    | PInf => 120%nat
    | NInf | NaN => 0%nat
    end.
Proof.
  destruct bots as [b| | |].
  - change (Num.clamp (Fin b) (Fin 0) (Fin 120)) with (Fin (clamp b 0 120)).
    rewrite botPasses_Fin. rewrite Z.sub_0_r.
    assert (H : (Zceil (clamp b 0 120) <= 120)%Z).
    { pose proof (Zceil_le (clamp b 0 120) 120
                           (clamp_hi b 0 120 ltac:(lra))) as Hc.
      now rewrite (Zceil_IZR 120) in Hc. }
    lia.
  - change (Num.clamp PInf (Fin 0) (Fin 120)) with (Fin (Rmax 0 120)).
    rewrite Rmax_right by lra. rewrite botPasses_Fin.
    rewrite (Zceil_IZR 120). reflexivity.
  - change (Num.clamp NInf (Fin 0) (Fin 120)) with (Fin 0).
    rewrite botPasses_Fin. rewrite (Zceil_IZR 0). reflexivity.
  - apply botPasses_NaN.
Qed.

Lemma botPasses_integer (n : Z) :
  (0 <= n <= 120)%Z ->
  botPasses 121 0 (Num.clamp (Fin (IZR n)) (Fin 0) (Fin 120)) = Z.to_nat n.
Proof.
  intros [H0 H1]. rewrite botPasses_clamp.
  rewrite clamp_id by (split; apply IZR_le; assumption).
  now rewrite Zceil_IZR.
Qed.

Lemma botPasses_0 : botPasses 121 0 (Num.clamp (Fin 0) (Fin 0) (Fin 120)) = 0%nat.
Proof. exact (botPasses_integer 0 ltac:(lia)). Qed.

Lemma botPasses_1 : botPasses 121 0 (Num.clamp (Fin 1) (Fin 0) (Fin 120)) = 1%nat.
Proof. exact (botPasses_integer 1 ltac:(lia)). Qed.

(** ** The room's generator draws from [0, 1) *)

Lemma ushr32_0_range a : (0 <= ushr32 a 0 < two32)%Z.
Proof.
  unfold ushr32, toUint32. rewrite Z.shiftr_0_r.
  apply Z.mod_pos_bound. reflexivity.
Qed.

Lemma mulberry32_range seed : 0 <= fst (mulberry32 seed) < 1.
Proof.
  unfold mulberry32; cbn [fst].
  set (u := ushr32 _ 0).
  assert (H : (0 <= u < two32)%Z) by apply ushr32_0_range.
  destruct H as [H0 H1]. apply IZR_le in H0. apply IZR_lt in H1.
  unfold two32 in H1. lra.
Qed.

Lemma rng_range s : 0 <= fst (rng s) < 1.
Proof.
  unfold rng. pose proof (mulberry32_range (rngSeed s)).
  destruct (mulberry32 (rngSeed s)); assumption.
Qed.

(** ** Growth *)

Lemma growPenalty_range m : 25 / 100 <= growPenalty m <= 1.
Proof.
  unfold growPenalty. destruct (Rgtb m 1400); [|lra].
  split; [apply clamp_lo | apply clamp_hi; lra].
Qed.

Lemma growPenalty_above m : m > 1400 -> growPenalty m = Rmax (25 / 100) (1400 / m).
Proof.
  intros Hm. unfold growPenalty.
  destruct (Rgtb m 1400) eqn:E; [|apply Rgtb_false in E; lra].
  assert (1400 / m < 1).
  { apply Rmult_lt_reg_r with m; [lra|]. field_simplify; lra. }
  unfold clamp. f_equal. unfold Rmin. destruct (Rle_dec 1 (1400 / m)); lra.
Qed.

Lemma growPenalty_below m : m <= 1400 -> growPenalty m = 1.
Proof.
  intros Hm. unfold growPenalty.
  destruct (Rgtb m 1400) eqn:E; [apply Rgtb_true in E; lra|reflexivity].
Qed.

Lemma growPenalty_lt_1 m : m > 1400 -> growPenalty m < 1.
Proof.
  intros Hm. rewrite growPenalty_above by assumption.
  assert (1400 / m < 1).
  { apply Rmult_lt_reg_r with m; [lra|]. field_simplify; lra. }
  unfold Rmax. destruct (Rle_dec (25 / 100) (1400 / m)); lra.
Qed.

(** C8.  Growth is sub-linear above the soft cap.  For the same strictly
    positive nominal gain, a blob whose mass is above 1400 gains strictly
    less mass than a blob whose mass is at most 1400; above the cap the gain
    is the nominal one times [max(0.25, 1400 / mass)], at or below it the
    gain is the nominal one; the radius grows by 0.22 of the applied gain,
    so it does not decrease when the nominal gain is not negative. *)
Theorem C8_grow_sublinear :
  (forall b1 b2 amount,
      0 < amount -> b_mass b1 > 1400 -> b_mass b2 <= 1400 ->
      b_mass (grow b1 amount) - b_mass b1 < b_mass (grow b2 amount) - b_mass b2) /\
  (forall b amount,
      b_mass b > 1400 ->
      b_mass (grow b amount) - b_mass b = amount * Rmax (25 / 100) (1400 / b_mass b)) /\
  (forall b amount,
      b_mass b <= 1400 -> b_mass (grow b amount) - b_mass b = amount) /\
  (forall b amount,
      b_r (grow b amount) = b_r b + (22 / 100) * (b_mass (grow b amount) - b_mass b)) /\
  (forall b amount, 0 <= amount -> b_r b <= b_r (grow b amount)).
Proof.
  repeat split; intros; unfold grow; cbn [b_mass b_r].
  - rewrite (growPenalty_below (b_mass b2)) by assumption.
    pose proof (growPenalty_lt_1 (b_mass b1) H0). nra.
  - rewrite growPenalty_above by assumption. lra.
  - rewrite growPenalty_below by assumption. lra.
  - lra.
  - pose proof (growPenalty_range (b_mass b)). nra.
Qed.

Lemma C8_grow_sublinear_witness :
  b_mass (grow (mkBlob 0 0 0 0 2800 100 0) 10) - 2800
  < b_mass (grow (mkBlob 0 0 0 0 1000 100 0) 10) - 1000 /\
  b_r (mkBlob 0 0 0 0 2800 100 0) <= b_r (grow (mkBlob 0 0 0 0 2800 100 0) 10).
Proof.
  split.
  - apply (proj1 C8_grow_sublinear (mkBlob 0 0 0 0 2800 100 0)
                 (mkBlob 0 0 0 0 1000 100 0) 10); cbn [b_mass]; lra.
  - apply (proj2 (proj2 (proj2 (proj2 C8_grow_sublinear)))
                 (mkBlob 0 0 0 0 2800 100 0) 10); lra.
Defined.

(** ** The boundary clamp *)

(** A human at rest, a blob wider than the world, and a blob at the right
    edge with a residual velocity. *)
Definition c2_agent : Agent :=
  mkAgent "h" "Player" false (mkColor 70 70 70) false 0 0 false 0 [].
Definition c2_wide : Blob := mkBlob 2600 2600 0 0 100 3000 0.
Definition c2_edge : Blob := mkBlob 5164 100 580 0 55 36 0.

(** ** Voluntary split *)

Definition massSum (blobs : list Blob) : R :=
  fold_left (fun s b => s + b_mass b) blobs 0.

Lemma fold_mass_acc blobs acc :
  fold_left (fun s b => s + b_mass b) blobs acc = acc + massSum blobs.
Proof.
  unfold massSum. revert acc.
  induction blobs as [|b blobs IH]; intros acc; cbn [fold_left]; [lra|].
  rewrite IH, (IH (0 + b_mass b)). lra.
Qed.

Lemma massSum_cons b blobs : massSum (b :: blobs) = b_mass b + massSum blobs.
Proof. unfold massSum at 1; cbn [fold_left]. rewrite fold_mass_acc. lra. Qed.

Lemma massSum_app l1 l2 : massSum (l1 ++ l2) = massSum l1 + massSum l2.
Proof.
  induction l1 as [|b l1 IH]; cbn [app].
  - unfold massSum at 2; cbn. lra.
  - rewrite !massSum_cons, IH. lra.
Qed.

Lemma massSum_setAt blobs : forall i b v,
  nth_error blobs i = Some b ->
  massSum (setAt i v blobs) = massSum blobs - b_mass b + b_mass v.
Proof.
  induction blobs as [|c blobs IH]; intros [|i] b v H; cbn in H; try discriminate.
  - injection H as ->. cbn [setAt]. rewrite !massSum_cons. lra.
  - cbn [setAt]. rewrite !massSum_cons, (IH i b v H). lra.
Qed.

Lemma massSum_removeAt blobs : forall i b,
  nth_error blobs i = Some b ->
  massSum (removeAt i blobs) = massSum blobs - b_mass b.
Proof.
  induction blobs as [|c blobs IH]; intros [|i] b H; cbn in H; try discriminate.
  - injection H as ->. cbn [removeAt]. rewrite massSum_cons. lra.
  - cbn [removeAt]. rewrite !massSum_cons, (IH i b H). lra.
Qed.

Lemma agentMass_massSum a : agentMass a = massSum (a_blobs a).
Proof. reflexivity. Qed.

(** [best] is the first index of a largest radius among the indices [<= k]. *)
Definition firstLargest (blobs : list Blob) (k best : nat) : Prop :=
  (best <= k)%nat /\
  exists bb, nth_error blobs best = Some bb /\
    (forall j bj, (j <= k)%nat -> nth_error blobs j = Some bj -> b_r bj <= b_r bb) /\
    (forall j bj, (j < best)%nat -> nth_error blobs j = Some bj -> b_r bj < b_r bb).

Lemma bestStep_next blobs k best :
  firstLargest blobs k best -> (S k < List.length blobs)%nat ->
  firstLargest blobs (S k) (bestStep blobs best (S k)).
Proof.
  intros [Hle [bb [Hbb [Hall Hfirst]]]] Hlen.
  destruct (nth_error blobs (S k)) as [bi|] eqn:Ei.
  2:{ apply nth_error_None in Ei. lia. }
  unfold bestStep. rewrite Ei, Hbb.
  destruct (Rgtb (b_r bi) (b_r bb)) eqn:E.
  - apply Rgtb_true in E. split; [lia|]. exists bi. split; [assumption|]. split.
    + intros j bj Hj Hnth. destruct (Nat.eq_dec j (S k)) as [->|Hne].
      * rewrite Ei in Hnth. injection Hnth as ->. lra.
      * assert (b_r bj <= b_r bb) by (apply (Hall j); [lia|assumption]). lra.
    + intros j bj Hj Hnth.
      assert (b_r bj <= b_r bb) by (apply (Hall j); [lia|assumption]). lra.
  - apply Rgtb_false in E. split; [lia|]. exists bb. split; [assumption|]. split.
    + intros j bj Hj Hnth. destruct (Nat.eq_dec j (S k)) as [->|Hne].
      * rewrite Ei in Hnth. injection Hnth as ->. lra.
      * apply (Hall j); [lia|assumption].
    + assumption.
Qed.

Lemma bestFold blobs : forall n k best,
  firstLargest blobs k best -> (k + n < List.length blobs)%nat ->
  firstLargest blobs (k + n) (fold_left (bestStep blobs) (seq (S k) n) best).
Proof.
  induction n as [|n IH]; intros k best H Hlen; cbn [seq fold_left].
  - now rewrite Nat.add_0_r.
  - replace (k + S n)%nat with (S k + n)%nat by lia.
    apply IH; [|lia]. apply bestStep_next; [assumption|lia].
Qed.

Lemma bestIndex_spec blobs :
  blobs <> [] ->
  exists b, nth_error blobs (bestIndex blobs) = Some b /\
    (forall j bj, nth_error blobs j = Some bj -> b_r bj <= b_r b) /\
    (forall j bj, (j < bestIndex blobs)%nat ->
                  nth_error blobs j = Some bj -> b_r bj < b_r b).
Proof.
  intros Hne. destruct blobs as [|b0 rest]; [congruence|].
  assert (H0 : firstLargest (b0 :: rest) 0 0).
  { split; [lia|]. exists b0. split; [reflexivity|]. split.
    - intros j bj Hj Hnth. assert (j = 0%nat) by lia. subst j.
      cbn in Hnth. injection Hnth as ->. lra.
    - intros j bj Hj. lia. }
  pose proof (bestFold (b0 :: rest) (List.length rest) 0 0 H0) as H.
  cbn [List.length] in H. specialize (H ltac:(lia)).
  unfold bestIndex. cbn [List.length].
  replace (S (List.length rest) - 1)%nat with (List.length rest) by lia.
  cbn [Nat.add] in H. destruct H as [_ [bb [Hbb [Hall Hfirst]]]].
  exists bb. split; [assumption|]. split; [|assumption].
  intros j bj Hnth. apply (Hall j); [|assumption].
  assert (j < List.length (b0 :: rest))%nat
    by (apply nth_error_Some; congruence).
  cbn [List.length] in *. lia.
Qed.

(** ** Maps *)

Lemma mapGet_mapSet_same {V} k (v : V) m : mapGet k (mapSet k v m) = Some v.
Proof.
  induction m as [|[k0 v0] m IH]; cbn.
  - now rewrite String.eqb_refl.
  - destruct (String.eqb k0 k) eqn:E; cbn; rewrite E; [reflexivity|assumption].
Qed.

Lemma mapGet_mapSet_other {V} k k' (v : V) m :
  k' <> k -> mapGet k' (mapSet k v m) = mapGet k' m.
Proof.
  intros Hne. induction m as [|[k0 v0] m IH]; cbn.
  - destruct (String.eqb k k') eqn:E; [apply String.eqb_eq in E; congruence|reflexivity].
  - destruct (String.eqb k0 k) eqn:E; cbn.
    + apply String.eqb_eq in E. subst k0.
      destruct (String.eqb k k') eqn:E'; [apply String.eqb_eq in E'; congruence|reflexivity].
    + destruct (String.eqb k0 k'); [reflexivity|assumption].
Qed.

Lemma mapSet_keys_present {V} k (v : V) m :
  mapGet k m <> None -> map fst (mapSet k v m) = map fst m.
Proof.
  induction m as [|[k0 v0] m IH]; cbn; [congruence|].
  destruct (String.eqb k0 k) eqn:E; cbn; [reflexivity|].
  intros H. now rewrite IH.
Qed.

Lemma mapSet_absent {V} k (v : V) m :
  mapGet k m = None -> mapSet k v m = m ++ [(k, v)].
Proof.
  induction m as [|[k0 v0] m IH]; cbn; [reflexivity|].
  destruct (String.eqb k0 k) eqn:E; [discriminate|].
  intros H. now rewrite IH.
Qed.

(** ** Spawning *)

(** Steps through the draws of a computation in [M]. *)
Ltac draw :=
  match goal with
  | |- context [rng ?s] =>
      let v := fresh "v" in let s' := fresh "s" in let E := fresh "E" in
      let H := fresh "Hv" in
      pose proof (rng_range s) as H;
      destruct (rng s) as [v s'] eqn:E; cbn [fst snd] in H
  | |- context [dateNow ?s] =>
      let v := fresh "now" in let s' := fresh "s" in let E := fresh "E" in
      destruct (dateNow s) as [v s'] eqn:E
  | |- context [mathRandom ?s] =>
      let v := fresh "u" in let s' := fresh "s" in let E := fresh "E" in
      destruct (mathRandom s) as [v s'] eqn:E
  end.

Definition freshBlob (isBot : bool) (b : Blob) : Prop :=
  280 <= b_x b < WORLD - 280 /\ 280 <= b_y b < WORLD - 280 /\
  b_vx b = 0 /\ b_vy b = 0 /\ b_splitTimer b = 999 /\
  (if isBot then 32 <= b_mass b < 102 /\ 22 <= b_r b < 42
   else b_mass b = 55 /\ b_r b = 36).

Lemma spawnAgent_spec id name isBot s :
  let a := fst (spawnAgent id name isBot s) in
  a_id a = id /\ a_name a = name /\ a_isBot a = isBot /\ a_dead a = false /\
  a_aimX a = 0 /\ a_aimY a = 0 /\ a_boost a = false /\
  exists b, a_blobs a = [b] /\ freshBlob isBot b.
Proof.
  unfold spawnAgent, bind, ret, freshBlob, WORLD.
  destruct isBot; unfold bind, ret; repeat draw; cbn [fst snd];
    repeat (split; [reflexivity|]);
    eexists; (split; [reflexivity|]); cbn [b_x b_y b_vx b_vy b_mass b_r b_splitTimer];
    repeat split; try reflexivity; nra.
Qed.

(** ** Joining a room *)

Lemma spawnIn_spec room id name isBot e :
  let r := spawnIn room id name isBot e in
  let a := fst (fst r) in
  let room1 := snd (fst r) in
  r_agents room1 = r_agents room /\ r_code room1 = r_code room /\
  r_maxPlayers room1 = r_maxPlayers room /\
  r_pellets room1 = r_pellets room /\ r_viruses room1 = r_viruses room /\
  a_id a = id /\ a_name a = name /\ a_isBot a = isBot /\ a_dead a = false /\
  exists b, a_blobs a = [b] /\ freshBlob isBot b.
Proof.
  unfold spawnIn.
  pose proof (spawnAgent_spec id name isBot (mkSrc (r_rng room) e)) as H.
  destruct (spawnAgent id name isBot (mkSrc (r_rng room) e)) as [a s].
  cbn [fst snd] in *. cbn [setRng r_agents r_code r_maxPlayers r_pellets r_viruses].
  destruct H as (H1 & H2 & H3 & H4 & _ & _ & _ & H5).
  repeat (split; [first [reflexivity | assumption]|]). exact H5.
Qed.

(** The identity a join installs: the one the request gives, or a fresh one. *)
Definition joinId (base36 : R -> string) (req : JoinReq) (e : Env) : string :=
  match jq_id req with
  | EmptyString => ("p_" ++ base36 (mathRandomAt e (mrIdx e)))%string
  | _ => jq_id req
  end.

(** [humans >= room.maxPlayers] (line 945), as a proposition: it does not
    hold when [maxPlayers] is [NaN]. *)
Definition roomFull (room : Room) : Prop :=
  match r_maxPlayers room with
  | Fin m => m <= INR (humans (r_agents room))
  | NInf => True
  | PInf | NaN => False
  end.

Lemma roomFull_test room :
  Num.leb (r_maxPlayers room) (Fin (INR (humans (r_agents room)))) = true
  <-> roomFull room.
Proof.
  unfold roomFull. destruct (r_maxPlayers room); cbn [Num.leb];
    [apply Rleb_true| | |]; split; intros; try easy.
Qed.

Lemma roomFull_integer room (m : Z) :
  r_maxPlayers room = Fin (IZR m) ->
  (roomFull room <-> (m <= Z.of_nat (humans (r_agents room)))%Z).
Proof.
  intros H. unfold roomFull. rewrite H, INR_IZR_INZ. split.
  - apply le_IZR.
  - apply IZR_le.
Qed.

(** C10.  [/join] answers "Room not found" exactly when no room has the
    (upper-cased) code, and "Room full" exactly when the room exists and its
    number of human agents has reached [maxPlayers] (for a whole
    [maxPlayers], the comparison of two integers); a rejected join changes
    nothing.  In every other case it succeeds: a freshly spawned living
    human agent (one blob, mass 55, radius 36) is stored under the joining
    identity, the other identities keep their agents, and when the identity
    was already present (human or bot) its agent is replaced in place. *)
Theorem C10_join (base36 : R -> string) (rooms : Rooms) (req : JoinReq) (e : Env) :
  let code := toUpperCase (jq_code req) in
  let id := joinId base36 req e in
  let res := fst (fst (postJoin base36 rooms req e)) in
  let rooms' := snd (fst (postJoin base36 rooms req e)) in
  (res = JoinError "Room not found" <-> mapGet code rooms = None) /\
  (res = JoinError "Room full" <->
   exists room, mapGet code rooms = Some room /\ roomFull room) /\
  (forall room (m : Z),
      r_maxPlayers room = Fin (IZR m) ->
      (roomFull room <-> (m <= Z.of_nat (humans (r_agents room)))%Z)) /\
  ((exists msg, res = JoinError msg) -> rooms' = rooms) /\
  (forall room,
      mapGet code rooms = Some room ->
      ~ roomFull room ->
      res = JoinOk id code WORLD /\
      exists room' a b,
        mapGet code rooms' = Some room' /\
        mapGet id (r_agents room') = Some a /\
        a_id a = id /\ a_isBot a = false /\ a_dead a = false /\
        a_blobs a = [b] /\ b_mass b = 55 /\ b_r b = 36 /\
        (forall id', id' <> id ->
                     mapGet id' (r_agents room') = mapGet id' (r_agents room)) /\
        (mapGet id (r_agents room) <> None ->
         map fst (r_agents room') = map fst (r_agents room)) /\
        (mapGet id (r_agents room) = None ->
         map fst (r_agents room') = map fst (r_agents room) ++ [id])).
Proof.
  intros code id res rooms'. subst res rooms'.
  unfold postJoin.
  assert (Hcode : toUpperCase (orElse (jq_code req) "") = code).
  { unfold code, orElse. now destruct (jq_code req). }
  rewrite Hcode.
  set (ide := match jq_id req with
              | EmptyString => _
              | _ => _
              end).
  assert (Hid : fst ide = id).
  { unfold ide, id, joinId. now destruct (jq_id req). }
  destruct ide as [id0 e1]. cbn [fst] in Hid. subst id0.
  destruct (mapGet code rooms) as [room|] eqn:Hroom.
  - destruct (Num.leb (r_maxPlayers room) (Fin (INR (humans (r_agents room)))))
      eqn:Hfull.
    + apply roomFull_test in Hfull. cbn [fst snd].
      split; [split; discriminate|].
      split; [split; [intros _; now exists room | reflexivity]|].
      split; [exact roomFull_integer|].
      split; [reflexivity|].
      intros room0 H0 Hlt. injection H0 as <-. contradiction.
    + assert (Hnot : ~ roomFull room)
        by (intros Hf; apply roomFull_test in Hf; congruence).
      pose proof (spawnIn_spec room id (substring 0 14 (orElse (jq_name req) "Player"))
                               false e1) as Hsp.
      destruct (spawnIn room id (substring 0 14 (orElse (jq_name req) "Player")) false e1)
        as [[a room1] e2].
      cbn [fst snd] in *.
      destruct Hsp as (Hag & _ & _ & _ & _ & Ha1 & _ & Ha3 & Ha4 & b & Hb & Hfresh).
      split; [split; discriminate|].
      split; [split; [discriminate
                     | intros [room0 [H0 Hle]]; injection H0 as <-; contradiction]|].
      split; [exact roomFull_integer|].
      split; [intros [msg Hmsg]; discriminate|].
      intros room0 H0 _. injection H0 as <-.
      split; [reflexivity|].
      exists (setAgents room1 (mapSet id a (r_agents room1))), a, b.
      cbn [setAgents r_agents]. rewrite Hag.
      split; [apply mapGet_mapSet_same|].
      split; [apply mapGet_mapSet_same|].
      destruct Hfresh as (_ & _ & _ & _ & _ & Hm & Hr).
      repeat (split; [assumption|]).
      split; [intros id' Hne; now apply mapGet_mapSet_other|].
      split; [apply mapSet_keys_present|].
      intros Habs. rewrite (mapSet_absent _ _ _ Habs), map_app. reflexivity.
  - cbn [fst snd].
    split; [split; reflexivity|].
    split; [split; [discriminate | intros [room0 [H0 _]]; discriminate]|].
    split; [exact roomFull_integer|].
    split; [reflexivity|].
    intros room0 H0; discriminate.
Qed.

Lemma C10_join_witness :
  let bot := mkAgent "bot_0_ABC" "Nova" true (mkColor 70 70 70) false 0 0 false 0
                     [mkBlob 300 300 0 0 40 25 999] in
  let room := mkRoom "ABC" 1 1 (Fin 8) (Fin 1) 0 [("bot_0_ABC"%string, bot)] [] [] in
  let req := mkJoinReq "abc" "Ann" "bot_0_ABC" in
  let e := mkEnv (fun _ => 0) 0 (fun _ => 0) 0 in
  fst (fst (postJoin (fun _ => "x"%string) [("ABC"%string, room)] req e))
  = JoinOk "bot_0_ABC" "ABC" WORLD.
Proof.
  intros bot room req e.
  assert (Hlt : ~ roomFull room).
  { unfold roomFull, room, bot. cbn [r_maxPlayers r_agents humans filter snd a_isBot
      negb List.length INR]. lra. }
  exact (proj1 (proj2 (proj2 (proj2 (proj2
           (C10_join (fun _ => "x"%string) [("ABC"%string, room)] req e))))
           room eq_refl Hlt)).
Defined.

(** ** Engulfment *)

(** The two conditions of lines 894 and 898, as propositions. *)
Definition engulfs (e p : Blob) : Prop :=
  b_r e > b_r p * (112 / 100) /\
  hypot (b_x e - b_x p) (b_y e - b_y p) < b_r e - b_r p * (65 / 100).

Lemma engulfs_test e p :
  canEat (b_r e) (b_r p) &&
  canEngulf (b_x e) (b_y e) (b_r e) (b_x p) (b_y p) (b_r p) = true
  <-> engulfs e p.
Proof.
  unfold canEat, canEngulf, engulfs.
  rewrite andb_true_iff, Rgtb_true, Rltb_true. tauto.
Qed.

Lemma engulfs_exclusive a b : engulfs a b -> engulfs b a -> False.
Proof.
  intros [H1 H2] [H3 H4].
  pose proof (hypot_nonneg (b_x a - b_x b) (b_y a - b_y b)).
  pose proof (hypot_nonneg (b_x b - b_x a) (b_y b - b_y a)).
  lra.
Qed.

Lemma bite_AEatsB ab bb : bite ab bb = AEatsB <-> engulfs ab bb.
Proof.
  unfold bite. rewrite <- engulfs_test.
  destruct (canEat (b_r ab) (b_r bb) && canEngulf _ _ _ _ _ _); [tauto|].
  destruct (canEat (b_r bb) (b_r ab) && canEngulf _ _ _ _ _ _);
    split; discriminate.
Qed.

Lemma bite_BEatsA ab bb : bite ab bb = BEatsA <-> engulfs bb ab.
Proof.
  split.
  - unfold bite. rewrite <- (engulfs_test bb ab).
    destruct (canEat (b_r ab) (b_r bb) && canEngulf _ _ _ _ _ _); [discriminate|].
    destruct (canEat (b_r bb) (b_r ab) && canEngulf _ _ _ _ _ _);
      [reflexivity|discriminate].
  - intros H. unfold bite.
    destruct (canEat (b_r ab) (b_r bb) && canEngulf _ _ _ _ _ _) eqn:E.
    + apply engulfs_test in E. destruct (engulfs_exclusive _ _ E H).
    + apply engulfs_test in H. now rewrite H.
Qed.

(** The checks of the two loops that ended in a bite, in the order they
    were made, each with the indices [ai], [bi] and the two blobs as they
    were when tested.  The recursion is that of [innerLoop]/[outerLoop]. *)
Record BiteEvent := mkEvent {
  ev_bite : Bite; ev_ai : nat; ev_bi : nat; ev_ab : Blob; ev_bb : Blob
}.

Fixpoint innerTrace (ai n : nat) (ab : Blob) (bbs : list Blob) : list BiteEvent :=
  match n with
  | O => []
  | S bi =>
      match nth_error bbs bi with
      | None => innerTrace ai bi ab bbs
      | Some bb =>
          match bite ab bb with
          | AEatsB =>
              mkEvent AEatsB ai bi ab bb
              :: innerTrace ai bi (eat ab bb) (removeAt bi bbs)
          | BEatsA => [mkEvent BEatsA ai bi ab bb]
          | NoBite => innerTrace ai bi ab bbs
          end
      end
  end.

Fixpoint outerTrace (n : nat) (abs bbs : list Blob) : list BiteEvent :=
  match n with
  | O => []
  | S ai =>
      match nth_error abs ai with
      | None => outerTrace ai abs bbs
      | Some ab =>
          innerTrace ai (List.length bbs) ab bbs ++
          match innerLoop (List.length bbs) ab bbs with
          | (Some ab', bbs') => outerTrace ai (setAt ai ab' abs) bbs'
          | (None, bbs') => outerTrace ai (removeAt ai abs) bbs'
          end
      end
  end.

Definition pairTrace (A B : Agent) : list BiteEvent :=
  outerTrace (List.length (a_blobs A)) (a_blobs A) (a_blobs B).

Definition countBites (d : Bite) (tr : list BiteEvent) : nat :=
  List.length (filter (fun ev => match ev_bite ev, d with
                                 | AEatsB, AEatsB | BEatsA, BEatsA | NoBite, NoBite => true
                                 | _, _ => false
                                 end) tr).

(** A blob of [A] (identified by its index, which no removal before its own
    changes) that ate a blob of [B] and was eaten by a blob of [B]. *)
Definition eatsAndEaten (tr : list BiteEvent) : Prop :=
  exists e1 e2, In e1 tr /\ In e2 tr /\
    ev_bite e1 = AEatsB /\ ev_bite e2 = BEatsA /\ ev_ai e1 = ev_ai e2.

Lemma length_removeAt {A} (l : list A) : forall i,
  (i < List.length l)%nat -> List.length (removeAt i l) = (List.length l - 1)%nat.
Proof.
  induction l as [|a l IH]; intros [|i] H; cbn in *; try lia.
  rewrite IH; lia.
Qed.

Lemma length_setAt {A} (l : list A) : forall i v,
  List.length (setAt i v l) = List.length l.
Proof. induction l as [|a l IH]; intros [|i] v; cbn; auto. Qed.

Lemma nth_error_setAt_same {A} (l : list A) : forall i v,
  (i < List.length l)%nat -> nth_error (setAt i v l) i = Some v.
Proof.
  induction l as [|a l IH]; intros [|i] v H; cbn in *; try lia; auto.
  apply IH; lia.
Qed.

Lemma nth_error_setAt_other {A} (l : list A) : forall i j v,
  i <> j -> nth_error (setAt i v l) j = nth_error l j.
Proof.
  induction l as [|a l IH]; intros [|i] [|j] v H; cbn; auto; try congruence.
Qed.

Lemma map_setAt {A B} (f : A -> B) : forall l i v,
  map f (setAt i v l) = setAt i (f v) (map f l).
Proof. induction l as [|a l IH]; intros [|i] v; cbn; auto. now rewrite IH. Qed.

Lemma setAt_same {A} (l : list A) : forall i x,
  nth_error l i = Some x -> setAt i x l = l.
Proof.
  induction l as [|a l IH]; intros [|i] x H; cbn in *; try discriminate.
  - now injection H as ->.
  - now rewrite IH.
Qed.

Lemma In_setAt {A} (l : list A) : forall i v x,
  In x (setAt i v l) -> x = v \/ In x l.
Proof.
  induction l as [|a l IH]; intros [|i] v x H; cbn in *; auto.
  - destruct H; auto.
  - destruct H as [H|H]; auto. destruct (IH i v x H); auto.
Qed.

Lemma In_removeAt {A} (l : list A) : forall i x, In x (removeAt i l) -> In x l.
Proof.
  induction l as [|a l IH]; intros [|i] x H; cbn in *; auto.
  destruct H as [H|H]; eauto.
Qed.

(** Every event of the inner loop is a bite at index [ai] whose condition
    held on the blobs tested; a bite of [B] ends the loop. *)
Lemma innerTrace_events ai : forall n ab bbs ev,
  In ev (innerTrace ai n ab bbs) ->
  ev_ai ev = ai /\
  ((ev_bite ev = AEatsB /\ engulfs (ev_ab ev) (ev_bb ev)) \/
   (ev_bite ev = BEatsA /\ engulfs (ev_bb ev) (ev_ab ev))).
Proof.
  induction n as [|bi IH]; intros ab bbs ev H; cbn [innerTrace] in H; [easy|].
  destruct (nth_error bbs bi) as [bb|]; [|eauto].
  destruct (bite ab bb) eqn:E.
  - destruct H as [<-|H]; [|eauto]. cbn. split; [reflexivity|].
    left. split; [reflexivity|]. now apply bite_AEatsB.
  - destruct H as [<-|[]]. cbn. split; [reflexivity|].
    right. split; [reflexivity|]. now apply bite_BEatsA.
  - eauto.
Qed.

Lemma innerTrace_eaten_last ai : forall n ab bbs l1 ev l2,
  innerTrace ai n ab bbs = l1 ++ ev :: l2 -> ev_bite ev = BEatsA -> l2 = [].
Proof.
  induction n as [|bi IH]; intros ab bbs l1 ev l2 H Hev; cbn [innerTrace] in H.
  - destruct l1; discriminate.
  - destruct (nth_error bbs bi) as [bb|]; [|eauto].
    destruct (bite ab bb) eqn:E; [| |eauto].
    + destruct l1 as [|e0 l1]; cbn in H; injection H as H0 H.
      * subst ev. discriminate.
      * eauto.
    + destruct l1 as [|e0 l1]; cbn in H; injection H as H0 H.
      * now subst.
      * destruct l1; discriminate.
Qed.

Lemma outerTrace_index : forall n abs bbs ev,
  In ev (outerTrace n abs bbs) -> (ev_ai ev < n)%nat.
Proof.
  induction n as [|ai IH]; intros abs bbs ev H; cbn [outerTrace] in H; [easy|].
  destruct (nth_error abs ai) as [ab|].
  - apply in_app_or in H. destruct H as [H|H].
    + apply innerTrace_events in H. lia.
    + destruct (innerLoop (List.length bbs) ab bbs) as [[ab'|] bbs'];
        apply IH in H; lia.
  - apply IH in H. lia.
Qed.

Lemma outerTrace_events : forall n abs bbs ev,
  In ev (outerTrace n abs bbs) ->
  (ev_bite ev = AEatsB /\ engulfs (ev_ab ev) (ev_bb ev)) \/
  (ev_bite ev = BEatsA /\ engulfs (ev_bb ev) (ev_ab ev)).
Proof.
  induction n as [|ai IH]; intros abs bbs ev H; cbn [outerTrace] in H; [easy|].
  destruct (nth_error abs ai) as [ab|]; [|eauto].
  apply in_app_or in H. destruct H as [H|H].
  - now apply innerTrace_events in H.
  - destruct (innerLoop (List.length bbs) ab bbs) as [[ab'|] bbs']; eauto.
Qed.

(** Once a blob of [A] is eaten, no later check involves its index. *)
Lemma outerTrace_eaten_gone : forall n abs bbs l1 ev l2,
  outerTrace n abs bbs = l1 ++ ev :: l2 -> ev_bite ev = BEatsA ->
  forall ev', In ev' l2 -> (ev_ai ev' < ev_ai ev)%nat.
Proof.
  induction n as [|ai IH]; intros abs bbs l1 ev l2 H Hev ev' Hin;
    cbn [outerTrace] in H.
  - destruct l1; discriminate.
  - destruct (nth_error abs ai) as [ab|]; [|eauto].
    set (rest := match innerLoop (List.length bbs) ab bbs with
                 | (Some ab', bbs') => outerTrace ai (setAt ai ab' abs) bbs'
                 | (None, bbs') => outerTrace ai (removeAt ai abs) bbs'
                 end) in *.
    assert (Hrest : forall l1' l2', rest = l1' ++ ev :: l2' ->
                    forall ev', In ev' l2' -> (ev_ai ev' < ev_ai ev)%nat).
    { intros l1' l2' Hr. unfold rest in Hr.
      destruct (innerLoop (List.length bbs) ab bbs) as [[ab'|] bbs']; eauto. }
    assert (Hlt : forall e, In e rest -> (ev_ai e < ai)%nat).
    { intros e He. unfold rest in He.
      destruct (innerLoop (List.length bbs) ab bbs) as [[ab'|] bbs'];
        now apply outerTrace_index in He. }
    remember (innerTrace ai (List.length bbs) ab bbs) as tr eqn:Htr.
    symmetry in Htr.
    (* where does [ev] fall: in the inner trace or in the rest? *)
    assert (Hsplit : (exists l2a, tr = l1 ++ ev :: l2a /\ l2 = l2a ++ rest) \/
                     (exists l1b, l1 = tr ++ l1b /\ rest = l1b ++ ev :: l2)).
    { clear -H. revert l1 H. induction tr as [|t tr IHt]; intros l1 H.
      - right. exists l1. now split.
      - destruct l1 as [|x l1]; cbn in H; injection H as -> H.
        + left. exists tr. now split.
        + destruct (IHt l1 H) as [[l2a [-> ->]]|[l1b [-> ->]]].
          * left. exists l2a. now split.
          * right. exists l1b. now split. }
    destruct Hsplit as [[l2a [Ha ->]]|[l1b [-> Hb]]].
    + rewrite Ha in Htr.
      pose proof (innerTrace_eaten_last _ _ _ _ _ _ _ Htr Hev). subst l2a.
      assert (ev_ai ev = ai).
      { apply (innerTrace_events ai (List.length bbs) ab bbs).
        rewrite Htr. apply in_elt. }
      cbn in Hin. apply Hlt in Hin. lia.
    + eapply Hrest; eauto.
Qed.

Lemma countBites_app d l1 l2 :
  countBites d (l1 ++ l2) = (countBites d l1 + countBites d l2)%nat.
Proof. unfold countBites. now rewrite filter_app, length_app. Qed.

(** Each bite removes the eaten blob from its collection at once: the
    collections shrink by the number of bites against them. *)
Lemma innerLoop_counts ai : forall n ab bbs,
  (n <= List.length bbs)%nat ->
  let tr := innerTrace ai n ab bbs in
  let res := innerLoop n ab bbs in
  (List.length (snd res) + countBites AEatsB tr = List.length bbs)%nat /\
  (match fst res with
   | Some _ => countBites BEatsA tr = 0
   | None => countBites BEatsA tr = 1
   end)%nat.
Proof.
  induction n as [|bi IH]; intros ab bbs Hn; cbn [innerTrace innerLoop].
  - cbn. split; [lia|reflexivity].
  - destruct (nth_error bbs bi) as [bb|] eqn:Eb.
    2:{ apply nth_error_None in Eb. lia. }
    destruct (bite ab bb).
    + assert (Hl : List.length (removeAt bi bbs) = (List.length bbs - 1)%nat)
        by (apply length_removeAt; lia).
      destruct (IH (eat ab bb) (removeAt bi bbs) ltac:(lia)) as [H1 H2].
      cbn zeta in *. split.
      * unfold countBites in *. cbn [filter ev_bite List.length]. lia.
      * unfold countBites in *. cbn [filter ev_bite]. exact H2.
    + cbn. rewrite length_setAt. split; [lia|reflexivity].
    + apply IH. lia.
Qed.

Lemma outerLoop_counts : forall n abs bbs,
  (n <= List.length abs)%nat ->
  let tr := outerTrace n abs bbs in
  let res := outerLoop n abs bbs in
  (List.length (fst res) + countBites BEatsA tr = List.length abs)%nat /\
  (List.length (snd res) + countBites AEatsB tr = List.length bbs)%nat.
Proof.
  induction n as [|ai IH]; intros abs bbs Hn; cbn [outerTrace outerLoop].
  - cbn. lia.
  - destruct (nth_error abs ai) as [ab|] eqn:Ea.
    2:{ apply nth_error_None in Ea. lia. }
    pose proof (innerLoop_counts ai (List.length bbs) ab bbs (le_n _)) as Hin.
    cbn zeta in Hin.
    destruct (innerLoop (List.length bbs) ab bbs) as [[ab'|] bbs'];
      cbn [fst snd] in Hin; destruct Hin as [Hb Ha]; rewrite !countBites_app.
    + destruct (IH (setAt ai ab' abs) bbs') as [H1 H2].
      { rewrite length_setAt. lia. }
      cbn zeta in *. rewrite length_setAt in H1. lia.
    + destruct (IH (removeAt ai abs) bbs') as [H1 H2].
      { rewrite length_removeAt; lia. }
      cbn zeta in *. rewrite length_removeAt in H1 by lia. lia.
Qed.

(** What an eater gains (lines 895-896): the eaten mass times the
    eaten/eater ratio clamped to [0.12, 0.50], through [grow]. *)
Lemma eat_ratio eater eaten :
  1 <= b_mass eater ->
  eat eater eaten =
  grow eater (b_mass eaten *
              clamp (b_mass eaten / b_mass eater) (12 / 100) (50 / 100)).
Proof.
  intros H. unfold eat. rewrite Rmax_right by assumption. reflexivity.
Qed.

(** C9 (amended).  Within one check of a blob of [A] against a blob of [B]
    at most one of the two eats the other: the two conditions exclude each
    other.  In the processing of an agent pair every bite satisfies its
    condition, and once a blob of [A] is eaten no later check involves it. *)
Theorem C9_one_direction_per_check :
  (forall ab bb, ~ (engulfs ab bb /\ engulfs bb ab)) /\
  (forall ab bb, (bite ab bb = AEatsB <-> engulfs ab bb) /\
                 (bite ab bb = BEatsA <-> engulfs bb ab)) /\
  (forall A B l1 ev l2,
      pairTrace A B = l1 ++ ev :: l2 -> ev_bite ev = BEatsA ->
      forall ev', In ev' l2 -> (ev_ai ev' < ev_ai ev)%nat).
Proof.
  split; [|split].
  - intros ab bb [H1 H2]. exact (engulfs_exclusive _ _ H1 H2).
  - intros ab bb. split; [apply bite_AEatsB | apply bite_BEatsA].
  - intros A B l1 ev l2. unfold pairTrace. apply outerTrace_eaten_gone.
Qed.

(** The scenario against C9 as stated: [A] has one blob, which first eats
    the small blob of [B] and is then eaten by the large one.  Every blob
    is at or above the floors (radius 14, mass 10). *)
Definition c9_ab : Blob := mkBlob 0 0 0 0 100 50 0.
Definition c9_small : Blob := mkBlob 0 0 0 0 20 14 0.
Definition c9_big : Blob := mkBlob 0 0 0 0 400 100 0.
Definition c9_A : Agent :=
  mkAgent "a" "A" false (mkColor 70 70 70) false 0 0 false 0 [c9_ab].
Definition c9_B : Agent :=
  mkAgent "b" "B" false (mkColor 70 70 70) false 0 0 false 0 [c9_big; c9_small].

(** Decides the comparisons of a closed expression over concrete numbers. *)
Ltac rdecide :=
  unfold clamp, Rmax, Rmin, Rgtb, Rgeb, Rltb, Rleb in *;
  repeat match goal with
         | |- context [Rle_dec ?a ?b] =>
             first [ assert (a <= b) by lra;
                     destruct (Rle_dec a b); [|exfalso; lra]
                   | assert (~ a <= b) by lra;
                     destruct (Rle_dec a b); [exfalso; lra|] ]
         | |- context [Rlt_dec ?a ?b] =>
             first [ assert (a < b) by lra;
                     destruct (Rlt_dec a b); [|exfalso; lra]
                   | assert (~ a < b) by lra;
                     destruct (Rlt_dec a b); [exfalso; lra|] ]
         end.

Lemma hypot_same x y : hypot (x - x) (y - y) = 0.
Proof.
  replace (x - x) with 0 by lra. replace (y - y) with 0 by lra. apply hypot_0.
Qed.

Lemma c9_first : bite c9_ab c9_small = AEatsB.
Proof.
  apply bite_AEatsB. unfold engulfs, c9_ab, c9_small; cbn [b_x b_y b_r].
  rewrite hypot_same. lra.
Qed.

Lemma c9_grown : eat c9_ab c9_small = mkBlob 0 0 0 0 104 (5088 / 100) 0.
Proof.
  unfold eat, grow, growPenalty, c9_ab, c9_small;
    cbn [b_x b_y b_vx b_vy b_mass b_r b_splitTimer].
  rdecide. f_equal; lra.
Qed.

Lemma c9_second : bite (eat c9_ab c9_small) c9_big = BEatsA.
Proof.
  rewrite c9_grown. apply bite_BEatsA.
  unfold engulfs, c9_big; cbn [b_x b_y b_r]. rewrite hypot_same. lra.
Qed.

Lemma c9_inner :
  innerLoop 2 c9_ab [c9_big; c9_small]
  = (None, [eat c9_big (eat c9_ab c9_small)]).
Proof.
  cbn [innerLoop nth_error]. rewrite c9_first.
  cbn [innerLoop removeAt nth_error]. rewrite c9_second. reflexivity.
Qed.

Lemma c9_trace :
  pairTrace c9_A c9_B =
  [mkEvent AEatsB 0 1 c9_ab c9_small;
   mkEvent BEatsA 0 0 (eat c9_ab c9_small) c9_big].
Proof.
  unfold pairTrace, c9_A, c9_B.
  cbn [a_blobs List.length outerTrace nth_error].
  rewrite c9_inner.
  cbn [innerTrace nth_error]. rewrite c9_first.
  cbn [innerTrace removeAt nth_error]. rewrite c9_second. reflexivity.
Qed.

(** C9, as stated, fails: in the processing of the pair [(c9_A, c9_B)],
    whose blobs are all at or above the floors of radius and mass, the blob
    of [A] eats a blob of [B] and is eaten by another blob of [B]; at the
    end [A] has no blob left and [B] has lost its small blob. *)
Lemma C9_eats_and_is_eaten :
  Forall (fun b => 14 <= b_r b /\ 10 <= b_mass b)
         (a_blobs c9_A ++ a_blobs c9_B) /\
  eatsAndEaten (pairTrace c9_A c9_B) /\
  a_blobs (fst (engulfPair c9_A c9_B)) = [] /\
  a_blobs (snd (engulfPair c9_A c9_B)) = [eat c9_big (eat c9_ab c9_small)].
Proof.
  split.
  { unfold c9_A, c9_B, c9_ab, c9_big, c9_small. cbn [a_blobs app].
    repeat constructor; cbn [b_r b_mass]; lra. }
  split.
  - rewrite c9_trace.
    exists (mkEvent AEatsB 0 1 c9_ab c9_small),
           (mkEvent BEatsA 0 0 (eat c9_ab c9_small) c9_big).
    cbn; auto 10.
  - unfold engulfPair, c9_A, c9_B.
    cbn [a_blobs List.length outerLoop nth_error].
    rewrite c9_inner. cbn. auto.
Qed.

Lemma C9_one_direction_per_check_witness :
  pairTrace c9_A c9_B =
  [mkEvent AEatsB 0 1 c9_ab c9_small] ++
  mkEvent BEatsA 0 0 (eat c9_ab c9_small) c9_big :: [] /\
  (forall ev', In ev' [] ->
               (ev_ai ev' < ev_ai (mkEvent BEatsA 0 0 (eat c9_ab c9_small) c9_big))%nat).
Proof.
  split; [exact c9_trace|].
  exact (proj2 (proj2 C9_one_direction_per_check) c9_A c9_B
               [mkEvent AEatsB 0 1 c9_ab c9_small]
               (mkEvent BEatsA 0 0 (eat c9_ab c9_small) c9_big) []
               c9_trace eq_refl).
Defined.

(* ------------------------------------------------------------------ *)
(** ** Invariants of the blobs *)

(** [P] holds of every blob of the agents whose [dead] flag satisfies [g]:
    of every agent, or of every living agent. *)
Definition guardedBlobs (g : bool -> Prop) (P : Blob -> Prop) (agents : AgentMap)
  : Prop :=
  Forall (fun ka => g (a_dead (snd ka)) -> Forall P (a_blobs (snd ka))) agents.

Definition allBlobs (P : Blob -> Prop) : AgentMap -> Prop :=
  guardedBlobs (fun _ => True) P.

Definition liveBlobs (P : Blob -> Prop) : AgentMap -> Prop :=
  guardedBlobs (fun d => d = false) P.

Lemma allBlobs_live P agents : allBlobs P agents -> liveBlobs P agents.
Proof.
  unfold allBlobs, liveBlobs, guardedBlobs. apply Forall_impl. auto.
Qed.

Lemma guardedBlobs_impl g (P Q : Blob -> Prop) agents :
  (forall b, P b -> Q b) -> guardedBlobs g P agents -> guardedBlobs g Q agents.
Proof.
  intros H. unfold guardedBlobs. apply Forall_impl. intros ka H1 H2.
  specialize (H1 H2). revert H1. apply Forall_impl. exact H.
Qed.

Lemma allBlobs_In P agents k a b :
  allBlobs P agents -> In (k, a) agents -> In b (a_blobs a) -> P b.
Proof.
  unfold allBlobs, guardedBlobs. rewrite Forall_forall. intros H Hin Hb.
  specialize (H (k, a) Hin I). rewrite Forall_forall in H. now apply H.
Qed.

Lemma Forall_setAt {A} (P : A -> Prop) (l : list A) : forall i v,
  P v -> Forall P l -> Forall P (setAt i v l).
Proof.
  induction l as [|a l IH]; intros [|i] v Hv H; cbn; auto;
    inversion H; subst; constructor; auto.
Qed.

Lemma Forall_removeAt {A} (P : A -> Prop) (l : list A) : forall i,
  Forall P l -> Forall P (removeAt i l).
Proof.
  induction l as [|a l IH]; intros [|i] H; cbn; auto;
    inversion H; subst; auto.
Qed.

Lemma Forall_nth_error {A} (P : A -> Prop) (l : list A) i x :
  Forall P l -> nth_error l i = Some x -> P x.
Proof.
  intros H Hn. rewrite Forall_forall in H. apply H.
  eapply nth_error_In; eauto.
Qed.

Lemma Forall_mapSet {V} (P : string * V -> Prop) k (v : V) m :
  (forall k', P (k', v)) -> Forall P m -> Forall P (mapSet k v m).
Proof.
  intros Hv. induction m as [|[k0 v0] m IH]; intros H; cbn.
  - constructor; auto.
  - inversion H; subst. destruct (String.eqb k0 k); constructor; auto.
Qed.

(** A loop keeps what each of its iterations keeps. *)
Lemma foldM_inv {A S} (I : S -> Prop) (f : S -> A -> M S) (l : list A) :
  (forall st a s, I st -> I (fst (f st a s))) ->
  forall st s, I st -> I (fst (foldM f l st s)).
Proof.
  intros Hf. induction l as [|a l IH]; intros st s Hst; cbn [foldM].
  - exact Hst.
  - unfold bind. specialize (Hf st a s Hst).
    destruct (f st a s) as [st' s']. cbn [fst] in Hf. now apply IH.
Qed.

(** The two floors. *)
Definition radiusOk (b : Blob) : Prop := 14 <= b_r b /\ 0 <= b_mass b.
Definition massOk (b : Blob) : Prop := 10 <= b_mass b.

Lemma grow_mass_ge b amount : 0 <= amount -> b_mass b <= b_mass (grow b amount).
Proof.
  intros H. unfold grow; cbn [b_mass].
  pose proof (growPenalty_range (b_mass b)). nra.
Qed.

Lemma grow_r_ge b amount : 0 <= amount -> b_r b <= b_r (grow b amount).
Proof.
  intros H. unfold grow; cbn [b_r].
  pose proof (growPenalty_range (b_mass b)). nra.
Qed.

Lemma grow_radiusOk b amount : 0 <= amount -> radiusOk b -> radiusOk (grow b amount).
Proof.
  intros H [H1 H2]. pose proof (grow_mass_ge b amount H).
  pose proof (grow_r_ge b amount H). split; lra.
Qed.

Lemma eat_amount_nonneg eater eaten :
  0 <= b_mass eaten ->
  0 <= b_mass eaten *
       clamp (b_mass eaten / Rmax 1 (b_mass eater)) (12 / 100) (50 / 100).
Proof.
  intros H.
  pose proof (clamp_lo (b_mass eaten / Rmax 1 (b_mass eater)) (12 / 100) (50 / 100)).
  nra.
Qed.

Lemma eat_radiusOk eater eaten :
  radiusOk eater -> radiusOk eaten -> radiusOk (eat eater eaten).
Proof.
  intros He [_ Hm]. unfold eat. apply grow_radiusOk; [|assumption].
  now apply eat_amount_nonneg.
Qed.

Lemma eat_mass_ge eater eaten :
  0 <= b_mass eaten -> b_mass eater <= b_mass (eat eater eaten).
Proof.
  intros H. unfold eat. apply grow_mass_ge. now apply eat_amount_nonneg.
Qed.

(** *** Movement and decay *)

Lemma decayBlob_floors a total b :
  10 <= b_mass (decayBlob a total b) /\ 14 <= b_r (decayBlob a total b).
Proof.
  unfold decayBlob.
  destruct (negb (a_isBot a) && a_boost a); cbn [b_mass b_r];
    split; apply Rmax_l.
Qed.

Lemma moveBlob_floors a total b :
  10 <= b_mass (moveBlob a total b) /\ 14 <= b_r (moveBlob a total b).
Proof. unfold moveBlob. apply decayBlob_floors. Qed.

Lemma movePhase_live agents :
  liveBlobs (fun b => massOk b /\ radiusOk b) (movePhase agents).
Proof.
  unfold liveBlobs, guardedBlobs, movePhase. rewrite Forall_map. rewrite Forall_forall.
  intros [k a] _. cbn [fst snd]. unfold moveAgent.
  destruct (a_dead a) eqn:Ed; [congruence|]. intros _.
  cbn [setBlobs a_blobs]. rewrite Forall_map. rewrite Forall_forall.
  intros b _. pose proof (moveBlob_floors a (agentMass a) b) as [H1 H2].
  unfold massOk, radiusOk. repeat split; lra.
Qed.

Lemma movePhase_all agents :
  allBlobs radiusOk agents -> allBlobs radiusOk (movePhase agents).
Proof.
  unfold allBlobs, guardedBlobs, movePhase. intros H. rewrite Forall_map.
  revert H. apply Forall_impl. intros [k a]; cbn [fst snd]. intros H _.
  specialize (H I).
  unfold moveAgent. destruct (a_dead a); [assumption|].
  cbn [setBlobs a_blobs]. rewrite Forall_map. rewrite Forall_forall.
  intros b _. pose proof (moveBlob_floors a (agentMass a) b) as [H1 H2].
  unfold radiusOk. split; lra.
Qed.

(** *** Pellets *)

Definition pelletOk (p : Pellet) : Prop := (1 <= p_v p)%Z.

(** [P] is kept by every growth by a non-negative amount. *)
Definition growClosed (P : Blob -> Prop) : Prop :=
  forall b amount, 0 <= amount -> P b -> P (grow b amount).

Lemma radiusOk_growClosed : growClosed radiusOk.
Proof. intros b amount H. now apply grow_radiusOk. Qed.

Lemma massAtLeast_growClosed c : growClosed (fun b => c <= b_mass b).
Proof. intros b amount H Hb. pose proof (grow_mass_ge b amount H). lra. Qed.

Lemma and_growClosed P Q :
  growClosed P -> growClosed Q -> growClosed (fun b => P b /\ Q b).
Proof. intros HP HQ b amount H [H1 H2]. split; [apply HP | apply HQ]; auto. Qed.

Lemma eatPellets_inv P b pellets :
  growClosed P -> Forall pelletOk pellets -> P b ->
  P (fst (eatPellets b pellets)) /\ Forall pelletOk (snd (eatPellets b pellets)).
Proof.
  intros HP Hps Hb. induction pellets as [|p rest IH]; cbn [eatPellets].
  - cbn. auto.
  - inversion Hps as [|? ? Hp Hrest]; subst. specialize (IH Hrest).
    destruct (eatPellets b rest) as [b1 rest']. cbn [fst snd] in IH.
    destruct IH as [IH1 IH2].
    destruct (Rltb _ _); cbn [fst snd].
    + split; [|assumption]. apply HP; [|assumption].
      unfold pelletOk in Hp. apply IZR_le in Hp. lra.
    + split; [assumption|]. constructor; assumption.
Qed.

Lemma eatBlobs_inv P :
  growClosed P -> forall blobs pellets,
  Forall pelletOk pellets -> Forall P blobs ->
  Forall P (fst (eatBlobs blobs pellets)) /\
  Forall pelletOk (snd (eatBlobs blobs pellets)).
Proof.
  intros HP. induction blobs as [|b bs IH]; intros pellets Hps Hbs; cbn [eatBlobs].
  - cbn. auto.
  - inversion Hbs as [|? ? Hb Hrest]; subst.
    pose proof (eatPellets_inv P b pellets HP Hps Hb) as [H1 H2].
    destruct (eatPellets b pellets) as [b' ps1]. cbn [fst snd] in *.
    specialize (IH ps1 H2 Hrest).
    destruct (eatBlobs bs ps1) as [bs' ps2]. cbn [fst snd] in *.
    destruct IH. split; [constructor|]; assumption.
Qed.

Lemma eatPhase_pellets : forall agents pellets,
  Forall pelletOk pellets -> Forall pelletOk (snd (eatPhase agents pellets)).
Proof.
  induction agents as [|[k a] rest IH]; intros pellets Hps; cbn [eatPhase].
  - assumption.
  - destruct (a_dead a).
    + specialize (IH pellets Hps). destruct (eatPhase rest pellets). assumption.
    + pose proof (eatBlobs_inv (fun _ => True) (fun _ _ _ _ => I)
                               (a_blobs a) pellets Hps) as [_ H2].
      { apply Forall_forall. auto. }
      destruct (eatBlobs (a_blobs a) pellets) as [blobs' ps1]. cbn [snd] in H2.
      specialize (IH ps1 H2). destruct (eatPhase rest ps1). assumption.
Qed.

Lemma eatPhase_inv g P :
  growClosed P -> forall agents pellets,
  Forall pelletOk pellets -> guardedBlobs g P agents ->
  guardedBlobs g P (fst (eatPhase agents pellets)).
Proof.
  intros HP. unfold guardedBlobs.
  induction agents as [|[k a] rest IH]; intros pellets Hps Hag; cbn [eatPhase].
  - constructor.
  - inversion Hag as [|? ? Ha Hrest]; subst. cbn [snd] in Ha.
    destruct (a_dead a) eqn:Ed.
    + specialize (IH pellets Hps Hrest). destruct (eatPhase rest pellets).
      cbn [fst] in *. constructor; [|assumption]. cbn [snd]. now rewrite Ed.
    + destruct (eatBlobs (a_blobs a) pellets) as [blobs' ps1] eqn:Eb.
      assert (Hps1 : Forall pelletOk ps1).
      { pose proof (eatBlobs_inv (fun _ => True) (fun _ _ _ _ => I)
                                 (a_blobs a) pellets Hps) as [_ H2].
        { apply Forall_forall. auto. }
        now rewrite Eb in H2. }
      specialize (IH ps1 Hps1 Hrest). destruct (eatPhase rest ps1).
      cbn [fst] in *. constructor; [|assumption].
      cbn [snd setBlobs a_dead a_blobs]. rewrite Ed. intros Hg.
      pose proof (eatBlobs_inv P HP (a_blobs a) pellets Hps (Ha Hg)) as [H1 _].
      now rewrite Eb in H1.
Qed.

Lemma newPellet_ok s : pelletOk (fst (newPellet s)).
Proof.
  unfold newPellet, bind, ret. repeat draw. cbn [fst]. unfold pelletOk; cbn [p_v].
  assert (0 <= Zfloor (v2 * 2))%Z; [|lia].
  apply Zfloor_lub. cbn. lra.
Qed.

Lemma pushPellets_ok : forall n pellets s,
  Forall pelletOk pellets -> Forall pelletOk (fst (pushPellets n pellets s)).
Proof.
  induction n as [|n IH]; intros pellets s H; cbn [pushPellets].
  - assumption.
  - unfold bind. pose proof (newPellet_ok s) as Hp.
    destruct (newPellet s) as [p s']. cbn [fst] in Hp.
    apply IH. apply Forall_app. split; [assumption|]. constructor; auto.
Qed.

(** *** Viruses *)

Lemma INR_pieces : INR pieces = 8.
Proof. unfold pieces. cbn. lra. Qed.

(** What the pop branch pushes: [k] fragments of the given mass and radius,
    each with a zero split timer, after the blobs already there. *)
Definition isFragment (pieceMass pieceR : R) (f : Blob) : Prop :=
  b_mass f = pieceMass /\ b_r f = pieceR /\ b_splitTimer f = 0.

Lemma pushFragments_app : forall k b pm pr blobs s,
  exists frags,
    fst (pushFragments k b pm pr blobs s) = blobs ++ frags /\
    List.length frags = k /\ Forall (isFragment pm pr) frags.
Proof.
  induction k as [|k IH]; intros b pm pr blobs s; cbn [pushFragments].
  - exists []. cbn. rewrite app_nil_r. auto.
  - unfold bind at 1.
    destruct (fragment b pm pr s) as [f s'] eqn:Ef.
    assert (Hf : isFragment pm pr f).
    { revert Ef. unfold fragment, bind, ret. repeat draw.
      intros [= <- _]. repeat split. }
    destruct (IH b pm pr (blobs ++ [f]) s') as [frags [H1 [H2 H3]]].
    exists (f :: frags). rewrite H1, <- app_assoc. cbn.
    split; [reflexivity|]. split; [lia|]. constructor; assumption.
Qed.

Lemma nth_error_removeAt_before {A} (l : list A) : forall i j,
  (j < i)%nat -> nth_error (removeAt i l) j = nth_error l j.
Proof.
  induction l as [|a l IH]; intros [|i] [|j] H; cbn; auto; try lia.
  apply IH. lia.
Qed.

Section VirusInvariant.
Variables P Q : Blob -> Prop.
Hypothesis HPQ : forall b, P b -> Q b.
Hypothesis Hbounce : forall b v, P b -> P (bounce b v).
Hypothesis Hfrag :
  forall b f, P b ->
    isFragment (b_mass b / INR pieces) (Rmax 14 (b_r b / sqrt (INR pieces))) f ->
    Q f.

(** The state of the virus loop at index [bi]: [b] is a blob as the loop
    found it, and the blobs before [bi] are still as the phase found them. *)
Definition virusInv (bi : nat) (st : Blob * list Blob) : Prop :=
  P (fst st) /\ Forall Q (snd st) /\ (bi < List.length (snd st))%nat /\
  forall j bj, (j < bi)%nat -> nth_error (snd st) j = Some bj -> P bj.

Lemma virusHit_inv bi st v s :
  virusInv bi st -> virusInv bi (fst (virusHit bi st v s)).
Proof.
  destruct st as [b blobs]. intros (Hb & Hall & Hlen & Hpre). cbn [fst snd] in *.
  unfold virusHit.
  destruct (Rltb _ _); [|now repeat split].
  destruct (Rgeb (b_r b) 62).
  - unfold bind, ret.
    destruct (pushFragments_app pieces b (b_mass b / INR pieces)
                (Rmax 14 (b_r b / sqrt (INR pieces))) (removeAt bi blobs) s)
      as [frags [H1 [H2 H3]]].
    destruct (pushFragments pieces b _ _ (removeAt bi blobs) s) as [blobs' s'].
    cbn [fst snd] in *. subst blobs'.
    assert (Hl : List.length (removeAt bi blobs) = (List.length blobs - 1)%nat)
      by now apply length_removeAt.
    unfold virusInv; cbn [fst snd].
    split; [assumption|]. split; [|split].
    + apply Forall_app. split; [now apply Forall_removeAt|].
      revert H3. apply Forall_impl. intros f. now apply Hfrag.
    + rewrite length_app, Hl, H2. unfold pieces. lia.
    + intros j bj Hj. rewrite nth_error_app1 by lia.
      rewrite nth_error_removeAt_before by assumption. now apply Hpre.
  - unfold ret, virusInv. cbn [fst snd]. split; [now apply Hbounce|]. split; [|split].
    + apply Forall_setAt; [|assumption]. apply HPQ. now apply Hbounce.
    + now rewrite length_setAt.
    + intros j bj Hj. rewrite nth_error_setAt_other by lia. now apply Hpre.
Qed.

Lemma virusBlob_inv viruses blobs bi s :
  Forall Q blobs ->
  (forall j bj, (j < S bi)%nat -> nth_error blobs j = Some bj -> P bj) ->
  let blobs' := fst (virusBlob viruses blobs bi s) in
  Forall Q blobs' /\
  (forall j bj, (j < bi)%nat -> nth_error blobs' j = Some bj -> P bj).
Proof.
  intros Hall Hpre. unfold virusBlob.
  destruct (nth_error blobs bi) as [b|] eqn:Eb.
  - unfold bind, ret.
    assert (Hinv : virusInv bi (b, blobs)).
    { split; [apply (Hpre bi); [lia|assumption]|]. split; [assumption|].
      split; [apply nth_error_Some; cbn; congruence|].
      intros j bj Hj. apply Hpre. lia. }
    pose proof (foldM_inv (virusInv bi) (virusHit bi) viruses
                  (fun st v s => virusHit_inv bi st v s) (b, blobs) s Hinv) as H.
    destruct (foldM (virusHit bi) viruses (b, blobs) s) as [st s'].
    cbn [fst snd] in *. destruct H as (_ & H1 & _ & H2). split; assumption.
  - cbn. split; [assumption|]. intros j bj Hj. apply Hpre. lia.
Qed.

Lemma virusBlobs_inv viruses : forall n blobs s,
  Forall Q blobs ->
  (forall j bj, (j < n)%nat -> nth_error blobs j = Some bj -> P bj) ->
  Forall Q (fst (virusBlobs viruses n blobs s)).
Proof.
  induction n as [|bi IH]; intros blobs s Hall Hpre; cbn [virusBlobs].
  - assumption.
  - unfold bind.
    pose proof (virusBlob_inv viruses blobs bi s Hall Hpre) as H.
    destruct (virusBlob viruses blobs bi s) as [blobs' s'].
    cbn [fst] in H. destruct H. now apply IH.
Qed.

Lemma virusPhase_inv g viruses : forall agents s,
  guardedBlobs g P agents ->
  guardedBlobs g Q (fst (virusPhase viruses agents s)).
Proof.
  unfold guardedBlobs.
  induction agents as [|[k a] rest IH]; intros s H; cbn [virusPhase].
  - constructor.
  - inversion H as [|? ? Ha Hrest]; subst. cbn [snd] in Ha.
    unfold bind at 1. unfold virusAgent at 1. cbn [fst snd].
    destruct (a_dead a) eqn:Ed.
    + unfold ret at 1. unfold bind, ret.
      specialize (IH s Hrest). destruct (virusPhase viruses rest s).
      cbn [fst] in *. constructor; [|assumption].
      cbn [snd]. rewrite Ed. intros Hg. specialize (Ha Hg).
      revert Ha. apply Forall_impl. exact HPQ.
    + unfold bind at 1.
      destruct (virusBlobs viruses (List.length (a_blobs a)) (a_blobs a) s)
        as [blobs' s1] eqn:Eb.
      unfold ret at 1. unfold bind, ret.
      specialize (IH s1 Hrest). destruct (virusPhase viruses rest s1).
      cbn [fst] in *. constructor; [|assumption].
      cbn [snd setBlobs a_dead a_blobs]. rewrite Ed. intros Hg. specialize (Ha Hg).
      pose proof (virusBlobs_inv viruses (List.length (a_blobs a)) (a_blobs a) s) as H1.
      rewrite Eb in H1. apply H1.
      * revert Ha. apply Forall_impl. exact HPQ.
      * intros j bj _ Hn. eapply Forall_nth_error; eauto.
Qed.
End VirusInvariant.

Lemma virusPhase_radiusOk viruses agents s :
  allBlobs radiusOk agents ->
  allBlobs radiusOk (fst (virusPhase viruses agents s)).
Proof.
  apply (virusPhase_inv radiusOk radiusOk).
  - auto.
  - intros b v H. exact H.
  - intros b f [H1 H2] [Hm [Hr _]]. split.
    + rewrite Hr. apply Rmax_l.
    + rewrite Hm, INR_pieces. lra.
Qed.

(** After the virus phase a living agent's blob weighs at least 10 / 8. *)
Lemma virusPhase_mass viruses agents s :
  liveBlobs massOk agents ->
  liveBlobs (fun b => 10 / 8 <= b_mass b) (fst (virusPhase viruses agents s)).
Proof.
  apply (virusPhase_inv massOk (fun b => 10 / 8 <= b_mass b)).
  - unfold massOk. intros b H. lra.
  - intros b v H. exact H.
  - unfold massOk. intros b f H [Hm _]. rewrite Hm, INR_pieces. lra.
Qed.

(** *** Players eating players *)

(** The bites of the whole phase, pair after pair, in the order of the
    loops over [i] and [j]. *)
Fixpoint pairsTrace (i : nat) (js : list nat) (arr : list Agent) : list BiteEvent :=
  match js with
  | [] => []
  | j :: js' =>
      match nth_error arr i, nth_error arr j with
      | Some A, Some B => if a_dead B then [] else pairTrace A B
      | _, _ => []
      end ++ pairsTrace i js' (pairStep i arr j)
  end.

Fixpoint rowsTrace (rows : list nat) (arr : list Agent) : list BiteEvent :=
  match rows with
  | [] => []
  | i :: rows' =>
      match nth_error arr i with
      | Some A =>
          if a_dead A then []
          else pairsTrace i (seq (S i) (List.length arr - S i)) arr
      | None => []
      end ++ rowsTrace rows' (rowStep arr i)
  end.

Definition phaseTrace (agents : AgentMap) : list BiteEvent :=
  rowsTrace (seq 0 (List.length agents)) (map snd agents).

Section EngulfInvariant.
Variable P : Blob -> Prop.
Hypothesis Heat : forall eater eaten, P eater -> P eaten -> P (eat eater eaten).

Lemma innerLoop_inv ai : forall n ab bbs,
  P ab -> Forall P bbs ->
  (match fst (innerLoop n ab bbs) with Some ab' => P ab' | None => True end) /\
  Forall P (snd (innerLoop n ab bbs)) /\
  (forall ev, In ev (innerTrace ai n ab bbs) -> P (ev_ab ev) /\ P (ev_bb ev)).
Proof.
  induction n as [|bi IH]; intros ab bbs Hab Hbbs; cbn [innerLoop innerTrace].
  - cbn [fst snd]. split; [assumption|]. split; [assumption|]. intros ev [].
  - destruct (nth_error bbs bi) as [bb|] eqn:Eb; [|now apply IH].
    assert (Hbb : P bb) by (eapply Forall_nth_error; eauto).
    destruct (bite ab bb).
    + destruct (IH (eat ab bb) (removeAt bi bbs)) as (H1 & H2 & H3).
      { now apply Heat. } { now apply Forall_removeAt. }
      split; [assumption|]. split; [assumption|].
      intros ev [<-|H]; [now split|now apply H3].
    + cbn [fst snd]. split; [exact I|]. split.
      * apply Forall_setAt; [now apply Heat|assumption].
      * intros ev [<-|[]]. now split.
    + now apply IH.
Qed.

Lemma outerLoop_inv : forall n abs bbs,
  Forall P abs -> Forall P bbs ->
  Forall P (fst (outerLoop n abs bbs)) /\
  Forall P (snd (outerLoop n abs bbs)) /\
  (forall ev, In ev (outerTrace n abs bbs) -> P (ev_ab ev) /\ P (ev_bb ev)).
Proof.
  induction n as [|ai IH]; intros abs bbs Ha Hb; cbn [outerLoop outerTrace].
  - cbn [fst snd]. split; [assumption|]. split; [assumption|]. intros ev [].
  - destruct (nth_error abs ai) as [ab|] eqn:Ea; [|apply IH; assumption].
    assert (Hab : P ab) by exact (Forall_nth_error _ _ _ _ Ha Ea).
    destruct (innerLoop_inv ai (List.length bbs) ab bbs Hab Hb) as (H1 & H2 & H3).
    destruct (innerLoop (List.length bbs) ab bbs) as [[ab'|] bbs'];
      cbn [fst snd] in *.
    + destruct (IH (setAt ai ab' abs) bbs') as (I1 & I2 & I3);
        [now apply Forall_setAt | assumption |].
      split; [assumption|]. split; [assumption|].
      intros ev H; apply in_app_or in H as [H|H];
        first [now apply H3 | now apply I3].
    + destruct (IH (removeAt ai abs) bbs') as (I1 & I2 & I3);
        [now apply Forall_removeAt | assumption |].
      split; [assumption|]. split; [assumption|].
      intros ev H; apply in_app_or in H as [H|H];
        first [now apply H3 | now apply I3].
Qed.

Definition agentAll (a : Agent) : Prop := Forall P (a_blobs a).
Definition agentLive (a : Agent) : Prop := a_dead a = false -> Forall P (a_blobs a).

Lemma engulfPair_inv A B :
  agentAll A -> agentAll B ->
  agentAll (fst (engulfPair A B)) /\ agentAll (snd (engulfPair A B)) /\
  (forall ev, In ev (pairTrace A B) -> P (ev_ab ev) /\ P (ev_bb ev)).
Proof.
  intros HA HB. unfold engulfPair, pairTrace.
  destruct (outerLoop_inv (List.length (a_blobs A)) (a_blobs A) (a_blobs B) HA HB)
    as (H1 & H2 & H3).
  destruct (outerLoop _ (a_blobs A) (a_blobs B)) as [abs bbs].
  cbn [fst snd] in *. split; [exact H1|]. split; [exact H2|exact H3].
Qed.

(** For every agent, whatever its flag. *)
Lemma pairStep_all i arr j :
  Forall agentAll arr -> Forall agentAll (pairStep i arr j).
Proof.
  intros H. unfold pairStep.
  destruct (nth_error arr i) as [A|] eqn:Ei; [|assumption].
  destruct (nth_error arr j) as [B|] eqn:Ej; [|assumption].
  destruct (a_dead B); [assumption|].
  destruct (engulfPair_inv A B) as (H1 & H2 & _);
    [exact (Forall_nth_error _ _ _ _ H Ei)
    |exact (Forall_nth_error _ _ _ _ H Ej)|].
  destruct (engulfPair A B) as [A' B']. cbn [fst snd] in *.
  apply Forall_setAt; [assumption|]. now apply Forall_setAt.
Qed.

Lemma rowStep_all arr i : Forall agentAll arr -> Forall agentAll (rowStep arr i).
Proof.
  intros H. unfold rowStep.
  destruct (nth_error arr i) as [A|]; [|assumption].
  destruct (a_dead A); [assumption|].
  generalize (seq (S i) (List.length arr - S i)). intros js. revert arr H.
  induction js as [|j js IH]; intros arr H; cbn [fold_left]; [assumption|].
  apply IH. now apply pairStep_all.
Qed.

Lemma rows_all rows : forall arr,
  Forall agentAll arr -> Forall agentAll (fold_left rowStep rows arr).
Proof.
  induction rows as [|i rows IH]; intros arr H; cbn [fold_left]; [assumption|].
  apply IH. now apply rowStep_all.
Qed.

(** For the living agents only: row [i] keeps [P] on its own blobs. *)
Definition rowInv (i : nat) (arr : list Agent) : Prop :=
  Forall agentLive arr /\ (forall A, nth_error arr i = Some A -> agentAll A).

Lemma pairStep_live i arr j :
  i <> j -> rowInv i arr ->
  rowInv i (pairStep i arr j) /\
  (forall ev, In ev (match nth_error arr i, nth_error arr j with
                     | Some A, Some B => if a_dead B then [] else pairTrace A B
                     | _, _ => []
                     end) -> P (ev_ab ev) /\ P (ev_bb ev)).
Proof.
  intros Hij Hinv. pose proof Hinv as [Hl Hi]. unfold pairStep.
  destruct (nth_error arr i) as [A|] eqn:Ei; [|split; [exact Hinv|intros ev []]].
  destruct (nth_error arr j) as [B|] eqn:Ej; [|split; [exact Hinv|intros ev []]].
  destruct (a_dead B) eqn:Ed; [split; [exact Hinv|intros ev []]|].
  assert (HA : agentAll A) by now apply Hi.
  assert (HB : agentAll B).
  { pose proof (Forall_nth_error _ _ _ _ Hl Ej) as H. now apply H. }
  destruct (engulfPair_inv A B HA HB) as (H1 & H2 & H3).
  destruct (engulfPair A B) as [A' B']. cbn [fst snd] in *.
  split; [|assumption]. split.
  - apply Forall_setAt; [intros _; assumption|].
    apply Forall_setAt; [intros _; assumption|assumption].
  - intros A0. rewrite nth_error_setAt_other by auto.
    rewrite nth_error_setAt_same; [now intros [= <-]|].
    apply nth_error_Some. congruence.
Qed.

Lemma pairs_live i : forall js arr,
  (forall j, In j js -> i <> j) -> rowInv i arr ->
  Forall agentLive (fold_left (pairStep i) js arr) /\
  (forall ev, In ev (pairsTrace i js arr) -> P (ev_ab ev) /\ P (ev_bb ev)).
Proof.
  induction js as [|j js IH]; intros arr Hjs Hinv;
    cbn [fold_left pairsTrace].
  - split; [apply Hinv|intros ev []].
  - destruct (pairStep_live i arr j) as [H1 H2];
      [apply Hjs; now left | assumption |].
    destruct (IH (pairStep i arr j)) as [H3 H4];
      [intros j' Hj'; apply Hjs; now right | assumption |].
    split; [assumption|].
    intros ev Hev. apply in_app_or in Hev as [Hev|Hev]; auto.
Qed.

Lemma rowStep_live arr i :
  Forall agentLive arr ->
  Forall agentLive (rowStep arr i) /\
  (forall ev, In ev (match nth_error arr i with
                     | Some A =>
                         if a_dead A then []
                         else pairsTrace i (seq (S i) (List.length arr - S i)) arr
                     | None => []
                     end) -> P (ev_ab ev) /\ P (ev_bb ev)).
Proof.
  intros H. unfold rowStep.
  destruct (nth_error arr i) as [A|] eqn:Ei; [|split; [assumption|intros ev []]].
  destruct (a_dead A) eqn:Ed; [split; [assumption|intros ev []]|].
  apply pairs_live.
  - intros j Hj. apply in_seq in Hj. lia.
  - split; [assumption|]. intros A0 HA0. rewrite Ei in HA0.
    injection HA0 as <-. pose proof (Forall_nth_error _ _ _ _ H Ei) as HA.
    now apply HA.
Qed.

Lemma rows_live rows : forall arr,
  Forall agentLive arr ->
  forall ev, In ev (rowsTrace rows arr) -> P (ev_ab ev) /\ P (ev_bb ev).
Proof.
  induction rows as [|i rows IH]; intros arr H ev Hev; cbn [rowsTrace] in Hev.
  - destruct Hev.
  - destruct (rowStep_live arr i H) as [H1 H2].
    apply in_app_or in Hev as [Hev|Hev]; [now apply H2|].
    now apply (IH (rowStep arr i)).
Qed.
End EngulfInvariant.

Lemma length_pairStep i arr j : List.length (pairStep i arr j) = List.length arr.
Proof.
  unfold pairStep.
  destruct (nth_error arr i); [|reflexivity].
  destruct (nth_error arr j) as [B|]; [|reflexivity].
  destruct (a_dead B); [reflexivity|].
  destruct (engulfPair _ B). now rewrite !length_setAt.
Qed.

Lemma length_pairs i js : forall arr,
  List.length (fold_left (pairStep i) js arr) = List.length arr.
Proof.
  induction js as [|j js IH]; intros arr; cbn [fold_left]; [reflexivity|].
  now rewrite IH, length_pairStep.
Qed.

Lemma length_rowStep arr i : List.length (rowStep arr i) = List.length arr.
Proof.
  unfold rowStep. destruct (nth_error arr i) as [A|]; [|reflexivity].
  destruct (a_dead A); [reflexivity|]. apply length_pairs.
Qed.

Lemma length_rows rows : forall arr,
  List.length (fold_left rowStep rows arr) = List.length arr.
Proof.
  induction rows as [|i rows IH]; intros arr; cbn [fold_left]; [reflexivity|].
  now rewrite IH, length_rowStep.
Qed.

Lemma Forall_combine_snd {A B} (Q : B -> Prop) : forall (ks : list A) (l : list B),
  Forall Q l -> Forall (fun kb => Q (snd kb)) (combine ks l).
Proof.
  induction ks as [|k ks IH]; intros [|b l] H; cbn; try constructor.
  - inversion H; assumption.
  - inversion H; subst. now apply IH.
Qed.

Lemma engulfPhase_all P agents :
  (forall eater eaten, P eater -> P eaten -> P (eat eater eaten)) ->
  allBlobs P agents -> allBlobs P (engulfPhase agents).
Proof.
  intros Heat H. unfold allBlobs, guardedBlobs, engulfPhase in *.
  assert (H0 : Forall (agentAll P) (map snd agents)).
  { rewrite Forall_map. revert H. apply Forall_impl. intros ka Hk. now apply Hk. }
  pose proof (rows_all P Heat (seq 0 (List.length (map snd agents))) _ H0) as H1.
  pose proof (Forall_combine_snd (agentAll P) (map fst agents) _ H1) as H2.
  revert H2. apply Forall_impl. intros ka Hk _. exact Hk.
Qed.

(** *** Agents left without a blob *)

Definition settled (a : Agent) : Prop := a_blobs a = [] -> a_dead a = true.

Definition touched (a0 a : Agent) : Prop := a = a0 \/ settled a.

Lemma Forall2_setAt {A} (R : A -> A -> Prop) v : forall l0 l i,
  (forall a0, R a0 v) -> Forall2 R l0 l -> Forall2 R l0 (setAt i v l).
Proof.
  intros l0 l i Hv H. revert i.
  induction H as [|a0 a l0 l Ha Hl IH]; intros [|i]; cbn; constructor; auto.
Qed.

Lemma settle_settled a blobs : settled (settle a blobs).
Proof. unfold settled, settle; cbn. now intros ->. Qed.

Lemma pairStep_touched arr0 i arr j :
  Forall2 touched arr0 arr -> Forall2 touched arr0 (pairStep i arr j).
Proof.
  intros H. unfold pairStep.
  destruct (nth_error arr i) as [A|]; [|assumption].
  destruct (nth_error arr j) as [B|]; [|assumption].
  destruct (a_dead B); [assumption|].
  unfold engulfPair. destruct (outerLoop _ _ _) as [abs bbs].
  apply Forall2_setAt; [intros a0; right; apply settle_settled|].
  apply Forall2_setAt; [intros a0; right; apply settle_settled|assumption].
Qed.

Lemma rowStep_touched arr0 arr i :
  Forall2 touched arr0 arr -> Forall2 touched arr0 (rowStep arr i).
Proof.
  intros H. unfold rowStep.
  destruct (nth_error arr i) as [A|]; [|assumption].
  destruct (a_dead A); [assumption|].
  generalize (seq (S i) (List.length arr - S i)). intros js. revert arr H.
  induction js as [|j js IH]; intros arr H; cbn [fold_left]; [assumption|].
  apply IH. now apply pairStep_touched.
Qed.

Lemma rows_touched arr0 rows : forall arr,
  Forall2 touched arr0 arr -> Forall2 touched arr0 (fold_left rowStep rows arr).
Proof.
  induction rows as [|i rows IH]; intros arr H; cbn [fold_left]; [assumption|].
  apply IH. now apply rowStep_touched.
Qed.

(** The phase keeps every key at its place; an agent it changed is marked
    dead when it has no blob left. *)
Lemma engulfPhase_touched agents :
  Forall2 (fun ka ka' => fst ka' = fst ka /\ touched (snd ka) (snd ka'))
          agents (engulfPhase agents).
Proof.
  unfold engulfPhase.
  assert (H : Forall2 touched (map snd agents)
                      (fold_left rowStep (seq 0 (List.length (map snd agents)))
                                 (map snd agents))).
  { apply rows_touched. induction agents; cbn; constructor; auto. now left. }
  revert H. generalize (fold_left rowStep (seq 0 (List.length (map snd agents)))
                                  (map snd agents)).
  induction agents as [|[k a] agents IH]; intros arr' H; cbn in *.
  - constructor.
  - inversion H; subst. constructor; [cbn; auto|]. now apply IH.
Qed.

Lemma pairsTrace_pair i : forall js arr ev,
  In ev (pairsTrace i js arr) -> exists A B, In ev (pairTrace A B).
Proof.
  induction js as [|j js IH]; intros arr ev H; cbn [pairsTrace] in H; [easy|].
  apply in_app_or in H as [H|H]; [|eauto].
  destruct (nth_error arr i) as [A|]; [|easy].
  destruct (nth_error arr j) as [B|]; [|easy].
  destruct (a_dead B); [easy|eauto].
Qed.

Lemma rowsTrace_pair rows : forall arr ev,
  In ev (rowsTrace rows arr) -> exists A B, In ev (pairTrace A B).
Proof.
  induction rows as [|i rows IH]; intros arr ev H; cbn [rowsTrace] in H; [easy|].
  apply in_app_or in H as [H|H]; [|eauto].
  destruct (nth_error arr i) as [A|]; [|easy].
  destruct (a_dead A); [easy|]. eapply pairsTrace_pair; eauto.
Qed.

(** *** The blobs that enter the engulf phase of a tick *)

Lemma beforeEngulf_mass room s :
  Forall pelletOk (r_pellets room) ->
  liveBlobs (fun b => 10 / 8 <= b_mass b) (fst (fst (beforeEngulf room s))).
Proof.
  intros Hps. unfold beforeEngulf, bind, ret.
  destruct (dateNow s) as [nowMs s0].
  destruct (botPhase _ _ s0) as [agents1 s1].
  pose proof (movePhase_live agents1) as Hm.
  apply (guardedBlobs_impl _ _ massOk) in Hm; [|tauto].
  pose proof (eatPhase_inv (fun d => d = false) massOk
                (massAtLeast_growClosed 10) (movePhase agents1) (r_pellets room)
                Hps Hm) as He.
  destruct (eatPhase (movePhase agents1) (r_pellets room)) as [agents3 pellets3].
  cbn [fst] in He.
  destruct (refill pellets3 s1) as [pellets4 s2].
  pose proof (virusPhase_mass (r_viruses room) agents3 s2 He) as Hv.
  destruct (virusPhase (r_viruses room) agents3 s2) as [agents5 s3].
  exact Hv.
Qed.

Lemma mass_eat_closed c :
  0 <= c ->
  forall eater eaten,
    c <= b_mass eater -> c <= b_mass eaten -> c <= b_mass (eat eater eaten).
Proof.
  intros Hc eater eaten H1 H2.
  pose proof (eat_mass_ge eater eaten ltac:(lra)). lra.
Qed.


(** *** The phases that leave the blobs alone *)

Lemma removeInactive_inv g P now agents :
  guardedBlobs g P agents -> guardedBlobs g P (removeInactive now agents).
Proof.
  unfold guardedBlobs, removeInactive. rewrite !Forall_forall.
  intros H ka Hin. apply filter_In in Hin. now apply H.
Qed.

Lemma botDecide_intent pellets a b sc s :
  exists aim boost, fst (botDecide pellets a b sc s) = setIntent a aim boost.
Proof.
  unfold botDecide, bind, ret.
  destruct (bestThreat sc); [cbn [fst]; eauto|].
  destruct (bestPrey sc); cbv beta.
  - draw. cbn [fst]. eauto.
  - draw. destruct (nth_error pellets _); cbn [fst]; eauto.
Qed.

Lemma botStep_inv g P pellets agents i s :
  guardedBlobs g P agents -> guardedBlobs g P (fst (botStep pellets agents i s)).
Proof.
  intros H. unfold botStep.
  destruct (nth_error agents i) as [[k a]|] eqn:Ei; [|assumption].
  destruct (a_dead a || negb (a_isBot a)); [assumption|].
  destruct (a_blobs a) as [|b rest] eqn:Eb; [assumption|].
  unfold bind, ret.
  destruct (botDecide_intent pellets a b (scanAgents a b agents) s)
    as [aim [boost Hd]].
  destruct (botDecide pellets a b (scanAgents a b agents) s) as [a' s'].
  cbn [fst] in *. subst a'.
  apply Forall_setAt; [|assumption].
  pose proof (Forall_nth_error _ _ _ _ H Ei) as Ha. cbn [snd] in *.
  cbn [setIntent a_dead a_blobs]. exact Ha.
Qed.

Lemma botPhase_inv g P pellets agents s :
  guardedBlobs g P agents -> guardedBlobs g P (fst (botPhase pellets agents s)).
Proof.
  unfold botPhase. apply foldM_inv. intros st a s0. apply botStep_inv.
Qed.

(** *** Respawn, spawn, split *)

Lemma freshBlob_radiusOk isBot b : freshBlob isBot b -> radiusOk b.
Proof.
  intros (_ & _ & _ & _ & _ & H). unfold radiusOk.
  destruct isBot; destruct H; split; lra.
Qed.

Lemma spawnAgent_radiusOk id name isBot s :
  Forall radiusOk (a_blobs (fst (spawnAgent id name isBot s))).
Proof.
  destruct (spawnAgent_spec id name isBot s) as (_ & _ & _ & _ & _ & _ & _ & b & Hb & Hf).
  rewrite Hb. constructor; [|constructor]. eapply freshBlob_radiusOk; eauto.
Qed.

Lemma respawnStep_inv agents i s :
  allBlobs radiusOk agents -> allBlobs radiusOk (fst (respawnStep agents i s)).
Proof.
  intros H. unfold respawnStep.
  destruct (nth_error agents i) as [[k a]|]; [|assumption].
  destruct (a_dead a && a_isBot a); [|assumption].
  unfold bind, ret.
  pose proof (spawnAgent_radiusOk (a_id a) (a_name a) true s) as Hs.
  destruct (spawnAgent (a_id a) (a_name a) true s) as [a' s']. cbn [fst] in *.
  apply Forall_mapSet; [|assumption]. intros k' _. exact Hs.
Qed.

Lemma respawnPhase_inv agents s :
  allBlobs radiusOk agents -> allBlobs radiusOk (fst (respawnPhase agents s)).
Proof.
  unfold respawnPhase. apply foldM_inv. intros st a s0. apply respawnStep_inv.
Qed.

Lemma split_radiusOk a :
  Forall radiusOk (a_blobs a) -> Forall radiusOk (a_blobs (split a)).
Proof.
  intros H. unfold split.
  destruct (nth_error (a_blobs a) (bestIndex (a_blobs a))) as [b|] eqn:Eb;
    [|assumption].
  destruct (Rgeb (b_r b) (14 * (22 / 10))); [|assumption].
  pose proof (Forall_nth_error _ _ _ _ H Eb) as [Hr Hm].
  cbn [setBlobs a_blobs]. apply Forall_app. split.
  - apply Forall_setAt; [|assumption].
    split; cbn [splitKeep b_r b_mass]; [apply Rmax_l | lra].
  - constructor; [|constructor].
    split; cbn [splitSibling splitKeep b_r b_mass]; [apply Rmax_l | lra].
Qed.

(** *** Rooms *)

Definition roomOk (room : Room) : Prop :=
  allBlobs radiusOk (r_agents room) /\ Forall pelletOk (r_pellets room).

Lemma tickBody_ok room s : roomOk room -> roomOk (fst (tickBody room s)).
Proof.
  intros [Hag Hps]. unfold tickBody, beforeEngulf, bind, ret.
  destruct (dateNow s) as [nowMs s0].
  pose proof (removeInactive_inv _ _ (nowMs / 1000) _ Hag) as H0.
  pose proof (botPhase_inv _ _ (r_pellets room) _ s0 H0) as H1.
  destruct (botPhase _ _ s0) as [agents1 s1]. cbn [fst] in H1.
  pose proof (movePhase_all _ H1) as H2.
  pose proof (eatPhase_inv _ _ radiusOk_growClosed _ _ Hps H2) as H3.
  pose proof (eatPhase_pellets (movePhase agents1) _ Hps) as P3.
  destruct (eatPhase (movePhase agents1) (r_pellets room)) as [agents3 pellets3].
  cbn [fst snd] in H3, P3.
  pose proof (pushPellets_ok (PELLET_TARGET - List.length pellets3) pellets3 s1 P3)
    as P4.
  unfold refill. destruct (pushPellets _ pellets3 s1) as [pellets4 s2].
  cbn [fst] in P4.
  pose proof (virusPhase_radiusOk (r_viruses room) agents3 s2 H3) as H5.
  destruct (virusPhase (r_viruses room) agents3 s2) as [agents5 s3].
  cbn [fst snd] in *.
  pose proof (engulfPhase_all radiusOk agents5 eat_radiusOk H5) as H6.
  pose proof (respawnPhase_inv _ s3 H6) as H7.
  destruct (respawnPhase (engulfPhase agents5) s3) as [agents7 s4].
  cbn [fst] in *. split; assumption.
Qed.

Lemma tickRoom_ok room e : roomOk room -> roomOk (fst (tickRoom room e)).
Proof.
  intros H. unfold tickRoom.
  pose proof (tickBody_ok room (mkSrc (r_rng room) e) H) as H1.
  destruct (tickBody room (mkSrc (r_rng room) e)) as [room' s].
  cbn [fst] in *. exact H1.
Qed.

Lemma spawnBots_ok : forall n i code used agents s,
  allBlobs radiusOk agents ->
  allBlobs radiusOk (fst (spawnBots n i code used agents s)).
Proof.
  induction n as [|n IH]; intros i code used agents s H; cbn [spawnBots].
  - exact H.
  - unfold bind. draw.
    destruct (pickName 200 used _ s0) as [picked s1].
    match goal with
    | |- context [spawnAgent ?id ?nm true s1] =>
        pose proof (spawnAgent_radiusOk id nm true s1) as Hs;
        destruct (spawnAgent id nm true s1) as [a s2]
    end.
    cbn [fst] in Hs. apply IH.
    apply Forall_mapSet; [|assumption]. intros k' _. exact Hs.
Qed.

Lemma makeRoom_ok code maxPlayers bots e :
  roomOk (fst (makeRoom code maxPlayers bots e)).
Proof.
  unfold makeRoom, bind, ret.
  pose proof (pushPellets_ok PELLET_TARGET [] (mkSrc (hashSeed code) e)
                (Forall_nil _)) as Hp.
  destruct (pushPellets PELLET_TARGET [] (mkSrc (hashSeed code) e)) as [pellets s1].
  destruct (pushViruses VIRUS_COUNT [] s1) as [viruses s2].
  pose proof (spawnBots_ok (botPasses 121 0 (Num.clamp bots (Fin 0) (Fin 120))) 0%Z code [] [] s2
                (Forall_nil _)) as Ha.
  destruct (spawnBots (botPasses 121 0 (Num.clamp bots (Fin 0) (Fin 120))) 0%Z code [] [] s2)
    as [agents s3].
  cbn [fst] in *. split; assumption.
Qed.

(** *** The server *)

Definition roomsOk (rooms : Rooms) : Prop := Forall (fun cr => roomOk (snd cr)) rooms.

Lemma mapGet_Forall {V} (Q : V -> Prop) k (m : list (string * V)) v :
  Forall (fun kv => Q (snd kv)) m -> mapGet k m = Some v -> Q v.
Proof.
  induction m as [|[k0 v0] m IH]; intros H Hg; cbn in Hg; [discriminate|].
  inversion H; subst. destruct (String.eqb k0 k); [now injection Hg as <-|auto].
Qed.

Lemma postJoin_ok base36 rooms req e :
  roomsOk rooms -> roomsOk (snd (fst (postJoin base36 rooms req e))).
Proof.
  intros H. unfold postJoin.
  destruct (match jq_id req with EmptyString => _ | _ => _ end) as [id e1].
  destruct (mapGet _ rooms) as [room|] eqn:Er; [|exact H].
  destruct (Num.leb _ _); [exact H|].
  pose proof (mapGet_Forall roomOk _ _ _ H Er) as [Hag Hps].
  pose proof (spawnIn_spec room id (substring 0 14 (orElse (jq_name req) "Player"))
                           false e1) as Hsp.
  destruct (spawnIn room id _ false e1) as [[a room1] e2]. cbn [fst snd] in *.
  destruct Hsp as (H1 & _ & _ & H2 & _ & _ & _ & _ & _ & b & Hb & Hf).
  apply Forall_mapSet; [|exact H]. intros ?. cbn [snd]. split.
  - cbn [setAgents r_agents]. rewrite H1.
    apply Forall_mapSet; [|exact Hag]. intros ? _. cbn [snd]. rewrite Hb.
    constructor; [|constructor]. eapply freshBlob_radiusOk; eauto.
  - cbn [setAgents r_pellets]. now rewrite H2.
Qed.

Lemma inputRoom_ok room req e room' :
  roomOk room -> fst (inputRoom room req e) = Some room' -> roomOk room'.
Proof.
  intros [Hag Hps]. unfold inputRoom.
  destruct (mapGet (iq_id req) (r_agents room)) as [a|] eqn:Ea; [|discriminate].
  destruct (a_dead a); [discriminate|]. cbn [fst]. intros [= <-].
  split; [|exact Hps]. cbn [setAgents r_agents].
  apply Forall_mapSet; [|exact Hag]. intros ? _. cbn [snd].
  pose proof (mapGet_Forall (fun a => True -> Forall radiusOk (a_blobs a))
                            _ _ _ Hag Ea I) as Ha.
  unfold inputAgent. destruct (iq_split req); [apply split_radiusOk|]; exact Ha.
Qed.

Lemma postInput_ok rooms req e :
  roomsOk rooms -> roomsOk (snd (fst (postInput rooms req e))).
Proof.
  intros H. unfold postInput.
  destruct (mapGet _ rooms) as [room|] eqn:Er; [|exact H].
  pose proof (inputRoom_ok room req e) as Hi.
  destruct (inputRoom room req e) as [[room'|] e']; [|exact H].
  cbn [fst snd] in *. apply Forall_mapSet; [|exact H]. intros ?. cbn [snd].
  apply Hi; [|reflexivity]. exact (mapGet_Forall roomOk _ _ _ H Er).
Qed.

Lemma postCreate_ok rooms code maxPlayers bots e :
  roomsOk rooms -> roomsOk (fst (postCreate rooms code maxPlayers bots e)).
Proof.
  intros H. unfold postCreate.
  pose proof (makeRoom_ok code maxPlayers bots e) as Hm.
  destruct (makeRoom code maxPlayers bots e) as [room e']. cbn [fst] in *.
  apply Forall_mapSet; [|exact H]. intros ?. exact Hm.
Qed.

Lemma tickAll_ok : forall rooms e, roomsOk rooms -> roomsOk (fst (tickAll rooms e)).
Proof.
  induction rooms as [|[c room] rest IH]; intros e H; cbn [tickAll].
  - constructor.
  - inversion H as [|? ? Hr Hrest]; subst. cbn [snd] in Hr.
    pose proof (tickRoom_ok room e Hr) as Ht.
    destruct (tickRoom room e) as [room' e1]. cbn [fst] in Ht.
    specialize (IH e1 Hrest). destruct (tickAll rest e1) as [rest' e2].
    cbn [fst] in *. constructor; assumption.
Qed.

Lemma reachable_ok rooms : reachable rooms -> roomsOk rooms.
Proof.
  induction 1.
  - constructor.
  - now apply postCreate_ok.
  - now apply postJoin_ok.
  - now apply postInput_ok.
  - now apply tickAll_ok.
Qed.

(** *** The bites of a phase, replayed *)

(** A bite of the phase: the positions [i] and [j] of the two agents in the
    array of line 883, and the check that ended in it. *)
Definition PhaseBite : Type := nat * nat * BiteEvent.

Definition pairBites (i j : nat) (arr : list Agent) : list BiteEvent :=
  match nth_error arr i, nth_error arr j with
  | Some A, Some B => if a_dead B then [] else pairTrace A B
  | _, _ => []
  end.

Fixpoint pairsLog (i : nat) (js : list nat) (arr : list Agent) : list PhaseBite :=
  match js with
  | [] => []
  | j :: js' =>
      map (fun ev => (i, j, ev)) (pairBites i j arr)
      ++ pairsLog i js' (pairStep i arr j)
  end.

Definition rowBites (i : nat) (arr : list Agent) : list PhaseBite :=
  match nth_error arr i with
  | Some A =>
      if a_dead A then []
      else pairsLog i (seq (S i) (List.length arr - S i)) arr
  | None => []
  end.

Fixpoint rowsLog (rows : list nat) (arr : list Agent) : list PhaseBite :=
  match rows with
  | [] => []
  | i :: rows' => rowBites i arr ++ rowsLog rows' (rowStep arr i)
  end.

Definition phaseLog (agents : AgentMap) : list PhaseBite :=
  rowsLog (seq 0 (List.length agents)) (map snd agents).

(** What a bite does to the two collections: the eater grows in its place
    (lines 895-896 and 899-900), the eaten blob is spliced out (lines 897
    and 901). *)
Definition applyPair (st : list Blob * list Blob) (ev : BiteEvent)
  : list Blob * list Blob :=
  match ev_bite ev with
  | AEatsB => (setAt (ev_ai ev) (eat (ev_ab ev) (ev_bb ev)) (fst st),
               removeAt (ev_bi ev) (snd st))
  | BEatsA => (removeAt (ev_ai ev) (fst st),
               setAt (ev_bi ev) (eat (ev_bb ev) (ev_ab ev)) (snd st))
  | NoBite => st
  end.

(** The same on the blob collections of all the agents. *)
Definition applyBite (bl : list (list Blob)) (e : PhaseBite) : list (list Blob) :=
  let '(i, j, ev) := e in
  match nth_error bl i, nth_error bl j with
  | Some abs, Some bbs =>
      let st := applyPair (abs, bbs) ev in
      setAt j (snd st) (setAt i (fst st) bl)
  | _, _ => bl
  end.

(** The bite [e] is one of agent [i] against a later agent [j], and its two
    blobs are those that stand at its indices in [bl]. *)
Definition current (bl : list (list Blob)) (e : PhaseBite) : Prop :=
  let '(i, j, ev) := e in
  (i < j)%nat /\
  exists abs bbs,
    nth_error bl i = Some abs /\ nth_error bl j = Some bbs /\
    nth_error abs (ev_ai ev) = Some (ev_ab ev) /\
    nth_error bbs (ev_bi ev) = Some (ev_bb ev).

(** Every bite of [log] is current when its turn comes. *)
Fixpoint replays (bl : list (list Blob)) (log : list PhaseBite) : Prop :=
  match log with
  | [] => True
  | e :: log' => current bl e /\ replays (applyBite bl e) log'
  end.

Definition blobsOf (agents : AgentMap) : list (list Blob) :=
  map (fun ka => a_blobs (snd ka)) agents.

(** **** Lists *)

Lemma setAt_setAt {A} (l : list A) : forall i x y,
  setAt i y (setAt i x l) = setAt i y l.
Proof. induction l as [|a l IH]; intros [|i] x y; cbn; auto. now rewrite IH. Qed.

Lemma removeAt_setAt {A} (l : list A) : forall i x,
  removeAt i (setAt i x l) = removeAt i l.
Proof. induction l as [|a l IH]; intros [|i] x; cbn; auto. now rewrite IH. Qed.

Lemma setAt_comm {A} (l : list A) : forall i j x y,
  i <> j -> setAt i x (setAt j y l) = setAt j y (setAt i x l).
Proof.
  induction l as [|a l IH]; intros [|i] [|j] x y H; cbn; auto; try congruence.
  rewrite IH; auto.
Qed.

Lemma nth_error_lt {A} (l : list A) i x :
  nth_error l i = Some x -> (i < List.length l)%nat.
Proof. intros H. apply nth_error_Some. congruence. Qed.

(** **** One pair *)

Fixpoint pairReplays (st : list Blob * list Blob) (tr : list BiteEvent) : Prop :=
  match tr with
  | [] => True
  | ev :: tr' =>
      (nth_error (fst st) (ev_ai ev) = Some (ev_ab ev) /\
       nth_error (snd st) (ev_bi ev) = Some (ev_bb ev)) /\
      pairReplays (applyPair st ev) tr'
  end.

Lemma pairReplays_app tr1 : forall st tr2,
  pairReplays st tr1 -> pairReplays (fold_left applyPair tr1 st) tr2 ->
  pairReplays st (tr1 ++ tr2).
Proof.
  induction tr1 as [|ev tr1 IH]; intros st tr2 H1 H2; cbn [app fold_left] in *.
  - exact H2.
  - destruct H1 as [Hc H1]. split; [exact Hc|]. now apply IH.
Qed.

Lemma inner_replay ai : forall n ab abs bbs,
  nth_error abs ai = Some ab -> (n <= List.length bbs)%nat ->
  fold_left applyPair (innerTrace ai n ab bbs) (abs, bbs)
  = (match fst (innerLoop n ab bbs) with
     | Some ab' => setAt ai ab' abs
     | None => removeAt ai abs
     end, snd (innerLoop n ab bbs)) /\
  pairReplays (abs, bbs) (innerTrace ai n ab bbs).
Proof.
  induction n as [|bi IH]; intros ab abs bbs Hab Hn; cbn [innerTrace innerLoop].
  - cbn [fold_left fst snd pairReplays]. rewrite (setAt_same abs ai ab Hab). now split.
  - destruct (nth_error bbs bi) as [bb|] eqn:Eb.
    2:{ apply nth_error_None in Eb. lia. }
    destruct (bite ab bb) eqn:E.
    + cbn [fold_left pairReplays].
      change (applyPair (abs, bbs) (mkEvent AEatsB ai bi ab bb))
        with (setAt ai (eat ab bb) abs, removeAt bi bbs).
      cbn [ev_bite ev_ai ev_bi ev_ab ev_bb fst snd].
      destruct (IH (eat ab bb) (setAt ai (eat ab bb) abs) (removeAt bi bbs)) as [H1 H2].
      { apply nth_error_setAt_same. exact (nth_error_lt _ _ _ Hab). }
      { rewrite length_removeAt by lia. lia. }
      split; [|split; [now split|exact H2]].
      rewrite H1. f_equal.
      destruct (fst (innerLoop bi (eat ab bb) (removeAt bi bbs)));
        [apply setAt_setAt|apply removeAt_setAt].
    + cbn [fold_left pairReplays fst snd]. unfold applyPair.
      cbn [ev_bite ev_ai ev_bi ev_ab ev_bb fst snd]. now repeat split.
    + apply IH; [exact Hab|lia].
Qed.

Lemma outer_replay : forall n abs bbs,
  (n <= List.length abs)%nat ->
  fold_left applyPair (outerTrace n abs bbs) (abs, bbs) = outerLoop n abs bbs /\
  pairReplays (abs, bbs) (outerTrace n abs bbs).
Proof.
  induction n as [|ai IH]; intros abs bbs Hn; cbn [outerTrace outerLoop].
  - now split.
  - destruct (nth_error abs ai) as [ab|] eqn:Ea.
    2:{ apply nth_error_None in Ea. lia. }
    destruct (inner_replay ai (List.length bbs) ab abs bbs Ea (le_n _)) as [H1 H2].
    rewrite fold_left_app, H1.
    destruct (innerLoop (List.length bbs) ab bbs) as [[ab'|] bbs']; cbn [fst snd] in *.
    + destruct (IH (setAt ai ab' abs) bbs') as [H3 H4];
        [rewrite length_setAt; lia|].
      split; [exact H3|]. apply pairReplays_app; [exact H2|]. now rewrite H1.
    + destruct (IH (removeAt ai abs) bbs') as [H3 H4];
        [rewrite length_removeAt; lia|].
      split; [exact H3|]. apply pairReplays_app; [exact H2|]. now rewrite H1.
Qed.

(** **** From a pair to the array *)

Lemma replays_app log1 : forall bl log2,
  replays bl log1 -> replays (fold_left applyBite log1 bl) log2 ->
  replays bl (log1 ++ log2).
Proof.
  induction log1 as [|e log1 IH]; intros bl log2 H1 H2; cbn [app fold_left] in *.
  - exact H2.
  - destruct H1 as [Hc H1]. split; [exact Hc|]. now apply IH.
Qed.

Lemma pair_lift i j : forall tr bl abs bbs,
  (i < j)%nat -> nth_error bl i = Some abs -> nth_error bl j = Some bbs ->
  pairReplays (abs, bbs) tr ->
  fold_left applyBite (map (fun ev => (i, j, ev)) tr) bl
  = setAt j (snd (fold_left applyPair tr (abs, bbs)))
          (setAt i (fst (fold_left applyPair tr (abs, bbs))) bl) /\
  replays bl (map (fun ev => (i, j, ev)) tr).
Proof.
  induction tr as [|ev tr IH]; intros bl abs bbs Hij Hi Hj Hr;
    cbn [map fold_left replays].
  - cbn [fst snd]. split; [|exact I].
    rewrite (setAt_same bl i abs Hi). now rewrite (setAt_same bl j bbs Hj).
  - destruct Hr as [[Ha Hb] Hr]. cbn [fst snd] in Ha, Hb.
    unfold applyBite at 2 3. rewrite Hi, Hj. cbn zeta.
    set (st1 := applyPair (abs, bbs) ev) in *.
    set (bl1 := setAt j (snd st1) (setAt i (fst st1) bl)).
    assert (Hli : (i < List.length bl)%nat) by exact (nth_error_lt _ _ _ Hi).
    assert (Hlj : (j < List.length bl)%nat) by exact (nth_error_lt _ _ _ Hj).
    assert (Hi1 : nth_error bl1 i = Some (fst st1)).
    { unfold bl1. rewrite nth_error_setAt_other by lia.
      now apply nth_error_setAt_same. }
    assert (Hj1 : nth_error bl1 j = Some (snd st1)).
    { unfold bl1. apply nth_error_setAt_same. now rewrite length_setAt. }
    destruct (IH bl1 (fst st1) (snd st1) Hij Hi1 Hj1) as [H1 H2].
    { now destruct st1. }
    replace (fst st1, snd st1) with st1 in H1 by now destruct st1.
    split.
    + rewrite H1. unfold bl1.
      rewrite (setAt_comm _ i j) by lia. now rewrite !setAt_setAt.
    + split; [|exact H2].
      split; [exact Hij|]. exists abs, bbs. now repeat split.
Qed.

Lemma pairStep_replay i arr j :
  (i < j)%nat ->
  map a_blobs (pairStep i arr j)
  = fold_left applyBite (map (fun ev => (i, j, ev)) (pairBites i j arr))
              (map a_blobs arr) /\
  replays (map a_blobs arr) (map (fun ev => (i, j, ev)) (pairBites i j arr)).
Proof.
  intros Hij. unfold pairStep, pairBites.
  destruct (nth_error arr i) as [A|] eqn:Ei; [|now split].
  destruct (nth_error arr j) as [B|] eqn:Ej; [|now split].
  destruct (a_dead B); [now split|].
  unfold engulfPair, pairTrace.
  destruct (outer_replay (List.length (a_blobs A)) (a_blobs A) (a_blobs B) (le_n _))
    as [H1 H2].
  destruct (pair_lift i j _ (map a_blobs arr) (a_blobs A) (a_blobs B) Hij
              (map_nth_error a_blobs _ _ Ei) (map_nth_error a_blobs _ _ Ej) H2)
    as [H3 H4].
  split; [|exact H4].
  rewrite H3, H1.
  destruct (outerLoop _ (a_blobs A) (a_blobs B)) as [abs bbs].
  now rewrite !map_setAt.
Qed.

Lemma pairs_replay i : forall js arr,
  (forall j, In j js -> (i < j)%nat) ->
  map a_blobs (fold_left (pairStep i) js arr)
  = fold_left applyBite (pairsLog i js arr) (map a_blobs arr) /\
  replays (map a_blobs arr) (pairsLog i js arr).
Proof.
  induction js as [|j js IH]; intros arr Hjs; cbn [fold_left pairsLog].
  - now split.
  - destruct (pairStep_replay i arr j (Hjs j (or_introl eq_refl))) as [H1 H2].
    destruct (IH (pairStep i arr j)) as [H3 H4];
      [intros j' Hj'; apply Hjs; now right|].
    rewrite fold_left_app. split.
    + etransitivity; [exact H3|]. f_equal. exact H1.
    + apply replays_app; [exact H2|]. rewrite H1 in H4. exact H4.
Qed.

Lemma rowStep_replay arr i :
  map a_blobs (rowStep arr i)
  = fold_left applyBite (rowBites i arr) (map a_blobs arr) /\
  replays (map a_blobs arr) (rowBites i arr).
Proof.
  unfold rowStep, rowBites.
  destruct (nth_error arr i) as [A|]; [|now split].
  destruct (a_dead A); [now split|].
  apply pairs_replay. intros j Hj. apply in_seq in Hj. lia.
Qed.

Lemma rows_replay : forall rows arr,
  map a_blobs (fold_left rowStep rows arr)
  = fold_left applyBite (rowsLog rows arr) (map a_blobs arr) /\
  replays (map a_blobs arr) (rowsLog rows arr).
Proof.
  induction rows as [|i rows IH]; intros arr; cbn [fold_left rowsLog].
  - now split.
  - destruct (rowStep_replay arr i) as [H1 H2].
    destruct (IH (rowStep arr i)) as [H3 H4].
    rewrite fold_left_app. split.
    + etransitivity; [exact H3|]. f_equal. exact H1.
    + apply replays_app; [exact H2|]. rewrite H1 in H4. exact H4.
Qed.

Lemma map_snd_combine {A B} : forall (ks : list A) (l : list B),
  List.length ks = List.length l -> map snd (combine ks l) = l.
Proof.
  induction ks as [|k ks IH]; intros [|b l] H; cbn in *; try discriminate;
    [reflexivity|]. f_equal. apply IH. lia.
Qed.

Lemma map_fst_combine {A B} : forall (ks : list A) (l : list B),
  List.length ks = List.length l -> map fst (combine ks l) = ks.
Proof.
  induction ks as [|k ks IH]; intros [|b l] H; cbn in *; try discriminate;
    [reflexivity|]. f_equal. apply IH. lia.
Qed.

(** The engulf phase is the replay of its bites. *)
Lemma engulfPhase_replay agents :
  map fst (engulfPhase agents) = map fst agents /\
  blobsOf (engulfPhase agents) = fold_left applyBite (phaseLog agents) (blobsOf agents) /\
  replays (blobsOf agents) (phaseLog agents).
Proof.
  unfold engulfPhase, phaseLog, blobsOf.
  rewrite (length_map snd agents).
  set (arr' := fold_left rowStep (seq 0 (List.length agents)) (map snd agents)).
  assert (Hlen : List.length (map fst agents) = List.length arr')
    by (unfold arr'; now rewrite length_rows, !length_map).
  split; [now apply map_fst_combine|].
  destruct (rows_replay (seq 0 (List.length agents)) (map snd agents)) as [H1 H2].
  fold arr' in H1. rewrite map_map in H1, H2.
  split; [|exact H2].
  rewrite <- H1, <- (map_map snd a_blobs (combine _ _)).
  now rewrite map_snd_combine.
Qed.

Lemma pairsLog_trace i : forall js arr,
  map snd (pairsLog i js arr) = pairsTrace i js arr.
Proof.
  induction js as [|j js IH]; intros arr; cbn [pairsLog pairsTrace map];
    [reflexivity|].
  rewrite map_app, map_map, IH. cbn [snd]. rewrite map_id. reflexivity.
Qed.

Lemma rowsLog_trace : forall rows arr,
  map snd (rowsLog rows arr) = rowsTrace rows arr.
Proof.
  induction rows as [|i rows IH]; intros arr; cbn [rowsLog rowsTrace map];
    [reflexivity|].
  rewrite map_app, IH. f_equal. unfold rowBites.
  destruct (nth_error arr i) as [A|]; [|reflexivity].
  destruct (a_dead A); [reflexivity|]. apply pairsLog_trace.
Qed.

Lemma phaseLog_trace agents : map snd (phaseLog agents) = phaseTrace agents.
Proof. apply rowsLog_trace. Qed.

Lemma phaseLog_In agents i j ev :
  In (i, j, ev) (phaseLog agents) -> In ev (phaseTrace agents).
Proof.
  intros H. rewrite <- phaseLog_trace.
  exact (in_map snd _ _ H).
Qed.

(** C5.  The engulf phase of a tick is the replay of its bites.  Each bite
    is made between a blob of an agent and a blob of a later agent of the
    array, by the blob whose radius exceeds the other's by more than the
    ratio 1.12 and whose centre is nearer to the other's than
    [r_eater - 0.65 r_eaten] (and every check that passes one of the two
    tests is a bite); the blob collections the phase returns are those it
    received with, for each bite in turn, the eater replaced in its place
    by [eat eater eaten] and the eaten blob spliced out of its collection
    at once, and nothing else changes them.  In a tick the eater's mass is
    at least 1, so [eat] is [grow] by the eaten mass times the eaten/eater
    mass ratio clamped to [0.12, 0.50].  The phase keeps the keys, and it
    marks dead every agent it leaves without a blob; the agents of the
    room after the tick are those the phase returns, dead bots respawned.
    (The pellets of a room the server reaches all have a value of at least
    1, which is what the part on [grow] asks of the room.) *)
Theorem C5_engulf :
  (forall agents,
      map fst (engulfPhase agents) = map fst agents /\
      replays (blobsOf agents) (phaseLog agents) /\
      blobsOf (engulfPhase agents)
      = fold_left applyBite (phaseLog agents) (blobsOf agents)) /\
  (forall agents i j ev,
      In (i, j, ev) (phaseLog agents) ->
      (ev_bite ev = AEatsB /\ engulfs (ev_ab ev) (ev_bb ev)) \/
      (ev_bite ev = BEatsA /\ engulfs (ev_bb ev) (ev_ab ev))) /\
  (forall ab bb, (bite ab bb = AEatsB <-> engulfs ab bb) /\
                 (bite ab bb = BEatsA <-> engulfs bb ab)) /\
  (forall bi ab bbs bb,
      nth_error bbs bi = Some bb ->
      (engulfs ab bb ->
       innerLoop (S bi) ab bbs = innerLoop bi (eat ab bb) (removeAt bi bbs)) /\
      (engulfs bb ab ->
       innerLoop (S bi) ab bbs = (None, setAt bi (eat bb ab) bbs))) /\
  (forall room s i j ev,
      Forall pelletOk (r_pellets room) ->
      In (i, j, ev) (phaseLog (fst (fst (beforeEngulf room s)))) ->
      let gain eater eaten :=
        b_mass eaten * clamp (b_mass eaten / b_mass eater) (12 / 100) (50 / 100) in
      eat (ev_ab ev) (ev_bb ev) = grow (ev_ab ev) (gain (ev_ab ev) (ev_bb ev)) /\
      eat (ev_bb ev) (ev_ab ev) = grow (ev_bb ev) (gain (ev_bb ev) (ev_ab ev))) /\
  (forall agents,
      Forall2 (fun ka ka' =>
                 (snd ka' = snd ka \/
                  (a_blobs (snd ka') = [] -> a_dead (snd ka') = true)) /\
                 (a_blobs (snd ka) <> [] -> a_blobs (snd ka') = [] ->
                  a_dead (snd ka') = true))
              agents (engulfPhase agents)) /\
  (forall room s,
      r_agents (fst (tickBody room s))
      = fst (respawnPhase (engulfPhase (fst (fst (beforeEngulf room s))))
                          (snd (beforeEngulf room s)))) /\
  (forall rooms, reachable rooms ->
   forall code room, In (code, room) rooms -> Forall pelletOk (r_pellets room)).
Proof.
  split; [|split; [|split; [|split; [|split; [|split; [|split]]]]]].
  - intros agents. destruct (engulfPhase_replay agents) as (H1 & H2 & H3).
    now repeat split.
  - intros agents i j ev Hin. apply phaseLog_In in Hin.
    destruct (rowsTrace_pair _ _ _ Hin) as [A [B Hpair]].
    exact (outerTrace_events _ _ _ _ Hpair).
  - intros ab bb. split; [apply bite_AEatsB | apply bite_BEatsA].
  - intros bi ab bbs bb Hbb. split; intros H; cbn [innerLoop]; rewrite Hbb.
    + apply bite_AEatsB in H. now rewrite H.
    + apply bite_BEatsA in H. now rewrite H.
  - intros room s i j ev Hps Hin gain. apply phaseLog_In in Hin.
    pose proof (beforeEngulf_mass room s Hps) as Hm.
    set (agents := fst (fst (beforeEngulf room s))) in *.
    assert (Hmass : 10 / 8 <= b_mass (ev_ab ev) /\ 10 / 8 <= b_mass (ev_bb ev)).
    { apply (rows_live (fun b => 10 / 8 <= b_mass b)
                       (mass_eat_closed (10 / 8) ltac:(lra))
                       (seq 0 (List.length agents)) (map snd agents)); [|exact Hin].
      rewrite Forall_map. exact Hm. }
    split; apply eat_ratio; lra.
  - intros agents. pose proof (engulfPhase_touched agents) as H.
    induction H as [|ka ka' l l' [Hk Ht] Hl IH]; constructor; [|exact IH].
    split; [exact Ht|]. intros Hne He.
    destruct Ht as [Heq|Hs]; [|now apply Hs].
    rewrite Heq in He. contradiction.
  - intros room s. unfold tickBody, bind, ret.
    destruct (beforeEngulf room s) as [st s1]. cbn [fst snd].
    now destruct (respawnPhase (engulfPhase (fst st)) s1).
  - intros rooms Hreach code room Hin.
    pose proof (reachable_ok rooms Hreach) as Hok.
    unfold roomsOk in Hok. rewrite Forall_forall in Hok.
    exact (proj2 (Hok _ Hin)).
Qed.

(** C1 (amended).  In every state the server reaches by creating rooms,
    joins, inputs (splits included) and ticks, every blob of every agent has
    radius at least 14 (and a mass that is not negative).  The mass floor 10
    is enforced by the decay and boost-cost step: after the movement phase
    of a tick every blob of a living agent has mass at least 10 and radius
    at least 14, and a growth by a non-negative amount lowers neither. *)
Theorem C1_floors :
  (forall rooms, reachable rooms ->
   forall code room k a b,
     In (code, room) rooms -> In (k, a) (r_agents room) -> In b (a_blobs a) ->
     14 <= b_r b /\ 0 <= b_mass b) /\
  (forall a total b,
      10 <= b_mass (decayBlob a total b) /\ 14 <= b_r (decayBlob a total b)) /\
  (forall agents k a b,
      In (k, a) (movePhase agents) -> a_dead a = false -> In b (a_blobs a) ->
      10 <= b_mass b /\ 14 <= b_r b) /\
  (forall b amount,
      0 <= amount ->
      b_mass b <= b_mass (grow b amount) /\ b_r b <= b_r (grow b amount)).
Proof.
  split; [|split; [|split]].
  - intros rooms Hreach code room k a b Hroom Ha Hb.
    pose proof (reachable_ok rooms Hreach) as Hok.
    unfold roomsOk in Hok. rewrite Forall_forall in Hok.
    destruct (Hok _ Hroom) as [Hag _]. cbn [snd] in Hag.
    exact (allBlobs_In radiusOk _ _ _ _ Hag Ha Hb).
  - apply decayBlob_floors.
  - intros agents k a b Ha Hd Hb.
    pose proof (movePhase_live agents) as H.
    unfold liveBlobs, guardedBlobs in H. rewrite Forall_forall in H.
    specialize (H _ Ha Hd). cbn [snd] in H. rewrite Forall_forall in H.
    destruct (H b Hb) as [Hm [Hr _]]. unfold massOk in Hm. split; assumption.
  - intros b amount H. split; [now apply grow_mass_ge | now apply grow_r_ge].
Qed.

(** Splitting a blob of mass 10 (at its floor) and radius 31 leaves two
    blobs of mass 5. *)
Lemma split_at_mass_floor :
  let a := mkAgent "h" "Player" false (mkColor 70 70 70) false 1 0 false 0
                   [mkBlob 100 100 0 0 10 31 999] in
  Forall (fun b => 10 <= b_mass b /\ 14 <= b_r b) (a_blobs a) /\
  exists b1 b2, a_blobs (split a) = [b1; b2] /\ b_mass b1 = 5 /\ b_mass b2 = 5 /\
                ~ 10 <= b_mass b1.
Proof.
  intros a. split.
  - constructor; [cbn; lra|constructor].
  - unfold split, a. cbn [a_blobs bestIndex List.length Nat.sub seq fold_left nth_error].
    assert (E : Rgeb (b_r (mkBlob 100 100 0 0 10 31 999)) (14 * (22 / 10)) = true).
    { apply Rgeb_true. cbn [b_r]. lra. }
    rewrite E. cbn [setBlobs a_blobs setAt app].
    eexists _, _. split; [reflexivity|].
    cbn [splitKeep splitSibling b_mass]. repeat split; lra.
Qed.

(** ** Virus popping *)

Definition overlaps (b : Blob) (v : Virus) : Prop :=
  hypot (b_x b - v_x v) (b_y b - v_y v) < b_r b + v_r v.

Lemma massSum_fragments pm pr frags :
  Forall (isFragment pm pr) frags -> massSum frags = INR (List.length frags) * pm.
Proof.
  induction 1 as [|f frags [Hm _] _ IH].
  - cbn. unfold massSum; cbn. lra.
  - rewrite massSum_cons, IH, Hm. cbn [List.length]. rewrite S_INR. lra.
Qed.

Lemma sqrt_pieces : 0 < sqrt (INR pieces) < 3.
Proof.
  rewrite INR_pieces. split.
  - apply sqrt_lt_R0. lra.
  - replace 3 with (sqrt 9).
    + apply sqrt_lt_1; lra.
    + replace 9 with (3 * 3) by lra. apply sqrt_square. lra.
Qed.

Lemma pieceR_no_floor r : 62 <= r -> Rmax 14 (r / sqrt (INR pieces)) = r / sqrt (INR pieces).
Proof.
  intros Hr. apply Rmax_right. destruct sqrt_pieces as [H0 H3].
  apply Rmult_le_reg_r with (sqrt (INR pieces)); [assumption|].
  unfold Rdiv. rewrite Rmult_assoc, Rinv_l by lra. nra.
Qed.

(** One virus against the blob at [bi]: over the threshold the blob is
    replaced by 8 fragments of an eighth of its mass each; under it only its
    velocity changes. *)
Lemma virusHit_pop bi b blobs v s :
  overlaps b v -> 62 <= b_r b ->
  exists frags,
    fst (virusHit bi (b, blobs) v s) = (b, removeAt bi blobs ++ frags) /\
    List.length frags = 8%nat /\
    Forall (isFragment (b_mass b / 8) (b_r b / sqrt 8)) frags.
Proof.
  intros Ho Hr. unfold virusHit.
  apply Rltb_true in Ho. rewrite Ho.
  assert (E : Rgeb (b_r b) 62 = true) by (apply Rgeb_true; lra). rewrite E.
  unfold bind, ret.
  destruct (pushFragments_app pieces b (b_mass b / INR pieces)
              (Rmax 14 (b_r b / sqrt (INR pieces))) (removeAt bi blobs) s)
    as [frags [H1 [H2 H3]]].
  destruct (pushFragments pieces b _ _ (removeAt bi blobs) s) as [blobs' s'].
  cbn [fst] in *. subst blobs'. exists frags.
  rewrite pieceR_no_floor in H3 by assumption. rewrite INR_pieces in H3.
  now repeat split.
Qed.

Lemma virusHit_bounce bi b blobs v s :
  overlaps b v -> b_r b < 62 ->
  fst (virusHit bi (b, blobs) v s) = (bounce b v, setAt bi (bounce b v) blobs).
Proof.
  intros Ho Hr. unfold virusHit.
  apply Rltb_true in Ho. rewrite Ho.
  assert (E : Rgeb (b_r b) 62 = false) by (apply Rgeb_false; lra). now rewrite E.
Qed.

Lemma virusHit_miss bi b blobs v s :
  ~ overlaps b v -> fst (virusHit bi (b, blobs) v s) = (b, blobs).
Proof.
  intros Ho. unfold virusHit.
  assert (E : Rltb (hypot (b_x b - v_x v) (b_y b - v_y v)) (b_r b + v_r v) = false).
  { apply Rltb_false. unfold overlaps in Ho. lra. }
  now rewrite E.
Qed.

(** The blob of the failing input of C4 and the two viruses it overlaps. *)
Definition c4_blob : Blob := mkBlob 1000 1000 0 0 80 100 0.
Definition c4_v1 : Virus := mkVirus 1000 1000 36.
Definition c4_v2 : Virus := mkVirus 1010 1000 36.

Lemma c4_overlaps : overlaps c4_blob c4_v1 /\ overlaps c4_blob c4_v2.
Proof.
  unfold overlaps, c4_blob, c4_v1, c4_v2; cbn [b_x b_y b_r v_x v_y v_r].
  split; apply hypot_lt; lra.
Qed.

(** C4 at its failing input: a blob of radius 100 and mass 80 that overlaps
    two viruses is popped twice in the same pass.  The second pop splices
    the first fragment of the first pop and pushes 8 more: the agent ends
    with 15 fragments of mass 10 each, 150 in all, for a blob of mass 80. *)
Theorem C4_double_pop (s : Src) :
  let blobs' := fst (virusBlobs [c4_v1; c4_v2] 1 [c4_blob] s) in
  List.length blobs' = 15%nat /\
  Forall (fun f => b_mass f = 10) blobs' /\
  massSum blobs' = 150 /\
  massSum [c4_blob] = 80.
Proof.
  unfold virusBlobs, virusBlob. cbn [nth_error foldM]. unfold bind, ret.
  destruct c4_overlaps as [Ho1 Ho2].
  assert (Hr : 62 <= b_r c4_blob) by (cbn; lra).
  destruct (virusHit_pop 0 c4_blob [c4_blob] c4_v1 s Ho1 Hr) as [fr1 [E1 [L1 F1]]].
  destruct (virusHit 0 (c4_blob, [c4_blob]) c4_v1 s) as [st1 s1].
  cbn [fst] in E1. subst st1. cbn [removeAt app].
  destruct (virusHit_pop 0 c4_blob fr1 c4_v2 s1 Ho2 Hr) as [fr2 [E2 [L2 F2]]].
  destruct (virusHit 0 (c4_blob, fr1) c4_v2 s1) as [st2 s2].
  cbn [fst] in E2. subst st2. cbn [fst snd].
  assert (F : Forall (isFragment (b_mass c4_blob / 8) (b_r c4_blob / sqrt 8))
                     (removeAt 0 fr1 ++ fr2)).
  { apply Forall_app. split; [now apply Forall_removeAt|assumption]. }
  assert (L : List.length (removeAt 0 fr1 ++ fr2) = 15%nat).
  { rewrite length_app, length_removeAt by lia. lia. }
  split; [exact L|]. split; [|split].
  - revert F. apply Forall_impl. intros f [Hm _]. rewrite Hm. cbn. lra.
  - rewrite (massSum_fragments _ _ _ F), L. cbn [b_mass c4_blob].
    replace (INR 15) with 15 by (cbn; lra). lra.
  - rewrite massSum_cons. cbn. unfold massSum; cbn. lra.
Qed.

(* ------------------------------------------------------------------ *)
(** ** Bot AI *)

(** The blobs a bot looks at: those of the other living agents, in the
    order of the two loops. *)
Definition others (a : Agent) (agents : AgentMap) : list Blob :=
  flat_map (fun ko : string * Agent =>
              if String.eqb (a_id (snd ko)) (a_id a) || a_dead (snd ko)
              then [] else a_blobs (snd ko)) agents.

Definition dist (b ob : Blob) : R := hypot (b_x b - b_x ob) (b_y b - b_y ob).

Definition isThreat (b ob : Blob) : Prop :=
  dist b ob < 900 /\ b_r ob > b_r b * (110 / 100).

Definition isPrey (b ob : Blob) : Prop :=
  dist b ob < 900 /\ b_r b > b_r ob * (120 / 100).

Definition threatTest (b ob : Blob) : bool :=
  Rltb (dist b ob) 900 && Rgtb (b_r ob) (b_r b * (110 / 100)).

Definition preyTest (b ob : Blob) : bool :=
  Rltb (dist b ob) 900 && Rgtb (b_r b) (b_r ob * (120 / 100)).

Lemma threatTest_spec b ob : threatTest b ob = true <-> isThreat b ob.
Proof.
  unfold threatTest, isThreat. now rewrite andb_true_iff, Rltb_true, Rgtb_true.
Qed.

Lemma preyTest_spec b ob : preyTest b ob = true <-> isPrey b ob.
Proof.
  unfold preyTest, isPrey. now rewrite andb_true_iff, Rltb_true, Rgtb_true.
Qed.

(** Keeping the nearest blob that passes a test: the shape of both updates
    of [scanBlob]. *)
Definition better (test : Blob -> bool) (d : Blob -> R)
  (cur : option Blob * R) (ob : Blob) : option Blob * R :=
  if test ob && Rltb (d ob) (snd cur) then (Some ob, d ob) else cur.

Lemma scanBlob_threat b sc ob :
  (bestThreat (scanBlob b sc ob), bestThreatD (scanBlob b sc ob))
  = better (threatTest b) (dist b) (bestThreat sc, bestThreatD sc) ob.
Proof.
  unfold scanBlob, better, threatTest. fold (dist b ob). cbn [snd].
  destruct (Rltb (dist b ob) 900); cbn [andb]; [|reflexivity].
  destruct (Rgtb (b_r ob) (b_r b * (110 / 100)) && Rltb (dist b ob) (bestThreatD sc));
    cbn [bestThreat bestThreatD bestPreyD];
    destruct (Rgtb (b_r b) (b_r ob * (120 / 100)) && Rltb (dist b ob) (bestPreyD sc));
    reflexivity.
Qed.

Lemma scanBlob_prey b sc ob :
  (bestPrey (scanBlob b sc ob), bestPreyD (scanBlob b sc ob))
  = better (preyTest b) (dist b) (bestPrey sc, bestPreyD sc) ob.
Proof.
  unfold scanBlob, better, preyTest. fold (dist b ob). cbn [snd].
  destruct (Rltb (dist b ob) 900); cbn [andb]; [|reflexivity].
  destruct (Rgtb (b_r ob) (b_r b * (110 / 100)) && Rltb (dist b ob) (bestThreatD sc));
    cbn [bestPrey bestPreyD];
    destruct (Rgtb (b_r b) (b_r ob * (120 / 100)) && Rltb (dist b ob) (bestPreyD sc));
    reflexivity.
Qed.

Lemma scan_fold_threat b l : forall sc,
  (bestThreat (fold_left (scanBlob b) l sc), bestThreatD (fold_left (scanBlob b) l sc))
  = fold_left (better (threatTest b) (dist b)) l (bestThreat sc, bestThreatD sc).
Proof.
  induction l as [|ob l IH]; intros sc; cbn [fold_left]; [reflexivity|].
  now rewrite IH, scanBlob_threat.
Qed.

Lemma scan_fold_prey b l : forall sc,
  (bestPrey (fold_left (scanBlob b) l sc), bestPreyD (fold_left (scanBlob b) l sc))
  = fold_left (better (preyTest b) (dist b)) l (bestPrey sc, bestPreyD sc).
Proof.
  induction l as [|ob l IH]; intros sc; cbn [fold_left]; [reflexivity|].
  now rewrite IH, scanBlob_prey.
Qed.

(** What the best candidate is after the blobs [seen]. *)
Definition nearest (test : Blob -> bool) (d : Blob -> R) (seen : list Blob)
  (cur : option Blob * R) : Prop :=
  match fst cur with
  | None => snd cur = 1000000000 /\ forall ob, In ob seen -> test ob = false
  | Some th =>
      snd cur = d th /\ In th seen /\ test th = true /\
      forall ob, In ob seen -> test ob = true -> d th <= d ob
  end.

Lemma better_nearest test d :
  (forall ob, test ob = true -> d ob < 1000000000) ->
  forall l seen cur,
    nearest test d seen cur ->
    nearest test d (seen ++ l) (fold_left (better test d) l cur).
Proof.
  intros Hd. induction l as [|ob l IH]; intros seen cur H; cbn [fold_left].
  - now rewrite app_nil_r.
  - replace (seen ++ ob :: l) with ((seen ++ [ob]) ++ l)
      by (now rewrite <- app_assoc).
    apply IH. unfold better, nearest in *.
    destruct cur as [[th|] dcur]; cbn [fst snd] in *.
    + destruct H as (-> & Hin & Ht & Hmin).
      destruct (test ob) eqn:Eo; cbn [andb].
      * destruct (Rltb (d ob) (d th)) eqn:Elt; cbn [fst snd].
        -- apply Rltb_true in Elt. split; [reflexivity|].
           split; [apply in_or_app; right; now left|]. split; [assumption|].
           intros o Ho Hto. apply in_app_or in Ho as [Ho|[<-|[]]]; [|lra].
           specialize (Hmin o Ho Hto). lra.
        -- apply Rltb_false in Elt. split; [reflexivity|].
           split; [apply in_or_app; now left|]. split; [assumption|].
           intros o Ho Hto. apply in_app_or in Ho as [Ho|[<-|[]]]; [auto|lra].
      * cbn [fst snd]. split; [reflexivity|].
        split; [apply in_or_app; now left|]. split; [assumption|].
        intros o Ho Hto. apply in_app_or in Ho as [Ho|[<-|[]]]; [auto|congruence].
    + destruct H as (-> & Hnone).
      destruct (test ob) eqn:Eo; cbn [andb].
      * assert (Elt : Rltb (d ob) 1000000000 = true)
          by (apply Rltb_true; now apply Hd).
        rewrite Elt. cbn [fst snd]. split; [reflexivity|].
        split; [apply in_or_app; right; now left|]. split; [assumption|].
        intros o Ho Hto. apply in_app_or in Ho as [Ho|[<-|[]]]; [|lra].
        rewrite (Hnone o Ho) in Hto. discriminate.
      * cbn [fst snd]. split; [reflexivity|].
        intros o Ho. apply in_app_or in Ho as [Ho|[<-|[]]]; auto.
Qed.

Lemma scanAgents_others a b agents :
  scanAgents a b agents = fold_left (scanBlob b) (others a agents) scanInit.
Proof.
  unfold scanAgents, others. generalize scanInit.
  induction agents as [|ko agents IH]; intros sc; cbn [fold_left flat_map];
    [reflexivity|].
  rewrite fold_left_app, IH. f_equal. unfold scanAgent.
  destruct (String.eqb (a_id (snd ko)) (a_id a) || a_dead (snd ko)); reflexivity.
Qed.

(** The outcome of the scan: the nearest threat and the nearest prey among
    the blobs of the other living agents, if any. *)
Lemma scanAgents_spec a b agents :
  let sc := scanAgents a b agents in
  let l := others a agents in
  (match bestThreat sc with
   | None => forall ob, In ob l -> ~ isThreat b ob
   | Some th => In th l /\ isThreat b th /\
                forall ob, In ob l -> isThreat b ob -> dist b th <= dist b ob
   end) /\
  (match bestPrey sc with
   | None => forall ob, In ob l -> ~ isPrey b ob
   | Some pr => In pr l /\ isPrey b pr /\
                forall ob, In ob l -> isPrey b ob -> dist b pr <= dist b ob
   end).
Proof.
  intros sc l. subst sc. rewrite scanAgents_others. fold l. split.
  - pose proof (scan_fold_threat b l scanInit) as E.
    pose proof (better_nearest (threatTest b) (dist b)) as H.
    specialize (H ltac:(intros ob Ht; apply threatTest_spec in Ht as [Ht _]; lra)
                  l [] (None, 1000000000)).
    cbn [app] in H. specialize (H ltac:(split; [reflexivity|intros ob []])).
    cbn [scanInit bestThreat bestThreatD] in E. rewrite <- E in H.
    unfold nearest in H. cbn [fst snd] in H.
    destruct (bestThreat (fold_left (scanBlob b) l scanInit)) as [th|].
    + destruct H as (_ & Hin & Ht & Hmin). split; [assumption|].
      split; [now apply threatTest_spec|].
      intros ob Ho Hto. apply Hmin; [assumption|now apply threatTest_spec].
    + destruct H as (_ & Hnone). intros ob Ho Hto.
      apply threatTest_spec in Hto. rewrite (Hnone ob Ho) in Hto. discriminate.
  - pose proof (scan_fold_prey b l scanInit) as E.
    pose proof (better_nearest (preyTest b) (dist b)) as H.
    specialize (H ltac:(intros ob Ht; apply preyTest_spec in Ht as [Ht _]; lra)
                  l [] (None, 1000000000)).
    cbn [app] in H. specialize (H ltac:(split; [reflexivity|intros ob []])).
    cbn [scanInit bestPrey bestPreyD] in E. rewrite <- E in H.
    unfold nearest in H. cbn [fst snd] in H.
    destruct (bestPrey (fold_left (scanBlob b) l scanInit)) as [pr|].
    + destruct H as (_ & Hin & Ht & Hmin). split; [assumption|].
      split; [now apply preyTest_spec|].
      intros ob Ho Hto. apply Hmin; [assumption|now apply preyTest_spec].
    + destruct H as (_ & Hnone). intros ob Ho Hto.
      apply preyTest_spec in Hto. rewrite (Hnone ob Ho) in Hto. discriminate.
Qed.

Lemma hypot_swap x1 x2 y1 y2 : hypot (x1 - x2) (y1 - y2) = hypot (x2 - x1) (y2 - y1).
Proof. unfold hypot. f_equal. lra. Qed.

Lemma normalize_far x y :
  1 / 1000000 <= hypot x y ->
  fst (normalize x y) * fst (normalize x y) +
  snd (normalize x y) * snd (normalize x y) = 1.
Proof.
  intros H. destruct (normalize_cases x y) as [[H1 _]|[_ [_ H1]]]; [lra|exact H1].
Qed.

Lemma normalize_near x y : hypot x y < 1 / 1000000 -> normalize x y = (0, 0).
Proof.
  intros H. destruct (normalize_cases x y) as [[_ H1]|[H1 _]]; [exact H1|lra].
Qed.

(** Everything of an entry of the map but the aim and the boost flag. *)
Definition bodyOf (a : Agent) :=
  (a_id a, a_name a, a_isBot a, a_col a, a_dead a, a_lastSeen a, a_blobs a).

Definition body (ka : string * Agent) := (fst ka, bodyOf (snd ka)).

Definition unitOrZero (a : Agent) : Prop :=
  a_aimX a * a_aimX a + a_aimY a * a_aimY a = 1 \/ (a_aimX a = 0 /\ a_aimY a = 0).

(** What the AI decides for the bot [a] with first blob [b], when the
    generator and the draws stand at [s]: [a'] is [a] with a new intent. *)
Definition decided (pellets : list Pellet) (agents : AgentMap)
  (a : Agent) (b : Blob) (s : Src) (a' : Agent) : Prop :=
  let l := others a agents in
  bodyOf a' = bodyOf a /\ unitOrZero a' /\
  ((exists th,
       In th l /\ isThreat b th /\
       (forall ob, In ob l -> isThreat b ob -> dist b th <= dist b ob) /\
       (a_aimX a', a_aimY a') = normalize (b_x b - b_x th) (b_y b - b_y th) /\
       (1 / 1000000 <= dist b th -> a_aimX a' * a_aimX a' + a_aimY a' * a_aimY a' = 1) /\
       (dist b th < 1 / 1000000 -> a_aimX a' = 0 /\ a_aimY a' = 0) /\
       a_boost a' = false) \/
   ((forall ob, In ob l -> ~ isThreat b ob) /\
    exists pr,
       In pr l /\ isPrey b pr /\
       (forall ob, In ob l -> isPrey b ob -> dist b pr <= dist b ob) /\
       (a_aimX a', a_aimY a') = normalize (b_x pr - b_x b) (b_y pr - b_y b) /\
       (1 / 1000000 <= dist b pr -> a_aimX a' * a_aimX a' + a_aimY a' * a_aimY a' = 1) /\
       (dist b pr < 1 / 1000000 -> a_aimX a' = 0 /\ a_aimY a' = 0) /\
       a_boost a' = Rltb (mathRandomAt (s_env s) (mrIdx (s_env s))) (20 / 100)) \/
   ((forall ob, In ob l -> ~ isThreat b ob) /\
    (forall ob, In ob l -> ~ isPrey b ob) /\
    a_boost a' = false /\
    match pellets with
    | [] => a_aimX a' = 0 /\ a_aimY a' = 0
    | _ =>
        exists p,
          nth_error pellets
            (Z.to_nat (Zfloor (fst (rng s) * INR (List.length pellets)))) = Some p /\
          (a_aimX a', a_aimY a') = normalize (p_x p - b_x b) (p_y p - b_y b)
    end)).

Lemma normalize_0 : normalize 0 0 = (0, 0).
Proof. apply normalize_near. rewrite hypot_0. lra. Qed.

Lemma setIntent_unitOrZero a x y boost : unitOrZero (setIntent a (normalize x y) boost).
Proof.
  unfold unitOrZero; cbn [setIntent a_aimX a_aimY].
  destruct (normalize_unit_or_zero x y) as [H|H]; [right|left; exact H].
  rewrite H. now split.
Qed.

Lemma pellet_index v n :
  0 <= v < 1 -> (0 < n)%nat -> (Z.to_nat (Zfloor (v * INR n)) < n)%nat.
Proof.
  intros Hv Hn.
  assert (Hn' : 0 < INR n) by (apply lt_0_INR; lia).
  pose proof (Zfloor_bound (v * INR n)) as [Hlo Hhi].
  assert (H0 : (0 <= Zfloor (v * INR n))%Z) by (apply Zfloor_lub; cbn; nra).
  assert (H1 : (Zfloor (v * INR n) < Z.of_nat n)%Z).
  { apply lt_IZR. rewrite <- INR_IZR_INZ. nra. }
  lia.
Qed.

Lemma botDecide_spec pellets agents a b s :
  decided pellets agents a b s (fst (botDecide pellets a b (scanAgents a b agents) s)).
Proof.
  pose proof (scanAgents_spec a b agents) as [Ht Hp]. cbn zeta in Ht, Hp.
  unfold decided, botDecide.
  destruct (bestThreat (scanAgents a b agents)) as [th|].
  - unfold ret; cbn [fst]. split; [reflexivity|].
    split; [apply setIntent_unitOrZero|]. left.
    destruct Ht as (Hin & Hth & Hmin). exists th.
    cbn [setIntent a_aimX a_aimY a_boost].
    split; [assumption|]. split; [assumption|]. split; [assumption|].
    split; [now destruct (normalize _ _)|].
    split; [intros Hd; now apply normalize_far|].
    split; [|reflexivity].
    intros Hd. rewrite normalize_near by exact Hd. now split.
  - destruct (bestPrey (scanAgents a b agents)) as [pr|].
    + unfold bind, ret, mathRandom; cbn [fst]. split; [reflexivity|].
      split; [apply setIntent_unitOrZero|]. right; left.
      split; [assumption|]. destruct Hp as (Hin & Hpr & Hmin). exists pr.
      cbn [setIntent a_aimX a_aimY a_boost].
      split; [assumption|]. split; [assumption|]. split; [assumption|].
      split; [now destruct (normalize _ _)|].
      unfold dist. rewrite (hypot_swap (b_x b) (b_x pr) (b_y b) (b_y pr)).
      split; [intros Hd; now apply normalize_far|].
      split; [|reflexivity].
      intros Hd. rewrite normalize_near by exact Hd. now split.
    + unfold bind, ret. pose proof (rng_range s) as Hv.
      destruct (rng s) as [v s'] eqn:Er. cbn [fst] in Hv |- *.
      assert (Hsome : pellets <> [] ->
                      exists p, nth_error pellets
                        (Z.to_nat (Zfloor (v * INR (List.length pellets)))) = Some p).
      { intros Hne.
        assert (Hi : (Z.to_nat (Zfloor (v * INR (List.length pellets)))
                      < List.length pellets)%nat).
        { apply pellet_index; [assumption|]. destruct pellets; [congruence|cbn; lia]. }
        apply nth_error_Some in Hi.
        destruct (nth_error pellets _) as [p|]; [eauto|congruence]. }
      destruct pellets as [|p0 ps].
      * cbn [nth_error List.length]. destruct (Z.to_nat _); cbn [nth_error fst];
          (split; [reflexivity|]); (split; [apply setIntent_unitOrZero|]);
          right; right; (split; [assumption|]); (split; [assumption|]);
          (split; [reflexivity|]); cbn [setIntent a_aimX a_aimY];
          rewrite normalize_0; now split.
      * destruct (Hsome ltac:(discriminate)) as [p Ep]. rewrite Ep.
        cbn [fst]. split; [reflexivity|].
        split; [apply setIntent_unitOrZero|]. right; right.
        split; [assumption|]. split; [assumption|]. split; [reflexivity|].
        exists p. split; [reflexivity|].
        cbn [setIntent a_aimX a_aimY]. now destruct (normalize _ _).
Qed.

(** *** The loop over the bots *)

Lemma others_body a : forall agents agents',
  map body agents = map body agents' -> others a agents = others a agents'.
Proof.
  induction agents as [|[k o] agents IH]; intros [|[k' o'] agents'] H;
    cbn in H; try discriminate; [reflexivity|].
  injection H as Hk Hid _ _ _ Hdead _ Hblobs Hrest.
  cbn [others flat_map snd]. rewrite Hid, Hdead, Hblobs.
  f_equal. now apply IH.
Qed.

Lemma scanAgents_body a b agents agents' :
  map body agents = map body agents' -> scanAgents a b agents = scanAgents a b agents'.
Proof. intros H. rewrite !scanAgents_others. now rewrite (others_body a _ _ H). Qed.

Lemma map_setAt_body : forall agents i ka ka',
  nth_error agents i = Some ka -> body ka' = body ka ->
  map body (setAt i ka' agents) = map body agents.
Proof.
  induction agents as [|x agents IH]; intros [|i] ka ka' H Hb; cbn in *;
    try discriminate.
  - injection H as ->. now rewrite Hb.
  - f_equal. eapply IH; eauto.
Qed.

Lemma botStep_body pellets agents j s :
  map body (fst (botStep pellets agents j s)) = map body agents.
Proof.
  unfold botStep.
  destruct (nth_error agents j) as [[k a]|] eqn:Ej; [|reflexivity].
  destruct (a_dead a || negb (a_isBot a)); [reflexivity|].
  destruct (a_blobs a) as [|b rest]; [reflexivity|].
  unfold bind, ret.
  destruct (botDecide_intent pellets a b (scanAgents a b agents) s)
    as [aim [boost Hd]].
  destruct (botDecide pellets a b (scanAgents a b agents) s) as [a' s'].
  cbn [fst] in *. subst a'.
  eapply map_setAt_body; [exact Ej|reflexivity].
Qed.

Lemma botStep_other pellets agents j i s :
  i <> j -> nth_error (fst (botStep pellets agents j s)) i = nth_error agents i.
Proof.
  intros Hij. unfold botStep.
  destruct (nth_error agents j) as [[k a]|]; [|reflexivity].
  destruct (a_dead a || negb (a_isBot a)); [reflexivity|].
  destruct (a_blobs a) as [|b rest]; [reflexivity|].
  unfold bind, ret.
  destruct (botDecide pellets a b (scanAgents a b agents) s) as [a' s'].
  cbn [fst]. apply nth_error_setAt_other. auto.
Qed.

Lemma botLoop_other pellets i : forall js agents s,
  (forall j, In j js -> i <> j) ->
  map body (fst (foldM (botStep pellets) js agents s)) = map body agents /\
  nth_error (fst (foldM (botStep pellets) js agents s)) i = nth_error agents i.
Proof.
  induction js as [|j js IH]; intros agents s Hjs; cbn [foldM].
  - now split.
  - unfold bind.
    pose proof (botStep_body pellets agents j s) as Hb.
    pose proof (botStep_other pellets agents j i s (Hjs j (or_introl eq_refl))) as Ho.
    destruct (botStep pellets agents j s) as [agents1 s1]. cbn [fst] in *.
    destruct (IH agents1 s1) as [H1 H2]; [intros j' Hj'; apply Hjs; now right|].
    rewrite H1, H2. now split.
Qed.

Lemma foldM_app {A S} (f : S -> A -> M S) : forall l1 l2 st s,
  foldM f (l1 ++ l2) st s =
  (let (st1, s1) := foldM f l1 st s in foldM f l2 st1 s1).
Proof.
  induction l1 as [|a l1 IH]; intros l2 st s; cbn [foldM app].
  - reflexivity.
  - unfold bind. destruct (f st a s) as [st' s']. apply IH.
Qed.

Lemma seq_split i n :
  (i < n)%nat -> seq 0 n = seq 0 i ++ i :: seq (S i) (n - S i).
Proof.
  intros H. replace n with (i + S (n - S i))%nat at 1 by lia.
  rewrite seq_app. reflexivity.
Qed.

(** What one decision draws: nothing from the clock, at most one value of
    [Math.random], whose sequence it leaves as it is. *)
Lemma botStep_draws pellets agents j s :
  let s' := snd (botStep pellets agents j s) in
  mathRandomAt (s_env s') = mathRandomAt (s_env s) /\
  (mrIdx (s_env s) <= mrIdx (s_env s') <= S (mrIdx (s_env s)))%nat.
Proof.
  unfold botStep.
  destruct (nth_error agents j) as [[k a]|]; [|cbn; split; [reflexivity|lia]].
  destruct (a_dead a || negb (a_isBot a)); [cbn; split; [reflexivity|lia]|].
  destruct (a_blobs a) as [|b rest]; [cbn; split; [reflexivity|lia]|].
  unfold bind, ret, botDecide.
  destruct (bestThreat (scanAgents a b agents)); [cbn; split; [reflexivity|lia]|].
  destruct (bestPrey (scanAgents a b agents)).
  - unfold bind, ret, mathRandom. cbn. split; [reflexivity|lia].
  - unfold bind, ret, rng. destruct (mulberry32 (rngSeed s)) as [v seed'].
    destruct (nth_error pellets _); cbn; split; first [reflexivity|lia].
Qed.

Lemma botLoop_draws pellets : forall js agents s,
  let s' := snd (foldM (botStep pellets) js agents s) in
  mathRandomAt (s_env s') = mathRandomAt (s_env s) /\
  (mrIdx (s_env s) <= mrIdx (s_env s') <= mrIdx (s_env s) + List.length js)%nat.
Proof.
  induction js as [|j js IH]; intros agents s; cbn [foldM List.length].
  - cbn. split; [reflexivity|lia].
  - unfold bind. pose proof (botStep_draws pellets agents j s) as H. cbn zeta in H.
    destruct (botStep pellets agents j s) as [agents1 s1]. cbn [snd] in H.
    specialize (IH agents1 s1). cbn zeta in IH.
    destruct H as [H1 H2], IH as [H3 H4]. split; [congruence|lia].
Qed.

(** C7 (amended).  For every living bot of the room and its first blob
    [b], the bot phase of a tick stores under the bot's identity the
    decision [decided]: with a threat within 900 (a blob of another living
    agent whose radius exceeds 1.10 times the bot's), the aim points away
    from the nearest threat and boost is off; otherwise, with a prey within
    900 (a blob the bot's radius exceeds 1.20 times), the aim points to the
    nearest prey and boost is on exactly when the next draw of
    [Math.random()] is below 0.20; otherwise the aim points to the pellet
    the next draw of the room's generator selects and boost is off.  The
    stored aim has length 1, or is the zero vector: when the target's
    centre is nearer than 1e-6 to the blob's, or when there is neither
    target nor pellet.  The draws are read where the loop stands when it
    reaches the bot: [s1] is the state of the generator and of the draws
    that the decisions of the entries before the bot have left, each of
    which took at most one value of [Math.random] (none, for the first
    entry of the map). *)
Theorem C7_bot_ai (pellets : list Pellet) (agents : AgentMap) (s : Src)
  (i : nat) (k : string) (a : Agent) (b : Blob) (rest : list Blob) :
  nth_error agents i = Some (k, a) ->
  a_dead a = false -> a_isBot a = true -> a_blobs a = b :: rest ->
  let s1 := snd (foldM (botStep pellets) (seq 0 i) agents s) in
  (exists a',
     nth_error (fst (botPhase pellets agents s)) i = Some (k, a') /\
     decided pellets agents a b s1 a') /\
  mathRandomAt (s_env s1) = mathRandomAt (s_env s) /\
  (mrIdx (s_env s) <= mrIdx (s_env s1) <= mrIdx (s_env s) + i)%nat /\
  (i = 0%nat -> s1 = s).
Proof.
  intros Hi Hdead Hbot Hblobs s1.
  assert (Hlen : (i < List.length agents)%nat)
    by (apply nth_error_Some; congruence).
  split; [|split; [|split]].
  - unfold botPhase. rewrite (seq_split i _ Hlen), foldM_app.
    destruct (botLoop_other pellets i (seq 0 i) agents s) as [Hb1 Hn1].
    { intros j Hj. apply in_seq in Hj. lia. }
    subst s1.
    destruct (foldM (botStep pellets) (seq 0 i) agents s) as [agents1 s1].
    cbn [fst snd] in *. cbn [foldM]. unfold bind at 1.
    assert (Hstep : fst (botStep pellets agents1 i s1) =
                    setAt i (k, fst (botDecide pellets a b (scanAgents a b agents) s1))
                          agents1).
    { unfold botStep. rewrite Hn1, Hi, Hdead, Hbot, Hblobs. cbn [orb negb].
      unfold bind, ret. rewrite (scanAgents_body a b agents1 agents Hb1).
      now destruct (botDecide pellets a b (scanAgents a b agents) s1). }
    destruct (botStep pellets agents1 i s1) as [agents2 s2]. cbn [fst] in Hstep.
    destruct (botLoop_other pellets i (seq (S i) (List.length agents - S i)) agents2 s2)
      as [_ Hn2].
    { intros j Hj. apply in_seq in Hj. lia. }
    exists (fst (botDecide pellets a b (scanAgents a b agents) s1)).
    split; [|apply botDecide_spec].
    rewrite Hn2, Hstep. apply nth_error_setAt_same.
    rewrite <- (length_map body), Hb1, length_map. exact Hlen.
  - exact (proj1 (botLoop_draws pellets (seq 0 i) agents s)).
  - pose proof (proj2 (botLoop_draws pellets (seq 0 i) agents s)) as H.
    rewrite length_seq in H. exact H.
  - intros ->. reflexivity.
Qed.

(** The scenario against C7 as stated: a bot whose first blob has the same
    centre as a larger blob of a human. *)
Definition c7_b : Blob := mkBlob 0 0 0 0 40 20 999.
Definition c7_th : Blob := mkBlob 0 0 0 0 200 50 999.
Definition c7_bot : Agent :=
  mkAgent "bot" "Nova" true (mkColor 70 70 70) false 1 0 false 0 [c7_b].
Definition c7_human : Agent :=
  mkAgent "h" "Player" false (mkColor 70 70 70) false 0 0 false 0 [c7_th].
Definition c7_agents : AgentMap := [("bot"%string, c7_bot); ("h"%string, c7_human)].
Definition c7_pellets : list Pellet := [mkPellet 100 100 5 1].
Definition c7_src : Src := mkSrc 1 (mkEnv (fun _ => 0) 0 (fun _ => 0) 0).

Lemma C7_bot_ai_witness :
  exists a',
    nth_error (fst (botPhase c7_pellets c7_agents c7_src)) 0 = Some ("bot"%string, a') /\
    decided c7_pellets c7_agents c7_bot c7_b c7_src a'.
Proof.
  exact (proj1 (C7_bot_ai c7_pellets c7_agents c7_src 0 "bot" c7_bot c7_b []
                          eq_refl eq_refl eq_refl eq_refl)).
Defined.

Lemma c7_threat : isThreat c7_b c7_th.
Proof.
  unfold isThreat, dist, c7_b, c7_th; cbn [b_x b_y b_r].
  rewrite hypot_same. lra.
Qed.

Lemma c7_scan : bestThreat (scanAgents c7_bot c7_b c7_agents) = Some c7_th.
Proof.
  pose proof (scanAgents_spec c7_bot c7_b c7_agents) as [H _]. cbn zeta in H.
  assert (Hl : others c7_bot c7_agents = [c7_th]) by reflexivity.
  rewrite Hl in H.
  destruct (bestThreat (scanAgents c7_bot c7_b c7_agents)) as [th|].
  - destruct H as [[<-|[]] _]. reflexivity.
  - exfalso. apply (H c7_th); [now left|apply c7_threat].
Qed.

Lemma botStep_bot pellets agents i k a b rest s :
  nth_error agents i = Some (k, a) ->
  a_dead a = false -> a_isBot a = true -> a_blobs a = b :: rest ->
  fst (botStep pellets agents i s) =
  setAt i (k, fst (botDecide pellets a b (scanAgents a b agents) s)) agents.
Proof.
  intros Hi Hdead Hbot Hblobs. unfold botStep.
  rewrite Hi, Hdead, Hbot, Hblobs. cbn [orb negb]. unfold bind, ret.
  now destruct (botDecide pellets a b (scanAgents a b agents) s).
Qed.

Lemma botStep_skip pellets agents i k a s :
  nth_error agents i = Some (k, a) ->
  a_dead a || negb (a_isBot a) = true ->
  botStep pellets agents i s = (agents, s).
Proof. intros Hi H. unfold botStep. now rewrite Hi, H. Qed.

(** C7, as stated, fails for the stored aim: here a threat exists (and so
    does a pellet), the bot flees it, and the aim stored is the zero vector,
    not a unit vector. *)
Lemma C7_zero_aim_with_target :
  isThreat c7_b c7_th /\ c7_pellets <> [] /\
  exists a',
    nth_error (fst (botPhase c7_pellets c7_agents c7_src)) 0 = Some ("bot"%string, a') /\
    a_aimX a' = 0 /\ a_aimY a' = 0 /\ a_boost a' = false /\
    a_aimX a' * a_aimX a' + a_aimY a' * a_aimY a' <> 1.
Proof.
  split; [apply c7_threat|]. split; [discriminate|].
  exists (setIntent c7_bot (0, 0) false).
  split; [|cbn [setIntent a_aimX a_aimY a_boost fst snd]; repeat split; lra].
  assert (Hd : forall s, fst (botDecide c7_pellets c7_bot c7_b
                                (scanAgents c7_bot c7_b c7_agents) s)
                         = setIntent c7_bot (0, 0) false).
  { intros s. unfold botDecide. rewrite c7_scan. unfold ret. cbn [fst].
    f_equal. unfold c7_b, c7_th; cbn [b_x b_y].
    apply normalize_near. rewrite hypot_same. lra. }
  unfold botPhase. change (seq 0 (List.length c7_agents)) with [0%nat; 1%nat].
  cbn [foldM]. unfold bind, ret.
  pose proof (botStep_bot c7_pellets c7_agents 0 "bot" c7_bot c7_b [] c7_src
                          eq_refl eq_refl eq_refl eq_refl) as H0.
  rewrite Hd in H0.
  destruct (botStep c7_pellets c7_agents 0 c7_src) as [ag1 s1].
  cbn [fst] in H0. subst ag1. cbn [setAt c7_agents].
  unfold c7_agents. cbn [setAt].
  rewrite (botStep_skip c7_pellets
             [("bot"%string, setIntent c7_bot (0, 0) false); ("h"%string, c7_human)]
             1 "h" c7_human s1 eq_refl eq_refl).
  reflexivity.
Qed.

(* ------------------------------------------------------------------ *)
(** ** Ticks of a quiet room *)

(** Phases that have nothing to do return their input. *)

Lemma inactive_fresh now a : a_lastSeen a = 0 -> inactive now a = false.
Proof.
  intros H. unfold inactive. rewrite H. unfold Reqb.
  destruct (Req_dec_T 0 0) as [_|Hn]; [|congruence].
  replace (now - now) with 0 by lra.
  assert (E : Rgtb 0 PLAYER_TTL = false) by (apply Rgtb_false; unfold PLAYER_TTL; lra).
  rewrite E. apply andb_false_r.
Qed.

Lemma removeInactive_fresh now agents :
  Forall (fun ka => a_lastSeen (snd ka) = 0) agents ->
  removeInactive now agents = agents.
Proof.
  unfold removeInactive. induction 1 as [|ka agents Ha _ IH]; cbn [filter].
  - reflexivity.
  - now rewrite (inactive_fresh now _ Ha), IH.
Qed.

Lemma foldM_id {A S} (f : S -> A -> M S) st : forall l s,
  (forall a s', f st a s' = (st, s')) -> foldM f l st s = (st, s).
Proof.
  induction l as [|a l IH]; intros s H; cbn [foldM]; [reflexivity|].
  unfold bind. rewrite H. now apply IH.
Qed.

Lemma botPhase_humans pellets agents s :
  Forall (fun ka => a_isBot (snd ka) = false) agents ->
  botPhase pellets agents s = (agents, s).
Proof.
  intros H. unfold botPhase. apply foldM_id. intros i s'. unfold botStep.
  destruct (nth_error agents i) as [[k a]|] eqn:Ei; [|reflexivity].
  pose proof (Forall_nth_error _ _ _ _ H Ei) as Ha. cbn [snd] in Ha.
  rewrite Ha. cbn [negb]. now rewrite orb_true_r.
Qed.

Lemma setBlobs_same a : setBlobs a (a_blobs a) = a.
Proof. now destruct a. Qed.

Lemma eatBlobs_nil blobs : eatBlobs blobs [] = (blobs, []).
Proof.
  induction blobs as [|b bs IH]; cbn [eatBlobs eatPellets]; [reflexivity|].
  now rewrite IH.
Qed.

Lemma eatPhase_nil agents : eatPhase agents [] = (agents, []).
Proof.
  induction agents as [|[k a] rest IH]; cbn [eatPhase]; [reflexivity|].
  rewrite eatBlobs_nil, IH, setBlobs_same. now destruct (a_dead a).
Qed.

Lemma virusBlobs_nil : forall n blobs s, virusBlobs [] n blobs s = (blobs, s).
Proof.
  induction n as [|bi IH]; intros blobs s; cbn [virusBlobs]; [reflexivity|].
  unfold bind, virusBlob. destruct (nth_error blobs bi); cbn [foldM]; unfold ret;
    cbn [snd]; apply IH.
Qed.

Lemma virusPhase_nil : forall agents s, virusPhase [] agents s = (agents, s).
Proof.
  induction agents as [|[k a] rest IH]; intros s; cbn [virusPhase]; [reflexivity|].
  unfold bind, virusAgent; cbn [fst snd].
  destruct (a_dead a).
  - unfold ret at 1. rewrite IH. reflexivity.
  - unfold bind. rewrite virusBlobs_nil. unfold ret at 1. rewrite IH.
    unfold ret. now rewrite setBlobs_same.
Qed.

(** A blob at rest inside the field, of an agent that neither aims nor
    boosts, stays where it is; its radius loses at most 1/1000 in a tick. *)
Lemma moveBlob_still a total b :
  a_aimX a = 0 -> a_aimY a = 0 -> a_boost a = false ->
  b_vx b = 0 -> b_vy b = 0 ->
  b_r b <= b_x b <= WORLD - b_r b -> b_r b <= b_y b <= WORLD - b_r b ->
  15 <= b_r b ->
  b_x (moveBlob a total b) = b_x b /\ b_y (moveBlob a total b) = b_y b /\
  b_r b - 1 / 1000 <= b_r (moveBlob a total b) <= b_r b.
Proof.
  intros Hx Hy Hb Hvx Hvy Hbx Hby Hr.
  unfold moveBlob, decayBlob, knockBlob, aimBlob.
  rewrite Hx, Hy, Hb, Hvx, Hvy. rewrite andb_false_r.
  cbn [b_x b_y b_vx b_vy b_mass b_r b_splitTimer].
  replace (b_x b + 0 * baseSpeed (b_r b) total false * DT) with (b_x b) by lra.
  replace (b_y b + 0 * baseSpeed (b_r b) total false * DT) with (b_y b) by lra.
  rewrite !clamp_id by assumption.
  split; [lra|]. split; [lra|].
  unfold DT, TICK_RATE. destruct (a_isBot a); rminmax.
Qed.

(** A room of two humans at the same place, without pellets or viruses. *)
Definition c5_big : Blob := mkBlob 1000 1000 0 0 400 100 0.
Definition c5_small : Blob := mkBlob 1000 1000 0 0 100 50 0.
Definition c5_A : Agent :=
  mkAgent "a" "A" false (mkColor 70 70 70) false 0 0 false 0 [c5_big].
Definition c5_B : Agent :=
  mkAgent "b" "B" false (mkColor 70 70 70) false 0 0 false 0 [c5_small].
Definition c5_room : Room :=
  mkRoom "ABC" 1 1 (Fin 60) (Fin 0) 0 [("a"%string, c5_A); ("b"%string, c5_B)] [] [].

Lemma c5_before s :
  fst (fst (beforeEngulf c5_room s)) = movePhase (r_agents c5_room).
Proof.
  unfold beforeEngulf, bind, ret.
  destruct (dateNow s) as [nowMs s0].
  rewrite removeInactive_fresh by (repeat constructor).
  rewrite botPhase_humans by (repeat constructor).
  cbn [r_pellets c5_room]. rewrite eatPhase_nil.
  destruct (refill [] s0) as [pellets4 s2].
  cbn [r_viruses]. rewrite virusPhase_nil. reflexivity.
Qed.

Lemma phaseLog_two ka A kb B ev :
  a_dead A = false -> a_dead B = false ->
  In ev (pairTrace A B) -> In (0%nat, 1%nat, ev) (phaseLog [(ka, A); (kb, B)]).
Proof.
  intros HA HB Hev. unfold phaseLog.
  cbn [map snd List.length seq rowsLog]. apply in_or_app. left.
  unfold rowBites. cbn [nth_error List.length Nat.sub seq pairsLog]. rewrite HA.
  apply in_or_app. left. unfold pairBites. cbn [nth_error]. rewrite HB.
  now apply (in_map (fun ev => (0%nat, 1%nat, ev))).
Qed.

Lemma C5_engulf_witness :
  exists ev,
    In (0%nat, 1%nat, ev) (phaseLog (fst (fst (beforeEngulf c5_room c7_src)))) /\
    ev_bite ev = AEatsB /\ engulfs (ev_ab ev) (ev_bb ev) /\
    eat (ev_ab ev) (ev_bb ev)
    = grow (ev_ab ev)
           (b_mass (ev_bb ev) *
            clamp (b_mass (ev_bb ev) / b_mass (ev_ab ev)) (12 / 100) (50 / 100)).
Proof.
  set (big' := moveBlob c5_A (agentMass c5_A) c5_big).
  set (small' := moveBlob c5_B (agentMass c5_B) c5_small).
  assert (E : bite big' small' = AEatsB).
  { apply bite_AEatsB. unfold engulfs.
    destruct (moveBlob_still c5_A (agentMass c5_A) c5_big) as (X1 & Y1 & R1);
      try reflexivity; try (unfold WORLD; cbn; lra).
    destruct (moveBlob_still c5_B (agentMass c5_B) c5_small) as (X2 & Y2 & R2);
      try reflexivity; try (unfold WORLD; cbn; lra).
    fold big' in X1, Y1, R1. fold small' in X2, Y2, R2.
    rewrite X1, Y1, X2, Y2. cbn [c5_big c5_small b_x b_y b_r] in *.
    rewrite hypot_same. lra. }
  assert (Hin : In (0%nat, 1%nat, mkEvent AEatsB 0 0 big' small')
                   (phaseLog (fst (fst (beforeEngulf c5_room c7_src))))).
  { rewrite c5_before.
    apply (phaseLog_two "a" (moveAgent c5_A) "b" (moveAgent c5_B));
      [reflexivity|reflexivity|].
    unfold pairTrace, moveAgent, c5_A, c5_B.
    cbn [a_dead setBlobs a_blobs map List.length outerTrace nth_error innerTrace].
    fold c5_A c5_B. fold big' small'.
    rewrite E. apply in_or_app. left. now left. }
  exists (mkEvent AEatsB 0 0 big' small').
  split; [exact Hin|]. split; [reflexivity|].
  split; [now apply bite_AEatsB|].
  exact (proj1 (proj1 (proj2 (proj2 (proj2 (proj2 C5_engulf))))
                      c5_room c7_src _ _ _ (Forall_nil _) Hin)).
Defined.

(** A room created with one bot holds an agent with a blob. *)
Lemma makeRoom_one_bot code maxPlayers e :
  exists id a b,
    In (id, a) (r_agents (fst (makeRoom code maxPlayers (Fin 1) e))) /\ In b (a_blobs a).
Proof.
  unfold makeRoom, bind, ret.
  destruct (pushPellets PELLET_TARGET [] (mkSrc (hashSeed code) e)) as [pellets s1].
  destruct (pushViruses VIRUS_COUNT [] s1) as [viruses s2].
  rewrite botPasses_1.
  cbn [spawnBots]. unfold bind, ret. draw.
  destruct (pickName 200 [] _ s) as [picked s3].
  match goal with
  | |- context [spawnAgent ?id ?nm true s3] =>
      destruct (spawnAgent_spec id nm true s3) as (_ & _ & _ & _ & _ & _ & _ & b & Hb & _);
      destruct (spawnAgent id nm true s3) as [a s4]; exists id, a, b
  end.
  cbn [fst] in *. cbn [r_agents mapSet]. rewrite Hb. split; now left.
Qed.

Lemma postCreate_In code maxPlayers bots e :
  In (code, fst (makeRoom code maxPlayers bots e))
     (fst (postCreate [] code maxPlayers bots e)).
Proof.
  unfold postCreate. destruct (makeRoom code maxPlayers bots e) as [room e'].
  cbn [fst mapSet]. now left.
Qed.

Lemma C1_floors_witness :
  let e := mkEnv (fun _ => 0) 0 (fun _ => 0) 0 in
  let rooms := fst (postCreate [] "ABC" (Fin 60) (Fin 1) e) in
  exists code room k a b,
    In (code, room) rooms /\ In (k, a) (r_agents room) /\ In b (a_blobs a) /\
    14 <= b_r b /\ 0 <= b_mass b.
Proof.
  intros e rooms.
  destruct (makeRoom_one_bot "ABC" (Fin 60) e) as (id & a & b & Ha & Hin).
  pose proof (postCreate_In "ABC" (Fin 60) (Fin 1) e) as Hroom.
  exists "ABC"%string, (fst (makeRoom "ABC" (Fin 60) (Fin 1) e)), id, a, b.
  split; [exact Hroom|]. split; [exact Ha|]. split; [exact Hin|].
  exact (proj1 C1_floors rooms (reach_create [] "ABC" (Fin 60) (Fin 1) e reach_start)
               "ABC"%string _ id a b Hroom Ha Hin).
Defined.

(* ------------------------------------------------------------------ *)
(** ** What the seeded generator determines *)

(** Two states of the sources that agree on the room's generator and on the
    clock; the draws of [Math.random] are free to differ. *)
Definition sameClock (e e' : Env) : Prop :=
  dateNowAt e = dateNowAt e' /\ clkIdx e = clkIdx e'.

Definition sameSeed (s s' : Src) : Prop :=
  rngSeed s = rngSeed s' /\ sameClock (s_env s) (s_env s').

(** A computation whose result does not depend on [Math.random]. *)
Definition seeded {A} (m : M A) : Prop :=
  forall s s', sameSeed s s' ->
               fst (m s) = fst (m s') /\ sameSeed (snd (m s)) (snd (m s')).

Lemma seeded_ret {A} (a : A) : seeded (ret a).
Proof. intros s s' H. now split. Qed.

Lemma seeded_bind {A B} (m : M A) (k : A -> M B) :
  seeded m -> (forall a, seeded (k a)) -> seeded (bind m k).
Proof.
  intros Hm Hk s s' H. unfold bind.
  destruct (Hm s s' H) as [H1 H2].
  destruct (m s) as [a s1], (m s') as [a' s1']. cbn [fst snd] in *. subst a'.
  now apply Hk.
Qed.

Lemma seeded_rng : seeded rng.
Proof.
  intros s s' [H1 H2]. unfold rng. rewrite H1.
  destruct (mulberry32 (rngSeed s')) as [v seed']. cbn [fst snd].
  split; [reflexivity|]. split; [reflexivity|exact H2].
Qed.

Lemma seeded_dateNow : seeded dateNow.
Proof.
  intros s s' [H1 [H2 H3]]. unfold dateNow. cbn [fst snd].
  rewrite H2, H3. split; [reflexivity|].
  split; [exact H1|]. split; reflexivity.
Qed.

Lemma mathRandom_sameSeed s s' :
  sameSeed s s' -> sameSeed (snd (mathRandom s)) (snd (mathRandom s')).
Proof.
  intros [H1 [H2 H3]]. unfold mathRandom. cbn [snd].
  split; [exact H1|]. split; cbn; assumption.
Qed.

Create HintDb seeded.
#[local] Hint Resolve seeded_ret seeded_bind seeded_rng seeded_dateNow : seeded.

Lemma seeded_spawnAgent id name isBot : seeded (spawnAgent id name isBot).
Proof. unfold spawnAgent. destruct isBot; auto 20 with seeded. Qed.

Lemma seeded_newPellet : seeded newPellet.
Proof. unfold newPellet. auto 20 with seeded. Qed.

Lemma seeded_pushPellets : forall n pellets, seeded (pushPellets n pellets).
Proof.
  induction n as [|n IH]; intros pellets; cbn [pushPellets];
    auto using seeded_newPellet with seeded.
Qed.

Lemma seeded_pushViruses : forall n viruses, seeded (pushViruses n viruses).
Proof.
  induction n as [|n IH]; intros viruses; cbn [pushViruses]; [auto with seeded|].
  apply seeded_bind; [unfold newVirus; auto 20 with seeded|auto].
Qed.

Lemma seeded_pickName : forall tries used nm, seeded (pickName tries used nm).
Proof.
  induction tries as [|n IH]; intros used nm; cbn [pickName]; [auto with seeded|].
  apply seeded_bind; [auto with seeded|]. intros v.
  destruct (existsb _ used); auto with seeded.
Qed.

Lemma seeded_spawnBots : forall n i code used agents,
  seeded (spawnBots n i code used agents).
Proof.
  induction n as [|n IH]; intros i code used agents; cbn [spawnBots];
    [auto with seeded|].
  apply seeded_bind; [auto with seeded|]. intros v.
  apply seeded_bind; [apply seeded_pickName|]. intros picked.
  apply seeded_bind; [apply seeded_spawnAgent|]. intros a. apply IH.
Qed.

Lemma seeded_foldM {A S} (f : S -> A -> M S) :
  (forall st a, seeded (f st a)) -> forall l st, seeded (foldM f l st).
Proof.
  intros Hf. induction l as [|a l IH]; intros st; cbn [foldM]; auto with seeded.
Qed.

Lemma seeded_respawnPhase agents : seeded (respawnPhase agents).
Proof.
  unfold respawnPhase. apply seeded_foldM. intros st i. unfold respawnStep.
  destruct (nth_error st i) as [[k a]|]; [|auto with seeded].
  destruct (a_dead a && a_isBot a); [|auto with seeded].
  apply seeded_bind; [apply seeded_spawnAgent|auto with seeded].
Qed.

Lemma makeRoom_seeded code maxPlayers bots e e' :
  sameClock e e' ->
  fst (makeRoom code maxPlayers bots e) = fst (makeRoom code maxPlayers bots e').
Proof.
  intros H. unfold makeRoom.
  assert (Hb : seeded (pellets <- pushPellets PELLET_TARGET [] ;;
                       viruses <- pushViruses VIRUS_COUNT [] ;;
                       agents <- spawnBots (botPasses 121 0 (Num.clamp bots (Fin 0) (Fin 120))) 0%Z code [] [] ;;
                       ret (pellets, viruses, agents))).
  { apply seeded_bind; [apply seeded_pushPellets|]. intros pellets.
    apply seeded_bind; [apply seeded_pushViruses|]. intros viruses.
    apply seeded_bind; [apply seeded_spawnBots|]. auto with seeded. }
  destruct (Hb (mkSrc (hashSeed code) e) (mkSrc (hashSeed code) e')) as [H1 [H2 _]].
  { split; [reflexivity|exact H]. }
  destruct ((pellets <- pushPellets PELLET_TARGET [] ;; _) (mkSrc (hashSeed code) e))
    as [[[pellets viruses] agents] s1].
  destruct ((pellets <- pushPellets PELLET_TARGET [] ;; _) (mkSrc (hashSeed code) e'))
    as [[[pellets' viruses'] agents'] s1'].
  cbn [fst snd] in *. injection H1 as -> -> ->. now rewrite H2.
Qed.

Lemma spawnIn_seeded room id name isBot e e' :
  sameClock e e' ->
  fst (spawnIn room id name isBot e) = fst (spawnIn room id name isBot e').
Proof.
  intros H. unfold spawnIn.
  destruct (seeded_spawnAgent id name isBot (mkSrc (r_rng room) e)
                              (mkSrc (r_rng room) e')) as [H1 [H2 _]].
  { split; [reflexivity|exact H]. }
  destruct (spawnAgent id name isBot (mkSrc (r_rng room) e)) as [a s].
  destruct (spawnAgent id name isBot (mkSrc (r_rng room) e')) as [a' s'].
  cbn [fst snd] in *. now rewrite H1, H2.
Qed.

(** An entry of the map without its boost flag. *)
Definition noBoost (ka : string * Agent) :=
  (body ka, a_aimX (snd ka), a_aimY (snd ka)).

Lemma noBoost_body agents agents' :
  map noBoost agents = map noBoost agents' -> map body agents = map body agents'.
Proof.
  intros H. apply (f_equal (map (fun t => fst (fst t)))) in H.
  rewrite !map_map in H. exact H.
Qed.

Lemma others_id a a' agents : a_id a = a_id a' -> others a agents = others a' agents.
Proof. intros H. unfold others. now rewrite H. Qed.

Lemma foldM_rel {A S} (R : S -> S -> Prop) (f : S -> A -> M S) :
  (forall st st' a s s',
      R st st' -> sameSeed s s' ->
      R (fst (f st a s)) (fst (f st' a s')) /\
      sameSeed (snd (f st a s)) (snd (f st' a s'))) ->
  forall l st st' s s',
    R st st' -> sameSeed s s' ->
    R (fst (foldM f l st s)) (fst (foldM f l st' s')) /\
    sameSeed (snd (foldM f l st s)) (snd (foldM f l st' s')).
Proof.
  intros Hf. induction l as [|a l IH]; intros st st' s s' HR Hs; cbn [foldM].
  - now split.
  - unfold bind. destruct (Hf st st' a s s' HR Hs) as [H1 H2].
    destruct (f st a s) as [st1 s1], (f st' a s') as [st1' s1'].
    cbn [fst snd] in *. now apply IH.
Qed.

Lemma botDecide_seeded pellets (k : string) a a' b sc s s' :
  bodyOf a = bodyOf a' -> sameSeed s s' ->
  noBoost (k, fst (botDecide pellets a b sc s))
  = noBoost (k, fst (botDecide pellets a' b sc s')) /\
  sameSeed (snd (botDecide pellets a b sc s)) (snd (botDecide pellets a' b sc s')).
Proof.
  intros Hb Hs. unfold botDecide.
  assert (Hn : forall aim boost boost',
             noBoost (k, setIntent a aim boost) = noBoost (k, setIntent a' aim boost')).
  { intros aim boost boost'. unfold noBoost, body, bodyOf in *.
    cbn [fst snd setIntent a_id a_name a_isBot a_col a_dead a_lastSeen a_blobs
         a_aimX a_aimY].
    injection Hb as -> -> -> -> -> -> ->. reflexivity. }
  destruct (bestThreat sc); [unfold ret; cbn [fst snd]; now split|].
  destruct (bestPrey sc).
  - unfold bind, ret.
    pose proof (mathRandom_sameSeed s s' Hs) as Hm.
    destruct (mathRandom s) as [u s1], (mathRandom s') as [u' s1'].
    cbn [fst snd] in *. now split.
  - unfold bind, ret. destruct (seeded_rng s s' Hs) as [H1 H2].
    destruct (rng s) as [v s1], (rng s') as [v' s1']. cbn [fst snd] in *.
    subst v'. destruct (nth_error pellets _); cbn [fst snd]; now split.
Qed.

Lemma botStep_seeded pellets agents agents' i s s' :
  map noBoost agents = map noBoost agents' -> sameSeed s s' ->
  map noBoost (fst (botStep pellets agents i s))
  = map noBoost (fst (botStep pellets agents' i s')) /\
  sameSeed (snd (botStep pellets agents i s)) (snd (botStep pellets agents' i s')).
Proof.
  intros Hag Hs. unfold botStep.
  pose proof (f_equal (fun l => nth_error l i) Hag) as Hi. cbn beta in Hi.
  rewrite !nth_error_map in Hi.
  destruct (nth_error agents i) as [[k a]|], (nth_error agents' i) as [[k' a']|];
    cbn [option_map] in Hi; try discriminate; [|now split].
  unfold noBoost, body in Hi. cbn [fst snd] in Hi.
  injection Hi as Hk Hid Hname Hb Hcol Hd Hls Hbl Hx Hy. subst k'.
  assert (Hbody : bodyOf a = bodyOf a') by (unfold bodyOf; congruence).
  rewrite <- Hd, <- Hb, <- Hbl.
  destruct (a_dead a || negb (a_isBot a)); [now split|].
  destruct (a_blobs a) as [|b rest]; [now split|].
  unfold bind, ret.
  assert (Hsc : scanAgents a b agents = scanAgents a' b agents').
  { rewrite !scanAgents_others, (others_id a a' agents Hid).
    now rewrite (others_body a' agents agents' (noBoost_body _ _ Hag)). }
  rewrite Hsc.
  destruct (botDecide_seeded pellets k a a' b (scanAgents a' b agents') s s' Hbody Hs)
    as [H1 H2].
  destruct (botDecide pellets a b _ s) as [x s1].
  destruct (botDecide pellets a' b _ s') as [x' s1'].
  cbn [fst snd] in *. split; [|exact H2].
  now rewrite !map_setAt, H1, Hag.
Qed.

(** The bot phase, apart from the boost flags it stores, is determined by
    the agents, the pellets and the room's generator. *)
Lemma botPhase_seeded pellets agents s s' :
  sameSeed s s' ->
  map noBoost (fst (botPhase pellets agents s))
  = map noBoost (fst (botPhase pellets agents s')) /\
  sameSeed (snd (botPhase pellets agents s)) (snd (botPhase pellets agents s')).
Proof.
  intros Hs. unfold botPhase.
  apply (foldM_rel (fun ag ag' => map noBoost ag = map noBoost ag')
                   (botStep pellets)); [|reflexivity|exact Hs].
  intros st st' i s0 s0'. apply botStep_seeded.
Qed.

(** The steps that draw from the room's generator only.  From the same
    state of the generator and the same clock, [makeRoom], a spawn, the
    refill of the pellets and the respawn loop return the same result
    whatever [Math.random] returns; so does the bot phase, apart from the
    boost flags it stores.  (From one tick to the next the inputs of these
    steps do depend on the earlier draws of [Math.random].) *)
Theorem seeded_steps :
  (forall code maxPlayers bots e e',
      sameClock e e' ->
      fst (makeRoom code maxPlayers bots e) = fst (makeRoom code maxPlayers bots e') /\
      r_seed (fst (makeRoom code maxPlayers bots e)) = hashSeed code) /\
  (forall room id name isBot e e',
      sameClock e e' ->
      fst (spawnIn room id name isBot e) = fst (spawnIn room id name isBot e')) /\
  (forall pellets agents s s',
      sameSeed s s' ->
      map noBoost (fst (botPhase pellets agents s))
      = map noBoost (fst (botPhase pellets agents s')) /\
      rngSeed (snd (botPhase pellets agents s))
      = rngSeed (snd (botPhase pellets agents s'))) /\
  (forall pellets s s',
      sameSeed s s' ->
      fst (refill pellets s) = fst (refill pellets s') /\
      rngSeed (snd (refill pellets s)) = rngSeed (snd (refill pellets s'))) /\
  (forall agents s s',
      sameSeed s s' ->
      fst (respawnPhase agents s) = fst (respawnPhase agents s') /\
      rngSeed (snd (respawnPhase agents s)) = rngSeed (snd (respawnPhase agents s'))).
Proof.
  split; [|split; [|split; [|split]]].
  - intros code maxPlayers bots e e' H. split; [now apply makeRoom_seeded|].
    unfold makeRoom.
    destruct ((pellets <- pushPellets PELLET_TARGET [] ;; _) (mkSrc (hashSeed code) e))
      as [[[pellets viruses] agents] s1].
    reflexivity.
  - intros room id name isBot e e'. apply spawnIn_seeded.
  - intros pellets agents s s' H.
    destruct (botPhase_seeded pellets agents s s' H) as [H1 [H2 _]]. now split.
  - intros pellets s s' H. unfold refill.
    destruct (seeded_pushPellets (PELLET_TARGET - List.length pellets) pellets s s' H)
      as [H1 [H2 _]]. now split.
  - intros agents s s' H.
    destruct (seeded_respawnPhase agents s s' H) as [H1 [H2 _]]. now split.
Qed.

(** *** Where [Math.random] and the clock show *)

(** A computation that leaves the draws of [Math.random] where they are. *)
Definition keepsDraws {A} (m : M A) : Prop :=
  forall s, mathRandomAt (s_env (snd (m s))) = mathRandomAt (s_env s) /\
            mrIdx (s_env (snd (m s))) = mrIdx (s_env s).

Lemma keeps_ret {A} (a : A) : keepsDraws (ret a).
Proof. intros s. now split. Qed.

Lemma keeps_bind {A B} (m : M A) (k : A -> M B) :
  keepsDraws m -> (forall a, keepsDraws (k a)) -> keepsDraws (bind m k).
Proof.
  intros Hm Hk s. unfold bind. destruct (Hm s) as [H1 H2].
  destruct (m s) as [a s1]. cbn [snd] in *.
  destruct (Hk a s1) as [H3 H4]. rewrite H3, H4. now split.
Qed.

Lemma keeps_rng : keepsDraws rng.
Proof. intros s. unfold rng. destruct (mulberry32 (rngSeed s)). now split. Qed.

Lemma keeps_dateNow : keepsDraws dateNow.
Proof. intros s. unfold dateNow. now split. Qed.

#[local] Hint Resolve keeps_ret keeps_bind keeps_rng keeps_dateNow : seeded.

Lemma keeps_pushPellets : forall n pellets, keepsDraws (pushPellets n pellets).
Proof.
  induction n as [|n IH]; intros pellets; cbn [pushPellets]; [auto with seeded|].
  apply keeps_bind; [unfold newPellet; auto 20 with seeded|auto].
Qed.

Lemma virusPhase_single viruses k a s :
  a_dead a = false ->
  virusPhase viruses [(k, a)] s =
  (let (blobs', s') := virusBlobs viruses (List.length (a_blobs a)) (a_blobs a) s in
   ([(k, setBlobs a blobs')], s')).
Proof.
  intros H. cbn [virusPhase]. unfold bind, virusAgent, ret. cbn [fst snd].
  rewrite H. unfold bind. now destruct (virusBlobs _ _ _ s).
Qed.

Lemma pushFragments_first k b pm pr blobs s :
  exists rest,
    fst (pushFragments (S k) b pm pr blobs s)
    = blobs ++ fst (fragment b pm pr s) :: rest.
Proof.
  cbn [pushFragments]. unfold bind.
  destruct (fragment b pm pr s) as [f s1]. cbn [fst].
  destruct (pushFragments_app k b pm pr (blobs ++ [f]) s1) as [frags [H1 _]].
  exists frags. rewrite H1, <- app_assoc. reflexivity.
Qed.

Lemma virusBlobs_one_pop v b s :
  overlaps b v -> 62 <= b_r b ->
  exists rest,
    fst (virusBlobs [v] 1 [b] s)
    = fst (fragment b (b_mass b / INR pieces)
                    (Rmax 14 (b_r b / sqrt (INR pieces))) s) :: rest.
Proof.
  intros Ho Hr. unfold virusBlobs, virusBlob. cbn [nth_error foldM].
  unfold virusHit.
  apply Rltb_true in Ho. rewrite Ho.
  assert (E : Rgeb (b_r b) 62 = true) by (apply Rgeb_true; lra). rewrite E.
  unfold bind, ret.
  destruct (pushFragments_first 7 b (b_mass b / INR pieces)
              (Rmax 14 (b_r b / sqrt (INR pieces))) [] s) as [rest Hf].
  change (S 7) with pieces in Hf. change (removeAt 0 [b]) with (@nil Blob).
  destruct (pushFragments pieces b _ _ [] s) as [blobs' s2].
  cbn [fst snd app] in *. exists rest. exact Hf.
Qed.

Lemma engulfPhase_single k a : engulfPhase [(k, a)] = [(k, a)].
Proof.
  unfold engulfPhase, rowStep.
  cbn [map fst snd List.length seq fold_left nth_error Nat.sub].
  destruct (a_dead a); reflexivity.
Qed.

Lemma respawnPhase_humans agents s :
  Forall (fun ka => a_isBot (snd ka) = false) agents ->
  respawnPhase agents s = (agents, s).
Proof.
  intros H. unfold respawnPhase. apply foldM_id. intros i s'. unfold respawnStep.
  destruct (nth_error agents i) as [[k a]|] eqn:Ei; [|reflexivity].
  pose proof (Forall_nth_error _ _ _ _ H Ei) as Ha. cbn [snd] in Ha.
  rewrite Ha. now rewrite andb_false_r.
Qed.

(** A room with one human whose blob, of radius 100, sits on a virus. *)
Definition c6_blob : Blob := mkBlob 1000 1000 0 0 400 100 0.
Definition c6_human : Agent :=
  mkAgent "h" "Player" false (mkColor 70 70 70) false 0 0 false 0 [c6_blob].
Definition c6_virus : Virus := mkVirus 1000 1000 36.
Definition c6_room : Room :=
  mkRoom "ABC" (hashSeed "ABC") (hashSeed "ABC") (Fin 60) (Fin 0) 0
         [("h"%string, c6_human)] [] [c6_virus].
Definition c6_moved : Blob := moveBlob c6_human (agentMass c6_human) c6_blob.

Lemma c6_moved_spec :
  b_x c6_moved = 1000 /\ b_y c6_moved = 1000 /\ 99 <= b_r c6_moved <= 100.
Proof.
  destruct (moveBlob_still c6_human (agentMass c6_human) c6_blob) as (X & Y & Hr);
    try reflexivity; try (unfold WORLD; cbn; lra).
  fold c6_moved in X, Y, Hr. cbn [c6_blob b_x b_y b_r] in *.
  split; [exact X|]. split; [exact Y|]. lra.
Qed.

(** One tick of that room: the first fragment of the pop lies at the angle
    the first draw of [Math.random] gives. *)
Lemma c6_tick e :
  exists a f rest,
    r_agents (fst (tickRoom c6_room e)) = [("h"%string, a)] /\
    a_blobs a = f :: rest /\
    b_x f = 1000 + cos (mathRandomAt e (mrIdx e) * PI * 2) * (b_r c6_moved + 10).
Proof.
  destruct c6_moved_spec as (X & Y & Hr).
  unfold tickRoom, tickBody, beforeEngulf, bind, ret.
  destruct (keeps_dateNow (mkSrc (r_rng c6_room) e)) as [D1 D2].
  destruct (dateNow (mkSrc (r_rng c6_room) e)) as [nowMs s0]. cbn [snd s_env] in D1, D2.
  rewrite removeInactive_fresh by (repeat constructor).
  rewrite botPhase_humans by (repeat constructor).
  cbn [r_pellets c6_room]. rewrite eatPhase_nil.
  destruct (keeps_pushPellets (PELLET_TARGET - List.length (@nil Pellet)) [] s0)
    as [P1 P2].
  unfold refill. destruct (pushPellets _ [] s0) as [pellets4 s2].
  cbn [snd] in P1, P2.
  change (movePhase (r_agents c6_room)) with [("h"%string, moveAgent c6_human)].
  change (r_viruses c6_room) with [c6_virus].
  rewrite virusPhase_single by reflexivity.
  change (a_blobs (moveAgent c6_human)) with [c6_moved]. cbn [List.length].
  destruct (virusBlobs_one_pop c6_virus c6_moved s2) as [rest Hpop].
  { unfold overlaps. rewrite X, Y. cbn [c6_virus v_x v_y v_r].
    rewrite hypot_same. lra. }
  { lra. }
  destruct (virusBlobs [c6_virus] 1 [c6_moved] s2) as [blobs' s3].
  cbn [fst] in Hpop. subst blobs'. cbn [fst snd].
  rewrite engulfPhase_single. rewrite respawnPhase_humans by (repeat constructor).
  cbn [fst setRng r_agents].
  eexists _, _, rest. split; [reflexivity|].
  cbn [setBlobs a_blobs]. split; [reflexivity|].
  unfold fragment, bind, ret, mathRandom. cbn [fst b_x].
  rewrite X, P1, P2, D1, D2. reflexivity.
Qed.

(** Two runs of one tick from the same room, with the same seed and the same
    clock, end in different rooms when the draws of [Math.random] differ,
    here in the place of the first fragment of a pop. *)
Lemma c6_random_differ :
  let e1 := mkEnv (fun _ => 0) 0 (fun _ => 1000) 0 in
  let e2 := mkEnv (fun _ => 1 / 2) 0 (fun _ => 1000) 0 in
  sameClock e1 e2 /\ fst (tickRoom c6_room e1) <> fst (tickRoom c6_room e2).
Proof.
  intros e1 e2. split; [now split|]. intros Heq.
  destruct (c6_tick e1) as (a1 & f1 & rest1 & A1 & B1 & X1).
  destruct (c6_tick e2) as (a2 & f2 & rest2 & A2 & B2 & X2).
  rewrite Heq, A2 in A1. injection A1 as <-.
  rewrite B2 in B1. injection B1 as <- _.
  rewrite X2 in X1. cbn [e1 e2 mathRandomAt mrIdx] in X1.
  replace (0 * PI * 2) with 0 in X1 by lra.
  replace (1 / 2 * PI * 2) with PI in X1 by lra.
  rewrite cos_0, cos_PI in X1.
  destruct c6_moved_spec as (_ & _ & Hr). lra.
Qed.

(** *** The clock *)

(** A computation that leaves [Math.random] and the clock where they are. *)
Definition keepsEnv {A} (m : M A) : Prop := forall s, s_env (snd (m s)) = s_env s.

Lemma keepsEnv_ret {A} (a : A) : keepsEnv (ret a).
Proof. intros s. reflexivity. Qed.

Lemma keepsEnv_bind {A B} (m : M A) (k : A -> M B) :
  keepsEnv m -> (forall a, keepsEnv (k a)) -> keepsEnv (bind m k).
Proof.
  intros Hm Hk s. unfold bind. pose proof (Hm s) as H1.
  destruct (m s) as [a s1]. cbn [snd] in *. now rewrite Hk.
Qed.

Lemma keepsEnv_rng : keepsEnv rng.
Proof. intros s. unfold rng. now destruct (mulberry32 (rngSeed s)). Qed.

#[local] Hint Resolve keepsEnv_ret keepsEnv_bind keepsEnv_rng : seeded.

Lemma keepsEnv_pushPellets : forall n pellets, keepsEnv (pushPellets n pellets).
Proof.
  induction n as [|n IH]; intros pellets; cbn [pushPellets]; [auto with seeded|].
  apply keepsEnv_bind; [unfold newPellet; auto 20 with seeded|auto].
Qed.

Lemma keepsEnv_pushViruses : forall n viruses, keepsEnv (pushViruses n viruses).
Proof.
  induction n as [|n IH]; intros viruses; cbn [pushViruses]; [auto with seeded|].
  apply keepsEnv_bind; [unfold newVirus; auto 20 with seeded|auto].
Qed.

(** The bound [makeRoom] stores is above every count below 8. *)
Lemma clamp_players_above maxPlayers (n : nat) :
  (n < 8)%nat ->
  Num.leb (Num.clamp maxPlayers (Fin 8) (Fin 80)) (Fin (INR n)) = false.
Proof.
  intros Hn. apply lt_INR in Hn.
  assert (Hn' : INR n < 8) by (simpl in Hn; lra). clear Hn.
  pose proof (Num_clamp_cases maxPlayers 8 80) as H.
  destruct maxPlayers as [x| | |]; rewrite H; cbn [Num.leb]; [| | |reflexivity];
    apply Rleb_false.
  - pose proof (clamp_lo x 8 80). lra.
  - rewrite Rmax_right; lra.
  - lra.
Qed.

(** A room created without bots is empty and reads no clock. *)
Lemma makeRoom_no_bots code maxPlayers e :
  snd (makeRoom code maxPlayers (Fin 0) e) = e /\
  r_agents (fst (makeRoom code maxPlayers (Fin 0) e)) = [] /\
  r_maxPlayers (fst (makeRoom code maxPlayers (Fin 0) e))
  = Num.clamp maxPlayers (Fin 8) (Fin 80).
Proof.
  unfold makeRoom, bind, ret.
  pose proof (keepsEnv_pushPellets PELLET_TARGET [] (mkSrc (hashSeed code) e)) as H1.
  destruct (pushPellets PELLET_TARGET [] (mkSrc (hashSeed code) e)) as [pellets s1].
  pose proof (keepsEnv_pushViruses VIRUS_COUNT [] s1) as H2.
  destruct (pushViruses VIRUS_COUNT [] s1) as [viruses s2].
  rewrite botPasses_0. cbn [spawnBots]. unfold ret.
  cbn [fst snd r_agents r_maxPlayers] in *. rewrite H2, H1. now repeat split.
Qed.

(** A human spawned into a room carries the clock reading of its spawn. *)
Lemma spawnIn_human room id name e :
  let r := spawnIn room id name false e in
  snd r = mkEnv (mathRandomAt e) (mrIdx e) (dateNowAt e) (S (clkIdx e)) /\
  r_agents (snd (fst r)) = r_agents room /\
  a_lastSeen (fst (fst r)) = dateNowAt e (clkIdx e) / 1000 /\
  a_isBot (fst (fst r)) = false /\ a_dead (fst (fst r)) = false.
Proof.
  unfold spawnIn, spawnAgent, bind, ret.
  repeat match goal with
         | |- context [rng ?s] =>
             let H := fresh "K" in
             pose proof (keepsEnv_rng s) as H;
             destruct (rng s); cbn [snd] in H
         end.
  unfold dateNow.
  repeat match goal with
         | |- context [rng ?s] =>
             let H := fresh "K" in
             pose proof (keepsEnv_rng s) as H;
             destruct (rng s); cbn [snd] in H
         end.
  cbn [fst snd setRng r_agents a_lastSeen a_isBot a_dead s_env] in *.
  repeat match goal with H : s_env _ = _ |- _ => rewrite H in *; clear H end.
  cbn [s_env mathRandomAt mrIdx dateNowAt clkIdx] in *.
  repeat match goal with H : s_env _ = _ |- _ => rewrite H in *; clear H end.
  cbn [s_env mathRandomAt mrIdx dateNowAt clkIdx]. now repeat split.
Qed.

Lemma length_botPhase pellets agents s :
  List.length (fst (botPhase pellets agents s)) = List.length agents.
Proof.
  assert (H : map body (fst (botPhase pellets agents s)) = map body agents).
  { unfold botPhase.
    apply (foldM_inv (fun st => map body st = map body agents)); [|reflexivity].
    intros st i s0 Hst. now rewrite botStep_body. }
  apply (f_equal (@List.length _)) in H. now rewrite !length_map in H.
Qed.

Lemma length_eatPhase : forall agents pellets,
  List.length (fst (eatPhase agents pellets)) = List.length agents.
Proof.
  induction agents as [|[k a] rest IH]; intros pellets; cbn [eatPhase];
    [reflexivity|].
  destruct (a_dead a).
  - specialize (IH pellets). destruct (eatPhase rest pellets). cbn in *. now rewrite IH.
  - destruct (eatBlobs (a_blobs a) pellets) as [blobs' ps1].
    specialize (IH ps1). destruct (eatPhase rest ps1). cbn in *. now rewrite IH.
Qed.

Lemma length_virusPhase viruses : forall agents s,
  List.length (fst (virusPhase viruses agents s)) = List.length agents.
Proof.
  induction agents as [|ka rest IH]; intros s; cbn [virusPhase]; [reflexivity|].
  unfold bind, ret. destruct (virusAgent viruses ka s) as [ka' s1].
  specialize (IH s1). destruct (virusPhase viruses rest s1). cbn in *. now rewrite IH.
Qed.

Lemma length_engulfPhase agents :
  List.length (engulfPhase agents) = List.length agents.
Proof. symmetry. exact (Forall2_length (engulfPhase_touched agents)). Qed.

Lemma length_mapSet {V} k (v : V) m :
  (List.length m <= List.length (mapSet k v m))%nat.
Proof.
  induction m as [|[k0 v0] m IH]; cbn; [lia|].
  destruct (String.eqb k0 k); cbn; lia.
Qed.

Lemma length_respawnPhase agents s :
  (List.length agents <= List.length (fst (respawnPhase agents s)))%nat.
Proof.
  unfold respawnPhase.
  apply (foldM_inv (fun st => (List.length agents <= List.length st)%nat)); [|lia].
  intros st i s0 Hst. unfold respawnStep.
  destruct (nth_error st i) as [[k a]|]; [|exact Hst].
  destruct (a_dead a && a_isBot a); [|exact Hst].
  unfold bind, ret. destruct (spawnAgent _ _ true s0) as [a' s1]. cbn [fst].
  pose proof (length_mapSet (a_id a) a' st). lia.
Qed.

(** A tick keeps at least the agents that pass the inactivity test. *)
Lemma tickRoom_length room e :
  (List.length (removeInactive (dateNowAt e (clkIdx e) / 1000) (r_agents room))
   <= List.length (r_agents (fst (tickRoom room e))))%nat.
Proof.
  unfold tickRoom, tickBody, beforeEngulf, bind, ret, dateNow. cbn [s_env].
  set (agents0 := removeInactive _ (r_agents room)).
  match goal with
  | |- context [botPhase ?p agents0 ?s] =>
      pose proof (length_botPhase p agents0 s) as H1;
      destruct (botPhase p agents0 s) as [agents1 s1]
  end.
  cbn [fst] in H1.
  pose proof (length_eatPhase (movePhase agents1) (r_pellets room)) as H3.
  destruct (eatPhase (movePhase agents1) (r_pellets room)) as [agents3 pellets3].
  cbn [fst] in H3. unfold movePhase in H3. rewrite length_map in H3.
  destruct (refill pellets3 s1) as [pellets4 s2].
  pose proof (length_virusPhase (r_viruses room) agents3 s2) as H5.
  destruct (virusPhase (r_viruses room) agents3 s2) as [agents5 s3].
  cbn [fst snd] in *.
  pose proof (length_engulfPhase agents5) as H6.
  pose proof (length_respawnPhase (engulfPhase agents5) s3) as H7.
  destruct (respawnPhase (engulfPhase agents5) s3) as [agents7 s4].
  cbn [fst setRng r_agents] in *. lia.
Qed.

(** A tick that finds every agent inactive leaves no agent. *)
Lemma tickRoom_empties room e :
  removeInactive (dateNowAt e (clkIdx e) / 1000) (r_agents room) = [] ->
  r_agents (fst (tickRoom room e)) = [].
Proof.
  intros H. unfold tickRoom, tickBody, beforeEngulf, bind, ret, dateNow.
  cbn [s_env]. rewrite H.
  change (botPhase (r_pellets room) []) with (@ret AgentMap []). unfold ret.
  cbn [movePhase map eatPhase].
  destruct (refill (r_pellets room) _) as [pellets4 s2].
  cbn [virusPhase]. unfold ret. cbn [fst snd].
  change (engulfPhase []) with (@nil (string * Agent)).
  change (respawnPhase []) with (@ret AgentMap []). unfold ret. reflexivity.
Qed.

(** A run from no room: a room is created without bots, a human joins it,
    and the server ticks once. *)
Definition c6_calls : list Call :=
  [Create "ABC" (Fin 60) (Fin 0); Join (mkJoinReq "ABC" "Ann" "h"); Tick].

Lemma c6_join_tick base36 room0 e :
  r_agents room0 = [] ->
  Num.leb (r_maxPlayers room0) (Fin (INR 0)) = false ->
  exists room a,
    r_agents room = [("h"%string, a)] /\ a_isBot a = false /\
    a_lastSeen a = dateNowAt e (clkIdx e) / 1000 /\
    fst (step base36 (step base36 ([("ABC"%string, room0)], e)
                           (Join (mkJoinReq "ABC" "Ann" "h"))) Tick)
    = [("ABC"%string,
        fst (tickRoom room (mkEnv (mathRandomAt e) (mrIdx e) (dateNowAt e)
                                  (S (clkIdx e)))))].
Proof.
  intros Hag Hmax. cbn [step fst snd].
  unfold postJoin. cbn [jq_code jq_name jq_id].
  change (toUpperCase (orElse "ABC" "")) with "ABC"%string.
  cbn [mapGet]. rewrite String.eqb_refl, Hag.
  change (humans []) with 0%nat. rewrite Hmax.
  destruct (spawnIn_human room0 "h" (substring 0 14 (orElse "Ann" "Player")) e)
    as (He' & Hag' & Hls & Hbot & _).
  destruct (spawnIn room0 "h" _ false e) as [[a room1] e1].
  cbn [fst snd] in *. subst e1. rewrite Hag', Hag.
  cbn [mapSet]. rewrite String.eqb_refl. cbn [tickAll].
  exists (setAgents room1 [("h"%string, a)]), a.
  split; [reflexivity|]. split; [exact Hbot|]. split; [exact Hls|].
  now destruct (tickRoom _ _).
Qed.

Lemma c6_create base36 e :
  step base36 ([], e) (Create "ABC" (Fin 60) (Fin 0))
  = ([("ABC"%string, fst (makeRoom "ABC" (Fin 60) (Fin 0) e))], e).
Proof.
  unfold step, postCreate. cbn [fst snd].
  destruct (makeRoom_no_bots "ABC" (Fin 60) e) as (He & _).
  destruct (makeRoom "ABC" (Fin 60) (Fin 0) e) as [room0 e0]. cbn [fst snd] in *.
  now subst e0.
Qed.

Lemma c6_run base36 e :
  exists room a,
    r_agents room = [("h"%string, a)] /\ a_isBot a = false /\
    a_lastSeen a = dateNowAt e (clkIdx e) / 1000 /\
    fst (run base36 c6_calls e)
    = [("ABC"%string,
        fst (tickRoom room (mkEnv (mathRandomAt e) (mrIdx e) (dateNowAt e)
                                  (S (clkIdx e)))))].
Proof.
  unfold run, c6_calls. cbn [fold_left]. rewrite c6_create.
  destruct (makeRoom_no_bots "ABC" (Fin 60) e) as (_ & Hag & Hmax).
  apply c6_join_tick; [assumption|].
  rewrite Hmax. apply clamp_players_above. lia.
Qed.

(** Two runs of the same calls from the same code end in different rooms
    when the clock readings differ: the late tick removes the human. *)
Lemma c6_clock_differ :
  let late := fun n : nat => match n with O => 1000 | _ => 100000 end in
  let e1 := mkEnv (fun _ => 0) 0 (fun _ => 1000) 0 in
  let e2 := mkEnv (fun _ => 0) 0 late 0 in
  fst (run (fun _ => "x"%string) c6_calls e1)
  <> fst (run (fun _ => "x"%string) c6_calls e2).
Proof.
  intros late e1 e2.
  destruct (c6_run (fun _ => "x"%string) e1) as (r1 & a1 & Hag1 & Hb1 & Hl1 & ->).
  destruct (c6_run (fun _ => "x"%string) e2) as (r2 & a2 & Hag2 & Hb2 & Hl2 & ->).
  cbn [e1 e2 mathRandomAt mrIdx dateNowAt clkIdx late] in *.
  intros Heq. injection Heq as Heq.
  apply (f_equal (fun room => List.length (r_agents room))) in Heq.
  match type of Heq with
  | List.length (r_agents (fst (tickRoom r1 ?x))) =
    List.length (r_agents (fst (tickRoom r2 ?y))) =>
      pose proof (tickRoom_length r1 x) as Hlen;
      assert (H2 : r_agents (fst (tickRoom r2 y)) = [])
  end.
  { apply tickRoom_empties.
    cbn [dateNowAt clkIdx]. change (late 1%nat) with 100000.
    rewrite Hag2. unfold removeInactive. cbn [filter snd].
    assert (E : inactive (100000 / 1000) a2 = true).
    { unfold inactive. rewrite Hb2, Hl2. cbn [negb andb].
      apply Rgtb_true. unfold PLAYER_TTL, Reqb.
      destruct (Req_dec_T (1000 / 1000) 0); lra. }
    now rewrite E. }
  rewrite H2 in Heq. cbn [List.length] in Heq. rewrite Heq in Hlen.
  cbn [dateNowAt clkIdx] in Hlen. rewrite Hag1 in Hlen.
  unfold removeInactive in Hlen. cbn [filter snd] in Hlen.
  assert (E : inactive (1000 / 1000) a1 = false).
  { unfold inactive. rewrite Hb1, Hl1. cbn [negb andb].
    apply Rgtb_false. unfold PLAYER_TTL. destruct (Reqb (1000 / 1000) 0); lra. }
  rewrite E in Hlen. cbn in Hlen. lia.
Qed.

(** *** The boost of a chasing bot *)

(** A bot of radius 50 with a blob of radius 20 of a human at distance 100:
    a prey, and no threat. *)
Definition c6_hunter : Blob := mkBlob 0 0 0 0 200 50 999.
Definition c6_prey : Blob := mkBlob 100 0 0 0 55 20 999.
Definition c6_bot : Agent :=
  mkAgent "bot" "Nova" true (mkColor 70 70 70) false 0 0 false 0 [c6_hunter].
Definition c6_player : Agent :=
  mkAgent "h" "Player" false (mkColor 70 70 70) false 0 0 false 0 [c6_prey].
Definition c6_agents : AgentMap := [("bot"%string, c6_bot); ("h"%string, c6_player)].

Lemma c6_dist : dist c6_hunter c6_prey = 100.
Proof.
  unfold dist, c6_hunter, c6_prey; cbn [b_x b_y].
  replace (0 - 100) with (- (100)) by lra. replace (0 - 0) with 0 by lra.
  unfold hypot. replace (- (100) * - (100) + 0 * 0) with (100 * 100) by lra.
  apply sqrt_square. lra.
Qed.

Lemma c6_scan :
  bestThreat (scanAgents c6_bot c6_hunter c6_agents) = None /\
  bestPrey (scanAgents c6_bot c6_hunter c6_agents) = Some c6_prey.
Proof.
  pose proof (scanAgents_spec c6_bot c6_hunter c6_agents) as [H1 H2].
  cbn zeta in H1, H2.
  assert (Hl : others c6_bot c6_agents = [c6_prey]) by reflexivity.
  rewrite Hl in H1, H2. split.
  - destruct (bestThreat (scanAgents c6_bot c6_hunter c6_agents)) as [th|];
      [|reflexivity].
    destruct H1 as [[<-|[]] [[_ Hr] _]]. cbn [c6_prey c6_hunter b_r] in Hr. lra.
  - destruct (bestPrey (scanAgents c6_bot c6_hunter c6_agents)) as [pr|].
    + destruct H2 as [[<-|[]] _]. reflexivity.
    + exfalso. apply (H2 c6_prey); [now left|].
      split; [rewrite c6_dist; lra|cbn [c6_prey c6_hunter b_r]; lra].
Qed.

(** The bot phase on these agents stores the boost flag that the draw of
    [Math.random] decides, whatever the seed of the room. *)
Lemma c6_botPhase seed e :
  exists a',
    nth_error (fst (botPhase [] c6_agents (mkSrc seed e))) 0 = Some ("bot"%string, a') /\
    a_boost a' = Rltb (mathRandomAt e (mrIdx e)) (20 / 100).
Proof.
  unfold botPhase. change (seq 0 (List.length c6_agents)) with [0%nat; 1%nat].
  cbn [foldM]. unfold bind, ret.
  pose proof (botStep_bot [] c6_agents 0 "bot" c6_bot c6_hunter [] (mkSrc seed e)
                          eq_refl eq_refl eq_refl eq_refl) as H0.
  destruct (botStep [] c6_agents 0 (mkSrc seed e)) as [agents1 s1].
  cbn [fst] in H0. subst agents1.
  cbn [setAt c6_agents].
  match goal with
  | |- context [botStep [] ?ags 1 s1] =>
      rewrite (botStep_skip [] ags 1 "h" c6_player s1 eq_refl eq_refl)
  end.
  cbn [fst nth_error]. eexists. split; [reflexivity|].
  unfold botDecide. destruct c6_scan as [-> ->].
  unfold bind, ret, mathRandom. cbn [fst s_env setIntent a_boost]. reflexivity.
Qed.

(** C6 (code bug).  The randomness of a room is not all drawn from its
    seeded generator.  From the same room, with the same seed and the same
    clock readings, one tick ends in different rooms when the draws of
    [Math.random] differ: the fragments of a virus pop are placed by
    [Math.random] (lines 861-867).  And in the bot phase, whatever the seed
    of the room, a chasing bot boosts when [Math.random] returns 0 and does
    not when it returns 0.5 (line 778), although the pellet of a foraging
    bot is chosen with the room's generator two lines further. *)
Theorem C6_unseeded_draws :
  (let e1 := mkEnv (fun _ => 0) 0 (fun _ => 1000) 0 in
   let e2 := mkEnv (fun _ => 1 / 2) 0 (fun _ => 1000) 0 in
   sameClock e1 e2 /\
   fst (tickRoom c6_room e1) <> fst (tickRoom c6_room e2)) /\
  (forall seed : Z,
      let s1 := mkSrc seed (mkEnv (fun _ => 0) 0 (fun _ => 1000) 0) in
      let s2 := mkSrc seed (mkEnv (fun _ => 1 / 2) 0 (fun _ => 1000) 0) in
      sameSeed s1 s2 /\
      exists a1 a2,
        nth_error (fst (botPhase [] c6_agents s1)) 0 = Some ("bot"%string, a1) /\
        nth_error (fst (botPhase [] c6_agents s2)) 0 = Some ("bot"%string, a2) /\
        a_boost a1 = true /\ a_boost a2 = false).
Proof.
  split; [exact c6_random_differ|].
  intros seed s1 s2. split; [repeat split|].
  destruct (c6_botPhase seed (mkEnv (fun _ => 0) 0 (fun _ => 1000) 0)) as (a1 & N1 & B1).
  destruct (c6_botPhase seed (mkEnv (fun _ => 1 / 2) 0 (fun _ => 1000) 0))
    as (a2 & N2 & B2).
  exists a1, a2. split; [exact N1|]. split; [exact N2|].
  cbn [mathRandomAt mrIdx] in B1, B2. rewrite B1, B2. split.
  - apply Rltb_true; lra.
  - apply Rltb_false; lra.
Qed.

(* ------------------------------------------------------------------ *)
(** ** The mass floor at the end of a tick *)

Lemma moveBlob_mass_le a total b :
  a_boost a = false -> 10 <= b_mass b -> b_mass (moveBlob a total b) <= b_mass b.
Proof.
  intros Hb Hm. unfold moveBlob, decayBlob, knockBlob, aimBlob.
  rewrite Hb, andb_false_r. cbn [b_mass].
  unfold DT, TICK_RATE. destruct (a_isBot a); rminmax.
Qed.

(** A blob that overlaps the only virus is replaced by the 8 fragments. *)
Lemma virusBlobs_pop_all v b s :
  overlaps b v -> 62 <= b_r b ->
  List.length (fst (virusBlobs [v] 1 [b] s)) = 8%nat /\
  Forall (isFragment (b_mass b / 8) (b_r b / sqrt 8)) (fst (virusBlobs [v] 1 [b] s)).
Proof.
  intros Ho Hr. unfold virusBlobs, virusBlob. cbn [nth_error foldM].
  unfold bind, ret.
  destruct (virusHit_pop 0 b [b] v s Ho Hr) as [frags [E [L F]]].
  destruct (virusHit 0 (b, [b]) v s) as [st s1].
  cbn [fst] in E. subst st. cbn [fst snd removeAt app]. now split.
Qed.

(** A room with one human whose blob, of mass 40 and radius 100, sits on a
    virus: both floors hold before the tick. *)
Definition c1_blob : Blob := mkBlob 1000 1000 0 0 40 100 0.
Definition c1_human : Agent :=
  mkAgent "h" "Player" false (mkColor 70 70 70) false 0 0 false 0 [c1_blob].
Definition c1_room : Room :=
  mkRoom "ABC" (hashSeed "ABC") (hashSeed "ABC") (Fin 60) (Fin 0) 0
         [("h"%string, c1_human)] [] [c6_virus].
Definition c1_moved : Blob := moveBlob c1_human (agentMass c1_human) c1_blob.

Lemma c1_moved_spec :
  b_x c1_moved = 1000 /\ b_y c1_moved = 1000 /\ 99 <= b_r c1_moved <= 100 /\
  b_mass c1_moved <= 40.
Proof.
  destruct (moveBlob_still c1_human (agentMass c1_human) c1_blob) as (X & Y & Hr);
    try reflexivity; try (unfold WORLD; cbn; lra).
  pose proof (moveBlob_mass_le c1_human (agentMass c1_human) c1_blob eq_refl) as Hm.
  fold c1_moved in X, Y, Hr, Hm. cbn [c1_blob b_x b_y b_r b_mass] in *.
  split; [exact X|]. split; [exact Y|]. split; [lra|]. apply Hm. lra.
Qed.

(** One tick of that room pops the blob: the human is alive at the end of
    the tick with 8 blobs of mass at most 5. *)
Lemma c1_tick e :
  exists a,
    r_agents (fst (tickRoom c1_room e)) = [("h"%string, a)] /\
    a_dead a = false /\ List.length (a_blobs a) = 8%nat /\
    Forall (fun f => b_mass f <= 5) (a_blobs a).
Proof.
  destruct c1_moved_spec as (X & Y & Hr & Hm).
  unfold tickRoom, tickBody, beforeEngulf, bind, ret.
  destruct (dateNow (mkSrc (r_rng c1_room) e)) as [nowMs s0].
  rewrite removeInactive_fresh by (repeat constructor).
  rewrite botPhase_humans by (repeat constructor).
  cbn [r_pellets c1_room]. rewrite eatPhase_nil.
  unfold refill. destruct (pushPellets _ [] s0) as [pellets4 s2].
  change (movePhase (r_agents c1_room)) with [("h"%string, moveAgent c1_human)].
  change (r_viruses c1_room) with [c6_virus].
  rewrite virusPhase_single by reflexivity.
  change (a_blobs (moveAgent c1_human)) with [c1_moved]. cbn [List.length].
  destruct (virusBlobs_pop_all c6_virus c1_moved s2) as [L F].
  { unfold overlaps. rewrite X, Y. cbn [c6_virus v_x v_y v_r].
    rewrite hypot_same. lra. }
  { lra. }
  destruct (virusBlobs [c6_virus] 1 [c1_moved] s2) as [blobs' s3].
  cbn [fst] in L, F. cbn [fst snd].
  rewrite engulfPhase_single. rewrite respawnPhase_humans by (repeat constructor).
  cbn [fst setRng r_agents].
  eexists. split; [reflexivity|]. cbn [setBlobs a_blobs a_dead].
  split; [reflexivity|]. split; [exact L|].
  revert F. apply Forall_impl. intros f [Hf _]. rewrite Hf. lra.
Qed.

(** C1, as stated, fails for the mass.  Between two ticks: splitting a blob
    of mass 10 (at its floor) and radius 31 leaves two blobs of mass 5.  At
    the end of a tick: a blob of mass 40 and radius 100 that sits on a virus
    is popped after the decay step, and the tick ends with a living agent of
    8 blobs of mass at most 5. *)
Lemma C1_mass_below_floor :
  (Forall (fun b => 10 <= b_mass b /\ 14 <= b_r b) [mkBlob 100 100 0 0 10 31 999] /\
   exists b1 b2,
     a_blobs (split (mkAgent "h" "Player" false (mkColor 70 70 70) false 1 0 false 0
                             [mkBlob 100 100 0 0 10 31 999])) = [b1; b2] /\
     b_mass b1 = 5 /\ b_mass b2 = 5) /\
  (Forall (fun b => 10 <= b_mass b /\ 14 <= b_r b) (a_blobs c1_human) /\
   exists a,
     r_agents (fst (tickRoom c1_room (mkEnv (fun _ => 0) 0 (fun _ => 1000) 0)))
     = [("h"%string, a)] /\
     a_dead a = false /\ List.length (a_blobs a) = 8%nat /\
     Forall (fun f => ~ 10 <= b_mass f) (a_blobs a)).
Proof.
  split.
  - destruct split_at_mass_floor as [H (b1 & b2 & Hs & H1 & H2 & _)].
    split; [exact H|]. exists b1, b2. now repeat split.
  - split.
    + constructor; [cbn; lra|constructor].
    + destruct (c1_tick (mkEnv (fun _ => 0) 0 (fun _ => 1000) 0))
        as (a & Ha & Hd & Hl & Hf).
      exists a. repeat (split; [assumption|]).
      revert Hf. apply Forall_impl. intros f Hf. lra.
Qed.

(* ------------------------------------------------------------------ *)
(** ** One virus against one blob *)

Lemma sqrt8_sqr : sqrt 8 * sqrt 8 = 8.
Proof. apply sqrt_sqrt. lra. Qed.

(** X1.  The virus step (lines 851-877) on the blob [b] read from position [bi].
    When [b] overlaps the virus and its radius is at least 62, the element
    at [bi] is spliced and 8 fragments are pushed, each with an eighth of
    the mass of [b], its radius divided by the square root of 8 (so an
    eighth of its squared radius) and a split timer of 0; their masses sum
    to the mass of [b].  When it overlaps with a smaller radius, only the
    velocity of [b] changes, by 220 along the line from the virus to the
    blob.  Without overlap nothing changes. *)
Theorem virus_hit_cases (bi : nat) (b : Blob) (blobs : list Blob) (v : Virus)
  (s : Src) :
  (overlaps b v -> 62 <= b_r b ->
   exists frags,
     snd (fst (virusHit bi (b, blobs) v s)) = removeAt bi blobs ++ frags /\
     List.length frags = 8%nat /\
     Forall (fun f => b_mass f = b_mass b / 8 /\ b_r f = b_r b / sqrt 8 /\
                      b_r f * b_r f = b_r b * b_r b / 8 /\
                      b_splitTimer f = 0) frags /\
     massSum frags = b_mass b) /\
  (overlaps b v -> b_r b < 62 ->
   exists b',
     snd (fst (virusHit bi (b, blobs) v s)) = setAt bi b' blobs /\
     b_x b' = b_x b /\ b_y b' = b_y b /\ b_mass b' = b_mass b /\
     b_r b' = b_r b /\ b_splitTimer b' = b_splitTimer b /\
     b_vx b' = b_vx b + fst (normalize (b_x b - v_x v) (b_y b - v_y v)) * 220 /\
     b_vy b' = b_vy b + snd (normalize (b_x b - v_x v) (b_y b - v_y v)) * 220) /\
  (~ overlaps b v -> fst (virusHit bi (b, blobs) v s) = (b, blobs)).
Proof.
  split; [|split].
  - intros Ho Hr.
    destruct (virusHit_pop bi b blobs v s Ho Hr) as [frags [E [L F]]].
    exists frags. rewrite E. cbn [snd]. split; [reflexivity|]. split; [exact L|].
    split.
    + revert F. apply Forall_impl. intros f (Hm & Hf & Ht).
      split; [exact Hm|]. split; [exact Hf|]. split; [|exact Ht].
      rewrite Hf. pose proof sqrt8_sqr as H8.
      assert (sqrt 8 <> 0) by (intros H0; rewrite H0 in H8; lra).
      replace (b_r b * b_r b / 8) with (b_r b * b_r b / (sqrt 8 * sqrt 8))
        by (now rewrite H8).
      field. assumption.
    + rewrite (massSum_fragments _ _ _ F), L.
      replace (INR 8) with 8 by (cbn; lra). lra.
  - intros Ho Hr. exists (bounce b v).
    rewrite (virusHit_bounce bi b blobs v s Ho Hr). cbn [snd].
    unfold bounce. cbn [b_x b_y b_mass b_r b_splitTimer b_vx b_vy].
    now repeat split.
  - apply virusHit_miss.
Qed.

Lemma virus_hit_cases_witness :
  exists frags,
    snd (fst (virusHit 0 (c4_blob, [c4_blob]) c4_v1 c7_src)) = removeAt 0 [c4_blob] ++ frags /\
    List.length frags = 8%nat /\
    Forall (fun f => b_mass f = b_mass c4_blob / 8 /\ b_r f = b_r c4_blob / sqrt 8 /\
                     b_r f * b_r f = b_r c4_blob * b_r c4_blob / 8 /\
                     b_splitTimer f = 0) frags /\
    massSum frags = b_mass c4_blob.
Proof.
  apply (proj1 (virus_hit_cases 0 c4_blob [c4_blob] c4_v1 c7_src)).
  - exact (proj1 c4_overlaps).
  - cbn [c4_blob b_r]. lra.
Defined.

(* ------------------------------------------------------------------ *)
(** ** A spawned agent *)

Lemma channel_range v : 0 <= v < 1 -> (70 <= Zfloor (70 + v * 185) < 255)%Z.
Proof.
  intros Hv. split.
  - apply Zfloor_lub. lra.
  - apply lt_IZR. pose proof (Zfloor_bound (70 + v * 185)). lra.
Qed.

(** X2.  [spawnAgent] returns a living agent under the given identity, name and
    kind, at rest (zero aim, no boost), with colour channels in 70..254 and
    exactly one blob: at least 280 from every edge of the world, without
    velocity, with split timer 999; mass 55 and radius 36 for a human, a
    mass in [32, 102) and a radius in [22, 42) for a bot. *)
Theorem spawn_fresh (id name : string) (isBot : bool) (s : Src) :
  let a := fst (spawnAgent id name isBot s) in
  a_id a = id /\ a_name a = name /\ a_isBot a = isBot /\ a_dead a = false /\
  a_aimX a = 0 /\ a_aimY a = 0 /\ a_boost a = false /\
  (70 <= c_r (a_col a) < 255)%Z /\ (70 <= c_g (a_col a) < 255)%Z /\
  (70 <= c_b (a_col a) < 255)%Z /\
  exists b,
    a_blobs a = [b] /\
    280 <= b_x b < WORLD - 280 /\ 280 <= b_y b < WORLD - 280 /\
    b_vx b = 0 /\ b_vy b = 0 /\ b_splitTimer b = 999 /\
    (if isBot then 32 <= b_mass b < 102 /\ 22 <= b_r b < 42
     else b_mass b = 55 /\ b_r b = 36).
Proof.
  intros a. pose proof (spawnAgent_spec id name isBot s) as H. cbn zeta in H.
  fold a in H. destruct H as (H1 & H2 & H3 & H4 & H5 & H6 & H7 & b & Hb & Hf).
  repeat (split; [assumption|]).
  assert (Hc : (70 <= c_r (a_col a) < 255)%Z /\ (70 <= c_g (a_col a) < 255)%Z /\
               (70 <= c_b (a_col a) < 255)%Z).
  { unfold a, spawnAgent, bind, ret.
    destruct isBot; unfold bind, ret; repeat draw; cbn [fst a_col c_r c_g c_b];
      repeat split; apply channel_range; assumption. }
  destruct Hc as (Hr & Hg & Hb'). repeat (split; [assumption|]).
  exists b. split; [exact Hb|]. exact Hf.
Qed.

(* ------------------------------------------------------------------ *)
(** ** What a tick keeps *)

Lemma length_pushPellets : forall n pellets s,
  List.length (fst (pushPellets n pellets s)) = (n + List.length pellets)%nat.
Proof.
  induction n as [|n IH]; intros pellets s; cbn [pushPellets].
  - reflexivity.
  - unfold bind. destruct (newPellet s) as [p s1]. rewrite IH, length_app.
    cbn [List.length]. lia.
Qed.

Lemma length_eatPellets b : forall pellets,
  (List.length (snd (eatPellets b pellets)) <= List.length pellets)%nat.
Proof.
  induction pellets as [|p rest IH]; cbn [eatPellets]; [cbn; lia|].
  destruct (eatPellets b rest) as [b1 rest']. cbn [snd] in IH.
  destruct (Rltb _ _); cbn [snd List.length]; lia.
Qed.

Lemma length_eatBlobs : forall blobs pellets,
  (List.length (snd (eatBlobs blobs pellets)) <= List.length pellets)%nat.
Proof.
  induction blobs as [|b bs IH]; intros pellets; cbn [eatBlobs]; [cbn; lia|].
  pose proof (length_eatPellets b pellets) as H1.
  destruct (eatPellets b pellets) as [b' ps1]. cbn [snd] in H1.
  specialize (IH ps1). destruct (eatBlobs bs ps1) as [bs' ps2].
  cbn [snd] in *. lia.
Qed.

Lemma eatPhase_fewer : forall agents pellets,
  (List.length (snd (eatPhase agents pellets)) <= List.length pellets)%nat.
Proof.
  induction agents as [|[k a] rest IH]; intros pellets; cbn [eatPhase]; [cbn; lia|].
  destruct (a_dead a).
  - specialize (IH pellets). destruct (eatPhase rest pellets) as [rest' ps].
    exact IH.
  - pose proof (length_eatBlobs (a_blobs a) pellets) as H1.
    destruct (eatBlobs (a_blobs a) pellets) as [blobs' ps1]. cbn [snd] in H1.
    specialize (IH ps1). destruct (eatPhase rest ps1) as [rest' ps2].
    cbn [snd] in *. lia.
Qed.

(** X3.  A tick advances the clock of the room by [DT = 1/20] and keeps its
    code, seed, bounds and viruses (a virus is never moved, shrunk or
    removed); it ends with at least [PELLET_TARGET = 700] pellets, and with
    exactly 700 when it started with at most 700. *)
Theorem tick_keeps (room : Room) (e : Env) :
  let room' := fst (tickRoom room e) in
  r_t room' = r_t room + 1 / 20 /\
  r_code room' = r_code room /\ r_seed room' = r_seed room /\
  r_maxPlayers room' = r_maxPlayers room /\ r_bots room' = r_bots room /\
  r_viruses room' = r_viruses room /\
  (700 <= List.length (r_pellets room'))%nat /\
  ((List.length (r_pellets room) <= 700)%nat ->
   List.length (r_pellets room') = 700%nat).
Proof.
  unfold tickRoom, tickBody, beforeEngulf, bind, ret.
  destruct (dateNow (mkSrc (r_rng room) e)) as [nowMs s0].
  destruct (botPhase _ _ s0) as [agents1 s1].
  pose proof (eatPhase_fewer (movePhase agents1) (r_pellets room)) as He.
  destruct (eatPhase (movePhase agents1) (r_pellets room)) as [agents3 pellets3].
  cbn [snd] in He. unfold refill.
  pose proof (length_pushPellets (PELLET_TARGET - List.length pellets3) pellets3 s1)
    as Hp.
  destruct (pushPellets _ pellets3 s1) as [pellets4 s2]. cbn [fst] in Hp.
  destruct (virusPhase (r_viruses room) agents3 s2) as [agents5 s3].
  cbn [fst snd].
  destruct (respawnPhase (engulfPhase agents5) s3) as [agents7 s4].
  cbn [fst setRng r_t r_code r_seed r_maxPlayers r_bots r_viruses r_pellets].
  unfold DT, TICK_RATE, PELLET_TARGET in *.
  repeat (split; [reflexivity|]). split; [lia|]. intros H. lia.
Qed.

Lemma tick_keeps_witness :
  List.length (r_pellets (fst (tickRoom c1_room (mkEnv (fun _ => 0) 0 (fun _ => 1000) 0))))
  = 700%nat.
Proof.
  apply (tick_keeps c1_room (mkEnv (fun _ => 0) 0 (fun _ => 1000) 0)).
  cbn [c1_room r_pellets List.length]. lia.
Defined.

(* ------------------------------------------------------------------ *)
(** ** The population of a room *)

(** What identifies an entry of [room.agents]: its key, and the identity
    and the kind of the agent stored under it. *)
Definition tag (ka : string * Agent) : string * string * bool :=
  (fst ka, a_id (snd ka), a_isBot (snd ka)).

(** The keys are distinct, as in a [Map], and every agent is stored under
    its own identity. *)
Definition keyed (agents : AgentMap) : Prop :=
  NoDup (map fst agents) /\ Forall (fun ka => a_id (snd ka) = fst ka) agents.

Lemma keyed_tag agents agents' :
  map tag agents = map tag agents' -> keyed agents -> keyed agents'.
Proof.
  intros H [Hn Hf]. split.
  - replace (map fst agents') with (map (fun t => fst (fst t)) (map tag agents'))
      by (rewrite map_map; reflexivity).
    rewrite <- H, map_map. exact Hn.
  - assert (G : forall l, Forall (fun ka => a_id (snd ka) = fst ka) l <->
                          Forall (fun t => snd (fst t) = fst (fst t)) (map tag l)).
    { intros l. rewrite Forall_map. reflexivity. }
    apply G. rewrite <- H. apply G. exact Hf.
Qed.

Lemma tag_body agents agents' :
  map body agents = map body agents' -> map tag agents = map tag agents'.
Proof.
  intros H.
  assert (G : forall l, map tag l =
                        map (fun kb : string * _ =>
                               let '(k, (id, _, isBot, _, _, _, _)) := kb in
                               (k, id, isBot)) (map body l)).
  { intros l. rewrite map_map. apply map_ext. now intros [k a]. }
  now rewrite !G, H.
Qed.

Lemma botPhase_tag pellets agents s :
  map tag (fst (botPhase pellets agents s)) = map tag agents.
Proof.
  apply tag_body. unfold botPhase.
  apply (foldM_inv (fun st => map body st = map body agents)); [|reflexivity].
  intros st i s0 Hst. now rewrite botStep_body.
Qed.

Lemma movePhase_tag agents : map tag (movePhase agents) = map tag agents.
Proof.
  unfold movePhase. rewrite map_map. apply map_ext. intros [k a].
  unfold tag, moveAgent. cbn [fst snd]. now destruct (a_dead a).
Qed.

Lemma eatPhase_tag : forall agents pellets,
  map tag (fst (eatPhase agents pellets)) = map tag agents.
Proof.
  induction agents as [|[k a] rest IH]; intros pellets; cbn [eatPhase];
    [reflexivity|].
  destruct (a_dead a).
  - specialize (IH pellets). destruct (eatPhase rest pellets).
    cbn [fst map] in *. now rewrite IH.
  - destruct (eatBlobs (a_blobs a) pellets) as [blobs' ps1].
    specialize (IH ps1). destruct (eatPhase rest ps1).
    cbn [fst map] in *. now rewrite IH.
Qed.

Lemma virusPhase_tag viruses : forall agents s,
  map tag (fst (virusPhase viruses agents s)) = map tag agents.
Proof.
  induction agents as [|[k a] rest IH]; intros s; cbn [virusPhase]; [reflexivity|].
  unfold bind, ret.
  assert (H : tag (fst (virusAgent viruses (k, a) s)) = tag (k, a)).
  { unfold virusAgent. cbn [snd fst]. destruct (a_dead a); [reflexivity|].
    unfold bind, ret. now destruct (virusBlobs _ _ _ s). }
  destruct (virusAgent viruses (k, a) s) as [ka' s1]. cbn [fst] in H.
  specialize (IH s1). destruct (virusPhase viruses rest s1).
  cbn [fst map] in *. now rewrite IH, H.
Qed.

(** *** The engulf phase keeps identities and kinds *)

Definition idKind (a : Agent) : string * bool := (a_id a, a_isBot a).

Lemma pairStep_idKind i arr j : map idKind (pairStep i arr j) = map idKind arr.
Proof.
  unfold pairStep.
  destruct (nth_error arr i) as [A|] eqn:Ei; [|reflexivity].
  destruct (nth_error arr j) as [B|] eqn:Ej; [|reflexivity].
  destruct (a_dead B); [reflexivity|].
  unfold engulfPair. destruct (outerLoop _ _ _) as [abs bbs].
  rewrite !map_setAt.
  change (idKind (settle A abs)) with (idKind A).
  change (idKind (settle B bbs)) with (idKind B).
  rewrite (setAt_same (map idKind arr) i) by (now apply map_nth_error).
  apply setAt_same. now apply map_nth_error.
Qed.

Lemma pairs_idKind i : forall js arr,
  map idKind (fold_left (pairStep i) js arr) = map idKind arr.
Proof.
  induction js as [|j js IH]; intros arr; cbn [fold_left]; [reflexivity|].
  now rewrite IH, pairStep_idKind.
Qed.

Lemma rows_idKind : forall rows arr,
  map idKind (fold_left rowStep rows arr) = map idKind arr.
Proof.
  induction rows as [|i rows IH]; intros arr; cbn [fold_left]; [reflexivity|].
  rewrite IH. unfold rowStep.
  destruct (nth_error arr i) as [A|]; [|reflexivity].
  destruct (a_dead A); [reflexivity|]. apply pairs_idKind.
Qed.

Lemma tag_combine : forall (ks : list string) (l l' : list Agent),
  map idKind l = map idKind l' ->
  map tag (combine ks l) = map tag (combine ks l').
Proof.
  induction ks as [|k ks IH]; intros [|a l] [|a' l'] H; cbn in *;
    try discriminate; try reflexivity.
  injection H as Hid Hk Hrest. unfold tag at 1 3. cbn [fst snd].
  rewrite Hid, Hk. f_equal. now apply IH.
Qed.

Lemma combine_fst_snd {A B} (l : list (A * B)) : combine (map fst l) (map snd l) = l.
Proof. induction l as [|[a b] l IH]; cbn; [reflexivity|now rewrite IH]. Qed.

Lemma engulfPhase_tag agents : map tag (engulfPhase agents) = map tag agents.
Proof.
  unfold engulfPhase.
  rewrite (tag_combine (map fst agents) _ (map snd agents)).
  - now rewrite combine_fst_snd.
  - apply rows_idKind.
Qed.

(** *** The respawn loop, entry by entry *)

(** What the respawn loop does to one entry, and to the entries in turn. *)
Definition respawnOne (ka : string * Agent) : M (string * Agent) :=
  let a := snd ka in
  if a_dead a && a_isBot a then
    a' <- spawnAgent (a_id a) (a_name a) true ;; ret (fst ka, a')
  else ret ka.

Fixpoint respawnAll (agents : AgentMap) : M AgentMap :=
  match agents with
  | [] => ret []
  | ka :: rest =>
      ka' <- respawnOne ka ;;
      rest' <- respawnAll rest ;;
      ret (ka' :: rest')
  end.

Lemma mapSet_at {V} k (v v0 : V) pre rest :
  ~ In k (map fst pre) ->
  mapSet k v (pre ++ (k, v0) :: rest) = pre ++ (k, v) :: rest.
Proof.
  induction pre as [|[k1 v1] pre IH]; intros Hn; cbn [app mapSet].
  - now rewrite String.eqb_refl.
  - destruct (String.eqb k1 k) eqn:E.
    + apply String.eqb_eq in E. subst k1. exfalso. apply Hn. now left.
    + rewrite IH; [reflexivity|]. intros Hin. apply Hn. now right.
Qed.

Lemma NoDup_app_head {A} (pre : list A) x rest :
  NoDup (pre ++ x :: rest) -> ~ In x pre.
Proof.
  intros H Hin. apply NoDup_remove_2 in H. apply H. apply in_or_app. now left.
Qed.

Lemma respawnOne_tag ka s : tag (fst (respawnOne ka s)) = tag ka.
Proof.
  destruct ka as [k a]. unfold respawnOne. cbn [fst snd].
  destruct (a_dead a && a_isBot a) eqn:E; [|reflexivity].
  apply andb_prop in E. destruct E as [_ Hb].
  unfold bind, ret.
  destruct (spawnAgent_spec (a_id a) (a_name a) true s) as (H1 & _ & H3 & _).
  destruct (spawnAgent (a_id a) (a_name a) true s) as [a' s1]. cbn [fst] in *.
  unfold tag. cbn [fst snd]. now rewrite H1, H3, Hb.
Qed.

Lemma respawn_loop : forall rest pre s,
  keyed (pre ++ rest) ->
  foldM respawnStep (seq (List.length pre) (List.length rest)) (pre ++ rest) s =
  (let (rest', s') := respawnAll rest s in (pre ++ rest', s')).
Proof.
  induction rest as [|[k a] rest IH]; intros pre s Hk.
  - cbn. now rewrite app_nil_r.
  - cbn [List.length seq foldM respawnAll]. unfold bind, ret.
    pose proof (respawnOne_tag (k, a) s) as Ht.
    assert (Hstep : respawnStep (pre ++ (k, a) :: rest) (List.length pre) s =
                    (pre ++ fst (respawnOne (k, a) s) :: rest,
                     snd (respawnOne (k, a) s))).
    { unfold respawnStep, respawnOne.
      rewrite nth_error_app2, Nat.sub_diag by lia. cbn [nth_error fst snd].
      destruct (a_dead a && a_isBot a); [|reflexivity].
      unfold bind, ret. destruct (spawnAgent _ _ true s) as [a' s1].
      cbn [fst snd]. f_equal.
      destruct Hk as [Hn Hf].
      assert (Hid : a_id a = k).
      { rewrite Forall_forall in Hf.
        apply (Hf (k, a)). apply in_or_app. right. now left. }
      rewrite Hid. apply mapSet_at.
      rewrite map_app in Hn. cbn [map fst] in Hn.
      exact (NoDup_app_head _ _ _ Hn). }
    rewrite Hstep.
    destruct (respawnOne (k, a) s) as [ka' s1]. cbn [fst snd] in *.
    specialize (IH (pre ++ [ka']) s1).
    rewrite <- app_assoc, length_app in IH. cbn [app List.length] in IH.
    replace (List.length pre + 1)%nat with (S (List.length pre)) in IH by lia.
    rewrite IH.
    + destruct (respawnAll rest s1) as [rest' s2].
      now rewrite <- app_assoc.
    + apply (keyed_tag (pre ++ (k, a) :: rest)); [|exact Hk].
      rewrite !map_app. cbn [map]. now rewrite Ht.
Qed.

Lemma respawnPhase_all agents s :
  keyed agents -> respawnPhase agents s = respawnAll agents s.
Proof.
  intros Hk. unfold respawnPhase.
  pose proof (respawn_loop agents [] s Hk) as H. cbn [app List.length] in H.
  rewrite H. now destruct (respawnAll agents s).
Qed.

Definition botAlive (ka : string * Agent) : Prop :=
  a_isBot (snd ka) = true -> a_dead (snd ka) = false.

Lemma respawnAll_spec : forall agents s,
  map tag (fst (respawnAll agents s)) = map tag agents /\
  Forall botAlive (fst (respawnAll agents s)).
Proof.
  induction agents as [|[k a] rest IH]; intros s; cbn [respawnAll].
  - split; [reflexivity|constructor].
  - unfold bind, ret.
    pose proof (respawnOne_tag (k, a) s) as Ht.
    assert (Ha : botAlive (fst (respawnOne (k, a) s))).
    { unfold respawnOne, botAlive. cbn [fst snd].
      destruct (a_dead a) eqn:Ed, (a_isBot a) eqn:Eb; unfold ret;
        cbn [andb fst snd]; try congruence.
      unfold bind, ret.
      destruct (spawnAgent_spec (a_id a) (a_name a) true s) as (_ & _ & _ & H4 & _).
      destruct (spawnAgent (a_id a) (a_name a) true s) as [a' s1].
      cbn [fst snd] in *. intros _. exact H4. }
    destruct (respawnOne (k, a) s) as [ka' s1]. cbn [fst] in Ht, Ha.
    destruct (IH s1) as [H1 H2]. destruct (respawnAll rest s1) as [rest' s2].
    cbn [fst map] in *. split; [now rewrite Ht, H1|now constructor].
Qed.

Lemma removeInactive_keyed now agents :
  keyed agents -> keyed (removeInactive now agents).
Proof.
  intros [Hn Hf]. unfold removeInactive. split.
  - clear Hf. induction agents as [|ka l IH]; cbn [filter map]; [constructor|].
    cbn [map] in Hn. inversion Hn as [|? ? Hnot Hrest]; subst.
    destruct (negb _); [|now apply IH].
    cbn [map]. constructor; [|now apply IH].
    intros Hin. apply Hnot. apply in_map_iff in Hin.
    destruct Hin as [x [Hx Hin]]. apply filter_In in Hin.
    apply in_map_iff. exists x. now split.
  - rewrite Forall_forall in *. intros ka Hin. apply filter_In in Hin.
    now apply Hf.
Qed.

(** The entries of a room after a tick: those that pass the inactivity test,
    in their order, each with its key, identity and kind; no bot is dead. *)
Lemma tickRoom_tags room e :
  keyed (r_agents room) ->
  map tag (r_agents (fst (tickRoom room e)))
  = map tag (removeInactive (dateNowAt e (clkIdx e) / 1000) (r_agents room)) /\
  Forall botAlive (r_agents (fst (tickRoom room e))).
Proof.
  intros Hk.
  pose proof (removeInactive_keyed (dateNowAt e (clkIdx e) / 1000) _ Hk) as Hk0.
  unfold tickRoom, tickBody, beforeEngulf, bind, ret, dateNow. cbn [s_env].
  set (agents0 := removeInactive _ (r_agents room)) in *.
  match goal with
  | |- context [botPhase ?p agents0 ?s] =>
      pose proof (botPhase_tag p agents0 s) as H1;
      destruct (botPhase p agents0 s) as [agents1 s1]
  end.
  cbn [fst] in H1.
  pose proof (eatPhase_tag (movePhase agents1) (r_pellets room)) as H3.
  rewrite movePhase_tag in H3.
  destruct (eatPhase (movePhase agents1) (r_pellets room)) as [agents3 pellets3].
  cbn [fst] in H3.
  destruct (refill pellets3 s1) as [pellets4 s2].
  pose proof (virusPhase_tag (r_viruses room) agents3 s2) as H5.
  destruct (virusPhase (r_viruses room) agents3 s2) as [agents5 s3].
  cbn [fst snd] in *.
  pose proof (engulfPhase_tag agents5) as H6.
  assert (Ht : map tag (engulfPhase agents5) = map tag agents0)
    by (now rewrite H6, H5, H3, H1).
  rewrite respawnPhase_all by (apply (keyed_tag agents0); [now symmetry|exact Hk0]).
  destruct (respawnAll_spec (engulfPhase agents5) s3) as [H7 H8].
  destruct (respawnAll (engulfPhase agents5) s3) as [agents7 s4].
  cbn [fst setRng r_agents] in *. split; [now rewrite H7|exact H8].
Qed.

(** *** Keys and identities in the states the server reaches *)

Lemma mapGet_In {V} k (m : list (string * V)) v : mapGet k m = Some v -> In (k, v) m.
Proof.
  induction m as [|[k0 v0] m IH]; cbn; [discriminate|].
  destruct (String.eqb k0 k) eqn:E.
  - apply String.eqb_eq in E. subst k0. intros [= ->]. now left.
  - intros H. right. now apply IH.
Qed.

Lemma mapGet_None_keys {V} k (m : list (string * V)) :
  mapGet k m = None -> ~ In k (map fst m).
Proof.
  induction m as [|[k0 v0] m IH]; cbn; [tauto|].
  destruct (String.eqb k0 k) eqn:E; [discriminate|].
  apply String.eqb_neq in E. intros H [Hk|Hin]; [congruence|]. now apply IH.
Qed.

Lemma NoDup_keys_eq {V} (m : list (string * V)) k v v' :
  NoDup (map fst m) -> In (k, v) m -> In (k, v') m -> v = v'.
Proof.
  induction m as [|[k0 v0] m IH]; cbn [map fst In]; [tauto|].
  intros Hn. inversion Hn as [|? ? Hnot Hrest]; subst.
  intros [H1|H1] [H2|H2].
  - congruence.
  - exfalso. injection H1 as -> ->. apply Hnot.
    apply in_map_iff. now exists (k, v').
  - exfalso. injection H2 as -> ->. apply Hnot.
    apply in_map_iff. now exists (k, v).
  - now apply IH.
Qed.

Lemma mapSet_keys_in {V} k (v : V) x : forall m,
  In x (map fst (mapSet k v m)) -> x = k \/ In x (map fst m).
Proof.
  induction m as [|[k0 v0] m IH]; cbn [mapSet].
  - cbn. intros [H|[]]. now left.
  - destruct (String.eqb k0 k); cbn [map fst In].
    + intros [H|H]; right; [now left|now right].
    + intros [H|H]; [right; now left|].
      destruct (IH H) as [Hk|Hin]; [now left|right; now right].
Qed.

Lemma keyed_mapSet k a agents :
  keyed agents -> a_id a = k -> keyed (mapSet k a agents).
Proof.
  intros [Hn Hf] Hid. split.
  - induction agents as [|[k0 a0] m IH]; cbn [mapSet].
    + cbn. constructor; [intros []|constructor].
    + cbn [map fst] in Hn. inversion Hn as [|? ? Hnot Hrest]; subst.
      inversion Hf as [|? ? _ Hf']; subst.
      destruct (String.eqb k0 (a_id a)) eqn:E; cbn [map fst].
      * constructor; assumption.
      * apply String.eqb_neq in E. constructor; [|now apply IH].
        intros Hin. apply mapSet_keys_in in Hin. destruct Hin; [congruence|tauto].
  - clear Hn. induction agents as [|[k0 a0] m IH]; cbn [mapSet].
    + constructor; [exact Hid|constructor].
    + inversion Hf as [|? ? H0 Hf']; subst.
      destruct (String.eqb k0 (a_id a)) eqn:E.
      * apply String.eqb_eq in E. constructor; [now cbn|assumption].
      * constructor; [assumption|now apply IH].
Qed.

Lemma spawnBots_keyed : forall n i code used agents s,
  keyed agents -> keyed (fst (spawnBots n i code used agents s)).
Proof.
  induction n as [|n IH]; intros i code used agents s H; cbn [spawnBots].
  - exact H.
  - unfold bind. draw.
    destruct (pickName 200 used _ s0) as [picked s1].
    match goal with
    | |- context [spawnAgent ?id ?nm true s1] =>
        destruct (spawnAgent_spec id nm true s1) as (Hid & _);
        destruct (spawnAgent id nm true s1) as [a s2]
    end.
    cbn [fst] in Hid. apply IH. now apply keyed_mapSet.
Qed.

Lemma makeRoom_keyed code maxPlayers bots e :
  keyed (r_agents (fst (makeRoom code maxPlayers bots e))).
Proof.
  unfold makeRoom, bind, ret.
  destruct (pushPellets PELLET_TARGET [] (mkSrc (hashSeed code) e)) as [pellets s1].
  destruct (pushViruses VIRUS_COUNT [] s1) as [viruses s2].
  assert (H0 : keyed []) by (split; constructor).
  pose proof (spawnBots_keyed (botPasses 121 0 (Num.clamp bots (Fin 0) (Fin 120))) 0%Z code [] [] s2 H0)
    as Ha.
  destruct (spawnBots (botPasses 121 0 (Num.clamp bots (Fin 0) (Fin 120))) 0%Z code [] [] s2)
    as [agents s3].
  exact Ha.
Qed.

Lemma split_id a : a_id (split a) = a_id a.
Proof.
  unfold split. destruct (nth_error _ _) as [b|]; [|reflexivity].
  now destruct (Rgeb _ _).
Qed.

Lemma inputAgent_id a now req : a_id (inputAgent a now req) = a_id a.
Proof.
  unfold inputAgent. destruct (iq_split req); [rewrite split_id|]; reflexivity.
Qed.

Definition roomsKeyed (rooms : Rooms) : Prop :=
  Forall (fun cr => keyed (r_agents (snd cr))) rooms.

Lemma tickRoom_keyed room e :
  keyed (r_agents room) -> keyed (r_agents (fst (tickRoom room e))).
Proof.
  intros Hk. destruct (tickRoom_tags room e Hk) as [Ht _].
  apply (keyed_tag (removeInactive (dateNowAt e (clkIdx e) / 1000) (r_agents room)));
    [now symmetry|now apply removeInactive_keyed].
Qed.

Lemma tickAll_keyed : forall rooms e,
  roomsKeyed rooms -> roomsKeyed (fst (tickAll rooms e)).
Proof.
  induction rooms as [|[c room] rest IH]; intros e H; cbn [tickAll].
  - constructor.
  - inversion H as [|? ? Hr Hrest]; subst. cbn [snd] in Hr.
    pose proof (tickRoom_keyed room e Hr) as Ht.
    destruct (tickRoom room e) as [room' e1]. cbn [fst] in Ht.
    specialize (IH e1 Hrest). destruct (tickAll rest e1) as [rest' e2].
    cbn [fst] in *. constructor; assumption.
Qed.

Lemma reachable_keyed rooms : reachable rooms -> roomsKeyed rooms.
Proof.
  induction 1 as [|rooms code maxPlayers bots e _ IH|rooms base36 req e _ IH
                  |rooms req e _ IH|rooms e _ IH].
  - constructor.
  - unfold postCreate.
    pose proof (makeRoom_keyed code maxPlayers bots e) as Hm.
    destruct (makeRoom code maxPlayers bots e) as [room e']. cbn [fst] in *.
    apply Forall_mapSet; [|exact IH]. intros ?. exact Hm.
  - unfold postJoin.
    destruct (match jq_id req with EmptyString => _ | _ => _ end) as [id e1].
    destruct (mapGet _ rooms) as [room|] eqn:Er; [|exact IH].
    destruct (Num.leb _ _); [exact IH|].
    pose proof (mapGet_Forall (fun room => keyed (r_agents room)) _ _ _ IH Er) as Hk.
    pose proof (spawnIn_spec room id (substring 0 14 (orElse (jq_name req) "Player"))
                             false e1) as Hsp.
    destruct (spawnIn room id _ false e1) as [[a room1] e2]. cbn [fst snd] in *.
    destruct Hsp as (H1 & _ & _ & _ & _ & Hid & _).
    apply Forall_mapSet; [|exact IH]. intros ?. cbn [snd setAgents r_agents].
    rewrite H1. now apply keyed_mapSet.
  - unfold postInput.
    destruct (mapGet _ rooms) as [room|] eqn:Er; [|exact IH].
    pose proof (mapGet_Forall (fun room => keyed (r_agents room)) _ _ _ IH Er) as Hk.
    unfold inputRoom.
    destruct (mapGet (iq_id req) (r_agents room)) as [a|] eqn:Ea; [|exact IH].
    destruct (a_dead a); [exact IH|]. cbn [fst snd].
    apply Forall_mapSet; [|exact IH]. intros ?. cbn [snd setAgents r_agents].
    apply keyed_mapSet; [exact Hk|]. rewrite inputAgent_id.
    destruct Hk as [_ Hf]. rewrite Forall_forall in Hf.
    exact (Hf _ (mapGet_In _ _ _ Ea)).
  - now apply tickAll_keyed.
Qed.

Lemma inactive_stale now a :
  a_isBot a = false -> a_lastSeen a <> 0 -> now - a_lastSeen a > PLAYER_TTL ->
  inactive now a = true.
Proof.
  intros Hb H0 Ht. unfold inactive, Reqb. rewrite Hb. cbn [negb andb].
  destruct (Req_dec_T (a_lastSeen a) 0); [contradiction|]. now apply Rgtb_true.
Qed.

Lemma inactive_active now a :
  a_isBot a = true \/ now - a_lastSeen a <= PLAYER_TTL -> inactive now a = false.
Proof.
  unfold inactive, Reqb. intros [Hb|Ht]; [now rewrite Hb|].
  apply andb_false_iff. right. apply Rgtb_false.
  destruct (Req_dec_T (a_lastSeen a) 0); [unfold PLAYER_TTL; lra|exact Ht].
Qed.






(* ------------------------------------------------------------------ *)
(** ** One tick of two humans at the same place *)

Lemma Rdiv_between n d lo hi :
  0 < d -> lo * d <= n -> n <= hi * d -> lo <= n / d <= hi.
Proof.
  intros Hd H1 H2. assert (E : n = n / d * d) by (field; lra).
  set (q := n / d) in *. split; nra.
Qed.

Lemma moveBlob_mass_human a total b :
  a_isBot a = false -> a_boost a = false ->
  b_mass (moveBlob a total b) = Rmax 10 (b_mass b - 11 / 1000).
Proof.
  intros Hb Hboost. unfold moveBlob, decayBlob, knockBlob, aimBlob.
  rewrite Hb, Hboost. cbn [negb andb b_mass]. unfold DT, TICK_RATE.
  f_equal. lra.
Qed.

Definition c5_big' : Blob := moveBlob c5_A (agentMass c5_A) c5_big.
Definition c5_small' : Blob := moveBlob c5_B (agentMass c5_B) c5_small.

Lemma c5_moved :
  b_x c5_big' = 1000 /\ b_y c5_big' = 1000 /\ 99 <= b_r c5_big' <= 100 /\
  b_mass c5_big' = 400 - 11 / 1000 /\
  b_x c5_small' = 1000 /\ b_y c5_small' = 1000 /\ 49 <= b_r c5_small' <= 50 /\
  b_mass c5_small' = 100 - 11 / 1000.
Proof.
  destruct (moveBlob_still c5_A (agentMass c5_A) c5_big) as (X1 & Y1 & R1);
    try reflexivity; try (unfold WORLD; cbn; lra).
  destruct (moveBlob_still c5_B (agentMass c5_B) c5_small) as (X2 & Y2 & R2);
    try reflexivity; try (unfold WORLD; cbn; lra).
  pose proof (moveBlob_mass_human c5_A (agentMass c5_A) c5_big eq_refl eq_refl) as M1.
  pose proof (moveBlob_mass_human c5_B (agentMass c5_B) c5_small eq_refl eq_refl) as M2.
  fold c5_big' in X1, Y1, R1, M1. fold c5_small' in X2, Y2, R2, M2.
  cbn [c5_big c5_small b_x b_y b_r b_mass] in *.
  rewrite Rmax_right in M1 by lra. rewrite Rmax_right in M2 by lra.
  repeat split; try assumption; lra.
Qed.

Lemma c5_bite : bite c5_big' c5_small' = AEatsB.
Proof.
  destruct c5_moved as (X1 & Y1 & R1 & _ & X2 & Y2 & R2 & _).
  apply bite_AEatsB. unfold engulfs. rewrite X1, Y1, X2, Y2, hypot_same. lra.
Qed.

Lemma c5_engulfPhase :
  engulfPhase [("a"%string, moveAgent c5_A); ("b"%string, moveAgent c5_B)]
  = [("a"%string, settle (moveAgent c5_A) [eat c5_big' c5_small']);
     ("b"%string, settle (moveAgent c5_B) [])].
Proof.
  unfold engulfPhase. cbn [map fst snd List.length seq fold_left].
  unfold rowStep at 2. cbn [nth_error]. change (a_dead (moveAgent c5_A)) with false.
  cbn [List.length Nat.sub seq fold_left]. unfold pairStep. cbn [nth_error].
  change (a_dead (moveAgent c5_B)) with false.
  unfold engulfPair.
  change (a_blobs (moveAgent c5_A)) with [c5_big'].
  change (a_blobs (moveAgent c5_B)) with [c5_small'].
  cbn [List.length outerLoop nth_error innerLoop]. rewrite c5_bite.
  cbn [removeAt innerLoop setAt]. unfold rowStep. cbn [nth_error].
  reflexivity.
Qed.

(** An example of a whole tick.  Two humans at rest at the same place, [A] with one blob of radius 100
    and mass 400, [B] with one blob of radius 50 and mass 100, in a room
    without pellets or viruses.  After one tick [A] is alive with one blob,
    whose mass is its mass after decay plus the mass of [B]'s blob after
    decay times their ratio (which lies in the band [0.12, 0.50]); [B] has
    no blob and is dead. *)
Theorem tick_two_humans (e : Env) :
  exists A' B' ab,
    r_agents (fst (tickRoom c5_room e)) = [("a"%string, A'); ("b"%string, B')] /\
    a_dead A' = false /\ a_blobs A' = [ab] /\
    a_dead B' = true /\ a_blobs B' = [] /\
    b_mass ab = (400 - 11 / 1000)
                + (100 - 11 / 1000) * ((100 - 11 / 1000) / (400 - 11 / 1000)) /\
    424 < b_mass ab < 425.
Proof.
  destruct c5_moved as (_ & _ & _ & M1 & _ & _ & _ & M2).
  assert (Hm : b_mass (eat c5_big' c5_small')
               = (400 - 11 / 1000)
                 + (100 - 11 / 1000) * ((100 - 11 / 1000) / (400 - 11 / 1000))).
  { unfold eat, grow. cbn [b_mass]. rewrite M1, M2.
    rewrite growPenalty_below by lra.
    rewrite Rmax_right by lra. rewrite clamp_id; [lra|].
    apply Rdiv_between; lra. }
  exists (settle (moveAgent c5_A) [eat c5_big' c5_small']),
         (settle (moveAgent c5_B) []), (eat c5_big' c5_small').
  split.
  - unfold tickRoom, tickBody, bind, ret.
    pose proof (c5_before (mkSrc (r_rng c5_room) e)) as Hb.
    destruct (beforeEngulf c5_room (mkSrc (r_rng c5_room) e)) as [[agents5 pellets4] s3].
    cbn [fst snd] in *. subst agents5.
    change (movePhase (r_agents c5_room))
      with [("a"%string, moveAgent c5_A); ("b"%string, moveAgent c5_B)].
    rewrite c5_engulfPhase.
    rewrite respawnPhase_humans by (repeat constructor).
    reflexivity.
  - split; [reflexivity|]. split; [reflexivity|]. split; [reflexivity|].
    split; [reflexivity|]. split; [exact Hm|]. rewrite Hm.
    pose proof (Rdiv_between (100 - 11 / 1000) (400 - 11 / 1000) (2499 / 10000) (25 / 100)
                  ltac:(lra) ltac:(lra) ltac:(lra)) as H.
    set (q := (100 - 11 / 1000) / (400 - 11 / 1000)) in *.
    lra.
Qed.

(* ------------------------------------------------------------------ *)
(** ** Speed and displacement *)

Lemma sizePenalty_anti r1 r2 :
  r1 <= r2 -> Rmax (26 / 100) (1 - r2 / 215) <= Rmax (26 / 100) (1 - r1 / 215).
Proof. intros H. apply Rle_max_compat_l. lra. Qed.

Definition capPenalty (totalMass : R) : R :=
  if Rgtb totalMass 1400
  then clamp (1 - ((totalMass - 1400) / 1400) * (55 / 100)) (55 / 100) 1
  else 1.

Lemma baseSpeed_eq r total boosting :
  baseSpeed r total boosting =
  260 * Rmax (26 / 100) (1 - r / 215) * capPenalty total *
  (if boosting then 155 / 100 else 1).
Proof. unfold baseSpeed, capPenalty. destruct boosting; lra. Qed.

Lemma capPenalty_range total : 55 / 100 <= capPenalty total <= 1.
Proof.
  unfold capPenalty. destruct (Rgtb total 1400); [|lra].
  split; [apply clamp_lo|apply clamp_hi; lra].
Qed.

Lemma capPenalty_anti t1 t2 : t1 <= t2 -> capPenalty t2 <= capPenalty t1.
Proof.
  intros H. unfold capPenalty.
  destruct (Rgtb t1 1400) eqn:E1, (Rgtb t2 1400) eqn:E2.
  - unfold clamp. apply Rle_max_compat_l. apply Rle_min_compat_l. lra.
  - apply Rgtb_true in E1. apply Rgtb_false in E2. lra.
  - apply clamp_hi. lra.
  - lra.
Qed.

Lemma baseSpeed_bounds :
  (forall r total boosting,
      260 * (26 / 100) * (55 / 100) <= baseSpeed r total boosting) /\
  (forall r total boosting,
      0 <= r -> baseSpeed r total boosting <= 260 * (155 / 100)).
Proof.
  split.
  - intros r total boosting. rewrite baseSpeed_eq.
    pose proof (Rmax_l (26 / 100) (1 - r / 215)).
    pose proof (capPenalty_range total).
    set (sp := Rmax _ _) in *. set (cp := capPenalty total) in *.
    destruct boosting; nra.
  - intros r total boosting Hr. rewrite baseSpeed_eq.
    assert (Hs : 26 / 100 <= Rmax (26 / 100) (1 - r / 215) <= 1).
    { split; [apply Rmax_l|]. apply Rmax_lub; lra. }
    pose proof (capPenalty_range total).
    set (sp := Rmax _ _) in *. set (cp := capPenalty total) in *.
    destruct boosting; nra.
Qed.

(** X6.  [baseSpeed] is positive, at least [260 * 0.26 * 0.55] and at most
    [260 * 1.55]; boosting multiplies it by 1.55; it does not increase when
    the radius grows, nor when the total mass grows, and it does not depend
    on the total mass up to the soft cap 1400. *)
Theorem baseSpeed_props :
  (forall r total boosting,
      260 * (26 / 100) * (55 / 100) <= baseSpeed r total boosting) /\
  (forall r total boosting,
      0 <= r -> baseSpeed r total boosting <= 260 * (155 / 100)) /\
  (forall r total, baseSpeed r total true = 155 / 100 * baseSpeed r total false) /\
  (forall r1 r2 total boosting,
      r1 <= r2 -> baseSpeed r2 total boosting <= baseSpeed r1 total boosting) /\
  (forall r t1 t2 boosting,
      t1 <= t2 -> baseSpeed r t2 boosting <= baseSpeed r t1 boosting) /\
  (forall r total boosting,
      total <= 1400 -> baseSpeed r total boosting = baseSpeed r 0 boosting).
Proof.
  split; [|split; [|split; [|split; [|split]]]].
  - exact (proj1 baseSpeed_bounds).
  - exact (proj2 baseSpeed_bounds).
  - intros r total. rewrite !baseSpeed_eq. lra.
  - intros r1 r2 total boosting H. rewrite !baseSpeed_eq.
    pose proof (sizePenalty_anti r1 r2 H).
    pose proof (Rmax_l (26 / 100) (1 - r2 / 215)).
    pose proof (capPenalty_range total).
    set (s1 := Rmax _ (1 - r1 / 215)) in *. set (s2 := Rmax _ (1 - r2 / 215)) in *.
    set (cp := capPenalty total) in *.
    destruct boosting; nra.
  - intros r t1 t2 boosting H. rewrite !baseSpeed_eq.
    pose proof (capPenalty_anti t1 t2 H).
    pose proof (Rmax_l (26 / 100) (1 - r / 215)).
    pose proof (capPenalty_range t2).
    set (sp := Rmax _ _) in *.
    set (c1 := capPenalty t1) in *. set (c2 := capPenalty t2) in *.
    destruct boosting; nra.
  - intros r total boosting H. rewrite !baseSpeed_eq. unfold capPenalty.
    destruct (Rgtb total 1400) eqn:E; [apply Rgtb_true in E; lra|].
    destruct (Rgtb 0 1400) eqn:E0; [apply Rgtb_true in E0; lra|]. reflexivity.
Qed.

Lemma baseSpeed_props_witness :
  baseSpeed 50 100 false <= baseSpeed 36 100 false /\
  baseSpeed 36 2000 false <= baseSpeed 36 100 false /\
  baseSpeed 36 100 true = baseSpeed 36 0 true.
Proof.
  destruct baseSpeed_props as (_ & _ & _ & H4 & H5 & H6).
  split; [apply H4; lra|]. split; [apply H5; lra|apply H6; lra].
Defined.

(** X7.  The movement step of a tick for a blob without residual velocity, inside
    the clamp interval: it is displaced by [aim * speed * DT] and stopped at
    [WORLD - r].  With aim (1, 0) its [x] grows strictly while it is short
    of [WORLD - r], by the whole displacement while that fits, and [y] stays. *)
Theorem move_along_aim (a : Agent) (total : R) (b : Blob) :
  a_aimX a = 1 -> a_aimY a = 0 -> b_vx b = 0 -> b_vy b = 0 ->
  b_r b <= b_x b <= WORLD - b_r b -> b_r b <= b_y b <= WORLD - b_r b ->
  let v := baseSpeed (b_r b) total (a_boost a) in
  b_x (moveBlob a total b) = Rmin (WORLD - b_r b) (b_x b + v * DT) /\
  b_y (moveBlob a total b) = b_y b /\
  (b_x b < WORLD - b_r b -> b_x b < b_x (moveBlob a total b)) /\
  (b_x b + v * DT <= WORLD - b_r b -> b_x (moveBlob a total b) = b_x b + v * DT) /\
  (b_x b = WORLD - b_r b -> b_x (moveBlob a total b) = b_x b).
Proof.
  intros Hx Hy Hvx Hvy Hbx Hby v.
  assert (Hv : 0 < v).
  { pose proof (proj1 baseSpeed_bounds (b_r b) total (a_boost a)). fold v in H. lra. }
  assert (X : b_x (moveBlob a total b) = Rmin (WORLD - b_r b) (b_x b + v * DT)).
  { unfold moveBlob, decayBlob, knockBlob, aimBlob.
    destruct (negb (a_isBot a) && a_boost a);
      cbn [b_x b_y b_vx b_vy b_r]; rewrite Hx, Hvx; fold v;
      unfold clamp; rewrite Rmax_right;
      try (replace (b_x b + 1 * v * DT) with (b_x b + v * DT) by lra; lra);
      apply Rmin_glb; unfold DT, TICK_RATE in *; lra. }
  assert (Y : b_y (moveBlob a total b) = b_y b).
  { unfold moveBlob, decayBlob, knockBlob, aimBlob.
    destruct (negb (a_isBot a) && a_boost a);
      cbn [b_x b_y b_vx b_vy b_r]; rewrite Hy, Hvy;
      replace (b_y b + 0 * baseSpeed (b_r b) total (a_boost a) * DT) with (b_y b)
        by lra;
      rewrite clamp_id by assumption; lra. }
  split; [exact X|]. split; [exact Y|]. rewrite X.
  unfold DT, TICK_RATE in *. split; [|split]; intros H; unfold Rmin;
    destruct (Rle_dec _ _); lra.
Qed.

Lemma move_along_aim_witness :
  let a := mkAgent "h" "Player" false (mkColor 70 70 70) false 1 0 false 0 [] in
  let b := mkBlob 1000 1000 0 0 55 36 0 in
  b_x b < b_x (moveBlob a 55 b) /\ b_y (moveBlob a 55 b) = b_y b.
Proof.
  intros a b.
  assert (Hx : b_r b <= b_x b <= WORLD - b_r b) by (unfold WORLD; cbn; lra).
  assert (Hy : b_r b <= b_y b <= WORLD - b_r b) by (unfold WORLD; cbn; lra).
  destruct (move_along_aim a 55 b eq_refl eq_refl eq_refl eq_refl Hx Hy)
    as (_ & Y & H & _).
  split; [apply H; unfold WORLD; cbn; lra|exact Y].
Defined.

(* ------------------------------------------------------------------ *)
(** ** The input handler *)



(* ------------------------------------------------------------------ *)
(** ** The seeded generator *)

Lemma hashFold_range : forall l h,
  (0 <= h < two32)%Z -> (0 <= fold_left hashStep l h < two32)%Z.
Proof.
  induction l as [|c l IH]; intros h H; cbn [fold_left]; [exact H|].
  apply IH. unfold hashStep. apply ushr32_0_range.
Qed.

(** X9.  The seed of a room is an integer in [1, 2^32): the FNV-1a hash of the
    code as an unsigned 32-bit integer, or 1 when the hash is 0.  A draw of
    the generator lies in [0, 1); it adds [0x6D2B79F5] to the captured seed,
    without wrap-around (the seed is a double, not a 32-bit integer: the
    sum is exact while it stays below 2^53). *)
Theorem generator_range :
  (forall code, (1 <= hashSeed code < 4294967296)%Z) /\
  (forall seed, 0 <= fst (mulberry32 seed) < 1) /\
  (forall s, 0 <= fst (rng s) < 1 /\ s_env (snd (rng s)) = s_env s) /\
  (forall seed,
      (0 <= seed < 2 ^ 53 - 1831565813)%Z ->
      snd (mulberry32 seed) = (seed + 1831565813)%Z).
Proof.
  split; [|split; [|split]].
  - intros code. unfold hashSeed.
    pose proof (hashFold_range (list_ascii_of_string code) 2166136261%Z) as H.
    unfold two32 in H. specialize (H ltac:(lia)).
    destruct (Z.eqb_spec (fold_left hashStep (list_ascii_of_string code) 2166136261%Z) 0);
      lia.
  - apply mulberry32_range.
  - intros s. split; [apply rng_range|apply keepsEnv_rng].
  - intros seed H. unfold mulberry32. cbn [snd]. unfold roundDouble.
    destruct (Z.ltb_spec (Z.abs (seed + 1831565813)) (2 ^ 53)); [reflexivity|lia].
Qed.

Lemma generator_range_witness : snd (mulberry32 1) = 1831565814%Z.
Proof. apply (proj2 (proj2 (proj2 generator_range)) 1%Z). lia. Defined.

(* ------------------------------------------------------------------ *)
(** ** Eating pellets *)

(** [l] is [l'] with some elements left out, the others in their order. *)
Inductive sublist {A} : list A -> list A -> Prop :=
| sub_nil : sublist [] []
| sub_skip x l l' : sublist l l' -> sublist l (x :: l')
| sub_keep x l l' : sublist l l' -> sublist (x :: l) (x :: l').

Lemma sublist_refl {A} (l : list A) : sublist l l.
Proof. induction l; constructor; assumption. Qed.

Lemma sublist_trans {A} (l1 l2 l3 : list A) :
  sublist l1 l2 -> sublist l2 l3 -> sublist l1 l3.
Proof.
  intros H12 H23. revert l1 H12.
  induction H23 as [|x l2 l3 H IH|x l2 l3 H IH]; intros l1 H12.
  - exact H12.
  - constructor. now apply IH.
  - inversion H12; subst; constructor; now apply IH.
Qed.

Lemma sublist_In {A} (l l' : list A) x : sublist l l' -> In x l -> In x l'.
Proof.
  induction 1 as [|y l l' H IH|y l l' H IH]; cbn; [tauto| |]; intros Hin.
  - right. now apply IH.
  - destruct Hin; [now left|right; now apply IH].
Qed.

Lemma sublist_Forall {A} (P : A -> Prop) (l l' : list A) :
  sublist l l' -> Forall P l' -> Forall P l.
Proof.
  intros Hs H. rewrite Forall_forall in *. intros x Hx.
  apply H. exact (sublist_In _ _ _ Hs Hx).
Qed.

Lemma sublist_length {A} (l l' : list A) :
  sublist l l' -> (List.length l <= List.length l')%nat.
Proof. induction 1; cbn; lia. Qed.

(** The pellet [p] is within reach of the blob [b] (line 826). *)
Definition reaches (b : Blob) (p : Pellet) : Prop :=
  hypot (b_x b - p_x p) (b_y b - p_y p) < b_r b + p_r p.

Definition valueSum (pellets : list Pellet) : R :=
  fold_right (fun p s => IZR (p_v p) + s) 0 pellets.

(** The blobs [b'] that [b] can grow into: same place, velocity and timer,
    no less mass, and a radius that follows the mass gained. *)
Definition grownFrom (b b' : Blob) : Prop :=
  b_x b' = b_x b /\ b_y b' = b_y b /\ b_vx b' = b_vx b /\ b_vy b' = b_vy b /\
  b_splitTimer b' = b_splitTimer b /\
  b_mass b <= b_mass b' /\
  b_r b' - b_r b = 22 / 100 * (b_mass b' - b_mass b).

Lemma grownFrom_refl b : grownFrom b b.
Proof. unfold grownFrom. repeat split; lra. Qed.

Lemma grownFrom_grow b b' amount :
  0 <= amount -> grownFrom b b' -> grownFrom b (grow b' amount).
Proof.
  intros Ha (X & Y & VX & VY & T & M & Rr).
  pose proof (growPenalty_range (b_mass b')) as Hp.
  unfold grownFrom, grow. cbn [b_x b_y b_vx b_vy b_splitTimer b_mass b_r].
  repeat (split; [assumption|]). split; nra.
Qed.

Lemma eatPellets_spec b : forall pellets,
  Forall pelletOk pellets ->
  let b' := fst (eatPellets b pellets) in
  let rest := snd (eatPellets b pellets) in
  sublist rest pellets /\ grownFrom b b' /\
  (forall p, In p rest -> ~ reaches b p) /\
  b_mass b' - b_mass b <= valueSum pellets - valueSum rest /\
  (b_mass b' <= 1400 -> b_mass b' - b_mass b = valueSum pellets - valueSum rest).
Proof.
  induction pellets as [|p ps IH]; intros Hps; cbn [eatPellets].
  - cbn [fst snd valueSum fold_right]. split; [constructor|].
    split; [apply grownFrom_refl|]. split; [intros p []|]. split; lra.
  - inversion Hps as [|? ? Hp Hrest]; subst. specialize (IH Hrest).
    cbn zeta in IH.
    destruct (eatPellets b ps) as [b1 rest1]. cbn [fst snd] in IH.
    destruct IH as (Hsub & Hg & Hno & Hle & Heq).
    assert (Hv : 1 <= IZR (p_v p)) by (apply IZR_le in Hp; exact Hp).
    destruct (Rltb _ _) eqn:E; cbn [fst snd valueSum fold_right];
      fold (valueSum ps); fold (valueSum rest1).
    + split; [now constructor|].
      split; [apply grownFrom_grow; [lra|assumption]|].
      split; [exact Hno|].
      pose proof (growPenalty_range (b_mass b1)) as Hpen.
      assert (Hm : b_mass (grow b1 (IZR (p_v p)))
                   = b_mass b1 + IZR (p_v p) * growPenalty (b_mass b1))
        by reflexivity.
      split; [rewrite Hm; nra|].
      intros H1400. rewrite Hm in *.
      assert (b_mass b1 <= 1400) by nra.
      rewrite growPenalty_below in * by assumption. specialize (Heq ltac:(lra)). lra.
    + split; [now constructor|]. split; [assumption|]. split.
      * intros q [<-|Hq]; [|now apply Hno].
        apply Rltb_false in E. destruct Hg as (X & Y & _ & _ & _ & M & Rr).
        unfold reaches. rewrite <- X, <- Y. nra.
      * split; [lra|]. intros H. specialize (Heq H). lra.
Qed.

Lemma eatBlobs_spec : forall blobs pellets,
  Forall pelletOk pellets ->
  let blobs' := fst (eatBlobs blobs pellets) in
  let rest := snd (eatBlobs blobs pellets) in
  sublist rest pellets /\ Forall2 grownFrom blobs blobs' /\
  (forall b p, In b blobs -> In p rest -> ~ reaches b p) /\
  massSum blobs' - massSum blobs <= valueSum pellets - valueSum rest.
Proof.
  induction blobs as [|b bs IH]; intros pellets Hps; cbn [eatBlobs].
  - cbn [fst snd]. split; [apply sublist_refl|]. split; [constructor|].
    split; [intros b p []|]. lra.
  - destruct (eatPellets_spec b pellets Hps) as (S1 & G1 & N1 & L1 & _).
    destruct (eatPellets b pellets) as [b' ps1]. cbn [fst snd] in *.
    destruct (IH ps1 (sublist_Forall _ _ _ S1 Hps)) as (S2 & G2 & N2 & L2).
    destruct (eatBlobs bs ps1) as [bs' ps2]. cbn [fst snd] in *.
    split; [exact (sublist_trans _ _ _ S2 S1)|].
    split; [now constructor|]. split.
    + intros c p [<-|Hc] Hp; [|now apply (N2 c)].
      apply N1. exact (sublist_In _ _ _ S2 Hp).
    + rewrite !massSum_cons. lra.
Qed.

(** The mass of all the blobs of a room. *)
Definition totalMass (agents : AgentMap) : R :=
  fold_right (fun ka s => massSum (a_blobs (snd ka)) + s) 0 agents.

(** What the pellet loop does to one agent. *)
Definition fed (a a' : Agent) : Prop :=
  if a_dead a then a' = a
  else exists blobs', a' = setBlobs a blobs' /\ Forall2 grownFrom (a_blobs a) blobs'.

Lemma eatPhase_spec : forall agents pellets,
  Forall pelletOk pellets ->
  let agents' := fst (eatPhase agents pellets) in
  let rest := snd (eatPhase agents pellets) in
  sublist rest pellets /\
  Forall2 (fun ka ka' => fst ka' = fst ka /\ fed (snd ka) (snd ka')) agents agents' /\
  (forall k a b p,
      In (k, a) agents -> a_dead a = false -> In b (a_blobs a) -> In p rest ->
      ~ reaches b p) /\
  totalMass agents' - totalMass agents <= valueSum pellets - valueSum rest.
Proof.
  induction agents as [|[k a] rest IH]; intros pellets Hps; cbn [eatPhase].
  - cbn [fst snd]. split; [apply sublist_refl|]. split; [constructor|].
    split; [intros k a b p []|]. lra.
  - destruct (a_dead a) eqn:Ed.
    + destruct (IH pellets Hps) as (S2 & F2 & N2 & L2).
      destruct (eatPhase rest pellets) as [rest' ps]. cbn [fst snd] in *.
      split; [exact S2|]. split.
      * constructor; [|exact F2]. cbn [fst snd]. unfold fed. now rewrite Ed.
      * split.
        -- intros k0 a0 b p [[= <- <-]|Hin] Hd; [congruence|]. now apply (N2 k0 a0).
        -- cbn [totalMass fold_right snd]. fold (totalMass rest').
           fold (totalMass rest). lra.
    + destruct (eatBlobs_spec (a_blobs a) pellets Hps) as (S1 & G1 & N1 & L1).
      destruct (eatBlobs (a_blobs a) pellets) as [blobs' ps1]. cbn [fst snd] in *.
      destruct (IH ps1 (sublist_Forall _ _ _ S1 Hps)) as (S2 & F2 & N2 & L2).
      destruct (eatPhase rest ps1) as [rest' ps2]. cbn [fst snd] in *.
      split; [exact (sublist_trans _ _ _ S2 S1)|]. split.
      * constructor; [|exact F2]. cbn [fst snd]. unfold fed. rewrite Ed.
        split; [reflexivity|]. now exists blobs'.
      * split.
        -- intros k0 a0 b p [[= <- <-]|Hin] Hd Hb Hp; [|now apply (N2 k0 a0)].
           apply (N1 b p Hb). exact (sublist_In _ _ _ S2 Hp).
        -- cbn [totalMass fold_right snd setBlobs a_blobs]. fold (totalMass rest').
           fold (totalMass rest). lra.
Qed.

(** X10.  The pellet phase of a tick, for a room whose pellets have a value of
    at least 1.  The pellets left are pellets of the room, in their order:
    none is created, moved or reordered.  Dead agents are untouched; each
    blob of a living agent keeps its place, velocity and split timer, loses
    no mass, and its radius grows by 0.22 of the mass it gains.  No pellet
    that is left was within reach of a blob of a living agent as the phase
    began; and the mass the room gains is at most the value of the pellets
    eaten. *)
Theorem pellet_phase (agents : AgentMap) (pellets : list Pellet) :
  Forall pelletOk pellets ->
  let agents' := fst (eatPhase agents pellets) in
  let rest := snd (eatPhase agents pellets) in
  sublist rest pellets /\
  Forall2 (fun ka ka' => fst ka' = fst ka /\ fed (snd ka) (snd ka')) agents agents' /\
  (forall k a b p,
      In (k, a) agents -> a_dead a = false -> In b (a_blobs a) -> In p rest ->
      b_r b + p_r p <= hypot (b_x b - p_x p) (b_y b - p_y p)) /\
  totalMass agents <= totalMass agents' /\
  totalMass agents' - totalMass agents <= valueSum pellets - valueSum rest.
Proof.
  intros Hps agents' rest.
  destruct (eatPhase_spec agents pellets Hps) as (S & F & N & L).
  fold agents' rest in S, F, N, L.
  split; [exact S|]. split; [exact F|]. split; [|split; [|exact L]].
  - intros k a b p Ha Hd Hb Hp.
    specialize (N k a b p Ha Hd Hb Hp). unfold reaches in N. lra.
  - clear S N L. induction F as [|[k a] [k' a'] l l' [_ Hf] _ IH]; [cbn; lra|].
    cbn [totalMass fold_right snd]. fold (totalMass l) (totalMass l').
    assert (massSum (a_blobs a) <= massSum (a_blobs a')); [|lra].
    cbn [snd] in Hf. unfold fed in Hf. destruct (a_dead a); [subst; lra|].
    destruct Hf as (blobs' & -> & Hg). cbn [setBlobs a_blobs].
    clear IH. induction Hg as [|b b' bs bs' Hb _ IHg]; [lra|].
    rewrite !massSum_cons. destruct Hb as (_ & _ & _ & _ & _ & Hm & _). lra.
Qed.

Lemma pellet_phase_witness :
  sublist (snd (eatPhase [("h"%string, c1_human)] [mkPellet 1000 1000 5 1]))
          [mkPellet 1000 1000 5 1].
Proof.
  apply (pellet_phase [("h"%string, c1_human)] [mkPellet 1000 1000 5 1]).
  constructor; [unfold pelletOk; cbn [p_v]; lia|constructor].
Defined.

(* ------------------------------------------------------------------ *)
(** ** What the engulf phase never creates *)

Definition nonneg (b : Blob) : Prop := 0 <= b_mass b.

Lemma eat_gain eater eaten :
  0 <= b_mass eaten ->
  b_mass eater + 3 / 100 * b_mass eaten <= b_mass (eat eater eaten)
  <= b_mass eater + 50 / 100 * b_mass eaten.
Proof.
  intros H. unfold eat, grow. cbn [b_mass].
  pose proof (growPenalty_range (b_mass eater)) as Hp.
  pose proof (clamp_lo (b_mass eaten / Rmax 1 (b_mass eater)) (12 / 100) (50 / 100)).
  pose proof (clamp_hi (b_mass eaten / Rmax 1 (b_mass eater)) (12 / 100) (50 / 100)
                       ltac:(lra)).
  set (ratio := clamp _ _ _) in *. set (pen := growPenalty _) in *.
  assert (Hq : 12 / 100 * b_mass eaten <= b_mass eaten * ratio <= 50 / 100 * b_mass eaten)
    by (split; nra).
  set (q := b_mass eaten * ratio) in *.
  split; nra.
Qed.

Lemma eat_nonneg eater eaten : nonneg eater -> nonneg eaten -> nonneg (eat eater eaten).
Proof.
  unfold nonneg. intros H1 H2. pose proof (eat_gain eater eaten H2). lra.
Qed.

Definition massOpt (o : option Blob) : R :=
  match o with Some b => b_mass b | None => 0 end.

Lemma innerLoop_mass : forall n ab bbs,
  nonneg ab -> Forall nonneg bbs ->
  massOpt (fst (innerLoop n ab bbs)) + massSum (snd (innerLoop n ab bbs))
  <= b_mass ab + massSum bbs.
Proof.
  induction n as [|bi IH]; intros ab bbs Hab Hbbs; cbn [innerLoop].
  - cbn [fst snd massOpt]. lra.
  - destruct (nth_error bbs bi) as [bb|] eqn:Eb; [|now apply IH].
    assert (Hbb : nonneg bb) by exact (Forall_nth_error _ _ _ _ Hbbs Eb).
    destruct (bite ab bb).
    + specialize (IH (eat ab bb) (removeAt bi bbs) (eat_nonneg _ _ Hab Hbb)
                     (Forall_removeAt _ _ _ Hbbs)).
      rewrite (massSum_removeAt bbs bi bb Eb) in IH.
      pose proof (eat_gain ab bb Hbb). unfold nonneg in *. lra.
    + cbn [fst snd massOpt]. rewrite (massSum_setAt bbs bi bb _ Eb).
      pose proof (eat_gain bb ab Hab). unfold nonneg in *. lra.
    + now apply IH.
Qed.

Lemma outerLoop_mass : forall n abs bbs,
  Forall nonneg abs -> Forall nonneg bbs ->
  massSum (fst (outerLoop n abs bbs)) + massSum (snd (outerLoop n abs bbs))
  <= massSum abs + massSum bbs.
Proof.
  induction n as [|ai IH]; intros abs bbs Ha Hb; cbn [outerLoop].
  - cbn [fst snd]. lra.
  - destruct (nth_error abs ai) as [ab|] eqn:Ea; [|now apply IH].
    assert (Hab : nonneg ab) by exact (Forall_nth_error _ _ _ _ Ha Ea).
    pose proof (innerLoop_mass (List.length bbs) ab bbs Hab Hb) as Hm.
    destruct (innerLoop_inv nonneg eat_nonneg ai (List.length bbs) ab bbs Hab Hb)
      as (H1 & H2 & _).
    destruct (innerLoop (List.length bbs) ab bbs) as [[ab'|] bbs'];
      cbn [fst snd massOpt] in *.
    + specialize (IH (setAt ai ab' abs) bbs' (Forall_setAt _ _ _ _ H1 Ha) H2).
      rewrite (massSum_setAt abs ai ab ab' Ea) in IH. lra.
    + specialize (IH (removeAt ai abs) bbs' (Forall_removeAt _ _ _ Ha) H2).
      rewrite (massSum_removeAt abs ai ab Ea) in IH. lra.
Qed.

(** A measure of the blobs of the agents that no pair processing raises is
    not raised by the phase. *)
Section EngulfMeasure.
Variable mu : list Blob -> R.
Variable ok : list Blob -> Prop.
Hypothesis Hpair : forall abs bbs,
  ok abs -> ok bbs ->
  ok (fst (outerLoop (List.length abs) abs bbs)) /\
  ok (snd (outerLoop (List.length abs) abs bbs)) /\
  mu (fst (outerLoop (List.length abs) abs bbs))
  + mu (snd (outerLoop (List.length abs) abs bbs)) <= mu abs + mu bbs.

Definition arrMu (arr : list Agent) : R :=
  fold_right (fun a s => mu (a_blobs a) + s) 0 arr.

Definition arrOk (arr : list Agent) : Prop := Forall (fun a => ok (a_blobs a)) arr.

Lemma arrMu_setAt : forall arr i A A',
  nth_error arr i = Some A ->
  arrMu (setAt i A' arr) = arrMu arr - mu (a_blobs A) + mu (a_blobs A').
Proof.
  induction arr as [|a arr IH]; intros [|i] A A' H; cbn in H; try discriminate.
  - injection H as ->. cbn [setAt arrMu fold_right]. lra.
  - cbn [setAt arrMu fold_right]. fold (arrMu (setAt i A' arr)) (arrMu arr).
    rewrite (IH i A A' H). lra.
Qed.

Lemma pairStep_mu i arr j :
  i <> j -> arrOk arr -> arrOk (pairStep i arr j) /\ arrMu (pairStep i arr j) <= arrMu arr.
Proof.
  intros Hij Hok. unfold pairStep.
  destruct (nth_error arr i) as [A|] eqn:Ei; [|split; [assumption|lra]].
  destruct (nth_error arr j) as [B|] eqn:Ej; [|split; [assumption|lra]].
  destruct (a_dead B); [split; [assumption|lra]|].
  pose proof (Forall_nth_error _ _ _ _ Hok Ei) as HA.
  pose proof (Forall_nth_error _ _ _ _ Hok Ej) as HB. cbn beta in HA, HB.
  unfold engulfPair. destruct (Hpair _ _ HA HB) as (H1 & H2 & H3).
  destruct (outerLoop _ (a_blobs A) (a_blobs B)) as [abs bbs]. cbn [fst snd] in *.
  split.
  - apply Forall_setAt; [exact H2|]. apply Forall_setAt; [exact H1|exact Hok].
  - rewrite (arrMu_setAt _ j B) by (rewrite nth_error_setAt_other; auto).
    rewrite (arrMu_setAt _ i A _ Ei). cbn [settle a_blobs]. lra.
Qed.

Lemma pairs_mu i : forall js arr,
  (forall j, In j js -> i <> j) -> arrOk arr ->
  arrOk (fold_left (pairStep i) js arr) /\
  arrMu (fold_left (pairStep i) js arr) <= arrMu arr.
Proof.
  induction js as [|j js IH]; intros arr Hjs Hok; cbn [fold_left].
  - split; [assumption|lra].
  - destruct (pairStep_mu i arr j (Hjs j (or_introl eq_refl)) Hok) as [H1 H2].
    destruct (IH (pairStep i arr j)) as [H3 H4];
      [intros j' Hj'; apply Hjs; now right|assumption|].
    split; [assumption|lra].
Qed.

Lemma rows_mu : forall rows arr,
  arrOk arr ->
  arrOk (fold_left rowStep rows arr) /\ arrMu (fold_left rowStep rows arr) <= arrMu arr.
Proof.
  induction rows as [|i rows IH]; intros arr Hok; cbn [fold_left].
  - split; [assumption|lra].
  - assert (H : arrOk (rowStep arr i) /\ arrMu (rowStep arr i) <= arrMu arr).
    { unfold rowStep. destruct (nth_error arr i) as [A|]; [|split; [assumption|lra]].
      destruct (a_dead A); [split; [assumption|lra]|].
      apply pairs_mu; [|assumption]. intros j Hj. apply in_seq in Hj. lia. }
    destruct H as [H1 H2]. destruct (IH (rowStep arr i) H1) as [H3 H4].
    split; [assumption|lra].
Qed.

Lemma arrMu_combine : forall (ks : list string) (arr : list Agent),
  List.length ks = List.length arr ->
  fold_right (fun ka s => mu (a_blobs (snd ka)) + s) 0 (combine ks arr) = arrMu arr.
Proof.
  induction ks as [|k ks IH]; intros [|a arr] H; cbn in H; try discriminate;
    [reflexivity|].
  cbn [combine fold_right snd arrMu]. fold (arrMu arr). rewrite IH by lia. reflexivity.
Qed.

Lemma engulfPhase_mu agents :
  Forall (fun ka => ok (a_blobs (snd ka))) agents ->
  fold_right (fun ka s => mu (a_blobs (snd ka)) + s) 0 (engulfPhase agents)
  <= fold_right (fun ka s => mu (a_blobs (snd ka)) + s) 0 agents.
Proof.
  intros H. unfold engulfPhase.
  rewrite arrMu_combine by (now rewrite length_rows, !length_map).
  destruct (rows_mu (seq 0 (List.length (map snd agents))) (map snd agents)) as [_ Hm].
  { unfold arrOk. now rewrite Forall_map. }
  replace (fold_right (fun ka s => mu (a_blobs (snd ka)) + s) 0 agents)
    with (arrMu (map snd agents)); [exact Hm|].
  clear. induction agents as [|ka l IH]; cbn; [reflexivity|].
  fold (arrMu (map snd l)). now rewrite IH.
Qed.
End EngulfMeasure.

Definition blobCount (agents : AgentMap) : nat :=
  fold_right (fun ka n => (List.length (a_blobs (snd ka)) + n)%nat) 0%nat agents.

Lemma INR_blobCount agents :
  INR (blobCount agents)
  = fold_right (fun ka s => INR (List.length (a_blobs (snd ka))) + s) 0 agents.
Proof.
  induction agents as [|ka l IH]; cbn [blobCount fold_right]; [reflexivity|].
  fold (blobCount l). now rewrite plus_INR, IH.
Qed.

(** X11.  The engulf phase of a tick creates neither mass nor blobs: when no
    blob has a negative mass, the mass of all the blobs of the room after
    the phase is at most what it was before, and so is their number.  A
    bite raises the mass of the eater by at least 3% and at most 50% of the
    mass of the eaten blob, which disappears: at least half of it is lost. *)
Theorem engulf_creates_nothing :
  (forall agents,
      allBlobs nonneg agents ->
      totalMass (engulfPhase agents) <= totalMass agents /\
      (blobCount (engulfPhase agents) <= blobCount agents)%nat /\
      allBlobs nonneg (engulfPhase agents)) /\
  (forall eater eaten,
      0 <= b_mass eaten ->
      b_mass eater + 3 / 100 * b_mass eaten <= b_mass (eat eater eaten)
      <= b_mass eater + 50 / 100 * b_mass eaten).
Proof.
  split; [|exact eat_gain].
  intros agents H. split; [|split].
  - unfold totalMass.
    apply (engulfPhase_mu massSum (Forall nonneg)).
    + intros abs bbs Ha Hb.
      destruct (outerLoop_inv nonneg eat_nonneg (List.length abs) abs bbs Ha Hb)
        as (H1 & H2 & _).
      split; [exact H1|]. split; [exact H2|]. now apply outerLoop_mass.
    + unfold allBlobs, guardedBlobs in H. revert H. apply Forall_impl.
      intros ka Hka. now apply Hka.
  - apply INR_le. rewrite !INR_blobCount.
    apply (engulfPhase_mu (fun l => INR (List.length l)) (fun _ => True)).
    + intros abs bbs _ _. split; [exact I|]. split; [exact I|].
      pose proof (outerLoop_counts (List.length abs) abs bbs (le_n _)) as [C1 C2].
      rewrite <- !plus_INR. apply le_INR. lia.
    + apply Forall_forall. intros; exact I.
  - apply engulfPhase_all; [exact eat_nonneg|exact H].
Qed.

Lemma engulf_creates_nothing_witness :
  totalMass (engulfPhase c7_agents) <= totalMass c7_agents.
Proof.
  apply (proj1 engulf_creates_nothing c7_agents).
  unfold allBlobs, guardedBlobs, c7_agents.
  repeat constructor; unfold nonneg; cbn; lra.
Defined.

(* ------------------------------------------------------------------ *)
(** ** The shape of a room *)

Definition pelletShape (p : Pellet) : Prop :=
  0 <= p_x p < WORLD /\ 0 <= p_y p < WORLD /\ 4 <= p_r p < 9 /\
  (p_v p = 1 \/ p_v p = 2)%Z.

Definition virusShape (v : Virus) : Prop :=
  240 <= v_x v < WORLD - 240 /\ 240 <= v_y v < WORLD - 240 /\ v_r v = 36.

(** A bound [clamp] has stored: [NaN], or a number between the two ends. *)
Definition numWithin (lo hi : R) (v : num) : Prop :=
  v = NaN \/ exists x, v = Fin x /\ lo <= x <= hi.

(** What holds of the room stored under [code] in every state the server
    reaches. *)
Definition roomShape (code : string) (room : Room) : Prop :=
  r_code room = code /\ r_seed room = hashSeed code /\
  numWithin 8 80 (r_maxPlayers room) /\ numWithin 0 120 (r_bots room) /\
  0 <= r_t room /\
  List.length (r_viruses room) = 32%nat /\ Forall virusShape (r_viruses room) /\
  List.length (r_pellets room) = 700%nat /\ Forall pelletShape (r_pellets room) /\
  (forall m, r_maxPlayers room = Fin m -> INR (humans (r_agents room)) < m + 1).

Lemma pelletShape_ok p : pelletShape p -> pelletOk p.
Proof. intros (_ & _ & _ & H). unfold pelletOk. lia. Qed.

Lemma newPellet_shape s : pelletShape (fst (newPellet s)).
Proof.
  unfold newPellet, bind, ret. repeat draw. cbn [fst].
  unfold pelletShape, WORLD; cbn [p_x p_y p_r p_v].
  split; [nra|]. split; [nra|]. split; [nra|].
  assert (H0 : (0 <= Zfloor (v2 * 2))%Z) by (apply Zfloor_lub; cbn; lra).
  assert (H1 : (Zfloor (v2 * 2) < 2)%Z).
  { apply lt_IZR. pose proof (Zfloor_bound (v2 * 2)). lra. }
  lia.
Qed.

Lemma pushPellets_shape : forall n pellets s,
  Forall pelletShape pellets -> Forall pelletShape (fst (pushPellets n pellets s)).
Proof.
  induction n as [|n IH]; intros pellets s H; cbn [pushPellets]; [assumption|].
  unfold bind. pose proof (newPellet_shape s) as Hp.
  destruct (newPellet s) as [p s']. cbn [fst] in Hp.
  apply IH. apply Forall_app. split; [assumption|]. constructor; auto.
Qed.

Lemma pushViruses_shape : forall n viruses s,
  Forall virusShape viruses ->
  Forall virusShape (fst (pushViruses n viruses s)) /\
  List.length (fst (pushViruses n viruses s)) = (n + List.length viruses)%nat.
Proof.
  induction n as [|n IH]; intros viruses s H; cbn [pushViruses].
  - now split.
  - unfold bind.
    assert (Hv : virusShape (fst (newVirus s))).
    { unfold newVirus, bind, ret. repeat draw. cbn [fst].
      unfold virusShape, WORLD; cbn [v_x v_y v_r]. repeat split; nra. }
    destruct (newVirus s) as [v s']. cbn [fst] in Hv.
    destruct (IH (viruses ++ [v]) s') as [H1 H2].
    { apply Forall_app. split; [assumption|]. constructor; auto. }
    split; [exact H1|]. rewrite H2, length_app. cbn [List.length]. lia.
Qed.

(** *** Counting the humans *)

Lemma humans_tag agents agents' :
  map tag agents = map tag agents' -> humans agents = humans agents'.
Proof.
  intros H.
  assert (G : forall l, humans l =
                        List.length (filter (fun t : string * string * bool => negb (snd t))
                                            (map tag l))).
  { intros l. unfold humans. induction l as [|[k a] l IH]; [reflexivity|].
    cbn [filter map tag fst snd]. destruct (negb (a_isBot a)); cbn [List.length];
      [f_equal|]; exact IH. }
  now rewrite !G, H.
Qed.

Lemma humans_filter (f : string * Agent -> bool) agents :
  (humans (filter f agents) <= humans agents)%nat.
Proof.
  unfold humans. induction agents as [|ka l IH]; [cbn; lia|].
  cbn [filter]. destruct (f ka); cbn [filter];
    destruct (negb (a_isBot (snd ka))); cbn [List.length]; lia.
Qed.

Lemma humans_mapSet_le k a agents :
  (humans (mapSet k a agents) <= S (humans agents))%nat.
Proof.
  unfold humans. induction agents as [|[k0 a0] l IH]; cbn [mapSet].
  - cbn [filter snd]. destruct (negb (a_isBot a)); cbn; lia.
  - destruct (String.eqb k0 k); cbn [filter snd];
      destruct (negb (a_isBot a)), (negb (a_isBot a0)); cbn [List.length] in *; lia.
Qed.

Lemma humans_mapSet_same k a a' agents :
  mapGet k agents = Some a -> a_isBot a' = a_isBot a ->
  humans (mapSet k a' agents) = humans agents.
Proof.
  unfold humans. intros Hg Hb.
  induction agents as [|[k0 a0] l IH]; cbn [mapGet mapSet] in *; [discriminate|].
  destruct (String.eqb k0 k).
  - injection Hg as ->. cbn [filter snd]. rewrite Hb.
    now destruct (negb (a_isBot a)).
  - cbn [filter snd]. destruct (negb (a_isBot a0)); cbn [List.length];
      now rewrite IH.
Qed.

Lemma humans_bots agents :
  Forall (fun ka => a_isBot (snd ka) = true) agents -> humans agents = 0%nat.
Proof.
  unfold humans. induction 1 as [|ka l Hb _ IH]; [reflexivity|].
  cbn [filter]. now rewrite Hb.
Qed.

Lemma spawnBots_bots : forall n i code used agents s,
  Forall (fun ka => a_isBot (snd ka) = true) agents ->
  Forall (fun ka => a_isBot (snd ka) = true) (fst (spawnBots n i code used agents s)).
Proof.
  induction n as [|n IH]; intros i code used agents s H; cbn [spawnBots].
  - exact H.
  - unfold bind. draw.
    destruct (pickName 200 used _ s0) as [picked s1].
    match goal with
    | |- context [spawnAgent ?id ?nm true s1] =>
        destruct (spawnAgent_spec id nm true s1) as (_ & _ & Hb & _);
        destruct (spawnAgent id nm true s1) as [a s2]
    end.
    cbn [fst] in Hb. apply IH. apply Forall_mapSet; [|exact H]. intros ?. exact Hb.
Qed.

Lemma inputAgent_isBot a now req : a_isBot (inputAgent a now req) = a_isBot a.
Proof.
  unfold inputAgent. destruct (iq_split req); [|reflexivity].
  unfold split. destruct (nth_error _ _) as [b|]; [|reflexivity].
  now destruct (Rgeb _ _).
Qed.

(** *** The shape is kept *)

Lemma clamp_within v lo hi : lo <= hi -> numWithin lo hi (Num.clamp v (Fin lo) (Fin hi)).
Proof.
  intros H. destruct (Num_clamp_inside v lo hi H) as [[_ E]|[_ (c & E & Hc)]].
  - now left.
  - right. now exists c.
Qed.

Lemma makeRoom_shape code maxPlayers bots e :
  roomShape code (fst (makeRoom code maxPlayers bots e)).
Proof.
  unfold makeRoom, bind, ret.
  pose proof (pushPellets_shape PELLET_TARGET [] (mkSrc (hashSeed code) e)
                (Forall_nil _)) as Hp.
  pose proof (length_pushPellets PELLET_TARGET [] (mkSrc (hashSeed code) e)) as Lp.
  destruct (pushPellets PELLET_TARGET [] (mkSrc (hashSeed code) e)) as [pellets s1].
  destruct (pushViruses_shape VIRUS_COUNT [] s1 (Forall_nil _)) as [Hv Lv].
  destruct (pushViruses VIRUS_COUNT [] s1) as [viruses s2].
  pose proof (spawnBots_bots (botPasses 121 0 (Num.clamp bots (Fin 0) (Fin 120))) 0%Z code [] [] s2
                (Forall_nil _)) as Hb.
  destruct (spawnBots (botPasses 121 0 (Num.clamp bots (Fin 0) (Fin 120))) 0%Z code [] [] s2)
    as [agents s3].
  cbn [fst] in *. unfold roomShape.
  cbn [r_code r_seed r_maxPlayers r_bots r_t r_viruses r_pellets r_agents].
  rewrite (humans_bots agents Hb).
  pose proof (clamp_within maxPlayers 8 80 ltac:(lra)) as Hm.
  pose proof (clamp_within bots 0 120 ltac:(lra)).
  unfold PELLET_TARGET, VIRUS_COUNT in *. cbn [List.length] in *.
  repeat split; try assumption; try lia; try lra.
  intros m Em. destruct Hm as [Hm|(x & Hm & Hx)]; rewrite Hm in Em;
    [discriminate|]. injection Em as <-. cbn [INR]. lra.
Qed.

Lemma tickRoom_shape code room e :
  keyed (r_agents room) -> roomShape code room ->
  roomShape code (fst (tickRoom room e)).
Proof.
  intros Hk (Hc & Hs & Hm & Hb & Ht & Lv & Hv & Lp & Hp & Hh).
  destruct (tickRoom_tags room e Hk) as [Htag _].
  assert (Hh' : (humans (r_agents (fst (tickRoom room e))) <= humans (r_agents room))%nat).
  { rewrite (humans_tag _ _ Htag). apply humans_filter. }
  revert Hh'.
  unfold tickRoom, tickBody, beforeEngulf, bind, ret.
  destruct (dateNow (mkSrc (r_rng room) e)) as [nowMs s0].
  destruct (botPhase _ _ s0) as [agents1 s1].
  assert (Hok : Forall pelletOk (r_pellets room)).
  { revert Hp. apply Forall_impl. exact pelletShape_ok. }
  destruct (eatPhase_spec (movePhase agents1) (r_pellets room) Hok) as (Hsub & _).
  destruct (eatPhase (movePhase agents1) (r_pellets room)) as [agents3 pellets3].
  cbn [snd] in Hsub. unfold refill.
  pose proof (sublist_length _ _ Hsub) as Hlen.
  pose proof (length_pushPellets (PELLET_TARGET - List.length pellets3) pellets3 s1)
    as Lp4.
  pose proof (pushPellets_shape (PELLET_TARGET - List.length pellets3) pellets3 s1
                (sublist_Forall _ _ _ Hsub Hp)) as Hp4.
  destruct (pushPellets _ pellets3 s1) as [pellets4 s2]. cbn [fst] in Lp4, Hp4.
  destruct (virusPhase (r_viruses room) agents3 s2) as [agents5 s3].
  cbn [fst snd].
  destruct (respawnPhase (engulfPhase agents5) s3) as [agents7 s4].
  cbn [fst setRng r_agents]. intros Hh'. unfold roomShape.
  cbn [setRng r_code r_seed r_maxPlayers r_bots r_t r_viruses r_pellets r_agents].
  unfold PELLET_TARGET, DT, TICK_RATE in *.
  repeat split; try assumption; try lia; try lra.
  intros m Em. specialize (Hh m Em). apply le_INR in Hh'. lra.
Qed.

Definition roomsShaped (rooms : Rooms) : Prop :=
  Forall (fun cr => roomShape (fst cr) (snd cr)) rooms.

Lemma Forall_mapSet_key {V} (P : string * V -> Prop) k (v : V) m :
  P (k, v) -> Forall P m -> Forall P (mapSet k v m).
Proof.
  intros Hv. induction m as [|[k0 v0] m IH]; intros H; cbn [mapSet].
  - constructor; auto.
  - inversion H; subst. destruct (String.eqb k0 k) eqn:E.
    + apply String.eqb_eq in E. subst k0. constructor; assumption.
    + constructor; auto.
Qed.

Lemma mapGet_Forall_key {V} (P : string * V -> Prop) k (m : list (string * V)) v :
  Forall P m -> mapGet k m = Some v -> P (k, v).
Proof.
  induction m as [|[k0 v0] m IH]; intros H Hg; cbn in Hg; [discriminate|].
  inversion H; subst. destruct (String.eqb k0 k) eqn:E.
  - apply String.eqb_eq in E. subst k0. now injection Hg as <-.
  - auto.
Qed.

Lemma tickAll_shape : forall rooms e,
  roomsKeyed rooms -> roomsShaped rooms -> roomsShaped (fst (tickAll rooms e)).
Proof.
  induction rooms as [|[c room] rest IH]; intros e Hk H; cbn [tickAll].
  - constructor.
  - inversion H as [|? ? Hr Hrest]; subst. inversion Hk as [|? ? Hkr Hkrest]; subst.
    cbn [fst snd] in Hr, Hkr.
    pose proof (tickRoom_shape c room e Hkr Hr) as Ht.
    destruct (tickRoom room e) as [room' e1]. cbn [fst] in Ht.
    specialize (IH e1 Hkrest Hrest). destruct (tickAll rest e1) as [rest' e2].
    cbn [fst] in *. constructor; assumption.
Qed.

Lemma spawnIn_room room id name isBot e :
  exists seed, snd (fst (spawnIn room id name isBot e)) = setRng seed room.
Proof.
  unfold spawnIn. destruct (spawnAgent id name isBot (mkSrc (r_rng room) e)) as [a s].
  now exists (rngSeed s).
Qed.

Lemma reachable_shape rooms : reachable rooms -> roomsShaped rooms.
Proof.
  induction 1 as [|rooms code maxPlayers bots e Hr IH|rooms base36 req e Hr IH
                  |rooms req e Hr IH|rooms e Hr IH].
  - constructor.
  - unfold postCreate.
    pose proof (makeRoom_shape code maxPlayers bots e) as Hm.
    destruct (makeRoom code maxPlayers bots e) as [room e']. cbn [fst] in *.
    now apply Forall_mapSet_key.
  - unfold postJoin.
    destruct (match jq_id req with EmptyString => _ | _ => _ end) as [id e1].
    destruct (mapGet _ rooms) as [room|] eqn:Er; [|exact IH].
    destruct (Num.leb _ _) eqn:Efull; [exact IH|].
    pose proof (mapGet_Forall_key _ _ _ _ IH Er) as Hs. cbn [fst snd] in Hs.
    destruct (spawnIn_room room id (substring 0 14 (orElse (jq_name req) "Player"))
                           false e1) as [seed Hroom].
    destruct (spawnIn room id _ false e1) as [[a room1] e2]. cbn [fst snd] in *.
    subst room1.
    apply Forall_mapSet_key; [|exact IH]. cbn [fst snd].
    destruct Hs as (Hc & Hs & Hm & Hb & Ht & Lv & Hv & Lp & Hp & Hh).
    unfold roomShape.
    cbn [setAgents setRng r_code r_seed r_maxPlayers r_bots r_t r_viruses r_pellets
         r_agents].
    pose proof (humans_mapSet_le id a (r_agents room)) as Hle.
    repeat split; try assumption.
    intros m Em. rewrite Em in Efull. cbn [Num.leb] in Efull.
    apply Rleb_false in Efull. apply le_INR in Hle. rewrite S_INR in Hle. lra.
  - unfold postInput.
    destruct (mapGet _ rooms) as [room|] eqn:Er; [|exact IH].
    pose proof (mapGet_Forall_key _ _ _ _ IH Er) as Hs. cbn [fst snd] in Hs.
    unfold inputRoom.
    destruct (mapGet (iq_id req) (r_agents room)) as [a|] eqn:Ea; [|exact IH].
    destruct (a_dead a); [exact IH|]. cbn [fst snd].
    apply Forall_mapSet_key; [|exact IH]. cbn [fst snd].
    destruct Hs as (Hc & Hs & Hm & Hb & Ht & Lv & Hv & Lp & Hp & Hh).
    unfold roomShape.
    cbn [setAgents r_code r_seed r_maxPlayers r_bots r_t r_viruses r_pellets r_agents].
    rewrite (humans_mapSet_same _ a _ _ Ea (inputAgent_isBot a _ req)).
    repeat split; assumption.
  - apply tickAll_shape; [now apply reachable_keyed|exact IH].
Qed.

Lemma tickAll_keys : forall rooms e, map fst (fst (tickAll rooms e)) = map fst rooms.
Proof.
  induction rooms as [|[c room] rest IH]; intros e; cbn [tickAll]; [reflexivity|].
  destruct (tickRoom room e) as [room' e1].
  specialize (IH e1). destruct (tickAll rest e1) as [rest' e2].
  cbn [fst map] in *. now rewrite IH.
Qed.

Lemma mapSet_NoDup {V} k (v : V) m :
  NoDup (map fst m) -> NoDup (map fst (mapSet k v m)).
Proof.
  induction m as [|[k0 v0] m IH]; intros Hn; cbn [mapSet].
  - cbn. constructor; [intros []|constructor].
  - cbn [map fst] in Hn. inversion Hn as [|? ? Hnot Hrest]; subst.
    destruct (String.eqb k0 k) eqn:E; cbn [map fst].
    + constructor; assumption.
    + apply String.eqb_neq in E. constructor; [|now apply IH].
      intros Hin. apply mapSet_keys_in in Hin. destruct Hin; [congruence|tauto].
Qed.

Lemma reachable_codes rooms : reachable rooms -> NoDup (map fst rooms).
Proof.
  induction 1 as [|rooms code maxPlayers bots e Hr IH|rooms base36 req e Hr IH
                  |rooms req e Hr IH|rooms e Hr IH].
  - constructor.
  - unfold postCreate. destruct (makeRoom code maxPlayers bots e) as [room e'].
    cbn [fst]. now apply mapSet_NoDup.
  - unfold postJoin.
    destruct (match jq_id req with EmptyString => _ | _ => _ end) as [id e1].
    destruct (mapGet _ rooms) as [room|]; [|exact IH].
    destruct (Num.leb _ _); [exact IH|].
    destruct (spawnIn room id _ false e1) as [[a room1] e2]. cbn [fst snd].
    now apply mapSet_NoDup.
  - unfold postInput. destruct (mapGet _ rooms) as [room|]; [|exact IH].
    destruct (inputRoom room req e) as [[room'|] e']; [|exact IH].
    cbn [fst snd]. now apply mapSet_NoDup.
  - now rewrite tickAll_keys.
Qed.

(** X12.  In every state the server reaches, whatever values [/create] was
    sent, every room is stored under its own code and no two rooms share a
    code; the seed of a room is the hash of its code; [maxPlayers] is [NaN]
    or a number in [8, 80] and the bot bound is [NaN] or a number in
    [0, 120] (neither need be an integer: 8.5 is stored as 8.5); the clock
    of the room is not negative; the room has exactly 32 viruses, of radius
    36 and at least 240 from every edge, and exactly 700 pellets, each inside
    the world, of radius in [4, 9) and of value 1 or 2; and when
    [maxPlayers] is a number [m], the humans of the room are fewer than
    [m + 1], so at most [m] when [m] is an integer.  A room whose
    [maxPlayers] is [NaN] has no such bound. *)
Theorem room_shape (rooms : Rooms) :
  reachable rooms ->
  NoDup (map fst rooms) /\
  (forall code room, In (code, room) rooms -> roomShape code room) /\
  (forall code room (m : Z), In (code, room) rooms ->
     r_maxPlayers room = Fin (IZR m) ->
     (8 <= m <= 80)%Z /\ (Z.of_nat (humans (r_agents room)) <= m)%Z).
Proof.
  intros Hreach. split; [now apply reachable_codes|].
  assert (G : forall code room, In (code, room) rooms -> roomShape code room).
  { intros code room Hin. pose proof (reachable_shape rooms Hreach) as H.
    unfold roomsShaped in H. rewrite Forall_forall in H. exact (H _ Hin). }
  split; [exact G|].
  intros code room m Hin Em.
  destruct (G code room Hin) as (_ & _ & Hm & _ & _ & _ & _ & _ & _ & Hh).
  specialize (Hh _ Em). rewrite Em in Hm.
  destruct Hm as [Hm|(x & Hm & Hx)]; [discriminate|]. injection Hm as <-.
  rewrite INR_IZR_INZ, <- plus_IZR in Hh. apply lt_IZR in Hh.
  split; [split; apply le_IZR; lra|lia].
Qed.

Lemma room_shape_witness :
  let e := mkEnv (fun _ => 0) 0 (fun _ => 0) 0 in
  roomShape "ABC" (fst (makeRoom "ABC" (Fin 60) (Fin 1) e)).
Proof.
  intros e.
  apply (proj1 (proj2 (room_shape (fst (postCreate [] "ABC" (Fin 60) (Fin 1) e))
                           (reach_create [] "ABC"%string (Fin 60) (Fin 1) e
                                         reach_start)))).
  apply postCreate_In.
Defined.

(* ------------------------------------------------------------------ *)
(** ** The bots of a new room *)

(** The identity [makeRoom] gives to bot number [i] (line 734). *)
Definition botId (i : Z) (code : string) : string :=
  ("bot_" ++ decimal i ++ "_" ++ code)%string.

Lemma decimal_inj z z' : decimal z = decimal z' -> z = z'.
Proof.
  unfold decimal. intros H. apply DecimalZ.to_int_inj.
  assert (G : forall z, NilZero.int_of_string (NilZero.string_of_int (Z.to_int z))
                        = Some (Z.to_int z)).
  { intros x. apply NilZero.isi; destruct x; cbn; try discriminate;
      intros [= E]; exact (DecimalPos.Unsigned.to_uint_nonnil _ E). }
  apply (f_equal NilZero.int_of_string) in H. rewrite !G in H. now injection H.
Qed.

Lemma length_append s1 s2 :
  String.length (s1 ++ s2) = (String.length s1 + String.length s2)%nat.
Proof. induction s1 as [|c s1 IH]; cbn; [reflexivity|now rewrite IH]. Qed.

Lemma append_cancel_r t : forall s1 s2, (s1 ++ t = s2 ++ t)%string -> s1 = s2.
Proof.
  induction s1 as [|c s1 IH]; intros [|c2 s2] H; cbn in H.
  - reflexivity.
  - exfalso. apply (f_equal String.length) in H. cbn in H.
    rewrite length_append in H. lia.
  - exfalso. apply (f_equal String.length) in H. cbn in H.
    rewrite length_append in H. lia.
  - injection H as -> H. f_equal. now apply IH.
Qed.

Lemma botId_inj i j code : botId i code = botId j code -> i = j.
Proof.
  unfold botId. intros H. cbn [append] in H. injection H as H.
  apply decimal_inj.
  now apply (append_cancel_r ("_" ++ code)).
Qed.

Lemma existsb_eqb_false c (used : list string) :
  existsb (String.eqb c) used = false <-> ~ In c used.
Proof.
  induction used as [|u used IH]; cbn; [tauto|].
  rewrite orb_false_iff, IH, String.eqb_neq. intuition congruence.
Qed.

Lemma botName_index v : 0 <= v < 1 ->
  In (nth (Z.to_nat (Zfloor (v * INR (List.length BOT_NAMES)))) BOT_NAMES ""%string)
     BOT_NAMES.
Proof.
  intros Hv. apply nth_In.
  replace (INR (List.length BOT_NAMES)) with 48 by (cbn; lra).
  change (List.length BOT_NAMES) with 48%nat.
  assert (H0 : (0 <= Zfloor (v * 48))%Z) by (apply Zfloor_lub; cbn; lra).
  assert (H1 : (Zfloor (v * 48) < 48)%Z).
  { apply lt_IZR. pose proof (Zfloor_bound (v * 48)). lra. }
  lia.
Qed.

(** The [tries] loop (line 730) returns the fallback name and leaves [used]
    alone, or returns a name of [BOT_NAMES] that was not used and adds it. *)
Lemma pickName_spec : forall tries used nm s,
  fst (pickName tries used nm s) = (nm, used) \/
  exists c, In c BOT_NAMES /\ ~ In c used /\
            fst (pickName tries used nm s) = (c, c :: used).
Proof.
  induction tries as [|tries IH]; intros used nm s; cbn [pickName].
  - now left.
  - unfold bind. draw.
    destruct (existsb _ used) eqn:Eu.
    + apply IH.
    + right. eexists. split; [now apply botName_index|].
      split; [now apply existsb_eqb_false|reflexivity].
Qed.

Definition inNames (nm : string) : bool := existsb (String.eqb nm) BOT_NAMES.

Lemma inNames_spec nm : inNames nm = true <-> In nm BOT_NAMES.
Proof.
  unfold inNames. rewrite existsb_exists. split.
  - intros [x [Hx E]]. apply String.eqb_eq in E. now subst.
  - intros H. exists nm. split; [assumption|apply String.eqb_refl].
Qed.

Lemma fallback_not_name d : inNames ("Bot" ++ d) = false.
Proof.
  destruct (inNames ("Bot" ++ d)) eqn:E; [|reflexivity].
  apply inNames_spec in E. exfalso. cbn in E.
  repeat (destruct E as [E|E]; [discriminate|]). exact E.
Qed.

(** An entry that the bot loop adds: a living bot under its own identity,
    at rest, with one fresh blob, named after [BOT_NAMES] or ["Bot" + n]
    with [100 <= n <= 999]. *)
Definition botEntry (ka : string * Agent) : Prop :=
  let a := snd ka in
  a_id a = fst ka /\ a_isBot a = true /\ a_dead a = false /\
  (exists b, a_blobs a = [b] /\ freshBlob true b) /\
  (In (a_name a) BOT_NAMES \/
   exists n, (100 <= n <= 999)%Z /\ a_name a = ("Bot" ++ decimal n)%string).

Definition nameOf (ka : string * Agent) : string := a_name (snd ka).

Lemma mapGet_notin {V} k (m : list (string * V)) :
  ~ In k (map fst m) -> mapGet k m = None.
Proof.
  induction m as [|[k0 v0] m IH]; cbn; [reflexivity|]. intros H.
  destruct (String.eqb k0 k) eqn:E.
  - apply String.eqb_eq in E. tauto.
  - apply IH. tauto.
Qed.

Lemma spawnBots_spec code : forall n i used agents s,
  (0 <= i)%Z ->
  (forall k, In k (map fst agents) -> exists j, (0 <= j < i)%Z /\ k = botId j code) ->
  NoDup used ->
  exists L,
    fst (spawnBots n i code used agents s) = agents ++ L /\
    map fst L = map (fun j => botId (i + Z.of_nat j) code) (seq 0 n) /\
    Forall botEntry L /\
    NoDup (filter inNames (map nameOf L)) /\
    (forall nm, In nm (filter inNames (map nameOf L)) -> ~ In nm used).
Proof.
  induction n as [|n IH]; intros i used agents s Hi Hkeys Hused; cbn [spawnBots].
  - exists []. rewrite app_nil_r. cbn. repeat split; try constructor. intros nm [].
  - unfold bind. draw.
    set (nm0 := ("Bot" ++ decimal (Zfloor (v * 900 + 100)))%string).
    assert (Hn0 : (100 <= Zfloor (v * 900 + 100) <= 999)%Z).
    { split; [apply Zfloor_lub; cbn; lra|].
      assert (Zfloor (v * 900 + 100) < 1000)%Z; [|lia].
      apply lt_IZR. pose proof (Zfloor_bound (v * 900 + 100)). lra. }
    pose proof (pickName_spec 200 used nm0 s0) as Hpick.
    destruct (pickName 200 used nm0 s0) as [picked s1]. cbn [fst] in Hpick.
    fold (botId i code).
    pose proof (spawnAgent_spec (botId i code) (fst picked) true s1) as Hsp.
    cbn zeta in Hsp.
    destruct (spawnAgent (botId i code) (fst picked) true s1) as [a s2].
    cbn [fst] in Hsp. destruct Hsp as (Hid & Hname & Hbot & Hdead & _ & _ & _ & Hblob).
    assert (Hfresh : mapSet (botId i code) a agents = agents ++ [(botId i code, a)]).
    { apply mapSet_absent. apply mapGet_notin. intros Hin.
      destruct (Hkeys _ Hin) as (j & Hj & Ej). apply botId_inj in Ej. lia. }
    rewrite Hfresh.
    assert (Hused1 : NoDup (snd picked)).
    { destruct Hpick as [->|(c & _ & Hc & ->)]; cbn [snd]; [assumption|].
      now constructor. }
    destruct (IH (i + 1)%Z (snd picked) (agents ++ [(botId i code, a)]) s2)
      as (L & HL & Hk & Hf & Hnd & Hnot); [lia| |exact Hused1|].
    { intros k Hin. rewrite map_app in Hin. apply in_app_or in Hin.
      destruct Hin as [Hin|[<-|[]]].
      - destruct (Hkeys _ Hin) as (j & Hj & Ej). exists j. split; [lia|exact Ej].
      - exists i. split; [lia|reflexivity]. }
    exists ((botId i code, a) :: L).
    split; [rewrite HL, <- app_assoc; reflexivity|]. split.
    { cbn [map seq fst]. rewrite <- seq_shift, map_map, Hk. f_equal.
      - f_equal. cbn. lia.
      - apply map_ext. intros j. f_equal. lia. }
    split.
    { constructor; [|exact Hf]. unfold botEntry. cbn [fst snd].
      repeat (split; [assumption|]). rewrite Hname.
      destruct Hpick as [->|(c & Hc & _ & ->)]; cbn [fst].
      - right. exists (Zfloor (v * 900 + 100)). now split.
      - now left. }
    cbn [map filter]. change (nameOf (botId i code, a)) with (a_name a).
    rewrite Hname.
    destruct Hpick as [->|(c & Hc & Hcu & ->)]; cbn [fst snd] in *.
    + unfold nm0. rewrite fallback_not_name. split; [exact Hnd|exact Hnot].
    + apply inNames_spec in Hc. rewrite Hc. split.
      * constructor; [|exact Hnd]. intros Hin. apply (Hnot c Hin). now left.
      * intros nm [<-|Hin]; [exact Hcu|].
        intros Hu. apply (Hnot nm Hin). now right.
Qed.

Lemma clamp_IZR (k lo hi : Z) :
  clamp (IZR k) (IZR lo) (IZR hi) = IZR (Z.max lo (Z.min hi k)).
Proof.
  unfold clamp.
  assert (Hmin : Rmin (IZR hi) (IZR k) = IZR (Z.min hi k)).
  { destruct (Z.le_ge_cases hi k) as [H|H].
    - rewrite Z.min_l by exact H. apply Rmin_left. now apply IZR_le.
    - rewrite Z.min_r by exact H. apply Rmin_right. now apply IZR_le. }
  rewrite Hmin.
  destruct (Z.le_ge_cases lo (Z.min hi k)) as [H|H].
  - rewrite Z.max_r by exact H. apply Rmax_right. now apply IZR_le.
  - rewrite Z.max_l by exact H. apply Rmax_left. now apply IZR_le.
Qed.

(** X13.  [makeRoom] stores [clamp(bots, 0, 120)] as the bot bound of the
    room, whatever value [bots] is, and its loop
    [for (let i = 0; i < room.bots; i++)] creates one agent for every
    natural number below that bound: as many as the least integer that is
    not below [clamp(bots, 0, 120)] when [bots] is a finite number (3 for
    2.5), 120 for [Infinity], none for [-Infinity] and for [NaN]; for an
    integer [k] these are [max(0, min(120, k))] agents.  Bot number [i] is
    stored, in this order, under the identity ["bot_" + i + "_" + code];
    each is a living bot at rest with one fresh blob, named after
    [BOT_NAMES] or, failing 200 draws of an unused name, ["Bot" + n] with
    [100 <= n <= 999]; no two bots share a name of [BOT_NAMES]. *)
Theorem makeRoom_bots (code : string) (maxPlayers bots : num) (e : Env) :
  let room := fst (makeRoom code maxPlayers bots e) in
  let n := match bots with
           | Fin b => Z.to_nat (Zceil (clamp b 0 120))
           | PInf => 120%nat
           | NInf | NaN => 0%nat
           end in
  r_bots room = Num.clamp bots (Fin 0) (Fin 120) /\
  (forall k : Z, bots = Fin (IZR k) ->
     r_bots room = Fin (IZR (Z.max 0 (Z.min 120 k))) /\
     n = Z.to_nat (Z.max 0 (Z.min 120 k))) /\
  List.length (r_agents room) = n /\
  map fst (r_agents room) = map (fun j => botId (Z.of_nat j) code) (seq 0 n) /\
  Forall botEntry (r_agents room) /\
  NoDup (filter inNames (map nameOf (r_agents room))).
Proof.
  cbv zeta. rewrite <- (botPasses_clamp bots).
  unfold makeRoom, bind, ret.
  destruct (pushPellets PELLET_TARGET [] (mkSrc (hashSeed code) e)) as [pellets s1].
  destruct (pushViruses VIRUS_COUNT [] s1) as [viruses s2].
  destruct (spawnBots_spec code (botPasses 121 0 (Num.clamp bots (Fin 0) (Fin 120))) 0%Z [] [] s2)
    as (L & HL & Hk & Hf & Hnd & _); [lia|intros k []|constructor|].
  destruct (spawnBots (botPasses 121 0 (Num.clamp bots (Fin 0) (Fin 120))) 0%Z code [] [] s2)
    as [agents s3].
  cbn [fst app] in *. subst agents. cbn [r_bots r_agents].
  split; [reflexivity|]. split.
  { intros k ->. rewrite botPasses_clamp, Num_clamp_Fin, (clamp_IZR k 0 120).
    now rewrite Zceil_IZR. }
  split.
  - rewrite <- (length_map fst), Hk, length_map, length_seq. reflexivity.
  - split; [exact Hk|]. split; [exact Hf|exact Hnd].
Qed.

(* ------------------------------------------------------------------ *)
(** ** [makeCode] and [app.post("/create")] (lines 592-597 and 923-932) *)

Definition codeChars : string := "ABCDEFGHJKLMNPQRSTUVWXYZ23456789".

(** [chars[Math.floor(u * chars.length)]] as [s += ...] appends it: an index
    outside the string reads [undefined], appended as the text "undefined". *)
Definition codeChar (u : R) : string :=
  let i := Zfloor (u * INR (String.length codeChars)) in
  if (0 <=? i)%Z && (i <? Z.of_nat (String.length codeChars))%Z then
    match String.get (Z.to_nat i) codeChars with
    | Some c => String c ""
    | None => "undefined"
    end
  else "undefined".

(** [Math.random()] outside a room *)
Definition randomE (e : Env) : R * Env :=
  (mathRandomAt e (mrIdx e),
   mkEnv (mathRandomAt e) (S (mrIdx e)) (dateNowAt e) (clkIdx e)).

(** [for (let i = 0; i < 6; i++) s += chars[...]], [n] rounds to go. *)
Fixpoint makeCodeLoop (n : nat) (s : string) (e : Env) : string * Env :=
  match n with
  | O => (s, e)
  | S n' => let (u, e1) := randomE e in makeCodeLoop n' (s ++ codeChar u) e1
  end.

(** [function makeCode()] *)
Definition makeCode (e : Env) : string * Env := makeCodeLoop 6 "" e.

(** [while (rooms.has(code)) code = makeCode();] with at most [fuel] further
    draws: [None] when every code tried is taken. *)
Fixpoint freshCode (fuel : nat) (rooms : Rooms) (code : string) (e : Env)
  : option (string * Env) :=
  match mapGet code rooms with
  | None => Some (code, e)
  | Some _ =>
      match fuel with
      | O => None
      | S fuel' => let (c, e1) := makeCode e in freshCode fuel' rooms c e1
      end
  end.

(** The fields [maxPlayers] and [bots] of the body: [None] for a field
    that is absent or [null], and otherwise the number that [Math.min]
    makes of its value, [NaN] for a value that is no number.  Nothing
    checks that the value is an integer, or a number at all. *)
Record CreateReq := mkCreateReq { cq_maxPlayers : option num; cq_bots : option num }.

(** [v ?? d] *)
Definition nullish (v : option num) (d : num) : num :=
  match v with Some z => z | None => d end.

(** The handler: the code it answers with, and the rooms after it. *)
Definition createHandler (fuel : nat) (rooms : Rooms) (req : CreateReq) (e : Env)
  : option (string * Rooms * Env) :=
  let (code0, e0) := makeCode e in
  match freshCode fuel rooms code0 e0 with
  | None => None
  | Some (code, e1) =>
      let maxPlayers := nullish (cq_maxPlayers req) (Fin 60) in
      let bots := nullish (cq_bots req) (Fin BOT_DEFAULT) in
      let (rooms', e2) := postCreate rooms code maxPlayers bots e1 in
      Some (code, rooms', e2)
  end.

(** The environment after [n] more draws of [Math.random]. *)
Definition skipRandom (n : nat) (e : Env) : Env :=
  mkEnv (mathRandomAt e) (n + mrIdx e) (dateNowAt e) (clkIdx e).

(** [Math.random] returns numbers of [0, 1). *)
Definition unitDraws (e : Env) : Prop := forall n, 0 <= mathRandomAt e n < 1.

Definition codeText (s : string) : Prop :=
  Forall (fun c => In c (list_ascii_of_string codeChars)) (list_ascii_of_string s).

Lemma get_nth_error s : forall n, String.get n s = nth_error (list_ascii_of_string s) n.
Proof.
  induction s as [|c s IH]; intros [|n]; cbn; auto.
Qed.

Lemma list_ascii_app s1 s2 :
  list_ascii_of_string (s1 ++ s2)
  = (list_ascii_of_string s1 ++ list_ascii_of_string s2)%list.
Proof. induction s1 as [|c s1 IH]; cbn; [reflexivity|now rewrite IH]. Qed.

Lemma codeChar_unit u :
  0 <= u < 1 -> exists c, codeChar u = String c "" /\
                          In c (list_ascii_of_string codeChars).
Proof.
  intros Hu. unfold codeChar.
  change (String.length codeChars) with 32%nat.
  replace (INR 32) with 32 by (cbn; lra).
  assert (H0 : (0 <= Zfloor (u * 32))%Z) by (apply Zfloor_lub; cbn; lra).
  assert (H1 : (Zfloor (u * 32) < 32)%Z).
  { apply lt_IZR. pose proof (Zfloor_bound (u * 32)). lra. }
  destruct (Z.leb_spec 0 (Zfloor (u * 32))); [|lia].
  destruct (Z.ltb_spec (Zfloor (u * 32)) (Z.of_nat 32)); [|lia]. cbn [andb].
  rewrite get_nth_error.
  destruct (nth_error (list_ascii_of_string codeChars) (Z.to_nat (Zfloor (u * 32))))
    as [c|] eqn:E.
  - exists c. split; [reflexivity|]. exact (nth_error_In _ _ E).
  - apply nth_error_None in E. change (List.length _) with 32%nat in E. lia.
Qed.

Lemma makeCodeLoop_spec : forall n s e,
  unitDraws e ->
  exists w,
    fst (makeCodeLoop n s e) = (s ++ w)%string /\ String.length w = n /\ codeText w /\
    snd (makeCodeLoop n s e) = skipRandom n e.
Proof.
  induction n as [|n IH]; intros s e He; cbn [makeCodeLoop].
  - exists ""%string. cbn [fst snd]. split.
    + clear. induction s as [|c s IHs]; cbn; [reflexivity|now rewrite <- IHs].
    + split; [reflexivity|]. split; [constructor|]. now destruct e.
  - unfold randomE.
    destruct (codeChar_unit (mathRandomAt e (mrIdx e)) (He _)) as (c & Hc & Hin).
    rewrite Hc.
    destruct (IH (s ++ String c "")%string
                 (mkEnv (mathRandomAt e) (S (mrIdx e)) (dateNowAt e) (clkIdx e)))
      as (w & H1 & H2 & H3 & H4); [exact He|].
    exists (String c w). rewrite H1, H4. split.
    + clear. induction s as [|c0 s IHs]; cbn; [reflexivity|now rewrite IHs].
    + split; [cbn; now rewrite H2|]. split; [now constructor|].
      unfold skipRandom. cbn [mathRandomAt mrIdx dateNowAt clkIdx]. f_equal. lia.
Qed.

Lemma toUpperCase_code s : codeText s -> toUpperCase s = s.
Proof.
  unfold codeText. induction s as [|c s IH]; cbn [list_ascii_of_string toUpperCase];
    [reflexivity|].
  intros H. inversion H as [|? ? Hc Hs]; subst. rewrite (IH Hs). f_equal.
  cbn in Hc.
  repeat (destruct Hc as [<-|Hc]; [reflexivity|]). destruct Hc.
Qed.

Lemma makeCode_spec e :
  unitDraws e ->
  String.length (fst (makeCode e)) = 6%nat /\ codeText (fst (makeCode e)) /\
  toUpperCase (fst (makeCode e)) = fst (makeCode e) /\
  snd (makeCode e) = skipRandom 6 e.
Proof.
  intros He. unfold makeCode.
  destruct (makeCodeLoop_spec 6 "" e He) as (w & H1 & H2 & H3 & H4).
  rewrite H1, H4. cbn [append].
  split; [exact H2|]. split; [exact H3|]. split; [now apply toUpperCase_code|reflexivity].
Qed.

(** The code of the [k]-th call of [makeCode] from [e]. *)
Definition drawnCode (k : nat) (e : Env) : string := fst (makeCode (skipRandom (6 * k) e)).

Lemma skipRandom_add n m e : skipRandom n (skipRandom m e) = skipRandom (n + m) e.
Proof. unfold skipRandom. cbn. f_equal. lia. Qed.

Lemma unitDraws_skip n e : unitDraws e -> unitDraws (skipRandom n e).
Proof. intros H k. exact (H k). Qed.

Lemma freshCode_spec rooms : forall fuel k e,
  unitDraws e ->
  (freshCode fuel rooms (drawnCode k e) (skipRandom (6 * S k) e) = None <->
   forall j, (k <= j <= k + fuel)%nat -> mapGet (drawnCode j e) rooms <> None) /\
  (forall code e1,
      freshCode fuel rooms (drawnCode k e) (skipRandom (6 * S k) e) = Some (code, e1) ->
      exists j, (k <= j <= k + fuel)%nat /\ code = drawnCode j e /\
                e1 = skipRandom (6 * S j) e /\ mapGet code rooms = None /\
                forall i, (k <= i < j)%nat -> mapGet (drawnCode i e) rooms <> None).
Proof.
  induction fuel as [|fuel IH]; intros k e He; cbn [freshCode].
  - destruct (mapGet (drawnCode k e) rooms) as [room|] eqn:Eg.
    + split.
      * split; [|reflexivity]. intros _ j Hj. assert (j = k) by lia. subst j.
        congruence.
      * intros code e1 [=].
    + split.
      * split; [discriminate|]. intros H. exfalso. apply (H k); [lia|exact Eg].
      * intros code e1 [= <- <-]. exists k. split; [lia|]. split; [reflexivity|].
        split; [reflexivity|]. split; [exact Eg|]. intros i Hi. lia.
  - destruct (mapGet (drawnCode k e) rooms) as [room|] eqn:Eg.
    + destruct (makeCode_spec (skipRandom (6 * S k) e) (unitDraws_skip _ _ He))
        as (_ & _ & _ & Hs).
      fold (drawnCode (S k) e).
      destruct (makeCode (skipRandom (6 * S k) e)) as [c e1] eqn:Em.
      assert (Hc : c = drawnCode (S k) e) by (unfold drawnCode; now rewrite Em).
      cbn [snd] in Hs. rewrite skipRandom_add in Hs.
      replace (6 + 6 * S k)%nat with (6 * S (S k))%nat in Hs by lia.
      subst c e1. destruct (IH (S k) e He) as [I1 I2]. split.
      * rewrite I1. split; intros H j Hj.
        -- destruct (Nat.eq_dec j k) as [->|Hne]; [congruence|]. apply H. lia.
        -- apply H. lia.
      * intros code e1 Hf. destruct (I2 code e1 Hf) as (j & Hj & H1 & H2 & H3 & H4).
        exists j. split; [lia|]. repeat (split; [assumption|]).
        intros i Hi. destruct (Nat.eq_dec i k) as [->|Hne]; [congruence|].
        apply H4. lia.
    + split.
      * split; [discriminate|]. intros H. exfalso. apply (H k); [lia|exact Eg].
      * intros code e1 [= <- <-]. exists k. split; [lia|]. split; [reflexivity|].
        split; [reflexivity|]. split; [exact Eg|]. intros i Hi. lia.
Qed.

Lemma skipRandom_0 e : skipRandom 0 e = e.
Proof. now destruct e. Qed.

Lemma makeRoom_fields code maxPlayers bots e :
  let room := fst (makeRoom code maxPlayers bots e) in
  r_maxPlayers room = Num.clamp maxPlayers (Fin 8) (Fin 80) /\
  r_bots room = Num.clamp bots (Fin 0) (Fin 120) /\
  r_t room = 0.
Proof.
  unfold makeRoom.
  destruct ((pellets <- pushPellets PELLET_TARGET [] ;; _) (mkSrc (hashSeed code) e))
    as [[[pellets viruses] agents] s1].
  cbn. now repeat split.
Qed.

Lemma postCreate_spec rooms code maxPlayers bots e :
  fst (postCreate rooms code maxPlayers bots e)
  = mapSet code (fst (makeRoom code maxPlayers bots e)) rooms.
Proof.
  unfold postCreate. now destruct (makeRoom code maxPlayers bots e).
Qed.

Lemma createHandler_none fuel rooms req e :
  createHandler fuel rooms req e = None <->
  freshCode fuel rooms (fst (makeCode e)) (snd (makeCode e)) = None.
Proof.
  unfold createHandler. destruct (makeCode e) as [code0 e0]. cbn [fst snd].
  destruct (freshCode fuel rooms code0 e0) as [[code e1]|]; [|tauto].
  destruct (postCreate rooms code _ _ e1). split; discriminate.
Qed.

Lemma createHandler_some fuel rooms req e code rooms' e' :
  createHandler fuel rooms req e = Some (code, rooms', e') ->
  exists e1,
    freshCode fuel rooms (fst (makeCode e)) (snd (makeCode e)) = Some (code, e1) /\
    rooms' = fst (postCreate rooms code (nullish (cq_maxPlayers req) (Fin 60))
                             (nullish (cq_bots req) (Fin 45)) e1) /\
    e' = snd (postCreate rooms code (nullish (cq_maxPlayers req) (Fin 60))
                         (nullish (cq_bots req) (Fin 45)) e1).
Proof.
  unfold createHandler. destruct (makeCode e) as [code0 e0]. cbn [fst snd].
  destruct (freshCode fuel rooms code0 e0) as [[c e1]|]; [|discriminate].
  cbv zeta. unfold BOT_DEFAULT.
  destruct (postCreate rooms c (nullish (cq_maxPlayers req) (Fin 60))
                       (nullish (cq_bots req) (Fin 45)) e1) as [r e2] eqn:Ep.
  intros Hres. injection Hres as Hc Hr He'. subst c r e2.
  exists e1. rewrite Ep. repeat split.
Qed.

(** X14.  [makeCode] and the [/create] handler, for a [Math.random] that
    returns numbers of [0, 1).  The handler fails to answer within [fuel]
    further draws only when each of the first [fuel + 1] codes drawn is the
    code of a room.  Otherwise it answers with the first drawn code that is
    free: six characters of the 32-character alphabet, which upper-casing
    leaves unchanged.  The new room is stored under that code, with
    [clamp(maxPlayers, 8, 80)] and [clamp(bots, 0, 120)] of the values of
    the request, whatever they are (60 players and 45 bots when a field is
    absent, and then exactly those; [NaN] for a value that is no number;
    8.5 players for 8.5), at clock 0, and with the shape of every room;
    every other room is left as it was. *)
Theorem create_room (fuel : nat) (rooms : Rooms) (req : CreateReq) (e : Env) :
  unitDraws e ->
  (createHandler fuel rooms req e = None <->
   forall j, (j <= fuel)%nat -> mapGet (drawnCode j e) rooms <> None) /\
  (forall code rooms' e',
      createHandler fuel rooms req e = Some (code, rooms', e') ->
      String.length code = 6%nat /\ codeText code /\ toUpperCase code = code /\
      mapGet code rooms = None /\
      (exists j, (j <= fuel)%nat /\ code = drawnCode j e /\
                 forall i, (i < j)%nat -> mapGet (drawnCode i e) rooms <> None) /\
      (exists room,
          mapGet code rooms' = Some room /\ roomShape code room /\
          r_maxPlayers room
          = Num.clamp (nullish (cq_maxPlayers req) (Fin 60)) (Fin 8) (Fin 80) /\
          r_bots room
          = Num.clamp (nullish (cq_bots req) (Fin 45)) (Fin 0) (Fin 120) /\
          (cq_maxPlayers req = None -> r_maxPlayers room = Fin 60) /\
          (cq_bots req = None -> r_bots room = Fin 45) /\
          (cq_maxPlayers req = Some NaN -> r_maxPlayers room = NaN) /\
          (cq_bots req = Some NaN -> r_bots room = NaN) /\
          (cq_maxPlayers req = Some (Fin (17 / 2)) ->
           r_maxPlayers room = Fin (17 / 2)) /\
          r_t room = 0) /\
      (forall c, c <> code -> mapGet c rooms' = mapGet c rooms)).
Proof.
  intros He.
  destruct (makeCode_spec e He) as (_ & _ & _ & Hs).
  assert (Hc0 : fst (makeCode e) = drawnCode 0 e).
  { unfold drawnCode. cbn [Nat.mul]. now rewrite skipRandom_0. }
  destruct (freshCode_spec rooms fuel 0 e He) as [F1 F2].
  replace (6 * 1)%nat with 6%nat in F1, F2 by lia.
  rewrite <- Hc0, <- Hs in F1, F2.
  split.
  - rewrite createHandler_none, F1. split; intros H j Hj; apply H; lia.
  - intros code rooms' e' Hres.
    destruct (createHandler_some _ _ _ _ _ _ _ Hres) as (e1 & Hf & -> & _).
    destruct (F2 code e1 Hf) as (j & Hj & Hcode & He1 & Hfree & Htaken).
    destruct (makeCode_spec (skipRandom (6 * j) e) (unitDraws_skip _ _ He))
      as (L & T & U & _).
    fold (drawnCode j e) in L, T, U. rewrite <- Hcode in L, T, U.
    split; [exact L|]. split; [exact T|]. split; [exact U|]. split; [exact Hfree|].
    split.
    { exists j. split; [lia|]. split; [exact Hcode|]. intros i Hi. apply Htaken. lia. }
    rewrite postCreate_spec. split.
    { eexists. split; [apply mapGet_mapSet_same|]. split; [apply makeRoom_shape|].
      destruct (makeRoom_fields code (nullish (cq_maxPlayers req) (Fin 60))
                                (nullish (cq_bots req) (Fin 45)) e1)
        as (Hm & Hb & Ht).
      split; [exact Hm|]. split; [exact Hb|].
      split; [intros E; rewrite Hm, E; cbn [nullish]; rewrite Num_clamp_Fin;
              f_equal; apply clamp_id; lra|].
      split; [intros E; rewrite Hb, E; cbn [nullish]; rewrite Num_clamp_Fin;
              f_equal; apply clamp_id; lra|].
      split; [intros E; now rewrite Hm, E|].
      split; [intros E; now rewrite Hb, E|].
      split; [intros E; rewrite Hm, E; cbn [nullish]; rewrite Num_clamp_Fin;
              f_equal; apply clamp_id; lra|].
      exact Ht. }
    intros c Hc. now apply mapGet_mapSet_other.
Qed.

Lemma create_room_witness :
  createHandler 0 [] (mkCreateReq None None) (mkEnv (fun _ => 0) 0 (fun _ => 0) 0) = None <->
  forall j, (j <= 0)%nat ->
            mapGet (drawnCode j (mkEnv (fun _ => 0) 0 (fun _ => 0) 0)) (@nil (string * Room))
            <> None.
Proof.
  assert (He : unitDraws (mkEnv (fun _ => 0) 0 (fun _ => 0) 0))
    by (intros n; cbn [mathRandomAt]; lra).
  exact (proj1 (create_room 0 [] (mkCreateReq None None)
                            (mkEnv (fun _ => 0) 0 (fun _ => 0) 0) He)).
Defined.

(* ------------------------------------------------------------------ *)
(** ** [app.get("/state")] (lines 996-1024) *)

(** An entry of the leaderboard, [{ id, name, mass }]. *)
Record Entry := mkEntry { le_id : string; le_name : string; le_mass : Z }.

(** A blob as the snapshot shows it, [{ x, y, r }]. *)
Record BlobView := mkBlobView { bv_x : R; bv_y : R; bv_r : R }.

Record Player := mkPlayer {
  pl_id : string; pl_name : string; pl_col : Color;
  pl_blobs : list BlobView; pl_mass : Z
}.

Record Snapshot := mkSnapshot {
  sn_t : R; sn_world : R;
  sn_pellets : list Pellet; sn_viruses : list Virus;
  sn_players : list Player; sn_leaderboard : list Entry
}.

(** [Array.from(room.agents.values()).filter(a => !a.dead)] *)
Definition living (agents : AgentMap) : list Agent :=
  filter (fun a => negb (a_dead a)) (map snd agents).

Definition entryOf (a : Agent) : Entry :=
  mkEntry (a_id a) (a_name a) (Zfloor (agentMass a)).

Definition viewOf (b : Blob) : BlobView := mkBlobView (b_x b) (b_y b) (b_r b).

Definition playerOf (a : Agent) : Player :=
  mkPlayer (a_id a) (a_name a) (a_col a) (map viewOf (a_blobs a))
           (Zfloor (agentMass a)).

(** [.sort((a, b) => b.mass - a.mass)].  The masses are integers, so the
    comparison is consistent, and [Array.prototype.sort] is stable: the
    result is the one list with the entries of the array, by decreasing
    mass, entries of equal mass in the order of the array.  It is computed
    here by insertion from the right, [x] going before the first entry
    that is not heavier. *)
Fixpoint insertEntry (x : Entry) (l : list Entry) : list Entry :=
  match l with
  | [] => [x]
  | y :: l' =>
      if (le_mass y <=? le_mass x)%Z then x :: l else y :: insertEntry x l'
  end.

Definition sortByMass (l : list Entry) : list Entry := fold_right insertEntry [] l.

(** [.slice(0, 10)] *)
Definition leaderboard (agents : AgentMap) : list Entry :=
  firstn 10 (sortByMass (map entryOf (living agents))).

(** The handler; [None] is the answer [{ ok: false, error: "Room not found" }]. *)
Definition getState (rooms : Rooms) (code : string) : option Snapshot :=
  match mapGet (toUpperCase (orElse code "")) rooms with
  | None => None
  | Some room =>
      Some (mkSnapshot (r_t room) WORLD (r_pellets room) (r_viruses room)
                       (map playerOf (living (r_agents room)))
                       (leaderboard (r_agents room)))
  end.

(** [a] is not lighter than [b]. *)
Definition notLighter (a b : Entry) : Prop := (le_mass b <= le_mass a)%Z.

Definition massIs (m : Z) (x : Entry) : bool := (le_mass x =? m)%Z.

Lemma insertEntry_perm x l : Permutation (insertEntry x l) (x :: l).
Proof.
  induction l as [|y l IH]; cbn [insertEntry]; [reflexivity|].
  destruct (le_mass y <=? le_mass x)%Z; [reflexivity|].
  rewrite IH. apply perm_swap.
Qed.

Lemma sortByMass_perm l : Permutation (sortByMass l) l.
Proof.
  induction l as [|x l IH]; cbn [sortByMass fold_right]; [reflexivity|].
  fold (sortByMass l). rewrite insertEntry_perm. now constructor.
Qed.

Lemma insertEntry_sorted x l :
  StronglySorted notLighter l -> StronglySorted notLighter (insertEntry x l).
Proof.
  induction 1 as [|y l Hs IH Hy]; cbn [insertEntry].
  - constructor; constructor.
  - destruct (le_mass y <=? le_mass x)%Z eqn:E.
    + apply Z.leb_le in E. constructor; [now constructor|].
      constructor; [exact E|]. revert Hy. apply Forall_impl.
      unfold notLighter. intros z Hz. lia.
    + apply Z.leb_gt in E. constructor; [exact IH|].
      apply (Permutation_Forall (Permutation_sym (insertEntry_perm x l))).
      constructor; [unfold notLighter; lia|exact Hy].
Qed.

Lemma sortByMass_sorted l : StronglySorted notLighter (sortByMass l).
Proof.
  induction l as [|x l IH]; cbn [sortByMass fold_right]; [constructor|].
  now apply insertEntry_sorted.
Qed.

Lemma insertEntry_filter m x l :
  filter (massIs m) (insertEntry x l) = filter (massIs m) (x :: l).
Proof.
  induction l as [|y l IH]; cbn [insertEntry]; [reflexivity|].
  destruct (le_mass y <=? le_mass x)%Z eqn:E; [reflexivity|].
  apply Z.leb_gt in E. cbn [filter] in *. rewrite IH. unfold massIs.
  destruct (le_mass y =? m)%Z eqn:Ey; [|reflexivity].
  apply Z.eqb_eq in Ey.
  destruct (le_mass x =? m)%Z eqn:Ex; [|reflexivity].
  apply Z.eqb_eq in Ex. lia.
Qed.

Lemma sortByMass_filter m l :
  filter (massIs m) (sortByMass l) = filter (massIs m) l.
Proof.
  induction l as [|x l IH]; cbn [sortByMass fold_right]; [reflexivity|].
  fold (sortByMass l). rewrite insertEntry_filter. cbn [filter]. now rewrite IH.
Qed.

Lemma toUpperCase_orElse code : toUpperCase (orElse code "") = toUpperCase code.
Proof. now destruct code. Qed.

Lemma living_In a agents :
  In a (living agents) <-> (exists k, In (k, a) agents) /\ a_dead a = false.
Proof.
  unfold living. rewrite filter_In, in_map_iff. split.
  - intros [([k a'] & <- & Hin) Hd]. cbn [snd] in *. split; [now exists k|].
    now destruct (a_dead a').
  - intros [[k Hin] Hd]. split; [now exists (k, a)|]. now rewrite Hd.
Qed.

Lemma Zfloor_nonneg x : 0 <= x -> (0 <= Zfloor x)%Z.
Proof.
  intros H. apply Zfloor_lub. exact H.
Qed.

Lemma massSum_nonneg blobs :
  Forall (fun b => 0 <= b_mass b) blobs -> 0 <= massSum blobs.
Proof.
  induction 1 as [|b l Hb _ IH]; [unfold massSum; cbn; lra|].
  rewrite massSum_cons. lra.
Qed.

Lemma living_ids agents : keyed agents -> NoDup (map a_id (living agents)).
Proof.
  induction agents as [|[k a] l IH]; intros [Hn Hf]; [constructor|].
  inversion Hn as [|? ? Hk Hn']; inversion Hf as [|? ? Ha Hf']; subst.
  cbn [snd fst] in Ha. unfold living. cbn [map filter snd].
  fold (living l). destruct (a_dead a); cbn [negb]; [now apply IH|].
  cbn [map]. constructor; [|now apply IH].
  intros Hin. apply Hk. apply in_map_iff in Hin. destruct Hin as (a' & Hid & Hin).
  apply living_In in Hin. destruct Hin as [[k' Hin] _].
  rewrite Forall_forall in Hf'. pose proof (Hf' _ Hin) as Hk'. cbn [fst snd] in Hk'.
  apply in_map_iff. exists (k', a'). split; [cbn [fst]; congruence|exact Hin].
Qed.

(** X15.  [/state] answers "Room not found" exactly when the upper-cased
    code names no room.  Otherwise the snapshot carries the clock, the
    world size, the pellets and the viruses of the room; its players are
    the living agents in the order of the agent map, each with its
    identity, name and colour, with its blobs in their order, each shown by
    its centre and its radius, and with the sum of their masses rounded
    down; and its leaderboard is the first ten (all,
    when there are fewer) of the entries of the living agents put by
    decreasing mass, entries of equal mass in the order of the map: no
    living agent that is left out is heavier than a listed one.  In every
    state the server reaches, no identity is listed twice, no listed mass
    is negative and every blob shown has a radius of at least 14. *)
Theorem state_snapshot (rooms : Rooms) (code : string) :
  (getState rooms code = None <-> mapGet (toUpperCase code) rooms = None) /\
  forall room,
    mapGet (toUpperCase code) rooms = Some room ->
    exists sn,
      getState rooms code = Some sn /\
      sn_t sn = r_t room /\ sn_pellets sn = r_pellets room /\
      sn_viruses sn = r_viruses room /\
      sn_world sn = WORLD /\
      Forall2 (fun a p =>
                 pl_id p = a_id a /\ pl_name p = a_name a /\ pl_col p = a_col a /\
                 Forall2 (fun b v => bv_x v = b_x b /\ bv_y v = b_y b /\
                                     bv_r v = b_r b)
                         (a_blobs a) (pl_blobs p) /\
                 IZR (pl_mass p) <= massSum (a_blobs a) < IZR (pl_mass p) + 1)
              (living (r_agents room)) (sn_players sn) /\
      (exists rest,
          List.length (sn_leaderboard sn)
          = Nat.min 10 (List.length (living (r_agents room))) /\
          Permutation (sn_leaderboard sn ++ rest)
                      (map entryOf (living (r_agents room))) /\
          StronglySorted notLighter (sn_leaderboard sn ++ rest) /\
          forall m, filter (massIs m) (sn_leaderboard sn ++ rest)
                    = filter (massIs m) (map entryOf (living (r_agents room)))) /\
      (reachable rooms ->
       NoDup (map pl_id (sn_players sn)) /\
       NoDup (map le_id (sn_leaderboard sn)) /\
       Forall (fun p => (0 <= pl_mass p)%Z /\
                        Forall (fun v => 14 <= bv_r v) (pl_blobs p))
              (sn_players sn)).
Proof.
  unfold getState. rewrite toUpperCase_orElse. split.
  - destruct (mapGet (toUpperCase code) rooms); split; congruence.
  - intros room Hget. rewrite Hget. eexists. split; [reflexivity|].
    cbn [sn_t sn_world sn_pellets sn_viruses sn_players sn_leaderboard].
    split; [reflexivity|]. split; [reflexivity|]. split; [reflexivity|].
    split; [reflexivity|].
    set (l := living (r_agents room)).
    assert (Hperm : Permutation (sortByMass (map entryOf l)) (map entryOf l))
      by apply sortByMass_perm.
    split; [|split].
    + clear Hperm. induction l as [|a l IH]; cbn [map]; constructor; [|exact IH].
      cbn [playerOf pl_id pl_name pl_col pl_blobs pl_mass]. split; [reflexivity|].
      split; [reflexivity|]. split; [reflexivity|].
      split; [induction (a_blobs a); cbn [map]; constructor; [now cbn|assumption]|].
      rewrite agentMass_massSum.
      pose proof (Zfloor_bound (massSum (a_blobs a))). lra.
    + exists (skipn 10 (sortByMass (map entryOf l))). unfold leaderboard. fold l.
      rewrite firstn_skipn. split.
      * rewrite length_firstn, (Permutation_length Hperm), length_map. reflexivity.
      * split; [exact Hperm|]. split; [apply sortByMass_sorted|].
        intros m. apply sortByMass_filter.
    + intros Hreach.
      assert (Hin : In (toUpperCase code, room) rooms) by (apply mapGet_In; exact Hget).
      pose proof (reachable_keyed rooms Hreach) as Hk.
      pose proof (reachable_ok rooms Hreach) as Hok.
      unfold roomsKeyed in Hk. unfold roomsOk in Hok. rewrite Forall_forall in Hk, Hok.
      specialize (Hk _ Hin). specialize (Hok _ Hin). cbn [snd] in Hk, Hok.
      destruct Hok as [Hblobs _].
      pose proof (living_ids _ Hk) as Hnd. fold l in Hnd.
      split; [|split].
      * rewrite map_map. cbn [playerOf pl_id]. exact Hnd.
      * unfold leaderboard. fold l.
        assert (H : NoDup (map le_id (sortByMass (map entryOf l)))).
        { apply (Permutation_NoDup (Permutation_sym (Permutation_map le_id Hperm))).
          rewrite map_map. cbn [entryOf le_id]. exact Hnd. }
        rewrite <- (firstn_skipn 10 (sortByMass (map entryOf l))), map_app in H.
        exact (NoDup_app_remove_r _ _ H).
      * apply Forall_map. apply Forall_forall. intros a Ha.
        apply living_In in Ha. destruct Ha as [[k Hka] _].
        cbn [playerOf pl_mass pl_blobs].
        assert (Hb : Forall radiusOk (a_blobs a)).
        { apply Forall_forall. intros b Hb. exact (allBlobs_In _ _ _ _ _ Hblobs Hka Hb). }
        split.
        -- apply Zfloor_nonneg. rewrite agentMass_massSum. apply massSum_nonneg.
           revert Hb. apply Forall_impl. now intros b [_ H].
        -- apply Forall_map. revert Hb. apply Forall_impl. now intros b [H _].
Qed.

Lemma state_snapshot_witness :
  let e := mkEnv (fun _ => 0) 0 (fun _ => 0) 0 in
  let rooms := fst (postCreate [] "ABC" (Fin 60) (Fin 1) e) in
  exists sn, getState rooms "abc" = Some sn /\ NoDup (map pl_id (sn_players sn)).
Proof.
  intros e rooms.
  assert (Hget : mapGet (toUpperCase "abc") rooms = Some (fst (makeRoom "ABC" (Fin 60) (Fin 1) e))).
  { unfold rooms. rewrite postCreate_spec.
    change (toUpperCase "abc") with "ABC"%string. apply mapGet_mapSet_same. }
  destruct (proj2 (state_snapshot rooms "abc") _ Hget)
    as (sn & H1 & _ & _ & _ & _ & _ & _ & H2).
  exists sn. split; [exact H1|].
  apply H2. apply reach_create. apply reach_start.
Defined.
(* ------------------------------------------------------------------ *)
(** ** The draws and the clock only move forward *)

(** [e'] is [e] after some draws of [Math.random] and some readings of the
    clock: the same two sequences, read further. *)
Definition envLe (e e' : Env) : Prop :=
  mathRandomAt e' = mathRandomAt e /\ dateNowAt e' = dateNowAt e /\
  (mrIdx e <= mrIdx e')%nat /\ (clkIdx e <= clkIdx e')%nat.

Definition forward {A} (m : M A) : Prop :=
  forall s, envLe (s_env s) (s_env (snd (m s))).

Lemma envLe_refl e : envLe e e.
Proof. unfold envLe. repeat split; lia. Qed.

Lemma envLe_trans e1 e2 e3 : envLe e1 e2 -> envLe e2 e3 -> envLe e1 e3.
Proof.
  unfold envLe. intros (A1 & B1 & C1 & D1) (A2 & B2 & C2 & D2).
  repeat split; try congruence; lia.
Qed.

Lemma forward_ret {A} (a : A) : forward (ret a).
Proof. intros s. apply envLe_refl. Qed.

Lemma forward_bind {A B} (m : M A) (k : A -> M B) :
  forward m -> (forall a, forward (k a)) -> forward (bind m k).
Proof.
  intros Hm Hk s. unfold bind. specialize (Hm s).
  destruct (m s) as [a s1]. cbn [snd] in Hm.
  exact (envLe_trans _ _ _ Hm (Hk a s1)).
Qed.

Lemma forward_rng : forward rng.
Proof.
  intros s. unfold rng. destruct (mulberry32 (rngSeed s)). apply envLe_refl.
Qed.

Lemma forward_mathRandom : forward mathRandom.
Proof. intros s. unfold mathRandom, envLe. cbn. repeat split; lia. Qed.

Lemma forward_dateNow : forward dateNow.
Proof. intros s. unfold dateNow, envLe. cbn. repeat split; lia. Qed.

Lemma forward_foldM {A S} (f : S -> A -> M S) (l : list A) :
  (forall s a, forward (f s a)) -> forall s, forward (foldM f l s).
Proof.
  intros Hf. induction l as [|a l IH]; intros s; cbn [foldM].
  - apply forward_ret.
  - apply forward_bind; [apply Hf|exact IH].
Qed.

(** Splits a computation into its draws. *)
Ltac fwd :=
  repeat match goal with
         | |- forward (bind _ _) => apply forward_bind; [|intros ?]
         | |- forward (ret _) => apply forward_ret
         | |- forward rng => apply forward_rng
         | |- forward mathRandom => apply forward_mathRandom
         | |- forward dateNow => apply forward_dateNow
         end.

Lemma forward_spawnAgent id name isBot : forward (spawnAgent id name isBot).
Proof. unfold spawnAgent. destruct isBot; fwd. Qed.

Lemma forward_pushPellets n : forall pellets, forward (pushPellets n pellets).
Proof.
  induction n as [|n IH]; intros pellets; cbn [pushPellets]; [apply forward_ret|].
  unfold newPellet. fwd. apply IH.
Qed.




Lemma forward_botPhase pellets agents : forward (botPhase pellets agents).
Proof.
  unfold botPhase. apply forward_foldM. intros ags i. unfold botStep.
  destruct (nth_error ags i) as [[k a]|]; [|apply forward_ret].
  destruct (a_dead a || negb (a_isBot a)); [apply forward_ret|].
  destruct (a_blobs a) as [|b bs]; [apply forward_ret|].
  apply forward_bind; [|intros ?; apply forward_ret].
  unfold botDecide. destruct (bestThreat _); [apply forward_ret|].
  destruct (bestPrey _); fwd. destruct (nth_error _ _); apply forward_ret.
Qed.

Lemma forward_pushFragments k b pieceMass pieceR :
  forall blobs, forward (pushFragments k b pieceMass pieceR blobs).
Proof.
  induction k as [|k IH]; intros blobs; cbn [pushFragments]; [apply forward_ret|].
  unfold fragment. fwd. apply IH.
Qed.

Lemma forward_virusBlobs viruses n : forall blobs, forward (virusBlobs viruses n blobs).
Proof.
  induction n as [|n IH]; intros blobs; cbn [virusBlobs]; [apply forward_ret|].
  apply forward_bind; [|intros ?; apply IH].
  unfold virusBlob. destruct (nth_error blobs n) as [b|]; [|apply forward_ret].
  apply forward_bind; [|intros ?; apply forward_ret].
  apply forward_foldM. intros [b0 bl] v. unfold virusHit.
  destruct (Rltb _ _); [|apply forward_ret].
  destruct (Rgeb _ _); [|apply forward_ret].
  apply forward_bind; [apply forward_pushFragments|intros ?; apply forward_ret].
Qed.

Lemma forward_virusPhase viruses agents : forward (virusPhase viruses agents).
Proof.
  induction agents as [|ka l IH]; cbn [virusPhase]; [apply forward_ret|].
  apply forward_bind.
  - unfold virusAgent. destruct (a_dead (snd ka)); [apply forward_ret|].
    apply forward_bind; [apply forward_virusBlobs|intros ?; apply forward_ret].
  - intros ka'. apply forward_bind; [exact IH|intros ?; apply forward_ret].
Qed.

Lemma forward_respawnPhase agents : forward (respawnPhase agents).
Proof.
  unfold respawnPhase. apply forward_foldM. intros ags i. unfold respawnStep.
  destruct (nth_error ags i) as [[k a]|]; [|apply forward_ret].
  destruct (a_dead a && a_isBot a); [|apply forward_ret].
  apply forward_bind; [apply forward_spawnAgent|intros ?; apply forward_ret].
Qed.

(** What [tickRoom] does once it has read the clock (lines 746-917). *)
Definition afterClock (room : Room) (nowMs : R) : M Room :=
  st <- (let now := nowMs / 1000 in
         let agents0 := removeInactive now (r_agents room) in
         agents1 <- botPhase (r_pellets room) agents0 ;;
         let agents2 := movePhase agents1 in
         let (agents3, pellets3) := eatPhase agents2 (r_pellets room) in
         pellets4 <- refill pellets3 ;;
         agents5 <- virusPhase (r_viruses room) agents3 ;;
         ret (agents5, pellets4)) ;;
  let agents6 := engulfPhase (fst st) in
  agents7 <- respawnPhase agents6 ;;
  ret (mkRoom (r_code room) (r_seed room) (r_rng room)
              (r_maxPlayers room) (r_bots room) (r_t room + DT)
              agents7 (snd st) (r_viruses room)).

Lemma tickBody_afterClock room s :
  tickBody room s
  = afterClock room (dateNowAt (s_env s) (clkIdx (s_env s))) (snd (dateNow s)).
Proof. reflexivity. Qed.

Lemma forward_afterClock room nowMs : forward (afterClock room nowMs).
Proof.
  unfold afterClock. apply forward_bind.
  - cbv zeta. apply forward_bind; [apply forward_botPhase|intros agents1].
    destruct (eatPhase _ _) as [agents3 pellets3].
    apply forward_bind; [apply forward_pushPellets|intros ?].
    apply forward_bind; [apply forward_virusPhase|intros ?; apply forward_ret].
  - intros st. cbv zeta. apply forward_bind; [apply forward_respawnPhase|].
    intros ?; apply forward_ret.
Qed.

(** A tick reads the clock first, and only moves forward after that. *)
Lemma tickRoom_forward room e :
  envLe e (snd (tickRoom room e)) /\ (clkIdx e < clkIdx (snd (tickRoom room e)))%nat.
Proof.
  unfold tickRoom. rewrite tickBody_afterClock.
  pose proof (forward_afterClock room (dateNowAt e (clkIdx e))
                (snd (dateNow (mkSrc (r_rng room) e)))) as H.
  cbn [s_env] in *.
  destruct (afterClock room _ _) as [room' s']. cbn [snd] in *.
  unfold dateNow in H. cbn [snd s_env] in H.
  unfold envLe in *. cbn [mathRandomAt dateNowAt mrIdx clkIdx] in *.
  destruct H as (A & B & C & D). repeat split; try assumption; lia.
Qed.

(* ------------------------------------------------------------------ *)
(** ** The tick loop (lines 1027-1029) *)

Lemma tickAll_nth rooms : forall e,
  envLe e (snd (tickAll rooms e)) /\
  forall i code room,
    nth_error rooms i = Some (code, room) ->
    exists ei,
      nth_error (fst (tickAll rooms e)) i = Some (code, fst (tickRoom room ei)) /\
      envLe e ei /\
      (clkIdx e + i <= clkIdx ei < clkIdx (snd (tickAll rooms e)))%nat.
Proof.
  induction rooms as [|[c r] rest IH]; intros e; cbn [tickAll].
  - split; [apply envLe_refl|]. intros [|i] code room [=].
  - destruct (tickRoom_forward r e) as [F1 F2].
    destruct (tickRoom r e) as [r' e1] eqn:E1. cbn [snd] in F1, F2.
    destruct (IH e1) as [G1 G2].
    destruct (tickAll rest e1) as [rest' e2] eqn:E2. cbn [fst snd] in *.
    split; [exact (envLe_trans _ _ _ F1 G1)|].
    intros [|i] code room Hn; cbn [nth_error] in *.
    + injection Hn as <- <-. exists e. rewrite E1. cbn [fst].
      split; [reflexivity|]. split; [apply envLe_refl|].
      destruct G1 as (_ & _ & _ & G1). lia.
    + destruct (G2 i code room Hn) as (ei & H1 & H2 & H3).
      exists ei. split; [exact H1|]. split; [exact (envLe_trans _ _ _ F1 H2)|]. lia.
Qed.

Lemma tickAll_mapGet rooms : forall e code room,
  mapGet code rooms = Some room ->
  exists ei, envLe e ei /\
             mapGet code (fst (tickAll rooms e)) = Some (fst (tickRoom room ei)).
Proof.
  induction rooms as [|[c r] rest IH]; intros e code room Hg;
    cbn [mapGet] in Hg; [discriminate|].
  cbn [tickAll]. destruct (tickRoom_forward r e) as [F1 _].
  destruct (tickRoom r e) as [r' e1] eqn:E1. cbn [snd] in F1.
  specialize (IH e1 code room).
  destruct (tickAll rest e1) as [rest' e2]. cbn [fst mapGet] in *.
  destruct (String.eqb c code).
  - injection Hg as <-. exists e. split; [apply envLe_refl|]. now rewrite E1.
  - destruct (IH Hg) as (ei & H1 & H2). exists ei.
    split; [exact (envLe_trans _ _ _ F1 H1)|exact H2].
Qed.

(** X16.  The tick loop ticks every room once, in the order of the map and
    under its code: the room at position [i] is ticked with the draws and
    the clock as the rooms before it left them, so at a reading of the
    clock that is at least the [i]-th after the loop began, and the loop
    ends after that reading.  Draws and readings are only consumed: the two
    sequences are never rewound. *)
Theorem tick_loop (rooms : Rooms) (e : Env) :
  let rooms' := fst (tickAll rooms e) in
  let e' := snd (tickAll rooms e) in
  map fst rooms' = map fst rooms /\
  envLe e e' /\
  forall i code room,
    nth_error rooms i = Some (code, room) ->
    exists ei,
      nth_error rooms' i = Some (code, fst (tickRoom room ei)) /\
      envLe e ei /\ (clkIdx e + i <= clkIdx ei < clkIdx e')%nat.
Proof.
  intros rooms' e'. split; [apply tickAll_keys|]. exact (tickAll_nth rooms e).
Qed.

Lemma tick_loop_witness :
  let e := mkEnv (fun _ => 0) 0 (fun _ => 1000) 0 in
  exists ei,
    nth_error (fst (tickAll [("ABC"%string, c1_room)] e)) 0
    = Some ("ABC"%string, fst (tickRoom c1_room ei)) /\
    envLe e ei /\
    (clkIdx e + 0 <= clkIdx ei
     < clkIdx (snd (tickAll [("ABC"%string, c1_room)] e)))%nat.
Proof.
  intros e.
  exact (proj2 (proj2 (tick_loop [("ABC"%string, c1_room)] e)) 0%nat _ _ eq_refl).
Defined.

(* ------------------------------------------------------------------ *)
(** ** Players that stop sending input *)

Lemma In_mapGet {V} k (v : V) m : NoDup (map fst m) -> In (k, v) m -> mapGet k m = Some v.
Proof.
  induction m as [|[k0 v0] m IH]; cbn [map fst In mapGet]; [tauto|].
  intros Hn. inversion Hn as [|? ? Hnot Hrest]; subst.
  intros [[= -> ->]|Hin]; [now rewrite String.eqb_refl|].
  destruct (String.eqb k0 k) eqn:E; [|now apply IH].
  apply String.eqb_eq in E. subst k0. exfalso. apply Hnot.
  apply in_map_iff. now exists (k, v).
Qed.

Lemma keys_of_tags agents agents' :
  map tag agents = map tag agents' -> map fst agents = map fst agents'.
Proof.
  intros H.
  replace (map fst agents) with (map (fun t => fst (fst t)) (map tag agents))
    by (rewrite map_map; reflexivity).
  rewrite H, map_map. reflexivity.
Qed.

Lemma postInput_unknown rooms req e room :
  mapGet (toUpperCase (iq_code req)) rooms = Some room ->
  mapGet (iq_id req) (r_agents room) = None ->
  postInput rooms req e = ((false, rooms), e).
Proof.
  intros Hr Ha. unfold postInput. rewrite toUpperCase_orElse, Hr.
  unfold inputRoom. now rewrite Ha.
Qed.

(** X17.  A human agent over one run of the tick loop, in a room whose
    agents are stored under their identities.  When every reading of the
    clock from now on is within 12 seconds of the agent's last input, the
    agent is still in its room after the loop, under its identity and
    human.  When the agent has a last input and every reading from now on
    is more than 12 seconds after it, the agent is gone after the loop:
    [/input] under its identity answers [ok: false] and changes nothing,
    and [/state] does not list it. *)
Theorem timeout (rooms : Rooms) (e : Env) (code id : string) (room : Room)
    (a : Agent) :
  mapGet code rooms = Some room ->
  keyed (r_agents room) ->
  mapGet id (r_agents room) = Some a ->
  a_isBot a = false ->
  let rooms' := fst (tickAll rooms e) in
  exists room',
    mapGet code rooms' = Some room' /\
    ((forall n, (clkIdx e <= n)%nat ->
                dateNowAt e n / 1000 - a_lastSeen a <= 12) ->
     exists a', mapGet id (r_agents room') = Some a' /\
                a_id a' = id /\ a_isBot a' = false) /\
    (a_lastSeen a <> 0 ->
     (forall n, (clkIdx e <= n)%nat ->
                dateNowAt e n / 1000 - a_lastSeen a > 12) ->
     mapGet id (r_agents room') = None /\
     (forall ir e1, toUpperCase (iq_code ir) = code -> iq_id ir = id ->
                    postInput rooms' ir e1 = ((false, rooms'), e1)) /\
     (forall c sn, toUpperCase c = code -> getState rooms' c = Some sn ->
                   ~ In id (map pl_id (sn_players sn)))).
Proof.
  intros Hroom Hk Ha Hhuman rooms'.
  destruct (tickAll_mapGet rooms e code room Hroom) as (ei & Hle & Hget).
  fold rooms' in Hget. exists (fst (tickRoom room ei)). split; [exact Hget|].
  destruct (tickRoom_tags room ei Hk) as [Htags _].
  pose proof (tickRoom_keyed room ei Hk) as Hk'.
  destruct Hle as (_ & Hclock & _ & Hidx).
  set (now := dateNowAt ei (clkIdx ei) / 1000) in *.
  assert (Hin : In (id, a) (r_agents room)) by now apply mapGet_In.
  assert (Hid : a_id a = id).
  { destruct Hk as [_ Hf]. rewrite Forall_forall in Hf. exact (Hf _ Hin). }
  split.
  - intros Hfresh.
    assert (Hact : inactive now a = false).
    { apply inactive_active. right. unfold now, PLAYER_TTL. rewrite Hclock.
      now apply Hfresh. }
    assert (Ht : In (tag (id, a)) (map tag (r_agents (fst (tickRoom room ei))))).
    { rewrite Htags. apply in_map. unfold removeInactive. apply filter_In.
      split; [exact Hin|]. cbn [snd]. now rewrite Hact. }
    apply in_map_iff in Ht. destruct Ht as ([k' a'] & Heq & Hin').
    unfold tag in Heq. cbn [fst snd] in Heq. injection Heq as -> Hid' Hbot'.
    exists a'. split; [|split; congruence].
    destruct Hk' as [Hn _]. now apply In_mapGet.
  - intros Hseen Hstale.
    assert (Hact : inactive now a = true).
    { apply inactive_stale; [exact Hhuman|exact Hseen|].
      unfold now, PLAYER_TTL. rewrite Hclock. now apply Hstale. }
    assert (Hnone : mapGet id (r_agents (fst (tickRoom room ei))) = None).
    { apply mapGet_notin. rewrite (keys_of_tags _ _ Htags).
      intros Hkey. apply in_map_iff in Hkey. destruct Hkey as ([k2 a2] & Hk2 & Hin2).
      cbn [fst] in Hk2. subst k2. unfold removeInactive in Hin2.
      apply filter_In in Hin2. destruct Hin2 as [Hin2 Hkeep]. cbn [snd] in Hkeep.
      assert (a2 = a) by (destruct Hk as [Hn _]; exact (NoDup_keys_eq _ _ _ _ Hn Hin2 Hin)).
      subst a2. rewrite Hact in Hkeep. discriminate. }
    split; [exact Hnone|]. split.
    + intros ir e1 Hc Hi. apply (postInput_unknown _ _ _ (fst (tickRoom room ei))).
      * now rewrite Hc.
      * now rewrite Hi.
    + intros c sn Hc Hsn Hlisted. unfold getState in Hsn.
      rewrite toUpperCase_orElse, Hc, Hget in Hsn. injection Hsn as <-.
      cbn [sn_players] in Hlisted. rewrite map_map in Hlisted.
      cbn [playerOf pl_id] in Hlisted. apply in_map_iff in Hlisted.
      destruct Hlisted as (a' & Hid' & Hliv). apply living_In in Hliv.
      destruct Hliv as [[k' Hin'] _].
      destruct Hk' as [_ Hf']. rewrite Forall_forall in Hf'.
      pose proof (Hf' _ Hin') as Hkey. cbn [fst snd] in Hkey.
      apply mapGet_None_keys in Hnone. apply Hnone.
      apply in_map_iff. exists (k', a'). split; [cbn [fst]; congruence|exact Hin'].
Qed.

Lemma timeout_witness :
  let e := mkEnv (fun _ => 0) 0 (fun _ => 1000) 0 in
  exists room', mapGet "ABC" (fst (tickAll [("ABC"%string, c1_room)] e)) = Some room'.
Proof.
  intros e.
  assert (Hk : keyed (r_agents c1_room)).
  { split; cbn; repeat constructor. intros []. }
  destruct (timeout [("ABC"%string, c1_room)] e "ABC" "h" c1_room c1_human
                    eq_refl Hk eq_refl eq_refl) as (room' & H & _).
  now exists room'.
Defined.

(* ------------------------------------------------------------------ *)
(** ** Joining and playing *)

(** The agent a join installs under [id] (lines 632-633 and 947). *)
Definition newcomer (id : string) (a : Agent) : Prop :=
  a_id a = id /\ a_isBot a = false /\ a_dead a = false /\
  exists b, a_blobs a = [b] /\ b_mass b = 55 /\ b_r b = 36.

(** A sequence of [/join] requests, answered one after the other. *)
Fixpoint joinAll (base36 : R -> string) (rooms : Rooms) (reqs : list JoinReq)
  (e : Env) : (list JoinRes * Rooms) * Env :=
  match reqs with
  | [] => (([], rooms), e)
  | req :: rest =>
      let '((res, rooms1), e1) := postJoin base36 rooms req e in
      let '((ress, rooms2), e2) := joinAll base36 rooms1 rest e1 in
      ((res :: ress, rooms2), e2)
  end.

(** The identities the answers of accepted joins carry. *)
Definition joinedIds (ress : list JoinRes) : list string :=
  flat_map (fun res => match res with JoinOk id _ _ => [id] | JoinError _ => [] end)
           ress.




(** [n] more humans fit in the room: each of [n] joins in a row finds
    [humans >= room.maxPlayers] false.  For an integer [maxPlayers] that is
    [humans + n <= maxPlayers]; a [maxPlayers] of [NaN] fits any number. *)
Definition fits (room : Room) (n : nat) : Prop :=
  match r_maxPlayers room with
  | Fin m => INR (humans (r_agents room) + n) < m + 1
  | PInf | NaN => True
  | NInf => False
  end.

Lemma fits_integer room (n : nat) (m : Z) :
  r_maxPlayers room = Fin (IZR m) ->
  (fits room n <-> (Z.of_nat (humans (r_agents room) + n) <= m)%Z).
Proof.
  intros H. unfold fits. rewrite H, INR_IZR_INZ, <- plus_IZR. split.
  - intros Hlt. apply lt_IZR in Hlt. lia.
  - intros Hle. apply IZR_lt. lia.
Qed.

Lemma fits_not_full room n : fits room (S n) -> ~ roomFull room.
Proof.
  unfold fits, roomFull. destruct (r_maxPlayers room) as [m| | |]; try tauto.
  rewrite plus_INR, S_INR. pose proof (pos_INR n). lra.
Qed.

(** An accepted join. *)
Lemma postJoin_accepts base36 rooms req e room :
  mapGet (toUpperCase (jq_code req)) rooms = Some room ->
  ~ roomFull room ->
  exists a seed e',
    postJoin base36 rooms req e
    = ((JoinOk (joinId base36 req e) (toUpperCase (jq_code req)) WORLD,
        mapSet (toUpperCase (jq_code req))
               (setAgents (setRng seed room)
                          (mapSet (joinId base36 req e) a (r_agents room)))
               rooms), e') /\
    newcomer (joinId base36 req e) a /\ envLe e e'.
Proof.
  intros Hr Hlt. unfold postJoin. rewrite toUpperCase_orElse, Hr.
  rewrite <- roomFull_test in Hlt. apply Bool.not_true_is_false in Hlt.
  rewrite Hlt.
  set (name := substring 0 14 (orElse (jq_name req) "Player")).
  set (ide := match jq_id req with
              | EmptyString => _
              | _ => _
              end).
  assert (Hid : fst ide = joinId base36 req e).
  { unfold ide, joinId. now destruct (jq_id req). }
  assert (He : envLe e (snd ide)).
  { unfold ide. destruct (jq_id req); cbn [snd]; [|apply envLe_refl].
    unfold envLe. cbn. repeat split; lia. }
  destruct ide as [id e1]. cbn [fst snd] in Hid, He. subst id.
  unfold spawnIn.
  pose proof (spawnAgent_spec (joinId base36 req e) name false (mkSrc (r_rng room) e1))
    as Hs.
  pose proof (forward_spawnAgent (joinId base36 req e) name false
                                 (mkSrc (r_rng room) e1)) as Hf.
  destruct (spawnAgent _ name false (mkSrc (r_rng room) e1)) as [a s].
  cbn [fst snd s_env] in *. exists a, (rngSeed s), (s_env s).
  split; [reflexivity|].
  destruct Hs as (H1 & _ & H3 & H4 & _ & _ & _ & b & Hb & Hfresh).
  destruct Hfresh as (_ & _ & _ & _ & _ & Hm & Hrad).
  split; [|exact (envLe_trans _ _ _ He Hf)].
  unfold newcomer. repeat (split; [assumption|]). now exists b.
Qed.


Lemma humans_mapSet_bots k a agents :
  Forall (fun ka => a_isBot (snd ka) = true) agents -> a_isBot a = false ->
  humans (mapSet k a agents) = 1%nat.
Proof.
  intros H Ha. induction H as [|[k0 a0] l Hb Hl IH]; cbn [mapSet].
  - unfold humans. cbn [filter snd]. now rewrite Ha.
  - cbn [snd] in Hb. destruct (String.eqb k0 k).
    + unfold humans. cbn [filter snd]. rewrite Ha. cbn [negb List.length].
      f_equal. exact (humans_bots l Hl).
    + unfold humans in *. cbn [filter snd]. now rewrite Hb.
Qed.



Lemma joinAll_spec base36 code : forall reqs rooms e room,
  mapGet code rooms = Some room ->
  Forall (fun req => toUpperCase (jq_code req) = code) reqs ->
  fits room (List.length reqs) ->
  let r := joinAll base36 rooms reqs e in
  exists room',
    mapGet code (snd (fst r)) = Some room' /\
    Forall2 (fun req res =>
               exists id, res = JoinOk id code WORLD /\
                          (jq_id req <> ""%string -> id = jq_id req))
            reqs (fst (fst r)) /\
    (forall id, In id (joinedIds (fst (fst r))) ->
                exists a, mapGet id (r_agents room') = Some a /\ newcomer id a) /\
    (forall id, ~ In id (joinedIds (fst (fst r))) ->
                mapGet id (r_agents room') = mapGet id (r_agents room)) /\
    r_maxPlayers room' = r_maxPlayers room /\
    (humans (r_agents room') <= humans (r_agents room) + List.length reqs)%nat /\
    (keyed (r_agents room) -> keyed (r_agents room')) /\
    (forall c, c <> code -> mapGet c (snd (fst r)) = mapGet c rooms) /\
    envLe e (snd r).
Proof.
  induction reqs as [|req rest IH]; intros rooms e room Hr Hc Hcap; cbn [joinAll].
  - cbn [fst snd joinedIds flat_map]. exists room. split; [exact Hr|].
    split; [constructor|]. split; [intros id []|]. split; [reflexivity|].
    split; [reflexivity|]. split; [lia|]. split; [tauto|]. split; [reflexivity|].
    apply envLe_refl.
  - inversion Hc as [|? ? Hc1 Hc2]; subst. cbn [List.length] in Hcap.
    destruct (postJoin_accepts base36 rooms req e room Hr
                               (fits_not_full _ _ Hcap))
      as (a & seed & e1 & Hj & Hnew & Hle1).
    rewrite Hj. set (id0 := joinId base36 req e) in *.
    set (code := toUpperCase (jq_code req)) in *.
    set (room1 := setAgents (setRng seed room) (mapSet id0 a (r_agents room))).
    assert (Hh1 : (humans (r_agents room1) <= S (humans (r_agents room)))%nat)
      by apply humans_mapSet_le.
    destruct (IH (mapSet code room1 rooms) e1 room1 (mapGet_mapSet_same _ _ _) Hc2)
      as (room' & G1 & G2 & G3 & G4 & G5 & G6 & G7 & G8 & G9).
    { revert Hcap. unfold fits. cbn [room1 setAgents setRng r_maxPlayers].
      destruct (r_maxPlayers room) as [m| | |]; try tauto.
      fold room1. apply le_INR in Hh1. rewrite !plus_INR, !S_INR in *. lra. }
    destruct (joinAll base36 (mapSet code room1 rooms) rest e1) as [[ress rooms2] e2].
    cbn [fst snd] in *. exists room'. split; [exact G1|]. split.
    { constructor; [|exact G2]. exists id0. split; [reflexivity|].
      unfold id0, joinId. now destruct (jq_id req). }
    cbn [joinedIds flat_map app]. fold (joinedIds ress). split.
    { intros id Hin.
      destruct (in_dec string_dec id (joinedIds ress)) as [Hin'|Hout]; [now apply G3|].
      destruct Hin as [<-|Hin]; [|contradiction].
      exists a. split; [|exact Hnew]. rewrite (G4 _ Hout).
      cbn [room1 setAgents r_agents]. apply mapGet_mapSet_same. }
    split.
    { intros id Hout. rewrite G4 by (intros H; apply Hout; now right).
      cbn [room1 setAgents r_agents]. apply mapGet_mapSet_other.
      intros ->. apply Hout. now left. }
    split; [rewrite G5; reflexivity|].
    split; [subst room1; cbn [setAgents r_agents List.length] in *; lia|]. split.
    { intros Hk. apply G7. cbn [room1 setAgents r_agents].
      apply keyed_mapSet; [exact Hk|]. now destruct Hnew. }
    split.
    { intros c Hne. rewrite (G8 c Hne). now apply mapGet_mapSet_other. }
    exact (envLe_trans _ _ _ Hle1 G9).
Qed.

(** X18.  Joins are accepted while there is room: when the room under
    [code] holds [h] humans and [h + n <= maxPlayers] ([fits]: for a
    [maxPlayers] that is no integer, [h + n < maxPlayers + 1], and any [n]
    when it is [NaN]), [n] joins in a row
    that name the room (in any letter case) are all accepted, each under
    the identity its request gives.  After them every identity that
    joined has a living human agent with one blob of mass 55 and radius
    36, every other identity has the agent it had, [maxPlayers] is
    unchanged and the other rooms are untouched. *)
Theorem joins_accepted (base36 : R -> string) (code : string)
    (reqs : list JoinReq) (rooms : Rooms) (e : Env) (room : Room) :
  mapGet code rooms = Some room ->
  Forall (fun req => toUpperCase (jq_code req) = code) reqs ->
  fits room (List.length reqs) ->
  let answers := fst (fst (joinAll base36 rooms reqs e)) in
  let rooms' := snd (fst (joinAll base36 rooms reqs e)) in
  exists room',
    mapGet code rooms' = Some room' /\
    Forall2 (fun req res =>
               exists id, res = JoinOk id code WORLD /\
                          (jq_id req <> ""%string -> id = jq_id req))
            reqs answers /\
    (forall id, In id (joinedIds answers) ->
                exists a, mapGet id (r_agents room') = Some a /\ newcomer id a) /\
    (forall id, ~ In id (joinedIds answers) ->
                mapGet id (r_agents room') = mapGet id (r_agents room)) /\
    r_maxPlayers room' = r_maxPlayers room /\
    (humans (r_agents room') <= humans (r_agents room) + List.length reqs)%nat /\
    (forall c, c <> code -> mapGet c rooms' = mapGet c rooms).
Proof.
  intros Hr Hc Hcap answers rooms'.
  destruct (joinAll_spec base36 code reqs rooms e room Hr Hc Hcap)
    as (room' & G1 & G2 & G3 & G4 & G5 & G6 & _ & G8 & _).
  exists room'. repeat (split; [assumption|]). exact G8.
Qed.

Lemma joins_accepted_witness :
  let e := mkEnv (fun _ => 0) 0 (fun _ => 1000) 0 in
  let rooms := [("ABC"%string, c1_room)] in
  let reqs := [mkJoinReq "abc" "Ann" "p1"; mkJoinReq "Abc" "Bob" "p2"] in
  exists room',
    mapGet "ABC" (snd (fst (joinAll (fun _ => "x"%string) rooms reqs e))) = Some room'.
Proof.
  intros e rooms reqs.
  assert (Hc : Forall (fun req => toUpperCase (jq_code req) = "ABC"%string) reqs)
    by (repeat constructor).
  assert (Hcap : fits c1_room (List.length reqs)).
  { apply (fits_integer c1_room (List.length reqs) 60 eq_refl). cbn. lia. }
  destruct (joins_accepted (fun _ => "x"%string) "ABC" reqs rooms e c1_room
                           eq_refl Hc Hcap) as (room' & H & _).
  now exists room'.
Defined.




(* ------------------------------------------------------------------ *)
(** ** What a tick leaves to the players *)

(** What a tick keeps of an agent: its identity, name and kind and, for a
    human, its colour, aim, boost flag and last-seen time; and a human
    that is dead stays dead. *)
Definition kept (a a' : Agent) : Prop :=
  a_id a' = a_id a /\ a_name a' = a_name a /\ a_isBot a' = a_isBot a /\
  (a_isBot a = false ->
   a_col a' = a_col a /\ a_aimX a' = a_aimX a /\ a_aimY a' = a_aimY a /\
   a_boost a' = a_boost a /\ a_lastSeen a' = a_lastSeen a /\
   (a_dead a = true -> a_dead a' = true)).

Definition keptEntry (ka ka' : string * Agent) : Prop :=
  fst ka' = fst ka /\ kept (snd ka) (snd ka').

Lemma kept_refl a : kept a a.
Proof. unfold kept. tauto. Qed.

Lemma kept_trans a b c : kept a b -> kept b c -> kept a c.
Proof.
  unfold kept. intros (A1 & A2 & A3 & A4) (B1 & B2 & B3 & B4).
  split; [congruence|]. split; [congruence|]. split; [congruence|].
  intros Hh. destruct (A4 Hh) as (C1 & C2 & C3 & C4 & C5 & C6).
  assert (Hh' : a_isBot b = false) by congruence.
  destruct (B4 Hh') as (D1 & D2 & D3 & D4 & D5 & D6).
  split; [congruence|]. split; [congruence|]. split; [congruence|].
  split; [congruence|]. split; [congruence|]. auto.
Qed.

Lemma keptEntry_refl ka : keptEntry ka ka.
Proof. split; [reflexivity|apply kept_refl]. Qed.

Lemma keptEntry_trans x y z : keptEntry x y -> keptEntry y z -> keptEntry x z.
Proof.
  intros [A1 A2] [B1 B2]. split; [congruence|exact (kept_trans _ _ _ A2 B2)].
Qed.

Lemma Forall2_refl {A} (R : A -> A -> Prop) (l : list A) :
  (forall x, R x x) -> Forall2 R l l.
Proof. intros H. induction l; constructor; auto. Qed.

Lemma Forall2_trans {A} (R : A -> A -> Prop) :
  (forall x y z, R x y -> R y z -> R x z) ->
  forall l1 l2 l3, Forall2 R l1 l2 -> Forall2 R l2 l3 -> Forall2 R l1 l3.
Proof.
  intros Ht l1 l2 l3 H. revert l3.
  induction H as [|x y l1 l2 Hxy _ IH]; intros l3 H3; inversion H3; subst;
    constructor; eauto.
Qed.

Lemma Forall2_setAt_step {A} (R : A -> A -> Prop) : forall l i x y,
  (forall z, R z z) -> nth_error l i = Some y -> R y x -> Forall2 R l (setAt i x l).
Proof.
  induction l as [|a l IH]; intros [|i] x y Hr Hn Hx; cbn in *; try discriminate.
  - injection Hn as ->. constructor; [exact Hx|now apply Forall2_refl].
  - constructor; [apply Hr|]. now apply (IH i x y).
Qed.

Lemma kept_setIntent a aim boost : a_isBot a = true -> kept a (setIntent a aim boost).
Proof.
  unfold kept, setIntent. cbn. intros ->.
  split; [reflexivity|]. split; [reflexivity|]. split; [reflexivity|]. discriminate.
Qed.

Lemma kept_setBlobs a blobs : kept a (setBlobs a blobs).
Proof. unfold kept, setBlobs. cbn. tauto. Qed.

Lemma kept_settle a blobs : kept a (settle a blobs).
Proof.
  unfold kept, settle. cbn.
  split; [reflexivity|]. split; [reflexivity|]. split; [reflexivity|]. intros _.
  repeat (split; [reflexivity|]). intros ->. now destruct (isEmpty blobs).
Qed.

Lemma botPhase_kept pellets agents s :
  Forall2 keptEntry agents (fst (botPhase pellets agents s)).
Proof.
  unfold botPhase.
  apply (foldM_inv (fun st => Forall2 keptEntry agents st));
    [|apply Forall2_refl, keptEntry_refl].
  intros st i s0 Hst.
  apply (Forall2_trans _ keptEntry_trans _ _ _ Hst). unfold botStep.
  destruct (nth_error st i) as [[k a]|] eqn:Ei;
    [|apply Forall2_refl, keptEntry_refl].
  destruct (a_dead a || negb (a_isBot a)) eqn:Eb;
    [apply Forall2_refl, keptEntry_refl|].
  destruct (a_blobs a) as [|b rest]; [apply Forall2_refl, keptEntry_refl|].
  unfold bind, ret.
  destruct (botDecide_intent pellets a b (scanAgents a b st) s0) as (aim & boost & Hd).
  destruct (botDecide pellets a b (scanAgents a b st) s0) as [a' s']. cbn [fst] in *.
  subst a'. apply (Forall2_setAt_step _ _ _ _ (k, a) keptEntry_refl Ei).
  split; [reflexivity|]. cbn [snd]. apply kept_setIntent.
  apply orb_false_iff in Eb. destruct Eb as [_ Eb]. now destruct (a_isBot a).
Qed.

Lemma movePhase_kept agents : Forall2 keptEntry agents (movePhase agents).
Proof.
  unfold movePhase. induction agents as [|[k a] l IH]; cbn [map]; constructor;
    [|exact IH].
  split; [reflexivity|]. cbn [fst snd]. unfold moveAgent.
  destruct (a_dead a); [apply kept_refl|apply kept_setBlobs].
Qed.

Lemma eatPhase_kept : forall agents pellets,
  Forall2 keptEntry agents (fst (eatPhase agents pellets)).
Proof.
  induction agents as [|[k a] rest IH]; intros pellets; cbn [eatPhase];
    [constructor|].
  destruct (a_dead a).
  - specialize (IH pellets). destruct (eatPhase rest pellets). cbn [fst] in *.
    constructor; [apply keptEntry_refl|exact IH].
  - destruct (eatBlobs (a_blobs a) pellets) as [blobs' ps1].
    specialize (IH ps1). destruct (eatPhase rest ps1). cbn [fst] in *.
    constructor; [|exact IH]. split; [reflexivity|apply kept_setBlobs].
Qed.

Lemma virusPhase_kept viruses : forall agents s,
  Forall2 keptEntry agents (fst (virusPhase viruses agents s)).
Proof.
  induction agents as [|[k a] rest IH]; intros s; cbn [virusPhase]; [constructor|].
  unfold bind, ret.
  assert (H : keptEntry (k, a) (fst (virusAgent viruses (k, a) s))).
  { unfold virusAgent. cbn [snd fst]. destruct (a_dead a); [apply keptEntry_refl|].
    unfold bind, ret. destruct (virusBlobs _ _ _ s). cbn [fst].
    split; [reflexivity|apply kept_setBlobs]. }
  destruct (virusAgent viruses (k, a) s) as [ka' s1]. cbn [fst] in H.
  specialize (IH s1). destruct (virusPhase viruses rest s1). cbn [fst] in *.
  now constructor.
Qed.

Lemma pairStep_kept i arr j : i <> j -> Forall2 kept arr (pairStep i arr j).
Proof.
  intros Hij. unfold pairStep.
  destruct (nth_error arr i) as [A|] eqn:Ei; [|apply Forall2_refl, kept_refl].
  destruct (nth_error arr j) as [B|] eqn:Ej; [|apply Forall2_refl, kept_refl].
  destruct (a_dead B); [apply Forall2_refl, kept_refl|].
  unfold engulfPair. destruct (outerLoop _ _ _) as [abs bbs].
  apply (Forall2_trans _ kept_trans _ (setAt i (settle A abs) arr)).
  - apply (Forall2_setAt_step _ _ _ _ A kept_refl Ei). apply kept_settle.
  - apply (Forall2_setAt_step _ _ _ _ B kept_refl).
    + rewrite nth_error_setAt_other by exact Hij. exact Ej.
    + apply kept_settle.
Qed.

Lemma pairs_kept i : forall js arr,
  (forall j, In j js -> i <> j) -> Forall2 kept arr (fold_left (pairStep i) js arr).
Proof.
  induction js as [|j js IH]; intros arr Hjs; cbn [fold_left];
    [apply Forall2_refl, kept_refl|].
  apply (Forall2_trans _ kept_trans _ (pairStep i arr j)).
  - apply pairStep_kept. apply Hjs. now left.
  - apply IH. intros j' Hj'. apply Hjs. now right.
Qed.

Lemma rows_kept : forall rows arr, Forall2 kept arr (fold_left rowStep rows arr).
Proof.
  induction rows as [|i rows IH]; intros arr; cbn [fold_left];
    [apply Forall2_refl, kept_refl|].
  apply (Forall2_trans _ kept_trans _ (rowStep arr i)); [|apply IH].
  unfold rowStep. destruct (nth_error arr i) as [A|]; [|apply Forall2_refl, kept_refl].
  destruct (a_dead A); [apply Forall2_refl, kept_refl|].
  apply pairs_kept. intros j Hj. apply in_seq in Hj. lia.
Qed.

Lemma engulfPhase_kept agents : Forall2 keptEntry agents (engulfPhase agents).
Proof.
  unfold engulfPhase.
  pose proof (rows_kept (seq 0 (List.length (map snd agents))) (map snd agents)) as H.
  revert H. generalize (fold_left rowStep (seq 0 (List.length (map snd agents)))
                                  (map snd agents)).
  induction agents as [|[k a] agents IH]; intros arr' H; cbn in *.
  - constructor.
  - inversion H; subst. constructor; [now split|]. now apply IH.
Qed.

Lemma respawnAll_kept : forall agents s,
  Forall2 keptEntry agents (fst (respawnAll agents s)).
Proof.
  induction agents as [|[k a] rest IH]; intros s; cbn [respawnAll]; [constructor|].
  unfold bind, ret.
  assert (H : keptEntry (k, a) (fst (respawnOne (k, a) s))).
  { unfold respawnOne. cbn [fst snd].
    destruct (a_dead a && a_isBot a) eqn:E; [|apply keptEntry_refl].
    apply andb_prop in E. destruct E as [_ Hb]. unfold bind, ret.
    destruct (spawnAgent_spec (a_id a) (a_name a) true s) as (H1 & H2 & H3 & _).
    destruct (spawnAgent (a_id a) (a_name a) true s) as [a' s1]. cbn [fst] in *.
    split; [reflexivity|]. cbn [snd]. unfold kept.
    split; [congruence|]. split; [congruence|]. split; [congruence|]. congruence. }
  destruct (respawnOne (k, a) s) as [ka' s1]. cbn [fst] in H.
  specialize (IH s1). destruct (respawnAll rest s1). cbn [fst] in *.
  now constructor.
Qed.

Lemma tickRoom_kept room e :
  keyed (r_agents room) ->
  Forall2 keptEntry
          (removeInactive (dateNowAt e (clkIdx e) / 1000) (r_agents room))
          (r_agents (fst (tickRoom room e))).
Proof.
  intros Hk.
  pose proof (removeInactive_keyed (dateNowAt e (clkIdx e) / 1000) _ Hk) as Hk0.
  unfold tickRoom, tickBody, beforeEngulf, bind, ret, dateNow. cbn [s_env].
  set (agents0 := removeInactive _ (r_agents room)) in *.
  match goal with
  | |- context [botPhase ?p agents0 ?s] =>
      pose proof (botPhase_kept p agents0 s) as H1;
      pose proof (botPhase_tag p agents0 s) as T1;
      destruct (botPhase p agents0 s) as [agents1 s1]
  end.
  cbn [fst] in H1, T1.
  pose proof (movePhase_kept agents1) as H2.
  pose proof (eatPhase_kept (movePhase agents1) (r_pellets room)) as H3.
  pose proof (eatPhase_tag (movePhase agents1) (r_pellets room)) as T3.
  rewrite movePhase_tag in T3.
  destruct (eatPhase (movePhase agents1) (r_pellets room)) as [agents3 pellets3].
  cbn [fst] in H3, T3.
  destruct (refill pellets3 s1) as [pellets4 s2].
  pose proof (virusPhase_kept (r_viruses room) agents3 s2) as H5.
  pose proof (virusPhase_tag (r_viruses room) agents3 s2) as T5.
  destruct (virusPhase (r_viruses room) agents3 s2) as [agents5 s3].
  cbn [fst snd] in *.
  pose proof (engulfPhase_kept agents5) as H6.
  pose proof (engulfPhase_tag agents5) as T6.
  assert (Ht : map tag (engulfPhase agents5) = map tag agents0)
    by (now rewrite T6, T5, T3, T1).
  rewrite respawnPhase_all by (apply (keyed_tag agents0); [now symmetry|exact Hk0]).
  pose proof (respawnAll_kept (engulfPhase agents5) s3) as H7.
  destruct (respawnAll (engulfPhase agents5) s3) as [agents7 s4].
  cbn [fst setRng r_agents] in *.
  pose proof (Forall2_trans _ keptEntry_trans) as Tr.
  exact (Tr _ _ _ (Tr _ _ _ (Tr _ _ _ (Tr _ _ _ (Tr _ _ _ H1 H2) H3) H5) H6) H7).
Qed.

Lemma Forall2_In_l {A B} (R : A -> B -> Prop) l l' x :
  Forall2 R l l' -> In x l -> exists y, In y l' /\ R x y.
Proof.
  induction 1 as [|a b l l' Hab _ IH]; intros Hin; [destruct Hin|].
  destruct Hin as [<-|Hin].
  - exists b. split; [now left|exact Hab].
  - destruct (IH Hin) as (y & Hy & Hxy). exists y. split; [now right|exact Hxy].
Qed.

(** X20.  What a tick leaves to the players.  An agent that passes the
    inactivity test is, after the tick, still stored under its key, with
    the same identity, name and kind.  A tick never touches what a human
    controls or owns besides its blobs: the colour, the aim, the boost
    flag and the last-seen time are as they were; and it never revives a
    human: one that is dead before the tick is dead after it.  A bot is
    alive after every tick, under the name it had. *)
Theorem tick_players (room : Room) (e : Env) (id : string) (a : Agent) :
  keyed (r_agents room) ->
  mapGet id (r_agents room) = Some a ->
  inactive (dateNowAt e (clkIdx e) / 1000) a = false ->
  exists a',
    mapGet id (r_agents (fst (tickRoom room e))) = Some a' /\
    a_id a' = a_id a /\ a_name a' = a_name a /\ a_isBot a' = a_isBot a /\
    (a_isBot a = true -> a_dead a' = false) /\
    (a_isBot a = false ->
     a_col a' = a_col a /\ a_aimX a' = a_aimX a /\ a_aimY a' = a_aimY a /\
     a_boost a' = a_boost a /\ a_lastSeen a' = a_lastSeen a /\
     (a_dead a = true -> a_dead a' = true)).
Proof.
  intros Hk Ha Hact.
  pose proof (tickRoom_kept room e Hk) as Hkept.
  destruct (tickRoom_tags room e Hk) as [_ Halive].
  pose proof (tickRoom_keyed room e Hk) as [Hn _].
  assert (Hin : In (id, a) (removeInactive (dateNowAt e (clkIdx e) / 1000)
                                           (r_agents room))).
  { unfold removeInactive. apply filter_In. split; [now apply mapGet_In|].
    cbn [snd]. now rewrite Hact. }
  destruct (Forall2_In_l _ _ _ _ Hkept Hin) as ([k' a'] & Hin' & Hk' & Hkp).
  cbn [fst snd] in Hk', Hkp. subst k'. exists a'.
  split; [now apply In_mapGet|].
  destruct Hkp as (K1 & K2 & K3 & K4).
  split; [exact K1|]. split; [exact K2|]. split; [exact K3|]. split; [|exact K4].
  intros Hb. rewrite Forall_forall in Halive. apply (Halive _ Hin').
  cbn [snd]. congruence.
Qed.

Lemma tick_players_witness :
  let e := mkEnv (fun _ => 0) 0 (fun _ => 1000) 0 in
  exists a', mapGet "h" (r_agents (fst (tickRoom c1_room e))) = Some a' /\
             a_name a' = "Player"%string.
Proof.
  intros e.
  assert (Hk : keyed (r_agents c1_room)).
  { split; cbn; repeat constructor. intros []. }
  assert (Hact : inactive (dateNowAt e (clkIdx e) / 1000) c1_human = false).
  { apply inactive_active. right. unfold PLAYER_TTL. cbn. lra. }
  destruct (tick_players c1_room e "h" c1_human Hk eq_refl Hact)
    as (a' & H1 & _ & H2 & _).
  exists a'. split; [exact H1|exact H2].
Defined.

(* ------------------------------------------------------------------ *)
(* ------------------------------------------------------------------ *)
(** ** Rooms are never removed *)

Lemma postJoin_keys base36 rooms req e :
  map fst (snd (fst (postJoin base36 rooms req e))) = map fst rooms.
Proof.
  unfold postJoin.
  destruct (match jq_id req with
            | EmptyString => _
            | _ => _
            end) as [id e1].
  destruct (mapGet _ rooms) as [room|] eqn:Er; [|reflexivity].
  destruct (Num.leb _ _); [reflexivity|].
  destruct (spawnIn room id _ false e1) as [[a room1] e2]. cbn [fst snd].
  apply mapSet_keys_present. congruence.
Qed.

Lemma postInput_keys rooms req e :
  map fst (snd (fst (postInput rooms req e))) = map fst rooms.
Proof.
  unfold postInput.
  destruct (mapGet _ rooms) as [room|] eqn:Er; [|reflexivity].
  destruct (inputRoom room req e) as [[room'|] e']; [|reflexivity].
  cbn [fst snd]. apply mapSet_keys_present. congruence.
Qed.

Lemma step_keys base36 st c :
  exists added,
    map fst (fst (step base36 st c)) = map fst (fst st) ++ added /\
    forall code, In code added ->
                 mapGet code (fst st) = None /\
                 exists maxPlayers bots, c = Create code maxPlayers bots.
Proof.
  destruct c as [code maxPlayers bots|req|req|]; cbn [step fst snd].
  - rewrite postCreate_spec.
    destruct (mapGet code (fst st)) as [room|] eqn:Er.
    + exists []. rewrite app_nil_r. split; [|intros c []].
      apply mapSet_keys_present. congruence.
    + exists [code]. rewrite (mapSet_absent _ _ _ Er), map_app. split; [reflexivity|].
      intros c [<-|[]]. split; [exact Er|]. now exists maxPlayers, bots.
  - exists []. rewrite app_nil_r. split; [apply postJoin_keys|intros c []].
  - exists []. rewrite app_nil_r. split; [apply postInput_keys|intros c []].
  - exists []. rewrite app_nil_r. split; [apply tickAll_keys|intros c []].
Qed.

Lemma steps_keys base36 : forall calls st,
  exists added,
    map fst (fst (fold_left (step base36) calls st)) = map fst (fst st) ++ added /\
    forall code, In code added ->
                 mapGet code (fst st) = None /\
                 exists maxPlayers bots, In (Create code maxPlayers bots) calls.
Proof.
  induction calls as [|c calls IH]; intros st; cbn [fold_left].
  - exists []. rewrite app_nil_r. split; [reflexivity|intros c []].
  - destruct (step_keys base36 st c) as (a1 & H1 & G1).
    destruct (IH (step base36 st c)) as (a2 & H2 & G2).
    exists (a1 ++ a2). rewrite H2, H1, <- app_assoc. split; [reflexivity|].
    intros code Hin. apply in_app_or in Hin. destruct Hin as [Hin|Hin].
    + destruct (G1 code Hin) as (Hn & mp & b & ->). split; [exact Hn|].
      exists mp, b. now left.
    + destruct (G2 code Hin) as (Hn & mp & b & Hc). split.
      * destruct (mapGet code (fst st)) as [room|] eqn:Er; [|reflexivity].
        exfalso. apply mapGet_None_keys in Hn. apply Hn. rewrite H1.
        apply in_or_app. left. apply mapGet_In in Er.
        apply in_map_iff. now exists (code, room).
      * exists mp, b. now right.
Qed.

(** X5.  The server never removes a room.  Over any sequence of requests
    and ticks, the codes of the rooms stay where they are in the room map,
    in their order; the only codes that appear are those of [/create]
    requests for a code that was free, added at the end.  So a room that
    exists is never deleted, however long it stays unused. *)
Theorem rooms_never_removed (base36 : R -> string) (calls calls' : list Call)
    (e : Env) :
  let before := fst (run base36 calls e) in
  let after := fst (run base36 (calls ++ calls') e) in
  (exists added,
      map fst after = map fst before ++ added /\
      forall code, In code added ->
                   mapGet code before = None /\
                   exists maxPlayers bots, In (Create code maxPlayers bots) calls') /\
  (forall code, mapGet code before <> None -> mapGet code after <> None).
Proof.
  intros before after. unfold after, before, run. rewrite fold_left_app.
  destruct (steps_keys base36 calls' (fold_left (step base36) calls ([], e)))
    as (added & H & G).
  split; [now exists added|].
  intros code Hc Hn. apply mapGet_None_keys in Hn. apply Hn. rewrite H.
  apply in_or_app. left.
  destruct (mapGet code _) as [room|] eqn:Er; [|congruence].
  apply mapGet_In in Er. apply in_map_iff. now exists (code, room).
Qed.

Lemma rooms_never_removed_witness :
  let e := mkEnv (fun _ => 0) 0 (fun _ => 0) 0 in
  exists added,
    map fst (fst (run (fun _ => "x"%string) ([Create "ABC" (Fin 60) (Fin 0)] ++ [Tick]) e))
    = map fst (fst (run (fun _ => "x"%string) [Create "ABC" (Fin 60) (Fin 0)] e)) ++ added.
Proof.
  intros e.
  destruct (rooms_never_removed (fun _ => "x"%string) [Create "ABC" (Fin 60) (Fin 0)] [Tick] e)
    as [(added & H & _) _].
  exists added. exact H.
Defined.

(* ------------------------------------------------------------------ *)
(* ------------------------------------------------------------------ *)
(** ** The movement step and the split on every value of a number *)

(** On the states of the room model the two models agree. *)
Lemma Js_aimBlob_of a total b :
  Js.aimBlob (ofAgent a) total (ofBlob b) = ofBlob (aimBlob a total b).
Proof. reflexivity. Qed.

Lemma Js_knockBlob_of b : Js.knockBlob (ofBlob b) = ofBlob (knockBlob b).
Proof. reflexivity. Qed.

Lemma Js_decayBlob_of a total b :
  Js.decayBlob (ofAgent a) total (ofBlob b) = ofBlob (decayBlob a total b).
Proof.
  unfold Js.decayBlob, decayBlob. cbn [ofAgent Js.a_isBot Js.a_boost].
  destruct (negb (a_isBot a) && a_boost a); reflexivity.
Qed.

Lemma Js_moveBlob_of a total b :
  Js.moveBlob (ofAgent a) total (ofBlob b) = ofBlob (moveBlob a total b).
Proof.
  unfold Js.moveBlob, moveBlob.
  now rewrite Js_aimBlob_of, Js_knockBlob_of, Js_decayBlob_of.
Qed.

(** A blob of the room model with the mass, the radius and the timer of
    [b]: what the choice of the blob to split and the mass of an agent
    depend on. *)
Definition shadow (b : Js.Blob) : Blob :=
  mkBlob 0 0 0 0 (Js.b_mass b) (Js.b_r b) (Js.b_splitTimer b).

Lemma shadow_of b : b_r (shadow (ofBlob b)) = b_r b /\
                    b_mass (shadow (ofBlob b)) = b_mass b.
Proof. now split. Qed.

Lemma Js_bestStep blobs best i :
  Js.bestStep blobs best i = bestStep (map shadow blobs) best i.
Proof.
  unfold Js.bestStep, bestStep. rewrite !nth_error_map.
  destruct (nth_error blobs i), (nth_error blobs best); reflexivity.
Qed.

Lemma Js_bestIndex blobs : Js.bestIndex blobs = bestIndex (map shadow blobs).
Proof.
  unfold Js.bestIndex, bestIndex. rewrite length_map.
  remember (seq 1 (List.length blobs - 1)) as l eqn:El. clear El.
  generalize 0%nat.
  induction l as [|i l IH]; intros best; cbn [fold_left]; [reflexivity|].
  rewrite Js_bestStep. apply IH.
Qed.

Lemma Js_bestIndex_spec blobs :
  blobs <> [] ->
  exists b, nth_error blobs (Js.bestIndex blobs) = Some b /\
    (forall j bj, nth_error blobs j = Some bj -> Js.b_r bj <= Js.b_r b) /\
    (forall j bj, (j < Js.bestIndex blobs)%nat ->
                  nth_error blobs j = Some bj -> Js.b_r bj < Js.b_r b).
Proof.
  intros Hne. rewrite Js_bestIndex.
  destruct (bestIndex_spec (map shadow blobs)) as (sb & Hsb & Hall & Hfirst).
  { destruct blobs; [congruence|discriminate]. }
  rewrite nth_error_map in Hsb.
  destruct (nth_error blobs (bestIndex (map shadow blobs))) as [b|] eqn:Eb;
    [|discriminate].
  cbn [option_map] in Hsb. injection Hsb as <-.
  exists b. split; [reflexivity|]. split.
  - intros j bj Hj. apply (Hall j (shadow bj)). now rewrite nth_error_map, Hj.
  - intros j bj Hlt Hj. apply (Hfirst j (shadow bj) Hlt).
    now rewrite nth_error_map, Hj.
Qed.

Lemma Js_agentMass a : Js.agentMass a = massSum (map shadow (Js.a_blobs a)).
Proof.
  unfold Js.agentMass, massSum. generalize 0.
  induction (Js.a_blobs a) as [|b l IH]; intros acc; cbn [map fold_left];
    [reflexivity|]. apply IH.
Qed.

Lemma Js_bestIndex_of blobs :
  Js.bestIndex (map ofBlob blobs) = bestIndex blobs.
Proof.
  unfold Js.bestIndex, bestIndex. rewrite length_map.
  remember (seq 1 (List.length blobs - 1)) as l eqn:El. clear El.
  generalize 0%nat.
  induction l as [|i l IH]; intros best; cbn [fold_left]; [reflexivity|].
  rewrite <- IH. f_equal. unfold Js.bestStep, bestStep. rewrite !nth_error_map.
  destruct (nth_error blobs i), (nth_error blobs best); reflexivity.
Qed.

(** [split] agrees on an agent of the room model whose aim has a length
    that does not overflow (a stored aim has length 0 or 1). *)
Lemma Js_split_of a :
  hypot (a_aimX a) (a_aimY a) <= Num.MAX_VALUE ->
  Js.split (ofAgent a) = ofAgent (split a).
Proof.
  intros H. unfold Js.split, split.
  cbn [ofAgent Js.a_blobs Js.a_aimX Js.a_aimY].
  rewrite Js_bestIndex_of, nth_error_map.
  destruct (nth_error (a_blobs a) (bestIndex (a_blobs a))) as [b|]; [|reflexivity].
  cbn [option_map]. change (Js.b_r (ofBlob b)) with (b_r b).
  destruct (Rgeb (b_r b) (14 * (22 / 10))); [|reflexivity].
  rewrite (Num_normalize_Fin _ _ H).
  unfold Js.setBlobs, setBlobs, ofAgent.
  cbn [Js.a_id Js.a_name Js.a_isBot Js.a_col Js.a_dead Js.a_aimX Js.a_aimY
       Js.a_boost Js.a_lastSeen a_id a_name a_isBot a_col a_dead a_aimX a_aimY
       a_boost a_lastSeen a_blobs].
  f_equal. rewrite map_app, map_setAt. reflexivity.
Qed.

(** [/input] agrees on an agent of the room model and a request whose aim
    has a length that does not overflow. *)
Lemma Js_inputAgent_of a now req :
  hypot (iq_aimX req) (iq_aimY req) <= Num.MAX_VALUE ->
  Js.inputAgent (ofAgent a) now (ofReq req) = ofAgent (inputAgent a now req).
Proof.
  intros H. unfold Js.inputAgent, inputAgent.
  cbn [ofReq Js.iq_aimX Js.iq_aimY Js.iq_boost Js.iq_split Num.orZero].
  rewrite (Num_normalize_Fin _ _ H).
  assert (E : Js.touch (ofAgent a) now
                (Fin (fst (normalize (iq_aimX req) (iq_aimY req))),
                 Fin (snd (normalize (iq_aimX req) (iq_aimY req)))) (iq_boost req)
              = ofAgent (touch a now (normalize (iq_aimX req) (iq_aimY req))
                                  (iq_boost req))) by reflexivity.
  rewrite E. destruct (iq_split req); [|reflexivity].
  apply Js_split_of. cbn [touch a_aimX a_aimY].
  pose proof MAX_VALUE_big.
  destruct (normalize_cases (iq_aimX req) (iq_aimY req)) as [[_ Hz]|[_ [_ Hu]]].
  - rewrite Hz. cbn [fst snd]. rewrite hypot_0. lra.
  - unfold hypot. rewrite Hu, sqrt_1. lra.
Qed.

Lemma Num_add_NaN_r c : Num.add c NaN = NaN.
Proof. now destruct c. Qed.

Lemma Js_aimed_NaN c aim v : c = NaN \/ aim = NaN -> Js.aimed c aim v = NaN.
Proof.
  intros [->| ->]; unfold Js.aimed; [reflexivity|].
  cbn [Num.mul]. apply Num_add_NaN_r.
Qed.

Lemma Js_aimed_Fin x ax v : Js.aimed (Fin x) (Fin ax) v = Fin (x + ax * v * DT).
Proof. reflexivity. Qed.

(** C2 (amended).  For a blob whose radius is at most half the world size,
    each coordinate right after the boundary clamp of the movement step
    (lines 799-800) is [NaN] or a number of [r, WORLD - r]; it is [NaN]
    exactly when the coordinate before the clamp is.  With a finite centre
    and a finite aim it is a number of [r, WORLD - r]; with a [NaN] aim or
    a [NaN] centre it is [NaN].  The clamp does not change the radius. *)
Theorem C2_clamp_inside (a : Js.Agent) (total : R) (b : Js.Blob) :
  2 * Js.b_r b <= WORLD ->
  let r := Js.b_r b in
  let v := baseSpeed r total (Js.a_boost a) in
  let b' := Js.aimBlob a total b in
  let inside (before after : num) :=
    (before = NaN /\ after = NaN) \/
    (before <> NaN /\ exists c, after = Fin c /\ r <= c <= WORLD - r) in
  Js.b_r b' = r /\
  inside (Js.aimed (Js.b_x b) (Js.a_aimX a) v) (Js.b_x b') /\
  inside (Js.aimed (Js.b_y b) (Js.a_aimY a) v) (Js.b_y b') /\
  (forall x ax, Js.b_x b = Fin x -> Js.a_aimX a = Fin ax ->
                exists c, Js.b_x b' = Fin c /\ r <= c <= WORLD - r) /\
  (forall y ay, Js.b_y b = Fin y -> Js.a_aimY a = Fin ay ->
                exists c, Js.b_y b' = Fin c /\ r <= c <= WORLD - r) /\
  (Js.b_x b = NaN \/ Js.a_aimX a = NaN -> Js.b_x b' = NaN) /\
  (Js.b_y b = NaN \/ Js.a_aimY a = NaN -> Js.b_y b' = NaN).
Proof.
  intros H r v b' inside.
  assert (Hlo : r <= WORLD - r) by (unfold r; lra).
  subst b'. unfold Js.aimBlob. fold r v. cbn [Js.b_x Js.b_y Js.b_r].
  split; [reflexivity|].
  split; [exact (Num_clamp_inside _ r (WORLD - r) Hlo)|].
  split; [exact (Num_clamp_inside _ r (WORLD - r) Hlo)|].
  split; [|split; [|split]].
  - intros x ax -> ->. rewrite Js_aimed_Fin, Num_clamp_Fin. eexists.
    split; [reflexivity|]. split; [apply clamp_lo|now apply clamp_hi].
  - intros y ay -> ->. rewrite Js_aimed_Fin, Num_clamp_Fin. eexists.
    split; [reflexivity|]. split; [apply clamp_lo|now apply clamp_hi].
  - intros Hn. now rewrite (Js_aimed_NaN _ _ v Hn).
  - intros Hn. now rewrite (Js_aimed_NaN _ _ v Hn).
Qed.

Lemma C2_clamp_inside_witness :
  let a := Js.mkAgent "h" "Player" false (mkColor 70 70 70) false
                      (Fin 1) (Fin 0) false 0 [] in
  let b := Js.mkBlob (Fin 5190) (Fin 100) (Fin 0) (Fin 0) 55 36 0 in
  exists c, Js.b_x (Js.aimBlob a 55 b) = Fin c /\ 36 <= c <= WORLD - 36.
Proof.
  intros a b.
  assert (H : 2 * Js.b_r b <= WORLD) by (unfold WORLD; cbn [Js.b_r b]; lra).
  exact (proj1 (proj2 (proj2 (proj2 (C2_clamp_inside a 55 b H))))
               5190 1 eq_refl eq_refl).
Defined.

(** The agent [c2_agent] with one blob, after an [/input] whose [aimX] is
    [Infinity] (the JSON number [1e999]). *)
Definition c2_blob : Js.Blob := Js.mkBlob (Fin 1000) (Fin 1000) (Fin 0) (Fin 0) 55 36 0.
Definition c2_sender : Js.Agent :=
  Js.mkAgent "h" "Player" false (mkColor 70 70 70) false (Fin 0) (Fin 0) false 0
             [c2_blob].
Definition c2_request : Js.InputReq := Js.mkInputReq PInf (Fin 0) false false.

Lemma c2_wide_x :
  b_x (aimBlob c2_agent 100 c2_wide) = 3000.
Proof.
  unfold aimBlob, c2_wide, c2_agent, WORLD; cbn [b_x b_r a_aimX a_boost].
  unfold clamp. rewrite Rmax_left; [reflexivity|].
  apply Rle_trans with (5200 - 3000); [apply Rmin_l|lra].
Qed.

Lemma c2_edge_x :
  b_x (aimBlob c2_agent 55 c2_edge) = WORLD - b_r c2_edge /\
  WORLD - b_r (moveBlob c2_agent 55 c2_edge) < b_x (moveBlob c2_agent 55 c2_edge).
Proof.
  assert (X : b_x (aimBlob c2_agent 55 c2_edge) = 5164).
  { unfold aimBlob, c2_agent, c2_edge; cbn [b_x b_r a_aimX a_boost].
    replace (5164 + 0 * baseSpeed 36 55 false * DT) with 5164 by lra.
    apply clamp_id. unfold WORLD. lra. }
  split; [rewrite X; unfold WORLD, c2_edge; cbn [b_r]; lra|].
  unfold moveBlob, decayBlob, knockBlob.
  change (a_isBot c2_agent) with false. change (a_boost c2_agent) with false.
  cbn [negb andb b_x b_r b_vx]. rewrite X.
  change (b_vx (aimBlob c2_agent 55 c2_edge)) with 580.
  change (b_r (aimBlob c2_agent 55 c2_edge)) with 36.
  unfold WORLD, DT, TICK_RATE. rminmax.
Qed.

(** C2, as stated, fails in three ways.  For a blob wider than the world:
    with radius 3000 the lower bound [r] of the clamp exceeds the upper
    bound [WORLD - r], and [Math.max(lo, Math.min(hi, v))] returns the lower
    bound.  The circle does not stay inside the field: the residual
    velocity is applied after the clamp (line 802), so a blob of radius 36
    clamped at [WORLD - 36] with [vx = 580] ends the movement step of the
    same tick beyond [WORLD - r].  And the centre need not be a number:
    after an [/input] whose [aimX] is [Infinity], [normalize] stores the
    aim [NaN], and the clamp of the next movement step returns [NaN]. *)
Lemma C2_clamp_outside :
  (Js.b_x (Js.aimBlob (ofAgent c2_agent) 100 (ofBlob c2_wide)) = Fin 3000 /\
   WORLD - 3000 < 3000) /\
  (exists x,
      Js.b_x (Js.moveBlob (ofAgent c2_agent) 55 (ofBlob c2_edge)) = Fin x /\
      WORLD - Js.b_r (Js.moveBlob (ofAgent c2_agent) 55 (ofBlob c2_edge)) < x) /\
  (let a := Js.inputAgent c2_sender 1 c2_request in
   Js.a_aimX a = NaN /\ Js.a_blobs a = [c2_blob] /\
   forall total, Js.b_x (Js.aimBlob a total c2_blob) = NaN).
Proof.
  split; [|split].
  - rewrite Js_aimBlob_of. cbn [ofBlob Js.b_x]. rewrite c2_wide_x.
    split; [reflexivity|unfold WORLD; lra].
  - rewrite Js_moveBlob_of. cbn [ofBlob Js.b_x Js.b_r].
    eexists. split; [reflexivity|]. exact (proj2 c2_edge_x).
  - cbn zeta. split; [reflexivity|]. split; [reflexivity|].
    intros total. unfold Js.aimBlob. cbn [Js.b_x].
    rewrite Js_aimed_NaN; [reflexivity|]. right. reflexivity.
Qed.

Lemma Num_mul_NaN_l c : Num.mul NaN c = NaN.
Proof. reflexivity. Qed.

(** C3 (amended).  A split request selects the first blob of largest
    radius.  When its radius is at least [14 * 2.2], it keeps half of its
    mass and its place in the collection, its radius shrinks to
    [max(14, 0.72 r)], and a sibling with the other half of the mass is
    appended, displaced from it by [r' + 8] (r' the shrunken radius) times
    [dir = normalize(aim)], with velocity 580 times [dir]; both split
    timers are 0 and the agent's total mass is unchanged.  For a blob with
    a finite centre: when [dir] is a pair of numbers of length 1 the
    sibling's centre is at distance [r' + 8] from the original's, outside
    it; when [dir] is the zero vector the sibling lies on the original's
    centre, without velocity; when a component of [dir] is [NaN] the
    sibling's coordinate and velocity on that axis are [NaN].  A finite aim
    gives the first case from the length 1e-6 on and the second below it
    (and when its length overflows); an aim with a [NaN] gives [NaN] in
    both components.  When the radius is below [14 * 2.2] (or the agent
    has no blob) the agent is unchanged. *)
Theorem C3_split (a : Js.Agent) :
  let blobs := Js.a_blobs a in
  let best := Js.bestIndex blobs in
  let dir := Num.normalize (Js.a_aimX a) (Js.a_aimY a) in
  (blobs <> [] ->
   exists b, nth_error blobs best = Some b /\
     (forall j bj, nth_error blobs j = Some bj -> Js.b_r bj <= Js.b_r b) /\
     (forall j bj, (j < best)%nat -> nth_error blobs j = Some bj ->
                   Js.b_r bj < Js.b_r b)) /\
  (forall b, nth_error blobs best = Some b -> 14 * (22 / 10) <= Js.b_r b ->
   exists b' s,
     Js.a_blobs (Js.split a) = setAt best b' blobs ++ [s] /\
     Js.b_mass b' + Js.b_mass s = Js.b_mass b /\
     Js.b_mass b' = Js.b_mass b / 2 /\ Js.b_mass s = Js.b_mass b / 2 /\
     Js.b_x b' = Js.b_x b /\ Js.b_y b' = Js.b_y b /\
     Js.b_r b' = Rmax 14 (Js.b_r b * (72 / 100)) /\
     Js.b_x s = Num.add (Js.b_x b') (Num.mul (fst dir) (Fin (Js.b_r b' + 8))) /\
     Js.b_y s = Num.add (Js.b_y b') (Num.mul (snd dir) (Fin (Js.b_r b' + 8))) /\
     Js.b_vx s = Num.mul (fst dir) (Fin 580) /\
     Js.b_vy s = Num.mul (snd dir) (Fin 580) /\
     Js.b_splitTimer b' = 0 /\ Js.b_splitTimer s = 0 /\
     Js.agentMass (Js.split a) = Js.agentMass a /\
     (forall x y dx dy,
         Js.b_x b = Fin x -> Js.b_y b = Fin y -> dir = (Fin dx, Fin dy) ->
         exists sx sy,
           Js.b_x s = Fin sx /\ Js.b_y s = Fin sy /\
           Js.b_vx s = Fin (dx * 580) /\ Js.b_vy s = Fin (dy * 580) /\
           (dx * dx + dy * dy = 1 ->
            hypot (sx - x) (sy - y) = Js.b_r b' + 8 /\
            Js.b_r b' < hypot (sx - x) (sy - y)) /\
           (dx = 0 -> dy = 0 -> sx = x /\ sy = y)) /\
     (fst dir = NaN -> Js.b_x s = NaN /\ Js.b_vx s = NaN) /\
     (snd dir = NaN -> Js.b_y s = NaN /\ Js.b_vy s = NaN)) /\
  (forall b, nth_error blobs best = Some b -> Js.b_r b < 14 * (22 / 10) ->
   Js.split a = a) /\
  (blobs = [] -> Js.split a = a) /\
  (forall ax ay,
      Js.a_aimX a = Fin ax -> Js.a_aimY a = Fin ay ->
      (1 / 1000000 <= hypot ax ay <= Num.MAX_VALUE ->
       exists dx dy, dir = (Fin dx, Fin dy) /\ dx * dx + dy * dy = 1 /\
                     ax = hypot ax ay * dx /\ ay = hypot ax ay * dy) /\
      (hypot ax ay < 1 / 1000000 \/ Num.MAX_VALUE < hypot ax ay ->
       dir = (Fin 0, Fin 0))) /\
  (Js.a_aimX a = NaN \/ Js.a_aimY a = NaN -> dir = (NaN, NaN)).
Proof.
  intros blobs best dir. split; [|split; [|split; [|split; [|split]]]].
  - apply Js_bestIndex_spec.
  - intros b Hb Hr.
    exists (Js.splitKeep b),
           (Js.splitSibling dir (Js.b_mass b * (5 / 10)) (Js.splitKeep b)).
    assert (Hs : Js.a_blobs (Js.split a) =
                 setAt best (Js.splitKeep b) blobs ++
                 [Js.splitSibling dir (Js.b_mass b * (5 / 10)) (Js.splitKeep b)]).
    { unfold Js.split. fold blobs best. rewrite Hb.
      destruct (Rgeb (Js.b_r b) (14 * (22 / 10))) eqn:E;
        [reflexivity | apply Rgeb_false in E; lra]. }
    split; [exact Hs|].
    cbn [Js.splitKeep Js.splitSibling Js.b_mass Js.b_x Js.b_y Js.b_r Js.b_vx
         Js.b_vy Js.b_splitTimer].
    repeat (split; [first [reflexivity | lra]|]).
    set (r' := Rmax 14 (Js.b_r b * (72 / 100))).
    assert (Hr' : 14 <= r') by (unfold r'; apply Rmax_l).
    split; [|split; [|split]].
    + rewrite !Js_agentMass, Hs, map_app, map_setAt, massSum_app.
      rewrite (massSum_setAt (map shadow blobs) best (shadow b)
                             (shadow (Js.splitKeep b))).
      2:{ rewrite nth_error_map. fold blobs in Hb. now rewrite Hb. }
      cbn [map]. rewrite massSum_cons. change (massSum []) with 0.
      cbn [shadow Js.splitKeep Js.splitSibling Js.b_mass b_mass]. fold blobs. lra.
    + intros x y dx dy -> -> ->. cbn [fst snd Num.add Num.mul].
      eexists _, _. split; [reflexivity|]. split; [reflexivity|].
      split; [reflexivity|]. split; [reflexivity|]. split.
      * intros Hu.
        replace (x + dx * (r' + 8) - x) with (dx * (r' + 8)) by lra.
        replace (y + dy * (r' + 8) - y) with (dy * (r' + 8)) by lra.
        assert (E : hypot (dx * (r' + 8)) (dy * (r' + 8)) = r' + 8).
        { unfold hypot.
          replace (dx * (r' + 8) * (dx * (r' + 8)) + dy * (r' + 8) * (dy * (r' + 8)))
            with ((r' + 8) * (r' + 8)) by nra.
          apply sqrt_square. lra. }
        rewrite E. split; [reflexivity|lra].
      * intros -> ->. split; lra.
    + intros ->. rewrite Num_mul_NaN_l, Num_add_NaN_r. now split.
    + intros ->. rewrite Num_mul_NaN_l, Num_add_NaN_r. now split.
  - intros b Hb Hr. unfold Js.split. fold blobs best. rewrite Hb.
    destruct (Rgeb (Js.b_r b) (14 * (22 / 10))) eqn:E;
      [apply Rgeb_true in E; lra | reflexivity].
  - intros Hnil. unfold Js.split. fold blobs. rewrite Hnil. reflexivity.
  - intros ax ay Hx Hy. unfold dir. rewrite Hx, Hy. split.
    + intros [H1 H2]. rewrite (Num_normalize_Fin ax ay H2).
      destruct (normalize_cases ax ay) as [[H _]|[_ [E Hu]]]; [lra|].
      eexists _, _. split; [reflexivity|]. split; [exact Hu|].
      rewrite E. cbn [fst snd]. split; field; lra.
    + intros [H|H].
      * assert (H2 : hypot ax ay <= Num.MAX_VALUE)
          by (pose proof MAX_VALUE_big; lra).
        rewrite (Num_normalize_Fin ax ay H2), (normalize_near ax ay H). reflexivity.
      * apply Num_normalize_over. exact H.
  - intros [H|H]; unfold dir; rewrite H;
      [apply Num_normalize_NaN_l|apply Num_normalize_NaN_r].
Qed.

Lemma C3_split_witness :
  let a := Js.mkAgent "h" "Player" false (mkColor 70 70 70) false
                      (Fin 1) (Fin 0) false 0
                      [Js.mkBlob (Fin 100) (Fin 100) (Fin 0) (Fin 0) 55 36 999] in
  exists b' s,
    Js.a_blobs (Js.split a) = [b'; s] /\ Js.b_mass b' + Js.b_mass s = 55 /\
    Js.b_splitTimer b' = 0 /\ Js.b_splitTimer s = 0.
Proof.
  intros a.
  assert (Hr : 14 * (22 / 10)
               <= Js.b_r (Js.mkBlob (Fin 100) (Fin 100) (Fin 0) (Fin 0) 55 36 999))
    by (cbn [Js.b_r]; lra).
  destruct (proj1 (proj2 (C3_split a))
                  (Js.mkBlob (Fin 100) (Fin 100) (Fin 0) (Fin 0) 55 36 999)
                  eq_refl Hr)
    as (b' & s & Hs & Hm & _ & _ & _ & _ & _ & _ & _ & _ & _ & Ht1 & Ht2 & _).
  exists b', s. repeat split; assumption.
Defined.

(** An agent that has just joined, and an agent with the same blob after an
    [/input] whose [aimX] is [Infinity] (the JSON number [1e999]) and that
    asks for a split. *)
Definition c3_blob : Js.Blob :=
  Js.mkBlob (Fin 100) (Fin 100) (Fin 0) (Fin 0) 55 36 999.
Definition c3_joined : Js.Agent :=
  Js.mkAgent "h" "Player" false (mkColor 70 70 70) false (Fin 0) (Fin 0) false 0
             [c3_blob].
Definition c3_request : Js.InputReq := Js.mkInputReq PInf (Fin 0) false true.

Lemma c3_best : Rgeb (Js.b_r c3_blob) (14 * (22 / 10)) = true.
Proof. apply Rgeb_true. cbn [c3_blob Js.b_r]. lra. Qed.

(** C3, as stated, fails in two ways.  The aim of an agent that has just
    joined is the zero vector, and [normalize] maps it to the zero vector:
    a split then puts the sibling at the centre of the original, inside
    it, with no velocity at all.  And after an [/input] whose [aimX] is
    [Infinity], the aim stored is [NaN] and the sibling of the split that
    the same request asks for has [NaN] for its centre and its velocity. *)
Lemma C3_zero_aim_sibling :
  (exists b' s,
      Js.a_blobs (Js.split c3_joined) = [b'; s] /\
      Js.b_x s = Js.b_x b' /\ Js.b_y s = Js.b_y b' /\
      Js.b_vx s = Fin 0 /\ Js.b_vy s = Fin 0 /\
      Js.b_x b' = Fin 100 /\ Js.b_y b' = Fin 100 /\ 0 < Js.b_r b') /\
  (exists b' s,
      Js.a_blobs (Js.inputAgent c3_joined 1 c3_request) = [b'; s] /\
      Js.a_aimX (Js.inputAgent c3_joined 1 c3_request) = NaN /\
      Js.b_x s = NaN /\ Js.b_y s = NaN /\ Js.b_vx s = NaN /\ Js.b_vy s = NaN).
Proof.
  assert (N : Num.normalize (Fin 0) (Fin 0) = (Fin 0, Fin 0)).
  { rewrite Num_normalize_Fin by (rewrite hypot_0; pose proof MAX_VALUE_big; lra).
    now rewrite normalize_0. }
  split.
  - unfold Js.split, c3_joined.
    cbn [Js.a_blobs Js.bestIndex List.length Nat.sub seq fold_left nth_error
         Js.a_aimX Js.a_aimY].
    rewrite c3_best, N. cbn [Js.setBlobs Js.a_blobs setAt app].
    eexists _, _. split; [reflexivity|].
    cbn [Js.splitKeep Js.splitSibling Js.b_x Js.b_y Js.b_vx Js.b_vy Js.b_r fst snd
         c3_blob Num.add Num.mul].
    repeat split; try (f_equal; lra).
    pose proof (Rmax_l 14 (36 * (72 / 100))). lra.
  - unfold Js.inputAgent, c3_request.
    cbn [Js.iq_aimX Js.iq_aimY Js.iq_boost Js.iq_split Num.orZero].
    change (Num.normalize PInf (Fin 0)) with (NaN, Fin 0).
    unfold Js.split, Js.touch, c3_joined.
    cbn [Js.a_blobs Js.bestIndex List.length Nat.sub seq fold_left nth_error
         Js.a_aimX Js.a_aimY fst snd].
    rewrite c3_best. change (Num.normalize NaN (Fin 0)) with (NaN, NaN).
    cbn [Js.setBlobs Js.a_blobs Js.a_aimX setAt app].
    eexists _, _. split; [reflexivity|]. now repeat split.
Qed.

(** ** The movement step, with residual velocity and decay *)

Lemma clamp_between v lo hi : lo <= hi -> lo <= clamp v lo hi <= hi.
Proof. intros H. split; [apply clamp_lo|now apply clamp_hi]. Qed.

Lemma Rabs_bounds x : - Rabs x <= x <= Rabs x.
Proof. unfold Rabs; destruct (Rcase_abs x); lra. Qed.

(** X21.  The movement step of a tick (lines 795-815) for a blob whose radius
    is at most half the world size.  The residual velocity is applied
    after the boundary clamp and then loses 19% of itself, and the split
    timer advances by 1/20.  With a finite centre, aim and velocity the
    blob ends at most [|v| / 20] outside the clamp interval on each axis;
    with a [NaN] aim its centre is [NaN] from then on.  The mass ends
    between 10 and the larger of 10 and what it was, the radius between 14
    and the larger of 14 and what it was.  A bot loses 0.008 of mass per
    tick whether it boosts or not, a human that does not boost 0.011; a
    boosting human whose blob holds no more than the agent's total mass,
    itself at least 10, loses at most 0.0875 more. *)
Theorem move_step (a : Js.Agent) (total : R) (b : Js.Blob) :
  2 * Js.b_r b <= WORLD ->
  let b' := Js.moveBlob a total b in
  Js.b_vx b' = Num.mul (Js.b_vx b) (Fin (81 / 100)) /\
  Js.b_vy b' = Num.mul (Js.b_vy b) (Fin (81 / 100)) /\
  Js.b_splitTimer b' = Js.b_splitTimer b + 1 / 20 /\
  (forall x ax vx,
      Js.b_x b = Fin x -> Js.a_aimX a = Fin ax -> Js.b_vx b = Fin vx ->
      exists x', Js.b_x b' = Fin x' /\
                 Js.b_r b - Rabs vx / 20 <= x' <= WORLD - Js.b_r b + Rabs vx / 20) /\
  (forall y ay vy,
      Js.b_y b = Fin y -> Js.a_aimY a = Fin ay -> Js.b_vy b = Fin vy ->
      exists y', Js.b_y b' = Fin y' /\
                 Js.b_r b - Rabs vy / 20 <= y' <= WORLD - Js.b_r b + Rabs vy / 20) /\
  (Js.a_aimX a = NaN -> Js.b_x b' = NaN) /\
  (Js.a_aimY a = NaN -> Js.b_y b' = NaN) /\
  10 <= Js.b_mass b' <= Rmax 10 (Js.b_mass b) /\
  14 <= Js.b_r b' <= Rmax 14 (Js.b_r b) /\
  (Js.a_isBot a = true -> Js.b_mass b' = Rmax 10 (Js.b_mass b - 8 / 1000)) /\
  (Js.a_isBot a = false -> Js.a_boost a = false ->
   Js.b_mass b' = Rmax 10 (Js.b_mass b - 11 / 1000)) /\
  (Js.a_isBot a = false -> Js.a_boost a = true -> 10 <= total ->
   Js.b_mass b <= total ->
   Js.b_mass b - 11 / 1000 - 875 / 10000 <= Js.b_mass b').
Proof.
  intros Hr b'.
  assert (Hc : clamp (DT * (38 / 10)) 0 1 = 19 / 100).
  { unfold DT, TICK_RATE. rewrite clamp_id; lra. }
  assert (Hpos : forall c aim vel x ax vx,
             c = Fin x -> aim = Fin ax -> vel = Fin vx ->
             exists x',
               Num.add (Num.clamp (Js.aimed c aim (baseSpeed (Js.b_r b) total (Js.a_boost a)))
                                  (Fin (Js.b_r b)) (Fin (WORLD - Js.b_r b)))
                       (Num.mul vel (Fin DT)) = Fin x' /\
               Js.b_r b - Rabs vx / 20 <= x' <= WORLD - Js.b_r b + Rabs vx / 20).
  { intros c aim vel x ax vx -> -> ->.
    rewrite Js_aimed_Fin, Num_clamp_Fin. cbn [Num.mul Num.add].
    eexists. split; [reflexivity|].
    pose proof (clamp_between (x + ax * baseSpeed (Js.b_r b) total (Js.a_boost a) * DT)
                              (Js.b_r b) (WORLD - Js.b_r b) ltac:(lra)) as Hx.
    pose proof (Rabs_bounds vx).
    generalize dependent (clamp (x + ax * baseSpeed (Js.b_r b) total (Js.a_boost a) * DT)
                                (Js.b_r b) (WORLD - Js.b_r b)).
    intros c Hx. unfold DT, TICK_RATE. lra. }
  assert (Hnan : forall c aim vel,
             aim = NaN ->
             Num.add (Num.clamp (Js.aimed c aim (baseSpeed (Js.b_r b) total (Js.a_boost a)))
                                (Fin (Js.b_r b)) (Fin (WORLD - Js.b_r b)))
                     (Num.mul vel (Fin DT)) = NaN).
  { intros c aim vel ->. rewrite Js_aimed_NaN by now right. reflexivity. }
  subst b'. unfold Js.moveBlob, Js.decayBlob, Js.knockBlob, Js.aimBlob.
  cbn [Js.b_x Js.b_y Js.b_vx Js.b_vy Js.b_mass Js.b_r Js.b_splitTimer].
  rewrite Hc. clear Hc.
  replace (1 - 19 / 100) with (81 / 100) by lra.
  destruct (Js.a_isBot a) eqn:Eb; cbn [negb andb];
    [|destruct (Js.a_boost a) eqn:Eboost];
    cbn [Js.b_x Js.b_y Js.b_vx Js.b_vy Js.b_mass Js.b_r Js.b_splitTimer].
  - split; [reflexivity|]. split; [reflexivity|].
    split; [unfold DT, TICK_RATE; lra|].
    split; [intros x ax vx; apply Hpos|]. split; [intros y ay vy; apply Hpos|].
    split; [apply Hnan|]. split; [apply Hnan|].
    unfold DT, TICK_RATE.
    split; [rminmax; lra|]. split; [rminmax; lra|].
    split; [intros _; f_equal; lra|]. split; intros; discriminate.
  - set (m1 := Rmax 10 (Js.b_mass b - 22 / 100 * DT)).
    assert (Hm1 : 10 <= m1 <= Rmax 10 (Js.b_mass b))
      by (unfold m1, DT, TICK_RATE; rminmax; lra).
    assert (Hq0 : 0 <= m1 / Rmax 1 total).
    { apply Rmult_le_pos; [lra|]. apply Rlt_le, Rinv_0_lt_compat. rminmax; lra. }
    assert (Hq1 : 10 <= total -> Js.b_mass b <= total -> m1 / Rmax 1 total <= 1).
    { intros Ht Hm.
      apply (Rdiv_between m1 (Rmax 1 total) 0 1); rminmax; lra. }
    set (q := m1 / Rmax 1 total) in *. clearbody q.
    assert (Hm1' : Js.b_mass b - 11 / 1000 <= m1)
      by (unfold m1, DT, TICK_RATE; rminmax; lra).
    clearbody m1.
    split; [reflexivity|]. split; [reflexivity|].
    split; [unfold DT, TICK_RATE; lra|].
    split; [intros x ax vx; apply Hpos|]. split; [intros y ay vy; apply Hpos|].
    split; [apply Hnan|]. split; [apply Hnan|].
    unfold DT, TICK_RATE.
    split; [rminmax; lra|]. split; [rminmax; lra|].
    split; [discriminate|]. split; [discriminate|].
    intros _ _ Ht Hm. specialize (Hq1 Ht Hm). rminmax; lra.
  - split; [reflexivity|]. split; [reflexivity|].
    split; [unfold DT, TICK_RATE; lra|].
    split; [intros x ax vx; apply Hpos|]. split; [intros y ay vy; apply Hpos|].
    split; [apply Hnan|]. split; [apply Hnan|].
    unfold DT, TICK_RATE.
    split; [rminmax; lra|]. split; [rminmax; lra|].
    split; [discriminate|]. split; [intros _ _; f_equal; lra|]. discriminate.
Qed.

Lemma move_step_witness :
  Js.b_vx (Js.moveBlob (ofAgent c2_agent) 55 (ofBlob c2_edge))
  = Num.mul (Fin 580) (Fin (81 / 100)).
Proof.
  apply (move_step (ofAgent c2_agent) 55 (ofBlob c2_edge)).
  unfold WORLD, c2_edge. cbn [ofBlob Js.b_r b_r]. lra.
Defined.

(** ** [normalize] and [clamp] *)

Lemma hypot_scale k x y : 0 <= k -> hypot (k * x) (k * y) = k * hypot x y.
Proof.
  intros Hk. unfold hypot.
  replace (k * x * (k * x) + k * y * (k * y)) with (k * k * (x * x + y * y)) by ring.
  rewrite sqrt_mult by nra. now rewrite sqrt_square.
Qed.

(** X26.  [normalize] and [clamp] on every value of a number.  For two
    finite values whose length does not overflow, [normalize] is the
    [normalize] of the reals: the zero vector for a vector shorter than
    1e-6, and for any other the unit vector of the same direction (the
    vector is its own length times the result), so that the result does
    not depend on the length of a vector that is long enough and
    normalising twice is normalising once.  For two finite values whose
    length overflows it is the zero vector.  A [NaN] argument gives [NaN]
    in both components, an infinite argument [NaN] in its own and 0 in a
    finite other one.  [clamp(v, lo, hi)] with finite bounds is [NaN] for
    [NaN]; for a finite [v] it is the [clamp] of the reals, which lies in
    [lo, hi] and is the point of that interval nearest to [v] when
    [lo <= hi], and is [lo] when [hi < lo]; [Infinity] gives the larger of
    the bounds and [-Infinity] gives [lo]. *)
Theorem helpers :
  (forall x y, hypot x y <= Num.MAX_VALUE ->
               Num.normalize (Fin x) (Fin y)
               = (Fin (fst (normalize x y)), Fin (snd (normalize x y)))) /\
  (forall x y, hypot x y < 1 / 1000000 -> normalize x y = (0, 0)) /\
  (forall x y, 1 / 1000000 <= hypot x y ->
               hypot (fst (normalize x y)) (snd (normalize x y)) = 1 /\
               x = hypot x y * fst (normalize x y) /\
               y = hypot x y * snd (normalize x y)) /\
  (forall k x y, 0 < k -> 1 / 1000000 <= hypot x y ->
                 1 / 1000000 <= k * hypot x y ->
                 normalize (k * x) (k * y) = normalize x y) /\
  (forall x y, normalize (fst (normalize x y)) (snd (normalize x y))
               = normalize x y) /\
  (forall x y, Num.MAX_VALUE < hypot x y ->
               Num.normalize (Fin x) (Fin y) = (Fin 0, Fin 0)) /\
  (forall v, Num.normalize NaN v = (NaN, NaN) /\ Num.normalize v NaN = (NaN, NaN)) /\
  (forall y, Num.normalize PInf (Fin y) = (NaN, Fin 0) /\
             Num.normalize NInf (Fin y) = (NaN, Fin 0) /\
             Num.normalize (Fin y) PInf = (Fin 0, NaN) /\
             Num.normalize (Fin y) NInf = (Fin 0, NaN)) /\
  (forall lo hi, Num.clamp NaN (Fin lo) (Fin hi) = NaN /\
                 Num.clamp PInf (Fin lo) (Fin hi) = Fin (Rmax lo hi) /\
                 Num.clamp NInf (Fin lo) (Fin hi) = Fin lo) /\
  (forall v lo hi, Num.clamp (Fin v) (Fin lo) (Fin hi) = Fin (clamp v lo hi)) /\
  (forall v lo hi, lo <= hi ->
                   lo <= clamp v lo hi <= hi /\
                   forall w, lo <= w <= hi ->
                             Rabs (v - clamp v lo hi) <= Rabs (v - w)) /\
  (forall v lo hi, hi < lo -> clamp v lo hi = lo).
Proof.
  assert (Hunit : forall x y, 1 / 1000000 <= hypot x y ->
                    hypot (fst (normalize x y)) (snd (normalize x y)) = 1 /\
                    x = hypot x y * fst (normalize x y) /\
                    y = hypot x y * snd (normalize x y)).
  { intros x y H. destruct (normalize_cases x y) as [[H1 _]|[_ [H2 H3]]]; [lra|].
    split.
    - unfold hypot at 1. rewrite H3. apply sqrt_1.
    - rewrite H2. cbn [fst snd]. split; field; lra. }
  split; [exact Num_normalize_Fin|].
  split; [exact normalize_near|]. split; [exact Hunit|].
  split; [|split; [|split; [|split; [|split; [|split; [|split; [|split]]]]]]].
  - intros k x y Hk H1 H2.
    destruct (normalize_cases x y) as [[H _]|[_ [E1 _]]]; [lra|].
    destruct (normalize_cases (k * x) (k * y)) as [[H _]|[_ [E2 _]]].
    + rewrite hypot_scale in H by lra. lra.
    + rewrite E1, E2, hypot_scale by lra. f_equal; field; lra.
  - intros x y. destruct (normalize_cases x y) as [[H1 H2]|[H1 [H2 H3]]].
    + rewrite H2. cbn [fst snd]. apply normalize_near. rewrite hypot_0. lra.
    + destruct (Hunit x y H1) as (U & _ & _).
      destruct (normalize_cases (fst (normalize x y)) (snd (normalize x y)))
        as [[H _]|[_ [E _]]]; [lra|].
      rewrite E, U. destruct (normalize x y) as [a b]. cbn [fst snd]. f_equal; field.
  - exact Num_normalize_over.
  - intros v. split; [apply Num_normalize_NaN_l|apply Num_normalize_NaN_r].
  - intros y. repeat split.
  - intros lo hi. repeat split.
  - reflexivity.
  - intros v lo hi H. split; [split; [apply clamp_lo|now apply clamp_hi]|].
    intros w Hw. unfold Rabs. rminmax;
      repeat match goal with
             | |- context [Rcase_abs ?a] => destruct (Rcase_abs a)
             end; lra.
  - intros v lo hi H. rminmax.
Qed.

Lemma helpers_witness : normalize (2 * 3) (2 * 4) = normalize 3 4.
Proof.
  assert (H : hypot 3 4 = 5).
  { unfold hypot. replace (3 * 3 + 4 * 4) with (5 * 5) by lra.
    apply sqrt_square. lra. }
  apply (proj1 (proj2 (proj2 (proj2 helpers))) 2 3 4); rewrite ?H; lra.
Defined.

(* ================================================================== *)
(** * The two earlier servers of the file (lines 1-566) *)

(** [src/server.js] holds three servers one after the other.  The first
    two (lines 1-260 and 261-566) share their helpers and the shape of
    their tick; they differ in the constants of the pass in which players
    eat players, in the age at which an unused room is deleted, in who may
    eat pellets, and in the bots, which only the second one has.  This
    module embeds, for both, what the tick loop does to one room. *)
Module Legacy.

Definition WORLD_SIZE : R := 5200.

(** The sources of a room's tick: [uuid()], [Math.random()], [Date.now()]. *)
Record Src := mkSrc { s_env : Env; uuidAt : nat -> string; uuidIdx : nat }.

Definition L (A : Type) : Type := Src -> A * Src.

Definition ret {A} (a : A) : L A := fun s => (a, s).
Definition bind {A B} (m : L A) (k : A -> L B) : L B :=
  fun s => let (a, s') := m s in k a s'.

Notation "x <~ m ;; k" := (bind m (fun x => k))
  (at level 61, m at next level, right associativity).

Definition uuid : L string :=
  fun s => (uuidAt s (uuidIdx s), mkSrc (s_env s) (uuidAt s) (S (uuidIdx s))).

Definition random : L R :=
  fun s => let e := s_env s in
           (mathRandomAt e (mrIdx e),
            mkSrc (mkEnv (mathRandomAt e) (S (mrIdx e)) (dateNowAt e) (clkIdx e))
                  (uuidAt s) (uuidIdx s)).

Definition dateNow : L R :=
  fun s => let e := s_env s in
           (dateNowAt e (clkIdx e),
            mkSrc (mkEnv (mathRandomAt e) (mrIdx e) (dateNowAt e) (S (clkIdx e)))
                  (uuidAt s) (uuidIdx s)).

(** [function rand(min, max)] (lines 21 and 295) *)
Definition rand (min max : R) : L R :=
  u <~ random ;; ret (u * (max - min) + min).

(** [function normalize(v)] (lines 29 and 305) *)
Definition normalize (v : R * R) : R * R :=
  let d := sqrt (fst v * fst v + snd v * snd v) in
  if Rltb d (1 / 1000) then (0, 0) else (fst v / d, snd v / d).

(** [function dist(a, b)] (lines 35 and 299), on the coordinates of [a] and [b] *)
Definition dist (ax ay bx by_ : R) : R :=
  let dx := ax - bx in
  let dy := ay - by_ in
  sqrt (dx * dx + dy * dy).

(** [Math.max(1.2, 7.5 - mass * 0.003)] (lines 203, 487 and 501) *)
Definition speed (mass : R) : R := Rmax (12 / 10) (75 / 10 - mass * (3 / 1000)).

(** A value of the request body that the server only stores: its JSON text. *)
Definition Json : Type := string.

Record Pellet := mkPellet {
  pe_id : string; pe_x : R; pe_y : R; pe_r : R; pe_value : R
}.

Record Virus := mkVirus { vi_id : string; vi_x : R; vi_y : R; vi_r : R }.

Record Bot := mkBot {
  bo_id : string; bo_name : string;
  bo_x : R; bo_y : R; bo_mass : R; bo_vx : R; bo_vy : R
}.

(** [input] is what the last [/input] request carried in its field [input]:
    [Some (x, y)] for an object with two finite numbers whose squares do
    not overflow, [None] when the field was absent or [null].  Every other
    value that the field can have is in [LegacyJs.Input], with the move it
    leads to. *)
Record Player := mkPlayer {
  pl_id : string; pl_name : Json; pl_color : Json; pl_pattern : Json;
  pl_x : R; pl_y : R; pl_vx : R; pl_vy : R;
  pl_mass : R; pl_alive : bool; pl_input : option (R * R)
}.

(** The objects [players] and [bots] are keyed by [uuid()] strings, which
    [for ... in] and [Object.values] visit in the order of insertion.
    Only the rooms of the first server have the field [created]. *)
Record Room := mkRoom {
  ro_players : list (string * Player);
  ro_bots : list (string * Bot);
  ro_pellets : list Pellet;
  ro_viruses : list Virus;
  ro_created : option R;
  ro_lastActive : R
}.

Definition setPos (p : Player) (x y : R) : Player :=
  mkPlayer (pl_id p) (pl_name p) (pl_color p) (pl_pattern p) x y (pl_vx p) (pl_vy p)
           (pl_mass p) (pl_alive p) (pl_input p).

Definition addMass (p : Player) (m : R) : Player :=
  mkPlayer (pl_id p) (pl_name p) (pl_color p) (pl_pattern p) (pl_x p) (pl_y p)
           (pl_vx p) (pl_vy p) (pl_mass p + m) (pl_alive p) (pl_input p).

Definition kill (p : Player) : Player :=
  mkPlayer (pl_id p) (pl_name p) (pl_color p) (pl_pattern p) (pl_x p) (pl_y p)
           (pl_vx p) (pl_vy p) (pl_mass p) false (pl_input p).

(** *** Players move (lines 199-207 and 496-505) *)

(** [None]: [normalize(p.input)] reads [x] of [undefined] and throws. *)
Definition movePlayer (p : Player) : option Player :=
  if negb (pl_alive p) then Some p
  else match pl_input p with
       | None => None
       | Some v =>
           let dir := normalize v in
           let sp := speed (pl_mass p) in
           Some (setPos p (pl_x p + fst dir * sp) (pl_y p + snd dir * sp))
       end.

Fixpoint movePlayers (players : list (string * Player))
  : option (list (string * Player)) :=
  match players with
  | [] => Some []
  | (k, p) :: rest =>
      match movePlayer p with
      | None => None
      | Some p' =>
          match movePlayers rest with
          | None => None
          | Some rest' => Some ((k, p') :: rest')
          end
      end
  end.

(** *** Players eat pellets (lines 210-219 and 510-521) *)

(** [for (let i = pellets.length - 1; i >= 0; i--)] for one player. *)
Fixpoint eatPellets (p : Player) (pellets : list Pellet) : Player * list Pellet :=
  match pellets with
  | [] => (p, [])
  | pel :: rest =>
      let (p1, rest') := eatPellets p rest in
      if Rltb (dist (pl_x p1) (pl_y p1) (pe_x pel) (pe_y pel))
              (pl_mass p1 * (25 / 100))
      then (addMass p1 (pe_value pel), rest')
      else (p1, pel :: rest')
  end.

(** The second server skips the players that are not alive (line 512);
    the first one does not. *)
Fixpoint eatPhase (aliveOnly : bool) (players : list (string * Player))
  (pellets : list Pellet) : list (string * Player) * list Pellet :=
  match players with
  | [] => ([], pellets)
  | (k, p) :: rest =>
      if aliveOnly && negb (pl_alive p) then
        let (rest', ps) := eatPhase aliveOnly rest pellets in ((k, p) :: rest', ps)
      else
        let (p', ps1) := eatPellets p pellets in
        let (rest', ps2) := eatPhase aliveOnly rest ps1 in
        ((k, p') :: rest', ps2)
  end.

(** *** Pellets respawn (lines 222-230 and 526-534) *)

Definition newPellet : L Pellet :=
  id <~ uuid ;;
  x <~ rand (- WORLD_SIZE) WORLD_SIZE ;;
  y <~ rand (- WORLD_SIZE) WORLD_SIZE ;;
  r <~ rand 4 8 ;;
  value <~ rand 1 3 ;;
  ret (mkPellet id x y r value).

Fixpoint pushPellets (n : nat) (pellets : list Pellet) : L (list Pellet) :=
  match n with
  | O => ret pellets
  | S n' => p <~ newPellet ;; pushPellets n' (pellets ++ [p])
  end.

(** [while (pellets.length < 500) pellets.push(...)] *)
Definition respawn (pellets : list Pellet) : L (list Pellet) :=
  pushPellets (500 - List.length pellets) pellets.

(** *** Players eat players (lines 233-248 and 539-554) *)

(** The body of the [j] loop.  [ratio], [reach] and [gain] are 1.22, 0.22
    and 0.9 in the first server, 1.25, 0.20 and 0.85 in the second. *)
Definition pvpStep (ratio reach gain : R) (i : nat) (arr : list Player) (j : nat)
  : list Player :=
  if Nat.eqb i j then arr
  else
    match nth_error arr i, nth_error arr j with
    | Some A, Some B =>
        if negb (pl_alive A) || negb (pl_alive B) then arr
        else if Rgtb (pl_mass A) (pl_mass B * ratio) &&
                Rltb (dist (pl_x A) (pl_y A) (pl_x B) (pl_y B)) (pl_mass A * reach)
             then setAt j (kill B) (setAt i (addMass A (pl_mass B * gain)) arr)
             else arr
    | _, _ => arr
    end.

Definition pvpRow (ratio reach gain : R) (arr : list Player) (i : nat) : list Player :=
  fold_left (pvpStep ratio reach gain i) (seq 0 (List.length arr)) arr.

(** [Object.values(players)] holds the player objects themselves. *)
Definition pvpPhase (ratio reach gain : R) (players : list (string * Player))
  : list (string * Player) :=
  let arr := map snd players in
  let arr' := fold_left (pvpRow ratio reach gain) (seq 0 (List.length arr)) arr in
  combine (map fst players) arr'.

(** *** Bots wander (lines 479-491, second server only) *)

Definition moveBot (b : Bot) : L Bot :=
  dvx <~ rand (- (5 / 10)) (5 / 10) ;;
  dvy <~ rand (- (5 / 10)) (5 / 10) ;;
  let vx := bo_vx b + dvx in
  let vy := bo_vy b + dvy in
  let n := normalize (vx, vy) in
  let sp := speed (bo_mass b) in
  ret (mkBot (bo_id b) (bo_name b) (bo_x b + fst n * sp) (bo_y b + snd n * sp)
             (bo_mass b) vx vy).

Fixpoint moveBots (bots : list (string * Bot)) : L (list (string * Bot)) :=
  match bots with
  | [] => ret []
  | (k, b) :: rest =>
      b' <~ moveBot b ;;
      rest' <~ moveBots rest ;;
      ret ((k, b') :: rest')
  end.

(** *** The tick of one room *)

(** What the loop does with a room: it deletes it, it throws (nothing
    catches the error), or it leaves the room ticked. *)
Inductive Outcome :=
| Deleted
| Threw
| Ticked (room : Room).

(** Lines 189-248. *)
Definition tickV1 (room : Room) : L Outcome :=
  now <~ dateNow ;;
  if Rgtb (now - ro_lastActive room) (1000 * 60 * 25) then ret Deleted
  else
    match movePlayers (ro_players room) with
    | None => ret Threw
    | Some players1 =>
        let (players2, pellets2) := eatPhase false players1 (ro_pellets room) in
        pellets3 <~ respawn pellets2 ;;
        let players4 := pvpPhase (122 / 100) (22 / 100) (9 / 10) players2 in
        ret (Ticked (mkRoom players4 (ro_bots room) pellets3 (ro_viruses room)
                            (ro_created room) (ro_lastActive room)))
    end.

(** Lines 465-554. *)
Definition tickV2 (room : Room) : L Outcome :=
  now <~ dateNow ;;
  if Rgtb (now - ro_lastActive room) (20 * 60 * 1000) then ret Deleted
  else
    bots1 <~ moveBots (ro_bots room) ;;
    match movePlayers (ro_players room) with
    | None => ret Threw
    | Some players1 =>
        let (players2, pellets2) := eatPhase true players1 (ro_pellets room) in
        pellets3 <~ respawn pellets2 ;;
        let players4 := pvpPhase (125 / 100) (20 / 100) (85 / 100) players2 in
        ret (Ticked (mkRoom players4 bots1 pellets3 (ro_viruses room)
                            (ro_created room) (ro_lastActive room)))
    end.

(** *** A new room ([createRoom], lines 61-95 and 323-374) *)

Definition VIRUS_COUNT : nat := 28.
Definition PLAYER_START_MASS : R := 40.
Definition BOT_COUNT : nat := 12.

Definition newVirus : L Virus :=
  id <~ uuid ;;
  x <~ rand (- WORLD_SIZE) WORLD_SIZE ;;
  y <~ rand (- WORLD_SIZE) WORLD_SIZE ;;
  ret (mkVirus id x y 36).

Fixpoint pushViruses (n : nat) (viruses : list Virus) : L (list Virus) :=
  match n with
  | O => ret viruses
  | S n' => v <~ newVirus ;; pushViruses n' (viruses ++ [v])
  end.

(** [bots[uuid()] = { id: uuid(), name: "Bot" + Math.floor(Math.random()*999), ... }]:
    the key is evaluated before the object. *)
Definition newBot : L (string * Bot) :=
  key <~ uuid ;;
  id <~ uuid ;;
  u <~ random ;;
  x <~ rand (- WORLD_SIZE) WORLD_SIZE ;;
  y <~ rand (- WORLD_SIZE) WORLD_SIZE ;;
  ret (key, mkBot id ("Bot" ++ decimal (Zfloor (u * 999))) x y PLAYER_START_MASS 0 0).

Fixpoint pushBots (n : nat) (bots : list (string * Bot)) : L (list (string * Bot)) :=
  match n with
  | O => ret bots
  | S n' => kb <~ newBot ;; pushBots n' (mapSet (fst kb) (snd kb) bots)
  end.

(** The code and the room that [createRoom] stores under it. *)
Definition createRoomV1 : L (string * Room) :=
  u <~ uuid ;;
  let code := toUpperCase (substring 0 6 u) in
  created <~ dateNow ;;
  lastActive <~ dateNow ;;
  pellets <~ pushPellets 500 [] ;;
  viruses <~ pushViruses VIRUS_COUNT [] ;;
  ret (code, mkRoom [] [] pellets viruses (Some created) lastActive).

Definition createRoomV2 : L (string * Room) :=
  u <~ uuid ;;
  let code := toUpperCase (substring 0 6 u) in
  lastActive <~ dateNow ;;
  pellets <~ pushPellets 550 [] ;;
  viruses <~ pushViruses VIRUS_COUNT [] ;;
  bots <~ pushBots BOT_COUNT [] ;;
  ret (code, mkRoom [] bots pellets viruses None lastActive).

(** *** What the requests do to the room they name *)

Definition setPlayers (room : Room) (players : list (string * Player)) (now : R)
  : Room :=
  mkRoom players (ro_bots room) (ro_pellets room) (ro_viruses room)
         (ro_created room) now.

(** [/join] (lines 101-127 and 389-412), in the room found: the identity
    the answer carries, and the room. *)
Definition joinRoom (room : Room) (name color pattern : Json) : L (string * Room) :=
  id <~ uuid ;;
  x <~ rand (- 500) 500 ;;
  y <~ rand (- 500) 500 ;;
  now <~ dateNow ;;
  let p := mkPlayer id name color pattern x y 0 0 PLAYER_START_MASS true
                    (Some (0, 0)) in
  ret (id, setPlayers room (mapSet id p (ro_players room)) now).

Definition setInput (p : Player) (input : option (R * R)) : Player :=
  mkPlayer (pl_id p) (pl_name p) (pl_color p) (pl_pattern p) (pl_x p) (pl_y p)
           (pl_vx p) (pl_vy p) (pl_mass p) (pl_alive p) input.

(** [/input] (lines 142-153 and 418-429), in the room found, for an [id]
    that [players] can only hold as a key of its own: [None] is the answer
    [{ ok: false }]. *)
Definition inputRoom (room : Room) (id : string) (input : option (R * R))
  : L (option Room) :=
  match mapGet id (ro_players room) with
  | None => ret None
  | Some p =>
      now <~ dateNow ;;
      ret (Some (setPlayers room (mapSet id (setInput p input) (ro_players room))
                            now))
  end.

(** [/state] (lines 159-173 and 435-451), in the room found. *)
Definition stateRoom (room : Room) : L Room :=
  now <~ dateNow ;;
  ret (setPlayers room (ro_players room) now).

(** The rooms of the first ([second = false]) and of the second server:
    what [createRoom] returns, and what requests and ticks that go
    through make of it, the draws being numbers of [0, 1). *)
Inductive reachable (second : bool) : Room -> Prop :=
| reach_create s :
    unitDraws (s_env s) ->
    reachable second (snd (fst ((if second then createRoomV2 else createRoomV1) s)))
| reach_join room name color pattern s :
    reachable second room -> unitDraws (s_env s) ->
    reachable second (snd (fst (joinRoom room name color pattern s)))
| reach_input room id input s room' :
    reachable second room ->
    fst (inputRoom room id input s) = Some room' ->
    reachable second room'
| reach_state room s :
    reachable second room -> reachable second (fst (stateRoom room s))
| reach_tick room s room' :
    reachable second room -> unitDraws (s_env s) ->
    fst ((if second then tickV2 else tickV1) room s) = Ticked room' ->
    reachable second room'.

(** *** Moving *)

Lemma legacy_speed_bounds m :
  12 / 10 <= speed m /\ (0 <= m -> speed m <= 75 / 10) /\
  (speed m = 12 / 10 <-> 2100 <= m).
Proof.
  unfold speed. split; [rminmax|]. split; [intros; rminmax|].
  split; intros H; rminmax.
Qed.

Lemma legacy_speed_anti m m' : m <= m' -> speed m' <= speed m.
Proof. unfold speed. intros H. rminmax. Qed.

Lemma legacy_normalize_cases v :
  (hypot (fst v) (snd v) < 1 / 1000 /\ normalize v = (0, 0)) \/
  (1 / 1000 <= hypot (fst v) (snd v) /\
   normalize v = (fst v / hypot (fst v) (snd v), snd v / hypot (fst v) (snd v)) /\
   fst (normalize v) * fst (normalize v) + snd (normalize v) * snd (normalize v) = 1).
Proof.
  unfold normalize. fold (hypot (fst v) (snd v)).
  destruct (Rltb (hypot (fst v) (snd v)) (1 / 1000)) eqn:E.
  - left. apply Rltb_true in E. now split.
  - right. apply Rltb_false in E. split; [exact E|]. split; [reflexivity|].
    cbn [fst snd]. pose proof (hypot_sqr (fst v) (snd v)) as Hs.
    set (d := hypot (fst v) (snd v)) in *.
    assert (Hd : d <> 0) by lra.
    replace (fst v / d * (fst v / d) + snd v / d * (snd v / d))
      with ((fst v * fst v + snd v * snd v) / (d * d)) by (field; exact Hd).
    rewrite <- Hs. field. exact Hd.
Qed.

(** The step a direction [v] gives at mass [m]: none below 0.001, else of
    length [speed m] along [v]. *)
Definition stepOf (v : R * R) (m dx dy : R) : Prop :=
  (hypot (fst v) (snd v) < 1 / 1000 /\ dx = 0 /\ dy = 0) \/
  (1 / 1000 <= hypot (fst v) (snd v) /\
   dx = fst v / hypot (fst v) (snd v) * speed m /\
   dy = snd v / hypot (fst v) (snd v) * speed m /\
   dx * dx + dy * dy = speed m * speed m).

Lemma legacy_stepOf v m :
  stepOf v m (fst (normalize v) * speed m) (snd (normalize v) * speed m).
Proof.
  unfold stepOf. destruct (legacy_normalize_cases v) as [[H1 H2]|[H1 [H2 H3]]].
  - left. rewrite H2. cbn [fst snd]. split; [exact H1|]. split; lra.
  - right. split; [exact H1|]. rewrite H2 in *. cbn [fst snd] in *.
    split; [reflexivity|]. split; [reflexivity|].
    set (a := fst v / _) in *. set (b := snd v / _) in *. nra.
Qed.


(** What the move does to one player. *)
Definition moved (p p' : Player) : Prop :=
  pl_id p' = pl_id p /\ pl_name p' = pl_name p /\ pl_color p' = pl_color p /\
  pl_pattern p' = pl_pattern p /\ pl_vx p' = pl_vx p /\ pl_vy p' = pl_vy p /\
  pl_mass p' = pl_mass p /\ pl_alive p' = pl_alive p /\ pl_input p' = pl_input p /\
  (pl_alive p = false -> p' = p) /\
  (pl_alive p = true ->
   exists v, pl_input p = Some v /\
             stepOf v (pl_mass p) (pl_x p' - pl_x p) (pl_y p' - pl_y p)).

Lemma legacy_movePlayer_some p p' : movePlayer p = Some p' -> moved p p'.
Proof.
  unfold movePlayer, moved. destruct (pl_alive p) eqn:Ea; cbn [negb].
  - destruct (pl_input p) as [v|] eqn:Ei; [|discriminate]. intros [= <-].
    cbn [setPos pl_id pl_name pl_color pl_pattern pl_vx pl_vy pl_mass pl_alive
         pl_input pl_x pl_y].
    do 9 (split; [first [reflexivity | assumption]|]).
    split; [discriminate|]. intros _. exists v. split; [reflexivity|].
    pose proof (legacy_stepOf v (pl_mass p)) as H.
    replace (pl_x p + fst (normalize v) * speed (pl_mass p) - pl_x p)
      with (fst (normalize v) * speed (pl_mass p)) by lra.
    replace (pl_y p + snd (normalize v) * speed (pl_mass p) - pl_y p)
      with (snd (normalize v) * speed (pl_mass p)) by lra.
    exact H.
  - intros [= <-]. do 9 (split; [first [reflexivity | assumption]|]).
    split; [intros _; reflexivity|discriminate].
Qed.

Lemma legacy_movePlayers_some : forall players players',
  movePlayers players = Some players' ->
  Forall2 (fun kp kp' => fst kp' = fst kp /\ moved (snd kp) (snd kp')) players players'.
Proof.
  induction players as [|[k p] rest IH]; intros players' H; cbn [movePlayers] in H.
  - injection H as <-. constructor.
  - destruct (movePlayer p) as [p'|] eqn:Ep; [|discriminate].
    destruct (movePlayers rest) as [rest'|]; [|discriminate].
    injection H as <-. constructor; [|now apply IH].
    split; [reflexivity|]. now apply legacy_movePlayer_some.
Qed.

(** *** Eating pellets *)

Definition valueSum (pellets : list Pellet) : R :=
  fold_right (fun pel s => pe_value pel + s) 0 pellets.

Definition totalMass (players : list (string * Player)) : R :=
  fold_right (fun kp s => pl_mass (snd kp) + s) 0 players.

(** [p'] is [p] with no less mass. *)
Definition grown (p p' : Player) : Prop :=
  pl_id p' = pl_id p /\ pl_name p' = pl_name p /\ pl_color p' = pl_color p /\
  pl_pattern p' = pl_pattern p /\ pl_x p' = pl_x p /\ pl_y p' = pl_y p /\
  pl_vx p' = pl_vx p /\ pl_vy p' = pl_vy p /\
  pl_alive p' = pl_alive p /\ pl_input p' = pl_input p /\
  pl_mass p <= pl_mass p'.

Definition outOfReach (p : Player) (pel : Pellet) : Prop :=
  pl_mass p * (25 / 100) <= dist (pl_x p) (pl_y p) (pe_x pel) (pe_y pel).

Lemma legacy_grown_refl p : grown p p.
Proof. unfold grown. repeat split; lra. Qed.

Lemma legacy_eatPellets_spec p : forall pellets,
  Forall (fun pel => 0 <= pe_value pel) pellets ->
  sublist (snd (eatPellets p pellets)) pellets /\
  grown p (fst (eatPellets p pellets)) /\
  pl_mass (fst (eatPellets p pellets)) + valueSum (snd (eatPellets p pellets))
  = pl_mass p + valueSum pellets /\
  Forall (outOfReach p) (snd (eatPellets p pellets)).
Proof.
  induction pellets as [|pel rest IH]; intros Hv; cbn [eatPellets].
  - cbn [fst snd valueSum fold_right]. split; [constructor|].
    split; [apply legacy_grown_refl|]. split; [reflexivity|constructor].
  - inversion Hv as [|? ? Hpel Hrest]; subst.
    destruct (IH Hrest) as (S1 & G1 & C1 & O1).
    destruct (eatPellets p rest) as [p1 rest']. cbn [fst snd] in *.
    destruct G1 as (G1 & G2 & G3 & G4 & G5 & G6 & G7 & G8 & G9 & G10 & G11).
    destruct (Rltb _ _) eqn:E; cbn [fst snd valueSum fold_right].
    + fold (valueSum rest') (valueSum rest).
      split; [now constructor|]. split.
      * unfold grown, addMass. cbn. repeat (split; [assumption|]). lra.
      * split; [cbn [addMass pl_mass]; lra|exact O1].
    + fold (valueSum rest') (valueSum rest).
      split; [now constructor|]. split.
      * unfold grown. repeat (split; [assumption|]). exact G11.
      * split; [lra|]. constructor; [|exact O1].
        apply Rltb_false in E. unfold outOfReach. rewrite <- G5, <- G6. lra.
Qed.

(** What the pellet loop does to one entry of [players]. *)
Definition fed (aliveOnly : bool) (kp kp' : string * Player) : Prop :=
  fst kp' = fst kp /\ grown (snd kp) (snd kp') /\
  (aliveOnly = true -> pl_alive (snd kp) = false -> snd kp' = snd kp).

Lemma legacy_eatPhase_spec aliveOnly : forall players pellets,
  Forall (fun pel => 0 <= pe_value pel) pellets ->
  let players' := fst (eatPhase aliveOnly players pellets) in
  let rest := snd (eatPhase aliveOnly players pellets) in
  sublist rest pellets /\
  Forall2 (fed aliveOnly) players players' /\
  totalMass players' + valueSum rest = totalMass players + valueSum pellets /\
  (forall k p, In (k, p) players -> aliveOnly = false \/ pl_alive p = true ->
               Forall (outOfReach p) rest).
Proof.
  induction players as [|[k p] rest IH]; intros pellets Hv; cbn [eatPhase].
  - cbn [fst snd]. split; [apply sublist_refl|]. split; [constructor|].
    split; [reflexivity|]. intros k p [].
  - destruct (aliveOnly && negb (pl_alive p)) eqn:Esk.
    + destruct (IH pellets Hv) as (S2 & F2 & C2 & O2).
      destruct (eatPhase aliveOnly rest pellets) as [rest' ps]. cbn [fst snd] in *.
      apply andb_prop in Esk. destruct Esk as [Ef Ed].
      split; [exact S2|]. split.
      * constructor; [|exact F2]. split; [reflexivity|].
        split; [apply legacy_grown_refl|reflexivity].
      * split.
        -- cbn [totalMass fold_right snd]. fold (totalMass rest') (totalMass rest). lra.
        -- intros k0 p0 [[= <- <-]|Hin] Hor; [|now apply (O2 k0 p0)].
           destruct Hor as [Hf|Ha]; [congruence|]. rewrite Ha in Ed. discriminate.
    + destruct (legacy_eatPellets_spec p pellets Hv) as (S1 & G1 & C1 & O1).
      destruct (eatPellets p pellets) as [p' ps1]. cbn [fst snd] in *.
      destruct (IH ps1 (sublist_Forall _ _ _ S1 Hv)) as (S2 & F2 & C2 & O2).
      destruct (eatPhase aliveOnly rest ps1) as [rest' ps2]. cbn [fst snd] in *.
      split; [exact (sublist_trans _ _ _ S2 S1)|]. split.
      * constructor; [|exact F2]. split; [reflexivity|]. split; [exact G1|].
        intros Hf Hd. cbn [snd] in Hd. rewrite Hf, Hd in Esk. discriminate.
      * split.
        -- cbn [totalMass fold_right snd]. fold (totalMass rest') (totalMass rest). lra.
        -- intros k0 p0 [[= <- <-]|Hin] Hor; [|now apply (O2 k0 p0)].
           rewrite Forall_forall in *. intros pel Hpel. apply O1.
           exact (sublist_In _ _ _ S2 Hpel).
Qed.



(** *** Players eating players *)

Definition sumOf (f : Player -> R) (arr : list Player) : R :=
  fold_right (fun p s => f p + s) 0 arr.

(** The mass of a living player, 0 for the others. *)
Definition weight (p : Player) : R := if pl_alive p then pl_mass p else 0.

Definition one (p : Player) : R := if pl_alive p then 1 else 0.

Definition livingMass (players : list (string * Player)) : R :=
  sumOf weight (map snd players).

Definition livingCount (players : list (string * Player)) : nat :=
  List.length (filter (fun kp => pl_alive (snd kp)) players).

(** What the pass keeps of a player: everything but its mass, which does
    not shrink, and its life, which it can only lose; a player that is not
    alive is left alone. *)
Definition pvpKept (p p' : Player) : Prop :=
  pl_id p' = pl_id p /\ pl_name p' = pl_name p /\ pl_color p' = pl_color p /\
  pl_pattern p' = pl_pattern p /\ pl_x p' = pl_x p /\ pl_y p' = pl_y p /\
  pl_vx p' = pl_vx p /\ pl_vy p' = pl_vy p /\ pl_input p' = pl_input p /\
  pl_mass p <= pl_mass p' /\
  (pl_alive p = false -> p' = p) /\
  (pl_alive p' = true -> pl_alive p = true).

Lemma legacy_pvpKept_refl p : pvpKept p p.
Proof. unfold pvpKept. do 9 (split; [reflexivity|]). split; [lra|]. tauto. Qed.

Lemma legacy_pvpKept_trans a b c : pvpKept a b -> pvpKept b c -> pvpKept a c.
Proof.
  unfold pvpKept.
  intros (A1 & A2 & A3 & A4 & A5 & A6 & A7 & A8 & A9 & A10 & A11 & A12)
         (B1 & B2 & B3 & B4 & B5 & B6 & B7 & B8 & B9 & B10 & B11 & B12).
  do 9 (split; [congruence|]). split; [lra|]. split.
  - intros Hd. specialize (A11 Hd). subst b. auto.
  - auto.
Qed.

Lemma legacy_sumOf_setAt f : forall l i x y,
  nth_error l i = Some x -> sumOf f (setAt i y l) = sumOf f l - f x + f y.
Proof.
  induction l as [|a l IH]; intros [|i] x y H; cbn in H; try discriminate.
  - injection H as ->. cbn [setAt sumOf fold_right]. lra.
  - cbn [setAt sumOf fold_right]. fold (sumOf f (setAt i y l)) (sumOf f l).
    rewrite (IH i x y H). lra.
Qed.

Lemma legacy_sumOf_ge f : forall l i x,
  (forall p, 0 <= f p) -> nth_error l i = Some x -> f x <= sumOf f l.
Proof.
  intros l i x Hf. revert i.
  assert (H0 : forall l, 0 <= sumOf f l).
  { induction l0 as [|a l0 IH]; cbn [sumOf fold_right]; [lra|].
    fold (sumOf f l0). pose proof (Hf a). lra. }
  induction l as [|a l IH]; intros [|i] H; cbn in H; try discriminate;
    cbn [sumOf fold_right]; fold (sumOf f l).
  - injection H as ->. pose proof (H0 l). lra.
  - pose proof (IH i H). pose proof (Hf a). lra.
Qed.

Lemma legacy_one_nonneg p : 0 <= one p.
Proof. unfold one. destruct (pl_alive p); lra. Qed.

(** What holds of the array [arr] during the pass that began with [arr0]. *)
Definition pvpInv (arr0 arr : list Player) : Prop :=
  Forall (fun p => 0 <= pl_mass p) arr /\
  Forall2 pvpKept arr0 arr /\
  sumOf weight arr <= sumOf weight arr0 /\
  sumOf one arr <= sumOf one arr0 /\
  (1 <= sumOf one arr0 -> 1 <= sumOf one arr).

Lemma legacy_pvpStep_inv ratio reach gain arr0 i arr j :
  0 <= gain <= 1 ->
  pvpInv arr0 arr -> pvpInv arr0 (pvpStep ratio reach gain i arr j).
Proof.
  intros Hg Hinv. unfold pvpStep.
  destruct (Nat.eqb i j) eqn:Eij; [exact Hinv|]. apply Nat.eqb_neq in Eij.
  destruct (nth_error arr i) as [A|] eqn:Ei; [|exact Hinv].
  destruct (nth_error arr j) as [B|] eqn:Ej; [|exact Hinv].
  destruct (negb (pl_alive A) || negb (pl_alive B)) eqn:Ealive; [exact Hinv|].
  apply orb_false_iff in Ealive. destruct Ealive as [EA EB].
  apply negb_false_iff in EA. apply negb_false_iff in EB.
  destruct (_ && _); [|exact Hinv].
  destruct Hinv as (Hpos & Hkept & Hmass & Hcount & Hsome).
  pose proof (Forall_nth_error _ _ _ _ Hpos Ei) as HA.
  pose proof (Forall_nth_error _ _ _ _ Hpos Ej) as HB. cbn beta in HA, HB.
  set (A' := addMass A (pl_mass B * gain)).
  assert (Ej1 : nth_error (setAt i A' arr) j = Some B)
    by (rewrite nth_error_setAt_other by exact Eij; exact Ej).
  assert (Hlt : (i < List.length arr)%nat) by (apply nth_error_Some; congruence).
  assert (Ei2 : nth_error (setAt j (kill B) (setAt i A' arr)) i = Some A').
  { rewrite nth_error_setAt_other by (intros H; apply Eij; now symmetry).
    now apply nth_error_setAt_same. }
  assert (Hgain : 0 <= pl_mass B * gain) by nra.
  unfold pvpInv. split; [|split; [|split; [|split]]].
  - apply Forall_setAt; [exact HB|]. apply Forall_setAt; [|exact Hpos].
    unfold A', addMass. cbn [pl_mass]. lra.
  - apply (Forall2_trans _ legacy_pvpKept_trans _ _ _ Hkept).
    apply (Forall2_trans _ legacy_pvpKept_trans _ (setAt i A' arr)).
    + apply (Forall2_setAt_step _ _ _ _ A legacy_pvpKept_refl Ei).
      unfold pvpKept, A', addMass. cbn. do 9 (split; [reflexivity|]).
      split; [lra|]. split; [congruence|]. intros _. exact EA.
    + apply (Forall2_setAt_step _ _ _ _ B legacy_pvpKept_refl Ej1).
      unfold pvpKept, kill. cbn. do 9 (split; [reflexivity|]).
      split; [lra|]. split; [congruence|discriminate].
  - rewrite (legacy_sumOf_setAt weight _ j B _ Ej1),
      (legacy_sumOf_setAt weight _ i A _ Ei).
    unfold weight at 2 3 4 5, A', kill, addMass. cbn [pl_alive pl_mass].
    rewrite EA, EB. nra.
  - rewrite (legacy_sumOf_setAt one _ j B _ Ej1), (legacy_sumOf_setAt one _ i A _ Ei).
    unfold one at 2 3 4 5, A', kill, addMass. cbn [pl_alive]. rewrite EA, EB. lra.
  - intros _.
    pose proof (legacy_sumOf_ge one _ i A' legacy_one_nonneg Ei2) as H.
    assert (H1 : one A' = 1)
      by (unfold one, A', addMass; cbn [pl_alive]; now rewrite EA).
    rewrite H1 in H. exact H.
Qed.

Lemma legacy_pvpRows_inv ratio reach gain arr0 :
  0 <= gain <= 1 ->
  forall rows arr,
    pvpInv arr0 arr -> pvpInv arr0 (fold_left (pvpRow ratio reach gain) rows arr).
Proof.
  intros Hg. induction rows as [|i rows IH]; intros arr H; cbn [fold_left];
    [exact H|].
  apply IH. unfold pvpRow. generalize (seq 0 (List.length arr)). intros js.
  revert arr H. induction js as [|j js IHj]; intros arr H; cbn [fold_left];
    [exact H|].
  apply IHj. now apply legacy_pvpStep_inv.
Qed.

Lemma legacy_map_snd_combine {A B} : forall (ks : list A) (l : list B),
  List.length ks = List.length l -> map snd (combine ks l) = l.
Proof.
  induction ks as [|k ks IH]; intros [|b l] H; cbn in *; try discriminate;
    [reflexivity|]. f_equal. apply IH. lia.
Qed.

Lemma legacy_INR_livingCount players :
  INR (livingCount players) = sumOf one (map snd players).
Proof.
  unfold livingCount. induction players as [|[k p] l IH]; [reflexivity|].
  cbn [filter map snd sumOf fold_right]. fold (sumOf one (map snd l)).
  unfold one at 1. destruct (pl_alive p).
  - cbn [List.length]. rewrite S_INR, IH. lra.
  - rewrite IH. lra.
Qed.

Lemma legacy_pvpPhase_spec ratio reach gain players :
  0 <= gain <= 1 ->
  Forall (fun kp => 0 <= pl_mass (snd kp)) players ->
  let players' := pvpPhase ratio reach gain players in
  Forall2 (fun kp kp' => fst kp' = fst kp /\ pvpKept (snd kp) (snd kp'))
          players players' /\
  Forall (fun kp => 0 <= pl_mass (snd kp)) players' /\
  livingMass players' <= livingMass players /\
  (livingCount players' <= livingCount players)%nat /\
  (1 <= livingCount players -> 1 <= livingCount players')%nat.
Proof.
  intros Hg Hpos players'. subst players'. unfold pvpPhase.
  set (arr := map snd players).
  assert (H0 : pvpInv arr arr).
  { unfold pvpInv. split; [unfold arr; now rewrite Forall_map|].
    split; [apply Forall2_refl, legacy_pvpKept_refl|]. repeat split; lra || auto. }
  pose proof (legacy_pvpRows_inv ratio reach gain arr Hg
                (seq 0 (List.length arr)) arr H0) as (I1 & I2 & I3 & I4 & I5).
  set (arr' := fold_left _ _ arr) in *.
  assert (Hlen : List.length (map fst players) = List.length arr').
  { rewrite <- (Forall2_length I2). unfold arr. now rewrite !length_map. }
  assert (Hsnd : map snd (combine (map fst players) arr') = arr')
    by now apply legacy_map_snd_combine.
  split; [|split; [|split; [|split]]].
  - clear - I2. unfold arr in I2. revert I2. generalize arr'. clear arr'.
    induction players as [|[k p] l IH]; intros arr' H; cbn in *.
    + constructor.
    + inversion H; subst. constructor; [now split|]. now apply IH.
  - exact (Forall_combine_snd (fun p => 0 <= pl_mass p) _ _ I1).
  - unfold livingMass. rewrite Hsnd. exact I3.
  - apply INR_le. rewrite !legacy_INR_livingCount, Hsnd. exact I4.
  - intros H1. apply INR_le. rewrite legacy_INR_livingCount, Hsnd.
    change (INR 1) with 1. apply I5. unfold arr.
    rewrite <- legacy_INR_livingCount. change 1 with (INR 1). now apply le_INR.
Qed.

(** *** Bots *)

(** What a tick of the second server does to a bot, the draws being
    numbers of [0, 1). *)
Definition wandered (b b' : Bot) : Prop :=
  bo_id b' = bo_id b /\ bo_name b' = bo_name b /\ bo_mass b' = bo_mass b /\
  - (1 / 2) <= bo_vx b' - bo_vx b < 1 / 2 /\
  - (1 / 2) <= bo_vy b' - bo_vy b < 1 / 2 /\
  stepOf (bo_vx b', bo_vy b') (bo_mass b) (bo_x b' - bo_x b) (bo_y b' - bo_y b).

Lemma legacy_moveBot_spec b s :
  unitDraws (s_env s) ->
  wandered b (fst (moveBot b s)) /\
  mathRandomAt (s_env (snd (moveBot b s))) = mathRandomAt (s_env s).
Proof.
  intros Hu. unfold moveBot, rand, bind, ret, random. cbn [fst snd s_env mathRandomAt mrIdx].
  split; [|reflexivity]. unfold wandered. cbn [bo_id bo_name bo_mass bo_vx bo_vy bo_x bo_y].
  pose proof (Hu (mrIdx (s_env s))) as H1. pose proof (Hu (S (mrIdx (s_env s)))) as H2.
  split; [reflexivity|]. split; [reflexivity|]. split; [reflexivity|].
  split; [lra|]. split; [lra|].
  match goal with
  | |- stepOf ?v ?m _ _ =>
      pose proof (legacy_stepOf v m) as H;
      replace (bo_x b + fst (normalize v) * speed m - bo_x b)
        with (fst (normalize v) * speed m) by lra;
      replace (bo_y b + snd (normalize v) * speed m - bo_y b)
        with (snd (normalize v) * speed m) by lra;
      exact H
  end.
Qed.


(** *** The tick *)

Lemma legacy_pvpStep_length ratio reach gain i arr j :
  List.length (pvpStep ratio reach gain i arr j) = List.length arr.
Proof.
  unfold pvpStep. destruct (Nat.eqb i j); [reflexivity|].
  destruct (nth_error arr i); [|reflexivity].
  destruct (nth_error arr j); [|reflexivity].
  destruct (_ || _); [reflexivity|]. destruct (_ && _); [|reflexivity].
  now rewrite !length_setAt.
Qed.

Lemma legacy_pvpPhase_keys ratio reach gain players :
  map fst (pvpPhase ratio reach gain players) = map fst players.
Proof.
  unfold pvpPhase.
  assert (H : forall rows arr,
             List.length (fold_left (pvpRow ratio reach gain) rows arr)
             = List.length arr).
  { induction rows as [|i rows IH]; intros arr; cbn [fold_left]; [reflexivity|].
    rewrite IH. unfold pvpRow. generalize (seq 0 (List.length arr)). intros js.
    revert arr. induction js as [|j js IHj]; intros arr; cbn [fold_left];
      [reflexivity|]. now rewrite IHj, legacy_pvpStep_length. }
  specialize (H (seq 0 (List.length (map snd players))) (map snd players)).
  revert H. generalize (fold_left (pvpRow ratio reach gain)
                                  (seq 0 (List.length (map snd players)))
                                  (map snd players)).
  intros arr' H. rewrite length_map in H. revert arr' H.
  induction players as [|[k p] l IH]; intros [|a arr'] H; cbn in *;
    try discriminate; [reflexivity|]. f_equal. apply IH. lia.
Qed.

Lemma legacy_Forall2_keys {A B} (R : A -> A -> Prop) (l l' : list (B * A)) :
  Forall2 (fun x y => fst y = fst x /\ R (snd x) (snd y)) l l' ->
  map fst l' = map fst l.
Proof. induction 1 as [|x y l l' [H _] _ IH]; cbn; [reflexivity|]. now rewrite H, IH. Qed.

Lemma legacy_eatPhase_keys aliveOnly : forall players pellets,
  map fst (fst (eatPhase aliveOnly players pellets)) = map fst players.
Proof.
  induction players as [|[k p] rest IH]; intros pellets; cbn [eatPhase];
    [reflexivity|].
  destruct (aliveOnly && negb (pl_alive p)).
  - specialize (IH pellets). destruct (eatPhase aliveOnly rest pellets).
    cbn [fst map] in *. now rewrite IH.
  - destruct (eatPellets p pellets) as [p' ps1]. specialize (IH ps1).
    destruct (eatPhase aliveOnly rest ps1). cbn [fst map] in *. now rewrite IH.
Qed.







(** *** The shape of a room *)

Definition pelletShape (pel : Pellet) : Prop :=
  - WORLD_SIZE <= pe_x pel < WORLD_SIZE /\ - WORLD_SIZE <= pe_y pel < WORLD_SIZE /\
  4 <= pe_r pel < 8 /\ 1 <= pe_value pel < 3.

Definition virusShape (v : Virus) : Prop :=
  - WORLD_SIZE <= vi_x v < WORLD_SIZE /\ - WORLD_SIZE <= vi_y v < WORLD_SIZE /\
  vi_r v = 36.

(** A player is stored under its identity and never has less than the
    mass it started with. *)
Definition playerShape (kp : string * Player) : Prop :=
  pl_id (snd kp) = fst kp /\ 40 <= pl_mass (snd kp).

Definition roomShape (second : bool) (room : Room) : Prop :=
  Forall pelletShape (ro_pellets room) /\
  (500 <= List.length (ro_pellets room))%nat /\
  Forall virusShape (ro_viruses room) /\
  List.length (ro_viruses room) = 28%nat /\
  NoDup (map fst (ro_players room)) /\
  Forall playerShape (ro_players room) /\
  NoDup (map fst (ro_bots room)) /\
  Forall (fun kb => bo_mass (snd kb) = 40) (ro_bots room) /\
  (List.length (ro_bots room) <= if second then 12 else 0)%nat.

(** [m], run with draws of [0, 1), returns a value that satisfies [P]. *)
Definition yields {A} (m : L A) (P : A -> Prop) : Prop :=
  forall s, unitDraws (s_env s) ->
            P (fst (m s)) /\ unitDraws (s_env (snd (m s))).

Lemma legacy_yields_ret {A} (a : A) (P : A -> Prop) : P a -> yields (ret a) P.
Proof. intros H s Hu. now split. Qed.

Lemma legacy_yields_bind {A B} (m : L A) (k : A -> L B) (P : A -> Prop)
    (Q : B -> Prop) :
  yields m P -> (forall a, P a -> yields (k a) Q) -> yields (bind m k) Q.
Proof.
  intros Hm Hk s Hu. unfold bind. destruct (Hm s Hu) as [H1 H2].
  destruct (m s) as [a s1]. cbn [fst snd] in *. exact (Hk a H1 s1 H2).
Qed.

Lemma legacy_yields_uuid : yields uuid (fun _ => True).
Proof. intros s Hu. now split. Qed.

Lemma legacy_yields_dateNow : yields dateNow (fun _ => True).
Proof. intros s Hu. now split. Qed.

Lemma legacy_yields_random : yields random (fun u => 0 <= u < 1).
Proof. intros s Hu. unfold random. cbn [fst snd s_env]. split; [apply Hu|exact Hu]. Qed.

Lemma legacy_yields_rand min max :
  min < max -> yields (rand min max) (fun v => min <= v < max).
Proof.
  intros H. unfold rand.
  apply (legacy_yields_bind _ _ _ _ legacy_yields_random).
  intros u Hu. apply legacy_yields_ret. nra.
Qed.

(** One draw of a computation, with what it returns. *)
Ltac ldraw :=
  eapply legacy_yields_bind;
  [ first [ apply legacy_yields_uuid | apply legacy_yields_dateNow
          | apply legacy_yields_random
          | (apply legacy_yields_rand; unfold WORLD_SIZE; lra) ]
  | intros ? ? ].

Lemma legacy_newPellet_shape : yields newPellet pelletShape.
Proof.
  unfold newPellet. do 5 ldraw.
  apply legacy_yields_ret. unfold pelletShape. cbn. tauto.
Qed.

Lemma legacy_pushPellets_shape n : forall pellets,
  Forall pelletShape pellets ->
  yields (pushPellets n pellets)
         (fun ps => Forall pelletShape ps /\
                    List.length ps = (List.length pellets + n)%nat).
Proof.
  induction n as [|n IH]; intros pellets H; cbn [pushPellets].
  - apply legacy_yields_ret. split; [exact H|lia].
  - apply (legacy_yields_bind _ _ _ _ legacy_newPellet_shape). intros p Hp.
    intros s Hu. destruct (IH (pellets ++ [p])) with (s := s) as [[H1 H2] H3];
      [apply Forall_app; split; [exact H|now constructor]|exact Hu|].
    split; [|exact H3]. split; [exact H1|]. rewrite H2, length_app. cbn. lia.
Qed.

Lemma legacy_pushViruses_shape n : forall viruses,
  Forall virusShape viruses ->
  yields (pushViruses n viruses)
         (fun vs => Forall virusShape vs /\
                    List.length vs = (List.length viruses + n)%nat).
Proof.
  induction n as [|n IH]; intros viruses H; cbn [pushViruses].
  - apply legacy_yields_ret. split; [exact H|lia].
  - apply (legacy_yields_bind _ _ (fun v => virusShape v)).
    + unfold newVirus. do 3 ldraw.
      apply legacy_yields_ret. unfold virusShape. cbn. tauto.
    + intros v Hv s Hu.
      destruct (IH (viruses ++ [v])) with (s := s) as [[H1 H2] H3];
        [apply Forall_app; split; [exact H|now constructor]|exact Hu|].
      split; [|exact H3]. split; [exact H1|]. rewrite H2, length_app. cbn. lia.
Qed.

Definition botsShape (n : nat) (bots : list (string * Bot)) : Prop :=
  NoDup (map fst bots) /\ Forall (fun kb => bo_mass (snd kb) = 40) bots /\
  (List.length bots <= n)%nat.

Lemma legacy_length_mapSet {V} k (v : V) m :
  (List.length (mapSet k v m) <= S (List.length m))%nat.
Proof.
  induction m as [|[k0 v0] m IH]; cbn [mapSet]; [cbn; lia|].
  destruct (String.eqb k0 k); cbn [List.length]; lia.
Qed.

Lemma legacy_pushBots_shape n : forall m bots,
  botsShape m bots -> yields (pushBots n bots) (botsShape (m + n)).
Proof.
  induction n as [|n IH]; intros m bots H; cbn [pushBots].
  - apply legacy_yields_ret. destruct H as (H1 & H2 & H3).
    split; [exact H1|]. split; [exact H2|lia].
  - apply (legacy_yields_bind _ _ (fun kb => bo_mass (snd kb) = 40)).
    + unfold newBot, PLAYER_START_MASS. do 5 ldraw.
      apply legacy_yields_ret. reflexivity.
    + intros [k b] Hb. cbn [fst snd] in *.
      replace (m + S n)%nat with (S m + n)%nat by lia. apply IH.
      destruct H as (H1 & H2 & H3). split; [now apply mapSet_NoDup|]. split.
      * apply Forall_mapSet_key; [exact Hb|exact H2].
      * pose proof (legacy_length_mapSet k b bots). lia.
Qed.

Lemma legacy_createRoom_shape (second : bool) :
  yields (if second then createRoomV2 else createRoomV1)
         (fun cr : string * Room => roomShape second (snd cr)).
Proof.
  destruct second; unfold createRoomV1, createRoomV2, VIRUS_COUNT, BOT_COUNT; ldraw.
  - ldraw.
    apply (legacy_yields_bind _ _ _ _ (legacy_pushPellets_shape 550 [] (Forall_nil _))).
    intros pellets [P1 P2].
    apply (legacy_yields_bind _ _ _ _ (legacy_pushViruses_shape 28 [] (Forall_nil _))).
    intros viruses [V1 V2].
    apply (legacy_yields_bind _ _ _ _
             (legacy_pushBots_shape 12 0 []
                (conj (NoDup_nil _) (conj (Forall_nil _) (le_n _))))).
    intros bots (B1 & B2 & B3). apply legacy_yields_ret.
    unfold roomShape. cbn [snd ro_pellets ro_viruses ro_players ro_bots map] in *.
    rewrite P2, V2. cbn [List.length Nat.add].
    repeat (split; [first [assumption | lia | constructor]|]). exact B3.
  - do 2 ldraw.
    apply (legacy_yields_bind _ _ _ _ (legacy_pushPellets_shape 500 [] (Forall_nil _))).
    intros pellets [P1 P2].
    apply (legacy_yields_bind _ _ _ _ (legacy_pushViruses_shape 28 [] (Forall_nil _))).
    intros viruses [V1 V2]. apply legacy_yields_ret.
    unfold roomShape. cbn [snd ro_pellets ro_viruses ro_players ro_bots map] in *.
    rewrite P2, V2. cbn [List.length Nat.add].
    repeat (split; [first [assumption | lia | constructor]|]). cbn. lia.
Qed.

Lemma legacy_setPlayers_shape second room players now :
  roomShape second room ->
  NoDup (map fst players) -> Forall playerShape players ->
  roomShape second (setPlayers room players now).
Proof.
  unfold roomShape, setPlayers. cbn [ro_pellets ro_viruses ro_players ro_bots].
  intros (H1 & H2 & H3 & H4 & _ & _ & H7 & H8 & H9) Hn Hp.
  repeat (split; [assumption|]). exact H9.
Qed.

Lemma legacy_joinRoom_shape second room name color pattern :
  roomShape second room ->
  yields (joinRoom room name color pattern)
         (fun ir : string * Room => roomShape second (snd ir)).
Proof.
  intros Hr. unfold joinRoom, PLAYER_START_MASS. do 4 ldraw.
  apply legacy_yields_ret. cbn [snd].
  pose proof Hr as (_ & _ & _ & _ & Hnd & Hps & _).
  apply legacy_setPlayers_shape.
  - exact Hr.
  - now apply mapSet_NoDup.
  - apply Forall_mapSet_key; [|exact Hps]. unfold playerShape. cbn.
    split; [reflexivity|lra].
Qed.

Lemma legacy_inputRoom_shape second room id input s room' :
  roomShape second room ->
  fst (inputRoom room id input s) = Some room' -> roomShape second room'.
Proof.
  intros Hr. unfold inputRoom.
  destruct (mapGet id (ro_players room)) as [p|] eqn:Ep; [|discriminate].
  unfold bind, ret, dateNow. cbn [fst]. intros [= <-].
  pose proof Hr as (_ & _ & _ & _ & H5 & H6 & _).
  apply legacy_setPlayers_shape; [exact Hr|now apply mapSet_NoDup|].
  apply Forall_mapSet_key; [|exact H6].
  pose proof (mapGet_Forall_key _ _ _ _ H6 Ep) as [Hid Hm].
  unfold playerShape. cbn [fst snd setInput pl_id pl_mass] in *. now split.
Qed.

Lemma legacy_Forall2_Forall {A} (R : A -> A -> Prop) (P : A -> Prop) l l' :
  Forall2 R l l' -> (forall x y, R x y -> P x -> P y) -> Forall P l -> Forall P l'.
Proof.
  intros F H. induction F as [|x y l l' Hxy _ IH]; intros Hl; [constructor|].
  inversion Hl; subst. constructor; eauto.
Qed.

Lemma legacy_players_shape aliveOnly ratio reach gain players players1 :
  0 <= gain <= 1 ->
  Forall playerShape players ->
  movePlayers players = Some players1 ->
  forall pellets, Forall pelletShape pellets ->
    let players2 := fst (eatPhase aliveOnly players1 pellets) in
    Forall playerShape (pvpPhase ratio reach gain players2) /\
    map fst (pvpPhase ratio reach gain players2) = map fst players.
Proof.
  intros Hg Hp Hmove pellets Hpel players2.
  pose proof (legacy_movePlayers_some _ _ Hmove) as F1.
  assert (Hv : Forall (fun pel => 0 <= pe_value pel) pellets).
  { revert Hpel. apply Forall_impl. intros pel (_ & _ & _ & H). lra. }
  destruct (legacy_eatPhase_spec aliveOnly players1 pellets Hv) as (_ & F2 & _).
  fold players2 in F2.
  assert (P1 : Forall playerShape players1).
  { revert Hp. apply (legacy_Forall2_Forall _ _ _ _ F1).
    intros [k p] [k' p'] [Hk M] [Hid Hm]. unfold playerShape.
    cbn [fst snd] in *. subst k'.
    destruct M as (M1 & _ & _ & _ & _ & _ & M7 & _). split; [congruence|lra]. }
  assert (P2 : Forall playerShape players2).
  { revert P1. apply (legacy_Forall2_Forall _ _ _ _ F2).
    intros [k p] [k' p'] (Hk & G & _) [Hid Hm]. unfold playerShape.
    cbn [fst snd] in *. subst k'.
    destruct G as (G1 & _ & _ & _ & _ & _ & _ & _ & _ & _ & G11).
    split; [congruence|lra]. }
  assert (Hpos : Forall (fun kp => 0 <= pl_mass (snd kp)) players2).
  { revert P2. apply Forall_impl. intros kp [_ H]. lra. }
  destruct (legacy_pvpPhase_spec ratio reach gain players2 Hg Hpos) as (F3 & _).
  split.
  - revert P2. apply (legacy_Forall2_Forall _ _ _ _ F3).
    intros [k p] [k' p'] [Hk K] [Hid Hm]. unfold playerShape.
    cbn [fst snd] in *. subst k'.
    destruct K as (K1 & _ & _ & _ & _ & _ & _ & _ & _ & K10 & _).
    split; [congruence|lra].
  - rewrite legacy_pvpPhase_keys. unfold players2.
    rewrite legacy_eatPhase_keys. exact (legacy_Forall2_keys _ _ _ F1).
Qed.

Lemma legacy_moveBots_yields bots :
  yields (moveBots bots)
         (fun bots' => Forall2 (fun kb kb' => fst kb' = fst kb /\
                                              wandered (snd kb) (snd kb'))
                               bots bots').
Proof.
  induction bots as [|[k b] rest IH]; cbn [moveBots].
  - apply legacy_yields_ret. constructor.
  - apply (legacy_yields_bind _ _ (wandered b)).
    + intros s Hu. destruct (legacy_moveBot_spec b s Hu) as [H1 H2].
      split; [exact H1|]. unfold unitDraws in *. now rewrite H2.
    + intros b' Hb. apply (legacy_yields_bind _ _ _ _ IH). intros rest' Hrest.
      apply legacy_yields_ret. constructor; [now split|exact Hrest].
Qed.

Lemma legacy_tick_shape (second : bool) room s room' :
  roomShape second room -> unitDraws (s_env s) ->
  fst ((if second then tickV2 else tickV1) room s) = Ticked room' ->
  roomShape second room'.
Proof.
  intros (H1 & H2 & H3 & H4 & H5 & H6 & H7 & H8 & H9) Hu.
  assert (Hu0 : unitDraws (s_env (snd (dateNow s)))) by exact Hu.
  assert (Hsub : forall aliveOnly players1,
             Forall pelletShape (snd (eatPhase aliveOnly players1 (ro_pellets room)))).
  { intros aliveOnly players1.
    assert (Hv : Forall (fun pel => 0 <= pe_value pel) (ro_pellets room)).
    { revert H1. apply Forall_impl. intros pel (_ & _ & _ & H). lra. }
    destruct (legacy_eatPhase_spec aliveOnly players1 (ro_pellets room) Hv)
      as (S1 & _).
    exact (sublist_Forall _ _ _ S1 H1). }
  destruct second.
  - unfold tickV2, bind. destruct (dateNow s) as [now s0]. cbn [snd] in Hu0.
    destruct (Rgtb _ _); [discriminate|].
    destruct (legacy_moveBots_yields (ro_bots room) s0 Hu0) as [Hb Hu1].
    destruct (moveBots (ro_bots room) s0) as [bots1 s1]. cbn [fst snd] in Hb, Hu1.
    destruct (movePlayers (ro_players room)) as [players1|] eqn:Emove; [|discriminate].
    destruct (legacy_players_shape true (125 / 100) (20 / 100) (85 / 100) _ _
                ltac:(lra) H6 Emove (ro_pellets room) H1) as [Q1 Q2].
    specialize (Hsub true players1).
    destruct (eatPhase true players1 (ro_pellets room)) as [players2 pellets2].
    cbn [fst snd] in *.
    destruct (legacy_pushPellets_shape (500 - List.length pellets2) pellets2 Hsub s1 Hu1)
      as [[R1 R2] _].
    unfold respawn. destruct (pushPellets _ pellets2 s1) as [pellets3 s3].
    cbn [fst] in *. intros [= <-].
    unfold roomShape. cbn [ro_pellets ro_viruses ro_players ro_bots].
    split; [exact R1|]. split; [lia|]. split; [exact H3|]. split; [exact H4|].
    split; [now rewrite Q2|]. split; [exact Q1|].
    split; [now rewrite (legacy_Forall2_keys _ _ _ Hb)|]. split.
    + revert H8. apply (legacy_Forall2_Forall _ _ _ _ Hb).
      intros kb kb' [_ (_ & _ & W & _)] H. congruence.
    + now rewrite <- (Forall2_length Hb).
  - unfold tickV1, bind. destruct (dateNow s) as [now s0]. cbn [snd] in Hu0.
    destruct (Rgtb _ _); [discriminate|].
    destruct (movePlayers (ro_players room)) as [players1|] eqn:Emove; [|discriminate].
    destruct (legacy_players_shape false (122 / 100) (22 / 100) (9 / 10) _ _
                ltac:(lra) H6 Emove (ro_pellets room) H1) as [Q1 Q2].
    specialize (Hsub false players1).
    destruct (eatPhase false players1 (ro_pellets room)) as [players2 pellets2].
    cbn [fst snd] in *.
    destruct (legacy_pushPellets_shape (500 - List.length pellets2) pellets2 Hsub s0 Hu0)
      as [[R1 R2] _].
    unfold respawn. destruct (pushPellets _ pellets2 s0) as [pellets3 s3].
    cbn [fst] in *. intros [= <-].
    unfold roomShape. cbn [ro_pellets ro_viruses ro_players ro_bots].
    split; [exact R1|]. split; [lia|]. split; [exact H3|]. split; [exact H4|].
    split; [now rewrite Q2|]. split; [exact Q1|].
    split; [exact H7|]. split; [exact H8|exact H9].
Qed.

Lemma legacy_reachable_shape second room :
  reachable second room -> roomShape second room.
Proof.
  induction 1 as [s Hu|room name color pattern s _ IH Hu|room id input s room' _ IH Hi
                  |room s _ IH|room s room' _ IH Hu Ht].
  - exact (proj1 (legacy_createRoom_shape second s Hu)).
  - exact (proj1 (legacy_joinRoom_shape second room name color pattern IH s Hu)).
  - exact (legacy_inputRoom_shape second room id input s room' IH Hi).
  - unfold stateRoom, bind, ret, dateNow. cbn [fst].
    pose proof IH as (_ & _ & _ & _ & H5 & H6 & _).
    now apply legacy_setPlayers_shape.
  - exact (legacy_tick_shape second room s room' IH Hu Ht).
Qed.

End Legacy.


(* ------------------------------------------------------------------ *)
(** ** The move of the earlier servers on every value of an input

    [/input] stores the field [input] of the body as it comes (lines 149
    and 425), so the vector the tick normalises can be any JSON value.
    [LegacyJs] embeds [normalize] and the move of a player on the values
    of [num]; the squares [v.x * v.x], [v.y * v.y] and their sum overflow
    to [Infinity] beyond the largest double. *)
Module LegacyJs.

(** What [/input] stored in [p.input]: [Missing] for a field that was
    absent or [null] (reading [v.x] then throws), and [Vec x y] for every
    other value, [x] and [y] being the numbers that [*] and [/] make of
    its fields [x] and [y]: [NaN] for a field that is absent or no number,
    as both are for a value that is no object. *)
Inductive Input := Missing | Vec (x y : num).

Record Player := mkPlayer {
  pl_id : string; pl_name : Legacy.Json; pl_color : Legacy.Json;
  pl_pattern : Legacy.Json;
  pl_x : num; pl_y : num; pl_vx : R; pl_vy : R;
  pl_mass : R; pl_alive : bool; pl_input : Input
}.

(** [function normalize(v)] (lines 29 and 305) *)
Definition normalize (x y : num) : num * num :=
  let d := Num.sqrt (Num.addO (Num.mulO x x) (Num.mulO y y)) in
  if Num.ltb d (Fin (1 / 1000)) then (Fin 0, Fin 0) else (Num.div x d, Num.div y d).

(** [p.x += dir.x * speed; p.y += dir.y * speed] *)
Definition setPos (p : Player) (x y : num) : Player :=
  mkPlayer (pl_id p) (pl_name p) (pl_color p) (pl_pattern p) x y (pl_vx p) (pl_vy p)
           (pl_mass p) (pl_alive p) (pl_input p).

(** The body of the player loop (lines 199-207 and 496-505): [None] when
    [normalize] throws. *)
Definition movePlayer (p : Player) : option Player :=
  if negb (pl_alive p) then Some p
  else match pl_input p with
       | Missing => None
       | Vec x y =>
           let dir := normalize x y in
           let sp := Legacy.speed (pl_mass p) in
           Some (setPos p (Num.add (pl_x p) (Num.mul (fst dir) (Fin sp)))
                        (Num.add (pl_y p) (Num.mul (snd dir) (Fin sp))))
       end.

End LegacyJs.

(** A player of [Legacy], whose input is missing or two finite numbers. *)
Definition ofInput (v : option (R * R)) : LegacyJs.Input :=
  match v with
  | None => LegacyJs.Missing
  | Some (x, y) => LegacyJs.Vec (Fin x) (Fin y)
  end.

Definition ofPlayer (p : Legacy.Player) : LegacyJs.Player :=
  LegacyJs.mkPlayer (Legacy.pl_id p) (Legacy.pl_name p) (Legacy.pl_color p)
    (Legacy.pl_pattern p) (Fin (Legacy.pl_x p)) (Fin (Legacy.pl_y p))
    (Legacy.pl_vx p) (Legacy.pl_vy p) (Legacy.pl_mass p) (Legacy.pl_alive p)
    (ofInput (Legacy.pl_input p)).

(** The step of a living player whose input is [Vec x y], from [(px, py)]
    to [(px', py')]: that of [Legacy.stepOf] for two finite numbers whose
    squares do not overflow; none when they do; to [NaN] on both axes
    beside a [NaN]; to [NaN] on the axis of an infinite component, and
    none on the other axis when that one is finite. *)
Definition stepped (x y : num) (m : R) (px py px' py' : num) : Prop :=
  (forall a b, x = Fin a -> y = Fin b -> a * a + b * b <= Num.MAX_VALUE ->
     exists dx dy, Legacy.stepOf (a, b) m dx dy /\
                   px' = Num.add px (Fin dx) /\ py' = Num.add py (Fin dy)) /\
  (forall a b, x = Fin a -> y = Fin b -> Num.MAX_VALUE < a * a + b * b ->
     px' = px /\ py' = py) /\
  (x = NaN \/ y = NaN -> px' = NaN /\ py' = NaN) /\
  (x = PInf \/ x = NInf -> px' = NaN) /\
  (y = PInf \/ y = NInf -> py' = NaN) /\
  (x = PInf \/ x = NInf -> forall b, y = Fin b -> py' = py) /\
  (y = PInf \/ y = NInf -> forall a, x = Fin a -> px' = px).

(** What the move does to one player. *)
Definition movedJs (p p' : LegacyJs.Player) : Prop :=
  LegacyJs.pl_id p' = LegacyJs.pl_id p /\ LegacyJs.pl_name p' = LegacyJs.pl_name p /\
  LegacyJs.pl_color p' = LegacyJs.pl_color p /\
  LegacyJs.pl_pattern p' = LegacyJs.pl_pattern p /\
  LegacyJs.pl_vx p' = LegacyJs.pl_vx p /\ LegacyJs.pl_vy p' = LegacyJs.pl_vy p /\
  LegacyJs.pl_mass p' = LegacyJs.pl_mass p /\
  LegacyJs.pl_alive p' = LegacyJs.pl_alive p /\
  LegacyJs.pl_input p' = LegacyJs.pl_input p /\
  (LegacyJs.pl_alive p = false -> p' = p) /\
  (LegacyJs.pl_alive p = true ->
   exists x y, LegacyJs.pl_input p = LegacyJs.Vec x y /\
               stepped x y (LegacyJs.pl_mass p) (LegacyJs.pl_x p) (LegacyJs.pl_y p)
                       (LegacyJs.pl_x p') (LegacyJs.pl_y p')).

Lemma Num_add_0 p z : z = 0 -> Num.add p (Fin z) = p.
Proof. intros ->. destruct p as [c| | |]; cbn [Num.add]; [f_equal; lra| | |]; reflexivity. Qed.

Lemma Num_over_Fin r : - Num.MAX_VALUE <= r <= Num.MAX_VALUE -> Num.over r = Fin r.
Proof.
  intros [H1 H2]. unfold Num.over.
  assert (E1 : Rltb Num.MAX_VALUE r = false) by (apply Rltb_false; lra).
  assert (E2 : Rltb r (- Num.MAX_VALUE) = false) by (apply Rltb_false; lra).
  now rewrite E1, E2.
Qed.

Lemma Num_over_PInf r : Num.MAX_VALUE < r -> Num.over r = PInf.
Proof.
  intros H. unfold Num.over.
  assert (E1 : Rltb Num.MAX_VALUE r = true) by (apply Rltb_true; lra).
  now rewrite E1.
Qed.

Lemma Num_over_nonneg r : 0 <= r -> Num.over r = Fin r \/ Num.over r = PInf.
Proof.
  intros H. pose proof MAX_VALUE_big as HM. unfold Num.over.
  destruct (Rltb Num.MAX_VALUE r); [now right|].
  assert (E2 : Rltb r (- Num.MAX_VALUE) = false) by (apply Rltb_false; lra).
  rewrite E2. now left.
Qed.

(** The length of a finite vector: exact when the sum of the squares does
    not overflow, [Infinity] when it does. *)
Lemma legacyJs_length a b :
  (a * a + b * b <= Num.MAX_VALUE ->
   Num.sqrt (Num.addO (Num.mulO (Fin a) (Fin a)) (Num.mulO (Fin b) (Fin b)))
   = Fin (hypot a b)) /\
  (Num.MAX_VALUE < a * a + b * b ->
   Num.sqrt (Num.addO (Num.mulO (Fin a) (Fin a)) (Num.mulO (Fin b) (Fin b)))
   = PInf).
Proof.
  pose proof MAX_VALUE_big as HM.
  assert (Ha : 0 <= a * a) by nra. assert (Hb : 0 <= b * b) by nra.
  unfold Num.mulO. cbn [Num.mul]. split; intros H.
  - rewrite !Num_over_Fin by lra. unfold Num.addO. cbn [Num.add].
    rewrite Num_over_Fin by lra. cbn [Num.sqrt].
    assert (E : Rltb (a * a + b * b) 0 = false) by (apply Rltb_false; lra).
    now rewrite E.
  - destruct (Num_over_nonneg (a * a) Ha) as [Ea|Ea];
      destruct (Num_over_nonneg (b * b) Hb) as [Eb|Eb]; rewrite Ea, Eb;
      unfold Num.addO; cbn [Num.add]; try reflexivity.
    rewrite Num_over_PInf by exact H. reflexivity.
Qed.

Lemma legacyJs_normalize_Fin a b :
  a * a + b * b <= Num.MAX_VALUE ->
  LegacyJs.normalize (Fin a) (Fin b)
  = (Fin (fst (Legacy.normalize (a, b))), Fin (snd (Legacy.normalize (a, b)))).
Proof.
  intros H. unfold LegacyJs.normalize, Legacy.normalize.
  rewrite (proj1 (legacyJs_length a b) H). cbn [fst snd Num.ltb].
  fold (hypot a b).
  destruct (Rltb (hypot a b) (1 / 1000)) eqn:E; [reflexivity|].
  apply Rltb_false in E. cbn [fst snd Num.div].
  assert (E0 : Reqb (hypot a b) 0 = false) by (apply Reqb_false; lra).
  now rewrite E0.
Qed.

Lemma legacyJs_normalize_over a b :
  Num.MAX_VALUE < a * a + b * b ->
  LegacyJs.normalize (Fin a) (Fin b) = (Fin 0, Fin 0).
Proof.
  intros H. unfold LegacyJs.normalize.
  rewrite (proj2 (legacyJs_length a b) H). reflexivity.
Qed.

Lemma legacyJs_normalize_NaN x y :
  x = NaN \/ y = NaN -> LegacyJs.normalize x y = (NaN, NaN).
Proof.
  destruct x as [a| | |], y as [b| | |]; intros [H|H]; try discriminate H;
    unfold LegacyJs.normalize, Num.mulO, Num.addO; cbn [Num.mul Num.add];
    try reflexivity; destruct (Num.over _); reflexivity.
Qed.

Lemma legacyJs_normalize_inf_l x b :
  x = PInf \/ x = NInf -> LegacyJs.normalize x (Fin b) = (NaN, Fin 0).
Proof.
  assert (Hb : 0 <= b * b) by nra.
  intros [-> | ->]; unfold LegacyJs.normalize, Num.mulO; cbn [Num.mul];
    destruct (Num_over_nonneg (b * b) Hb) as [E|E]; rewrite E; reflexivity.
Qed.

Lemma legacyJs_normalize_inf_r a y :
  y = PInf \/ y = NInf -> LegacyJs.normalize (Fin a) y = (Fin 0, NaN).
Proof.
  assert (Ha : 0 <= a * a) by nra.
  intros [-> | ->]; unfold LegacyJs.normalize, Num.mulO; cbn [Num.mul];
    destruct (Num_over_nonneg (a * a) Ha) as [E|E]; rewrite E; reflexivity.
Qed.

Lemma legacyJs_normalize_inf x y :
  (x = PInf \/ x = NInf -> fst (LegacyJs.normalize x y) = NaN) /\
  (y = PInf \/ y = NInf -> snd (LegacyJs.normalize x y) = NaN).
Proof.
  split.
  - intros Hx. destruct y as [b| | |].
    + now rewrite (legacyJs_normalize_inf_l x b Hx).
    + destruct Hx as [-> | ->]; reflexivity.
    + destruct Hx as [-> | ->]; reflexivity.
    + rewrite (legacyJs_normalize_NaN x NaN); [reflexivity|now right].
  - intros Hy. destruct x as [a| | |].
    + now rewrite (legacyJs_normalize_inf_r a y Hy).
    + destruct Hy as [-> | ->]; reflexivity.
    + destruct Hy as [-> | ->]; reflexivity.
    + rewrite (legacyJs_normalize_NaN NaN y); [reflexivity|now left].
Qed.

Lemma legacyJs_stepped x y m px py :
  stepped x y m px py
    (Num.add px (Num.mul (fst (LegacyJs.normalize x y)) (Fin (Legacy.speed m))))
    (Num.add py (Num.mul (snd (LegacyJs.normalize x y)) (Fin (Legacy.speed m)))).
Proof.
  unfold stepped. split; [|split; [|split; [|split; [|split; [|split]]]]].
  - intros a b -> -> H. rewrite (legacyJs_normalize_Fin a b H). cbn [fst snd Num.mul].
    eexists _, _. split; [apply Legacy.legacy_stepOf|]. now split.
  - intros a b -> -> H. rewrite (legacyJs_normalize_over a b H). cbn [fst snd Num.mul].
    split; apply Num_add_0; lra.
  - intros H. rewrite (legacyJs_normalize_NaN x y H). cbn [fst snd Num.mul].
    split; apply Num_add_NaN_r.
  - intros H. rewrite (proj1 (legacyJs_normalize_inf x y) H). apply Num_add_NaN_r.
  - intros H. rewrite (proj2 (legacyJs_normalize_inf x y) H). apply Num_add_NaN_r.
  - intros H b ->. rewrite (legacyJs_normalize_inf_l x b H). cbn [fst snd Num.mul].
    apply Num_add_0; lra.
  - intros H a ->. rewrite (legacyJs_normalize_inf_r a y H). cbn [fst snd Num.mul].
    apply Num_add_0; lra.
Qed.

Lemma legacyJs_movePlayer_some p p' :
  LegacyJs.movePlayer p = Some p' -> movedJs p p'.
Proof.
  unfold LegacyJs.movePlayer, movedJs. destruct (LegacyJs.pl_alive p) eqn:Ea; cbn [negb].
  - destruct (LegacyJs.pl_input p) as [|x y] eqn:Ei; [discriminate|]. intros [= <-].
    cbn [LegacyJs.setPos LegacyJs.pl_id LegacyJs.pl_name LegacyJs.pl_color
         LegacyJs.pl_pattern LegacyJs.pl_vx LegacyJs.pl_vy LegacyJs.pl_mass
         LegacyJs.pl_alive LegacyJs.pl_input LegacyJs.pl_x LegacyJs.pl_y].
    do 9 (split; [first [reflexivity | assumption]|]).
    split; [discriminate|]. intros _. exists x, y. split; [reflexivity|].
    apply legacyJs_stepped.
  - intros [= <-]. do 9 (split; [first [reflexivity | assumption]|]).
    split; [intros _; reflexivity|discriminate].
Qed.

Lemma legacyJs_movePlayer_of p :
  (forall x y, Legacy.pl_input p = Some (x, y) -> x * x + y * y <= Num.MAX_VALUE) ->
  LegacyJs.movePlayer (ofPlayer p) = option_map ofPlayer (Legacy.movePlayer p).
Proof.
  intros H. unfold LegacyJs.movePlayer, Legacy.movePlayer.
  cbn [ofPlayer LegacyJs.pl_alive LegacyJs.pl_input LegacyJs.pl_mass LegacyJs.pl_x
       LegacyJs.pl_y].
  destruct (Legacy.pl_alive p); cbn [negb option_map]; [|reflexivity].
  destruct (Legacy.pl_input p) as [[x y]|] eqn:Ei; cbn [ofInput option_map];
    [|reflexivity].
  rewrite (legacyJs_normalize_Fin x y (H x y eq_refl)).
  cbn [fst snd Num.mul Num.add]. unfold ofPlayer, LegacyJs.setPos, Legacy.setPos.
  cbn. now rewrite Ei.
Qed.

(** X22.  Moving in the two earlier servers, for every value that
    [/input] can have stored.  The speed [max(1.2, 7.5 - 0.003 * mass)] is
    at least 1.2, at most 7.5 for a mass that is not negative, never grows
    with the mass and is 1.2 exactly from mass 2100 on.  The move of a
    player throws exactly when the player is alive and its input is
    missing (absent or [null]).  Otherwise it changes the position only,
    and that of a living player.  For an input of two finite numbers
    whose squares sum to at most the largest double: by nothing when the
    input is shorter than 0.001, else by a step of length [speed] along
    the input.  For two finite numbers whose squares overflow (1e200, for
    one): by nothing.  Beside a component that is [NaN] (as in [{}]) both
    coordinates become [NaN]; an infinite component makes its coordinate
    [NaN] and, beside a finite one, leaves the other coordinate as it is.
    On a missing input or two finite numbers without overflow the move is
    that of [Legacy.movePlayer]. *)
Theorem legacy_move :
  (forall m, 12 / 10 <= Legacy.speed m /\
             (0 <= m -> Legacy.speed m <= 75 / 10) /\
             (Legacy.speed m = 12 / 10 <-> 2100 <= m)) /\
  (forall m m', m <= m' -> Legacy.speed m' <= Legacy.speed m) /\
  (forall p, LegacyJs.movePlayer p = None <->
             LegacyJs.pl_alive p = true /\ LegacyJs.pl_input p = LegacyJs.Missing) /\
  (forall p p', LegacyJs.movePlayer p = Some p' -> movedJs p p') /\
  (forall p,
     (forall x y, Legacy.pl_input p = Some (x, y) ->
                  x * x + y * y <= Num.MAX_VALUE) ->
     LegacyJs.movePlayer (ofPlayer p) = option_map ofPlayer (Legacy.movePlayer p)).
Proof.
  split; [exact Legacy.legacy_speed_bounds|].
  split; [exact Legacy.legacy_speed_anti|].
  split; [|split; [exact legacyJs_movePlayer_some|exact legacyJs_movePlayer_of]].
  intros p. unfold LegacyJs.movePlayer.
  destruct (LegacyJs.pl_alive p); cbn [negb].
  - destruct (LegacyJs.pl_input p); split; try discriminate; try tauto.
    intros [_ H]. discriminate.
  - split; [discriminate|]. intros [H _]. discriminate.
Qed.

(** A living player whose input is the vector (2^600, 0). *)
Definition legacy_far : LegacyJs.Player :=
  LegacyJs.mkPlayer "p1" "Ann"%string "red"%string "dots"%string (Fin 3) (Fin 4) 0 0
                    40 true (LegacyJs.Vec (Fin (2 ^ 600)) (Fin 0)).

Lemma legacy_far_over : Num.MAX_VALUE < 2 ^ 600 * 2 ^ 600 + 0 * 0.
Proof.
  unfold Num.MAX_VALUE. rewrite <- pow_add.
  replace (600 + 600)%nat with (177 + 1023)%nat by reflexivity.
  rewrite pow_add.
  assert (H52 : 0 < / 2 ^ 52) by (apply Rinv_0_lt_compat, pow_lt; lra).
  assert (Hp : 0 < 2 ^ 1023) by (apply pow_lt; lra).
  assert (H177 : 2 ^ 1 <= 2 ^ 177) by (apply Rle_pow; [lra|lia]).
  simpl (2 ^ 1) in H177. nra.
Qed.

Lemma legacy_move_witness :
  exists p', LegacyJs.movePlayer legacy_far = Some p' /\
             LegacyJs.pl_x p' = Fin 3 /\ LegacyJs.pl_y p' = Fin 4.
Proof.
  eexists. split; [reflexivity|].
  destruct (proj1 (proj2 (proj2 (proj2 legacy_move))) legacy_far _ eq_refl)
    as (_ & _ & _ & _ & _ & _ & _ & _ & _ & _ & H).
  destruct (H eq_refl) as (x & y & E & _ & Hover & _).
  injection E as <- <-.
  exact (Hover _ _ eq_refl eq_refl legacy_far_over).
Defined.

(** X23.  The pellet loop of the two earlier servers, for pellets whose
    value is not negative.  The pellets left are pellets of the room, in
    their order.  A player changes in its mass only, which does not
    shrink; what the players gain is exactly the value of the pellets
    eaten.  A pellet that is left was not within a quarter of the mass of
    a player that ate, as the loop began.  In the second server the
    players that are not alive do not eat; in the first they do. *)
Theorem legacy_pellets (aliveOnly : bool)
    (players : list (string * Legacy.Player)) (pellets : list Legacy.Pellet) :
  Forall (fun pel => 0 <= Legacy.pe_value pel) pellets ->
  let players' := fst (Legacy.eatPhase aliveOnly players pellets) in
  let rest := snd (Legacy.eatPhase aliveOnly players pellets) in
  sublist rest pellets /\
  Forall2 (Legacy.fed aliveOnly) players players' /\
  Legacy.totalMass players' - Legacy.totalMass players
  = Legacy.valueSum pellets - Legacy.valueSum rest /\
  (forall k p, In (k, p) players ->
               aliveOnly = false \/ Legacy.pl_alive p = true ->
               Forall (Legacy.outOfReach p) rest).
Proof.
  intros Hv players' rest.
  destruct (Legacy.legacy_eatPhase_spec aliveOnly players pellets Hv)
    as (H1 & H2 & H3 & H4).
  fold players' rest in H1, H2, H3, H4.
  split; [exact H1|]. split; [exact H2|]. split; [lra|exact H4].
Qed.

Definition legacy_dead : Legacy.Player :=
  Legacy.mkPlayer "p1" "Ann"%string "red"%string "dots"%string 0 0 0 0 40 false (Some (0, 0)).

Definition legacy_pellet : Legacy.Pellet := Legacy.mkPellet "u1" 3 4 5 2.

Lemma legacy_pellets_witness :
  Legacy.totalMass (fst (Legacy.eatPhase false [("p1"%string, legacy_dead)]
                                         [legacy_pellet]))
  - Legacy.totalMass [("p1"%string, legacy_dead)]
  = Legacy.valueSum [legacy_pellet]
    - Legacy.valueSum (snd (Legacy.eatPhase false [("p1"%string, legacy_dead)]
                                            [legacy_pellet])).
Proof.
  apply (legacy_pellets false [("p1"%string, legacy_dead)] [legacy_pellet]).
  constructor; [cbn; lra|constructor].
Defined.

(** X24.  The pass in which players eat players, in the two earlier
    servers ([gain] is 0.9 in the first, 0.85 in the second), when no mass
    is negative.  The players keep their keys and their order.  A player
    changes in its mass, which does not shrink, and in its life, which it
    can only lose; a player that was not alive is untouched.  The mass of
    the living players does not grow over the pass, nor does their number;
    and if a player was alive before the pass, one is alive after it. *)
Theorem legacy_pvp (ratio reach gain : R) (players : list (string * Legacy.Player)) :
  0 <= gain <= 1 ->
  Forall (fun kp => 0 <= Legacy.pl_mass (snd kp)) players ->
  let players' := Legacy.pvpPhase ratio reach gain players in
  Forall2 (fun kp kp' => fst kp' = fst kp /\ Legacy.pvpKept (snd kp) (snd kp'))
          players players' /\
  Forall (fun kp => 0 <= Legacy.pl_mass (snd kp)) players' /\
  Legacy.livingMass players' <= Legacy.livingMass players /\
  (Legacy.livingCount players' <= Legacy.livingCount players)%nat /\
  (1 <= Legacy.livingCount players -> 1 <= Legacy.livingCount players')%nat.
Proof. exact (Legacy.legacy_pvpPhase_spec ratio reach gain players). Qed.

Lemma legacy_pvp_witness :
  Legacy.livingMass (Legacy.pvpPhase (122 / 100) (22 / 100) (9 / 10)
                                     [("p1"%string, legacy_dead)])
  <= Legacy.livingMass [("p1"%string, legacy_dead)].
Proof.
  apply (legacy_pvp (122 / 100) (22 / 100) (9 / 10) [("p1"%string, legacy_dead)]).
  - lra.
  - constructor; [cbn; lra|constructor].
Defined.




Definition legacy_src : Legacy.Src :=
  Legacy.mkSrc (mkEnv (fun _ => 0) 0 (fun _ => 0) 0) (fun _ => "u"%string) 0.


(** X27.  The rooms of the two earlier servers, from [createRoom] through
    joins, inputs, state polls and ticks that go through, with draws of
    [0, 1).  Every pellet lies in the square of half-side 5200, with a
    radius in [4, 8) and a value in [1, 3), and there are at least 500 of
    them; there are 28 viruses, of radius 36.  Every player is stored under
    its identity, no two under the same key, and never has a mass below
    the 40 it started with, so its speed never exceeds 7.38.  The first
    server has no bot; the second has at most 12, under distinct keys,
    each of mass 40 for ever: bots neither eat nor are eaten. *)
Theorem legacy_rooms (second : bool) (room : Legacy.Room) :
  Legacy.reachable second room ->
  Legacy.roomShape second room /\
  (forall k p, In (k, p) (Legacy.ro_players room) ->
               Legacy.speed (Legacy.pl_mass p) <= 738 / 100).
Proof.
  intros Hr. pose proof (Legacy.legacy_reachable_shape second room Hr) as Hs.
  split; [exact Hs|]. intros k p Hin.
  destruct Hs as (_ & _ & _ & _ & _ & Hp & _).
  rewrite Forall_forall in Hp. destruct (Hp _ Hin) as [_ Hm]. cbn [snd] in Hm.
  unfold Legacy.speed. rminmax.
Qed.

Lemma legacy_rooms_witness :
  Legacy.roomShape false (snd (fst (Legacy.createRoomV1 legacy_src))).
Proof.
  assert (Hu : unitDraws (Legacy.s_env legacy_src)).
  { intros n. cbn [legacy_src Legacy.s_env mathRandomAt]. lra. }
  exact (proj1 (legacy_rooms false _ (Legacy.reach_create false legacy_src Hu))).
Defined.
